(** * Community-Detection: graph analytics engine

    A shallow embedding of the analytic routines of the repository
    (community detection workers, centrality, link prediction, the
    synthetic generators and the NMI metric) together with the
    properties established about them.

    Conventions of the embedding.
    - Node identifiers are [string]s compared by code unit, as the
      JavaScript operators [<] and [Array.prototype.sort] do.
    - A JavaScript [Map] or [Set] iterates in insertion order, and the
      code depends on that order (tie-breaking, community numbering), so
      both are modelled as insertion-ordered lists.
    - JavaScript numbers that hold counts are [nat]; scores are exact
      rationals [Q] (reals [R] where a logarithm is taken).  Rounding of
      binary64 arithmetic is outside the model.
    - A call either completes normally, throws, or (for loops the source
      does not bound) is cut off by the fuel of the model. *)

From Stdlib Require Import String Ascii List Bool Arith PeanoNat ZArith QArith.
From Stdlib Require Import Qround Qabs Lia Lra Lqa Reals Permutation.
From Stdlib Require Import Decimal DecimalNat DecimalString Relations.
Import ListNotations.

#[local] Open Scope string_scope.
#[local] Open Scope nat_scope.
#[local] Open Scope list_scope.

(** ** Completions *)

Inductive completion (A : Type) : Type :=
| Normal (a : A)
| Throws (message : string)
| OutOfFuel.

Arguments Normal {A} a.
Arguments Throws {A} message.
Arguments OutOfFuel {A}.

Definition bind {A B : Type} (c : completion A) (k : A -> completion B) : completion B :=
  match c with
  | Normal a => k a
  | Throws e => Throws e
  | OutOfFuel => OutOfFuel
  end.

Notation "x <- c ;; k" := (bind c (fun x => k))
  (at level 61, c at next level, right associativity).
Notation "' p <- c ;; k" := (bind c (fun p => k))
  (at level 61, p pattern, c at next level, right associativity).

(** The non-null assertion [e!] followed by a property access: reading a
    property of [undefined] throws a [TypeError]. *)
Definition defined {A : Type} (o : option A) : completion A :=
  match o with
  | Some a => Normal a
  | None => Throws "TypeError: Cannot read properties of undefined"
  end.

Fixpoint foldM {A S : Type} (f : S -> A -> completion S) (l : list A) (s : S)
  : completion S :=
  match l with
  | [] => Normal s
  | a :: l' => s' <- f s a ;; foldM f l' s'
  end.

(** ** Keys with decidable equality *)

Class EqDec (K : Type) : Type := eq_dec : forall x y : K, {x = y} + {x <> y}.

#[global] Instance string_EqDec : EqDec string := string_dec.
#[global] Instance nat_EqDec : EqDec nat := Nat.eq_dec.
#[global] Instance Z_EqDec : EqDec Z := Z.eq_dec.

Definition eqb_key {K : Type} `{EqDec K} (x y : K) : bool :=
  if eq_dec x y then true else false.

(** ** JavaScript [Set], in insertion order *)

Module JsSet.

Definition t (K : Type) : Type := list K.

Definition has {K : Type} `{EqDec K} (s : t K) (x : K) : bool :=
  existsb (eqb_key x) s.

Definition add {K : Type} `{EqDec K} (s : t K) (x : K) : t K :=
  if has s x then s else s ++ [x].

Definition delete {K : Type} `{EqDec K} (s : t K) (x : K) : t K :=
  filter (fun y => negb (eqb_key x y)) s.

(** [new Set(iterable)] *)
Definition of_list {K : Type} `{EqDec K} (l : list K) : t K :=
  fold_left add l [].

Definition size {K : Type} (s : t K) : nat := length s.

End JsSet.

(** ** JavaScript [Map], in insertion order *)

Module JsMap.

Definition t (K V : Type) : Type := list (K * V).

Fixpoint get {K V : Type} `{EqDec K} (m : t K V) (k : K) : option V :=
  match m with
  | [] => None
  | (k', v) :: m' => if eq_dec k k' then Some v else get m' k
  end.

Definition has {K V : Type} `{EqDec K} (m : t K V) (k : K) : bool :=
  match get m k with Some _ => true | None => false end.

(** [m.set(k, v)]: an existing key keeps its position. *)
Fixpoint set {K V : Type} `{EqDec K} (m : t K V) (k : K) (v : V) : t K V :=
  match m with
  | [] => [(k, v)]
  | (k', v') :: m' =>
      if eq_dec k k' then (k', v) :: m' else (k', v') :: set m' k v
  end.

Fixpoint delete {K V : Type} `{EqDec K} (m : t K V) (k : K) : t K V :=
  match m with
  | [] => []
  | (k', v') :: m' =>
      if eq_dec k k' then m' else (k', v') :: delete m' k
  end.

Definition keys {K V : Type} (m : t K V) : list K := map fst m.
Definition values {K V : Type} (m : t K V) : list V := map snd m.
Definition size {K V : Type} (m : t K V) : nat := length m.

(** [new Map(entries)] *)
Definition of_list {K V : Type} `{EqDec K} (l : list (K * V)) : t K V :=
  fold_left (fun m kv => set m (fst kv) (snd kv)) l [].

End JsMap.

(** ** Strings *)

(** [Array.prototype.sort()] on strings: ascending code-unit order. *)
Fixpoint insert_string (x : string) (l : list string) : list string :=
  match l with
  | [] => [x]
  | y :: l' => if String.leb x y then x :: l else y :: insert_string x l'
  end.

Definition sort_strings (l : list string) : list string :=
  fold_right insert_string [] l.

(** [sort((a, b) => a - b)] on numbers. *)
Fixpoint insert_nat (x : nat) (l : list nat) : list nat :=
  match l with
  | [] => [x]
  | y :: l' => if x <=? y then x :: l else y :: insert_nat x l'
  end.

Definition sort_nats (l : list nat) : list nat :=
  fold_right insert_nat [] l.

(** [n.toString()] for a non-negative integer. *)
Definition toString (n : nat) : string :=
  NilEmpty.string_of_uint (Nat.to_uint n).

(** The template literal [`${a}|${b}`]. *)
Definition pairKey (a b : string) : string := a ++ "|" ++ b.

(** [s.split('|')] *)
Fixpoint split_bar (s : string) : list string :=
  match s with
  | EmptyString => [EmptyString]
  | String c s' =>
      if Ascii.eqb c "|"%char then EmptyString :: split_bar s'
      else match split_bar s' with
           | [] => [String c EmptyString]
           | h :: t => String c h :: t
           end
  end.

(** [indexOf] *)
Fixpoint indexOf {K : Type} `{EqDec K} (l : list K) (x : K) : option nat :=
  match l with
  | [] => None
  | y :: l' => if eq_dec x y then Some 0
               else option_map S (indexOf l' x)
  end.

(** A link of the input, after the source's sanitising of [source] and
    [target] to identifier strings. *)
Record Link : Type := mkLink { source : string; target : string }.

(** Of a node object only [id] is read by the engine. *)
Record Node : Type := mkNode { id : string }.

Record GraphData : Type := mkGraphData { nodes : list Node; links : list Link }.

Record CommunityAssignment : Type :=
  mkAssignment { node : string; community : nat }.
(** * The community-detection worker, first variant
    (services/communityDetection.worker.ts, deterministic label
    propagation)

    Every lookup the source writes with the non-null assertion [e!] is
    made explicit with [defined] where the source goes on to read a
    property of the value, and falls back to a neutral value otherwise;
    on a [Graph] built by the constructor the lookups are all defined. *)

Module Worker1.

Definition LOUVAIN : string := "Louvain 算法".
Definition GIRVAN_NEWMAN : string := "Girvan-Newman 算法".
Definition LABEL_PROPAGATION : string := "标签传播算法".

Record Graph : Type := mkGraph {
  g_nodes : JsSet.t string;
  g_edges : list Link;
  g_adj : JsMap.t string (list string);
  g_degrees : JsMap.t string nat;
  g_m : nat
}.

(** [adj.get(k)!.push(x)] *)
Definition pushTo (adj : JsMap.t string (list string)) (k x : string)
  : JsMap.t string (list string) :=
  match JsMap.get adj k with
  | Some l => JsMap.set adj k (l ++ [x])
  | None => adj
  end.

(** [degrees.set(k, degrees.get(k)! + 1)] *)
Definition increment (degrees : JsMap.t string nat) (k : string)
  : JsMap.t string nat :=
  match JsMap.get degrees k with
  | Some d => JsMap.set degrees k (d + 1)
  | None => degrees
  end.

Definition addEdge (nodeSet : JsSet.t string)
  (st : JsMap.t string (list string) * JsMap.t string nat) (edge : Link)
  : JsMap.t string (list string) * JsMap.t string nat :=
  if JsSet.has nodeSet (source edge) && JsSet.has nodeSet (target edge) then
    (pushTo (pushTo (fst st) (source edge) (target edge)) (target edge) (source edge),
     increment (increment (snd st) (source edge)) (target edge))
  else st.

(** [new Graph(graphData)] *)
Definition newGraph (graphData : GraphData) : Graph :=
  let nodeSet := JsSet.of_list (map id (nodes graphData)) in
  let edges := links graphData in
  let adj0 := fold_left (fun m n => JsMap.set m n []) nodeSet [] in
  let degrees0 := fold_left (fun m n => JsMap.set m n 0) nodeSet [] in
  let st := fold_left (addEdge nodeSet) edges (adj0, degrees0) in
  mkGraph nodeSet edges (fst st) (snd st) (length edges).

(** ** 1. Label propagation *)

Definition maxIterations : nat := 20.

Definition countOf {K : Type} `{EqDec K} (m : JsMap.t K nat) (k : K) : nat :=
  match JsMap.get m k with Some c => c | None => 0 end.

(** The tally of the labels met, in order of first occurrence. *)
Definition tally {K : Type} `{EqDec K} (labels : list K) : JsMap.t K nat :=
  fold_left (fun m l => JsMap.set m l (countOf m l + 1)) labels [].

Definition scanBest (st : nat * list string) (entry : string * nat)
  : nat * list string :=
  let '(maxCount, bestLabels) := st in
  let '(label, count) := entry in
  if maxCount <? count then (count, [label])
  else if count =? maxCount then (maxCount, bestLabels ++ [label])
  else st.

Definition bestLabels (labelCounts : JsMap.t string nat) : list string :=
  snd (fold_left scanBest labelCounts (0, [])).

Definition labelOf (communities : JsMap.t string string) (n : string) : string :=
  match JsMap.get communities n with Some l => l | None => n end.

Definition neighborLabels (graph : Graph) (communities : JsMap.t string string)
  (n : string) : list string :=
  match JsMap.get (g_adj graph) n with
  | Some neighbors => map (labelOf communities) neighbors
  | None => []
  end.

(** The label a node with neighbours adopts: [bestLabels.sort()[0]]. *)
Definition newCommunityOf (labels : list string) : option string :=
  hd_error (sort_strings (bestLabels (tally labels))).

(** One iteration of the inner [for] loop. *)
Definition visitNode (graph : Graph)
  (st : JsMap.t string string * bool) (n : string)
  : JsMap.t string string * bool :=
  match neighborLabels graph (fst st) n with
  | [] => st
  | labels =>
      match newCommunityOf labels with
      | Some newCommunity =>
          if match JsMap.get (fst st) n with
             | Some l => eqb_key l newCommunity
             | None => false
             end
          then st
          else (JsMap.set (fst st) n newCommunity, true)
      | None => st
      end
  end.

(** One full pass over the sorted nodes; the flag is [changed]. *)
Definition pass (graph : Graph) (nodeIds : list string)
  (communities : JsMap.t string string) : JsMap.t string string * bool :=
  fold_left (visitNode graph) nodeIds (communities, false).

(** [while (changed && iterations < maxIterations)], by the iterations
    left. *)
Fixpoint propagate (graph : Graph) (nodeIds : list string)
  (iterationsLeft : nat) (communities : JsMap.t string string)
  : JsMap.t string string :=
  match iterationsLeft with
  | 0 => communities
  | S k =>
      let '(communities', changed) := pass graph nodeIds communities in
      if changed then propagate graph nodeIds k communities' else communities'
  end.

Definition initialLabels (nodeIds : list string) : JsMap.t string string :=
  fold_left (fun m n => JsMap.set m n n) nodeIds [].

(** Normalising labels to integers, shared by the three algorithms. *)
Definition normalize {L : Type} `{EqDec L} (sortLabels : list L -> list L)
  (partition : JsMap.t string L) : list CommunityAssignment :=
  let uniqueLabels := sortLabels (JsSet.of_list (JsMap.values partition)) in
  let labelMap := JsMap.of_list (combine uniqueLabels (seq 0 (length uniqueLabels))) in
  map (fun entry => mkAssignment (fst entry) (countOf labelMap (snd entry))) partition.

Definition labelPropagationLabels (graph : Graph) : JsMap.t string string :=
  let nodeIds := sort_strings (g_nodes graph) in
  propagate graph nodeIds maxIterations (initialLabels nodeIds).

Definition runLabelPropagation (graph : Graph) : list CommunityAssignment :=
  normalize sort_strings (labelPropagationLabels graph).

(** ** 2. Louvain *)

Record LouvainParams : Type := mkLouvainParams { resolution : Q }.

(** The class [Partition].  Its field [k_i_in] is filled by the
    constructor and never read; it is left out. *)
Record Partition : Type := mkPartition {
  nodeToCommunity : JsMap.t string nat;
  communities : JsMap.t nat (JsSet.t string);
  sigma_tot : JsMap.t nat Z;
  m2 : nat
}.

Definition degreeZ (degrees : JsMap.t string nat) (n : string) : completion Z :=
  d <- defined (JsMap.get degrees n) ;; Normal (Z.of_nat d).

(** [new Partition(nodes, adj, degrees, m)]: node number [i] of the set
    starts alone in community [i]. *)
Definition newPartition (graph : Graph) : completion Partition :=
  ' (p, _) <-
    foldM (fun (st : Partition * nat) n =>
             let '(p, communityId) := st in
             d <- degreeZ (g_degrees graph) n ;;
             Normal (mkPartition
                       (JsMap.set (nodeToCommunity p) n communityId)
                       (JsMap.set (communities p) communityId [n])
                       (JsMap.set (sigma_tot p) communityId d)
                       (m2 p),
                     S communityId))
          (g_nodes graph)
          (mkPartition [] [] [] (2 * g_m graph), 0) ;;
  Normal p.

Definition moveNode (graph : Graph) (p : Partition) (n : string) (newComm : nat)
  : completion Partition :=
  oldComm <- defined (JsMap.get (nodeToCommunity p) n) ;;
  nodeDegree <- degreeZ (g_degrees graph) n ;;
  sOld <- defined (JsMap.get (sigma_tot p) oldComm) ;;
  let sigma1 := JsMap.set (sigma_tot p) oldComm (sOld - nodeDegree)%Z in
  sNew <- defined (JsMap.get sigma1 newComm) ;;
  let sigma2 := JsMap.set sigma1 newComm (sNew + nodeDegree)%Z in
  membersOld <- defined (JsMap.get (communities p) oldComm) ;;
  let membersOld' := JsSet.delete membersOld n in
  let comms1 := JsMap.set (communities p) oldComm membersOld' in
  let comms2 := if JsSet.size membersOld' =? 0 then JsMap.delete comms1 oldComm else comms1 in
  membersNew <- defined (JsMap.get comms2 newComm) ;;
  let comms3 := JsMap.set comms2 newComm (JsSet.add membersNew n) in
  Normal (mkPartition (JsMap.set (nodeToCommunity p) n newComm) comms3 sigma2 (m2 p)).

(** The modularity gain the source computes for moving a node of degree
    [nodeDegree] with [k_i_in] links into a community of total degree
    [sigma]. *)
Definition deltaQ (res : Q) (k_i_in : nat) (sigma nodeDegree : Z) (m2 : nat) : Q :=
  (inject_Z (Z.of_nat k_i_in)
   - res * inject_Z (sigma * nodeDegree) / inject_Z (Z.of_nat m2))%Q.

Definition gtQ (a b : Q) : bool := if Qlt_le_dec b a then true else false.

Definition chooseCommunity (res : Q) (p : Partition) (nodeDegree : Z)
  (st : nat * Q) (entry : nat * nat) : completion (nat * Q) :=
  let '(bestCommunity, maxDeltaQ) := st in
  let '(comm, k_i_in_val) := entry in
  sigma <- defined (JsMap.get (sigma_tot p) comm) ;;
  let dq := deltaQ res k_i_in_val sigma nodeDegree (m2 p) in
  if gtQ dq maxDeltaQ then Normal (comm, dq) else Normal st.

Definition optimizeNode (res : Q) (graph : Graph)
  (st : Partition * bool) (n : string) : completion (Partition * bool) :=
  let '(p, improvement) := st in
  currentNodeCommunity <- defined (JsMap.get (nodeToCommunity p) n) ;;
  neighbors <- defined (JsMap.get (g_adj graph) n) ;;
  nodeDegree <- degreeZ (g_degrees graph) n ;;
  neighborComms <- foldM (fun acc nb => c <- defined (JsMap.get (nodeToCommunity p) nb) ;;
                                        Normal (acc ++ [c])) neighbors [] ;;
  let neighborCommunities := tally neighborComms in
  ' (bestCommunity, _) <-
    foldM (chooseCommunity res p nodeDegree) neighborCommunities
          (currentNodeCommunity, 0%Q) ;;
  if bestCommunity =? currentNodeCommunity then Normal st
  else p' <- moveNode graph p n bestCommunity ;; Normal (p', true).

(** [optimizeModularity]: the source repeats passes while one of them
    moved a node, without a bound. *)
Fixpoint optimizeModularity (fuel : nat) (res : Q) (graph : Graph) (p : Partition)
  : completion Partition :=
  match fuel with
  | 0 => OutOfFuel
  | S fuel' =>
      ' (p', improvement) <-
        foldM (optimizeNode res graph) (sort_strings (g_nodes graph)) (p, false) ;;
      if improvement then optimizeModularity fuel' res graph p' else Normal p'
  end.

Definition optString (o : option string) : string :=
  match o with Some s => s | None => "undefined" end.

(** The key under which an edge between two communities is counted;
    [None] when both ends lie in the same community. *)
Definition communityKey (p : Partition) (communityMap : JsMap.t nat string)
  (edge : Link) : option string :=
  let comm1 := JsMap.get (nodeToCommunity p) (source edge) in
  let comm2 := JsMap.get (nodeToCommunity p) (target edge) in
  let same := match comm1, comm2 with
              | Some a, Some b => a =? b
              | None, None => true
              | _, _ => false
              end in
  if same then None
  else
    let newComm1 := match comm1 with Some a => JsMap.get communityMap a | None => None end in
    let newComm2 := match comm2 with Some a => JsMap.get communityMap a | None => None end in
    let less := match newComm1, newComm2 with
                | Some a, Some b => String.ltb a b
                | _, _ => false
                end in
    Some (if less then pairKey (optString newComm1) (optString newComm2)
          else pairKey (optString newComm2) (optString newComm1)).

Definition countEdge (p : Partition) (communityMap : JsMap.t nat string)
  (communityWeights : JsMap.t string nat) (edge : Link) : JsMap.t string nat :=
  match communityKey p communityMap edge with
  | Some key => JsMap.set communityWeights key (countOf communityWeights key + 1)
  | None => communityWeights
  end.

(** [const [source, target] = key.split('|')], [weight] times. *)
Definition expandKey (entry : string * nat) : list Link :=
  match split_bar (fst entry) with
  | s :: t :: _ => repeat (mkLink s t) (snd entry)
  | [s] => repeat (mkLink s "undefined") (snd entry)
  | [] => []
  end.

Definition communityNames (p : Partition) : JsMap.t nat string :=
  combine (JsMap.keys (communities p))
          (map toString (seq 0 (length (communities p)))).

Definition aggregateCommunities (graph : Graph) (p : Partition) : GraphData :=
  let communityMap := communityNames p in
  let newNodes := JsSet.of_list (JsMap.values communityMap) in
  let communityWeights := fold_left (countEdge p communityMap) (g_edges graph) [] in
  mkGraphData (map mkNode newNodes) (flat_map expandKey communityWeights).

(** The main loop; it yields the hierarchy of partitions, first level
    first. *)
Fixpoint louvainLevels (fuel : nat) (res : Q) (graph : Graph) (p : Partition)
  : completion (list (JsMap.t string nat)) :=
  match fuel with
  | 0 => OutOfFuel
  | S fuel' =>
      p' <- optimizeModularity (S fuel') res graph p ;;
      let level := nodeToCommunity p' in
      if JsMap.size (communities p') =? JsSet.size (g_nodes graph) then Normal [level]
      else
        let newGraphData := aggregateCommunities graph p' in
        if length (links newGraphData) =? 0 then Normal [level]
        else
          let graph' := newGraph newGraphData in
          p0 <- newPartition graph' ;;
          rest <- louvainLevels fuel' res graph' p0 ;;
          Normal (level :: rest)
  end.

(** One step of mapping the communities back: nodes whose community has
    no entry at the level are not carried over. *)
Definition composeLevel (finalPartition : JsMap.t string nat)
  (levelPartition : JsMap.t string nat) : JsMap.t string nat :=
  fold_left (fun newFinal entry =>
               match JsMap.get levelPartition (toString (snd entry)) with
               | Some mappedComm => JsMap.set newFinal (fst entry) mappedComm
               | None => newFinal
               end)
            finalPartition [].

Definition composeHierarchy (hierarchy : list (JsMap.t string nat)) : JsMap.t string nat :=
  match hierarchy with
  | [] => []
  | level0 :: levels =>
      fold_left composeLevel levels
        (fold_left (fun m n => JsMap.set m n (countOf level0 n))
                   (JsSet.of_list (JsMap.keys level0)) [])
  end.

Definition runLouvain (fuel : nat) (graph : Graph) (params : LouvainParams)
  : completion (list CommunityAssignment) :=
  if g_m graph =? 0 then
    Normal (map (fun ni => mkAssignment (fst ni) (snd ni))
                (combine (g_nodes graph) (seq 0 (length (g_nodes graph)))))
  else
    p0 <- newPartition graph ;;
    hierarchy <- louvainLevels fuel (resolution params) graph p0 ;;
    Normal (normalize sort_nats (composeHierarchy hierarchy)).

(** ** 3. Girvan-Newman *)

Record GirvanNewmanParams : Type := mkGirvanNewmanParams { targetCommunities : nat }.

(** The key of an undirected edge: the smaller identifier first. *)
Definition edgeKey (a b : string) : string :=
  if String.ltb a b then pairKey a b else pairKey b a.

Definition Adjacency : Type := JsMap.t string (JsSet.t string).

(** [tempAdj.get(a)!.add(b)] *)
Definition connect (tempAdj : Adjacency) (a b : string) : completion Adjacency :=
  s <- defined (JsMap.get tempAdj a) ;;
  Normal (JsMap.set tempAdj a (JsSet.add s b)).

(** [tempAdj.get(a)!.delete(b)] *)
Definition disconnect (tempAdj : Adjacency) (a b : string) : completion Adjacency :=
  s <- defined (JsMap.get tempAdj a) ;;
  Normal (JsMap.set tempAdj a (JsSet.delete s b)).

Definition initialAdjacency (graph : Graph) : completion Adjacency :=
  foldM (fun tempAdj e =>
           tempAdj1 <- connect tempAdj (source e) (target e) ;;
           connect tempAdj1 (target e) (source e))
        (g_edges graph)
        (fold_left (fun m n => JsMap.set m n []) (g_nodes graph) []).

Definition initialEdges (graph : Graph) : JsSet.t string :=
  JsSet.of_list (map (fun e => edgeKey (source e) (target e)) (g_edges graph)).

(** The neighbours of a dequeued node that were not yet visited are
    marked and enqueued. *)
Definition enqueueNew (st : JsSet.t string * list string) (v : string)
  : JsSet.t string * list string :=
  if JsSet.has (fst st) v then st else (JsSet.add (fst st) v, snd st ++ [v]).

(** The inner [while (head < q.length)] of [getComponents]: [pending] is
    the part of the queue not yet dequeued, [component] the part
    already dequeued. *)
Fixpoint explore (fuel : nat) (tempAdj : Adjacency) (pending : list string)
  (visited : JsSet.t string) (component : list string)
  : completion (list string * JsSet.t string) :=
  match pending with
  | [] => Normal (component, visited)
  | u :: rest =>
      match fuel with
      | 0 => OutOfFuel
      | S fuel' =>
          neighbours <- defined (JsMap.get tempAdj u) ;;
          let '(visited', fresh) := fold_left enqueueNew neighbours (visited, []) in
          explore fuel' tempAdj (rest ++ fresh) visited' (component ++ [u])
      end
  end.

Definition getComponents (graph : Graph) (tempAdj : Adjacency)
  : completion (list (list string)) :=
  ' (components, _) <-
    foldM (fun (st : list (list string) * JsSet.t string) n =>
             let '(components, visited) := st in
             if JsSet.has visited n then Normal st
             else
               ' (component, visited') <-
                 explore (length (g_nodes graph)) tempAdj [n] (JsSet.add visited n) [] ;;
               Normal (components ++ [component], visited'))
          (g_nodes graph) ([], []) ;;
  Normal components.

(** *** Edge betweenness (Brandes) *)

Record Search : Type := mkSearch {
  bs_S : list string;
  bs_P : JsMap.t string (list string);
  bs_sigma : JsMap.t string Q;
  bs_d : JsMap.t string Z
}.

(** The body of [for (const w of tempAdj.get(v)!)]; the queue additions
    are collected in [fresh]. *)
Definition relax (v : string) (st : Search * list string) (w : string)
  : completion (Search * list string) :=
  let '(s, fresh) := st in
  dv <- defined (JsMap.get (bs_d s) v) ;;
  dw <- defined (JsMap.get (bs_d s) w) ;;
  let '(d1, fresh1) :=
    if (dw <? 0)%Z then (JsMap.set (bs_d s) w (dv + 1)%Z, fresh ++ [w])
    else (bs_d s, fresh) in
  dw1 <- defined (JsMap.get d1 w) ;;
  if (dw1 =? dv + 1)%Z then
    sw <- defined (JsMap.get (bs_sigma s) w) ;;
    sv <- defined (JsMap.get (bs_sigma s) v) ;;
    pw <- defined (JsMap.get (bs_P s) w) ;;
    Normal (mkSearch (bs_S s)
                     (JsMap.set (bs_P s) w (pw ++ [v]))
                     (JsMap.set (bs_sigma s) w (sw + sv)%Q)
                     d1,
            fresh1)
  else Normal (mkSearch (bs_S s) (bs_P s) (bs_sigma s) d1, fresh1).

Fixpoint search (fuel : nat) (tempAdj : Adjacency) (pending : list string) (s : Search)
  : completion Search :=
  match pending with
  | [] => Normal s
  | v :: rest =>
      match fuel with
      | 0 => OutOfFuel
      | S fuel' =>
          let s1 := mkSearch (bs_S s ++ [v]) (bs_P s) (bs_sigma s) (bs_d s) in
          neighbours <- defined (JsMap.get tempAdj v) ;;
          ' (s2, fresh) <- foldM (relax v) neighbours (s1, []) ;;
          search fuel' tempAdj (rest ++ fresh) s2
      end
  end.

(** The body of [for (const v of P.get(w)!)] while unwinding [S]. *)
Definition credit (s : Search) (w : string)
  (st : JsMap.t string Q * JsMap.t string Q) (v : string)
  : completion (JsMap.t string Q * JsMap.t string Q) :=
  let '(betweenness, delta) := st in
  sv <- defined (JsMap.get (bs_sigma s) v) ;;
  sw <- defined (JsMap.get (bs_sigma s) w) ;;
  deltaW <- defined (JsMap.get delta w) ;;
  deltaV <- defined (JsMap.get delta v) ;;
  let c := ((sv / sw) * (1 + deltaW))%Q in
  let key := edgeKey v w in
  let old := match JsMap.get betweenness key with Some b => b | None => 0%Q end in
  Normal (JsMap.set betweenness key (old + c)%Q, JsMap.set delta v (deltaV + c)%Q).

(** [while (S.length > 0) { const w = S.pop()!; ... }] *)
Definition unwind (s : Search) (betweenness : JsMap.t string Q) (delta : JsMap.t string Q)
  : completion (JsMap.t string Q * JsMap.t string Q) :=
  foldM (fun st w =>
           pw <- defined (JsMap.get (bs_P s) w) ;;
           foldM (credit s w) pw st)
        (List.rev (bs_S s)) (betweenness, delta).

Definition accumulateFrom (graph : Graph) (tempAdj : Adjacency)
  (betweenness : JsMap.t string Q) (n : string) : completion (JsMap.t string Q) :=
  let ns := g_nodes graph in
  let P := fold_left (fun m x => JsMap.set m x []) ns [] in
  let sigma := JsMap.set (fold_left (fun m x => JsMap.set m x 0%Q) ns []) n 1%Q in
  let d := JsMap.set (fold_left (fun m x => JsMap.set m x (-1)%Z) ns []) n 0%Z in
  s <- search (length ns) tempAdj [n] (mkSearch [] P sigma d) ;;
  let delta := fold_left (fun m x => JsMap.set m x 0%Q) ns [] in
  ' (betweenness', _) <- unwind s betweenness delta ;;
  Normal betweenness'.

Definition edgeBetweenness (graph : Graph) (tempAdj : Adjacency)
  (betweenness0 : JsMap.t string Q) : completion (JsMap.t string Q) :=
  foldM (accumulateFrom graph tempAdj) (g_nodes graph) betweenness0.

(** The scan for the edge to remove: a later entry replaces the current
    choice only when its value is strictly larger. *)
Definition scanMax (st : Q * string) (entry : string * Q) : Q * string :=
  if gtQ (snd entry) (fst st) then (snd entry, fst entry) else st.

Definition edgeToRemove (betweenness : JsMap.t string Q) : string :=
  snd (fold_left scanMax betweenness ((-1)%Q, "")).

(** [const [u, v] = edgeToRemove.split('|')] and the two deletions. *)
Definition removeFromAdjacency (tempAdj : Adjacency) (edge : string)
  : completion Adjacency :=
  match split_bar edge with
  | u :: v :: _ =>
      tempAdj1 <- disconnect tempAdj u v ;;
      disconnect tempAdj1 v u
  | _ => Throws "TypeError: Cannot read properties of undefined"
  end.

Record Divisive : Type := mkDivisive {
  currentEdges : JsSet.t string;
  tempAdj : Adjacency
}.

(** The main loop, entered with the current number of components.  Each
    round removes one edge, so the rounds left never exceed the edges
    left. *)
Fixpoint divide (fuel : nat) (graph : Graph) (target : nat)
  (numComponents : nat) (st : Divisive) : completion Divisive :=
  if (numComponents <? target) && (0 <? JsSet.size (currentEdges st)) then
    match fuel with
    | 0 => OutOfFuel
    | S fuel' =>
        betweenness <-
          edgeBetweenness graph (tempAdj st)
            (fold_left (fun m e => JsMap.set m e 0%Q) (currentEdges st) []) ;;
        let edge := edgeToRemove betweenness in
        if String.eqb edge "" then Normal st
        else
          tempAdj' <- removeFromAdjacency (tempAdj st) edge ;;
          let st' := mkDivisive (JsSet.delete (currentEdges st) edge) tempAdj' in
          components <- getComponents graph tempAdj' ;;
          divide fuel' graph target (length components) st'
    end
  else Normal st.

Definition assignComponents (components : list (list string)) : list CommunityAssignment :=
  concat (map (fun ci => map (fun n => mkAssignment n (snd ci)) (fst ci))
              (combine components (seq 0 (length components)))).

(** The state in which the main loop of [runGirvanNewman] ends. *)
Definition girvanNewmanFinal (graph : Graph) (params : GirvanNewmanParams)
  : completion Divisive :=
  tempAdj0 <- initialAdjacency graph ;;
  components0 <- getComponents graph tempAdj0 ;;
  let edges0 := initialEdges graph in
  divide (JsSet.size edges0) graph (targetCommunities params)
         (length components0) (mkDivisive edges0 tempAdj0).

Definition runGirvanNewman (graph : Graph) (params : GirvanNewmanParams)
  : completion (list CommunityAssignment) :=
  st <- girvanNewmanFinal graph params ;;
  finalComponents <- getComponents graph (tempAdj st) ;;
  Normal (assignComponents finalComponents).

(** ** The message handler *)

Inductive Message : Type :=
| SUCCESS (payload : list CommunityAssignment)
| ERROR (payload : string).

Record Params : Type := mkParams {
  louvain : LouvainParams;
  girvanNewman : GirvanNewmanParams
}.

Definition tooLarge : string :=
  "Girvan-Newman 算法对于超过100个节点的图来说太慢了。请选择一个更小的网络或不同的算法。".

Definition dispatch (fuel : nat) (graphData : GraphData) (algorithm : string)
  (params : Params) : completion (list CommunityAssignment) :=
  let graph := newGraph graphData in
  if String.eqb algorithm LOUVAIN then runLouvain fuel graph (louvain params)
  else if String.eqb algorithm GIRVAN_NEWMAN then
    if 100 <? JsSet.size (g_nodes graph) then Throws tooLarge
    else runGirvanNewman graph (girvanNewman params)
  else if String.eqb algorithm LABEL_PROPAGATION then Normal (runLabelPropagation graph)
  else Throws ("选择了未知的算法: " ++ algorithm).

(** [self.onmessage]: what is posted back. *)
Definition onmessage (fuel : nat) (graphData : GraphData) (algorithm : string)
  (params : Params) : completion Message :=
  match dispatch fuel graphData algorithm params with
  | Normal result => Normal (SUCCESS result)
  | Throws message => Normal (ERROR message)
  | OutOfFuel => OutOfFuel
  end.
End Worker1.

(** * The community-detection worker, second variant
    (services/communityDetection.worker.ts, the variant with the
    shuffled label propagation)

    The classes and helpers whose text is the same in both variants
    ([getComponents], the Brandes search, the scan for the edge to
    remove, [moveNode], the normalisation of labels) are shared with
    [Worker1]. *)

Module Worker2.

Import Worker1.

Definition addEdge (nodeSet : JsSet.t string)
  (st : JsMap.t string (list string) * JsMap.t string nat * nat) (edge : Link)
  : JsMap.t string (list string) * JsMap.t string nat * nat :=
  let '(adj, degrees, m) := st in
  if JsSet.has nodeSet (source edge) && JsSet.has nodeSet (target edge) then
    let adj1 := pushTo adj (source edge) (target edge) in
    let degrees1 := increment degrees (source edge) in
    if String.eqb (source edge) (target edge) then (adj1, degrees1, m + 1)
    else (pushTo adj1 (target edge) (source edge),
          increment degrees1 (target edge), m + 1)
  else st.

(** [new Graph(graphData)]: [m] counts the links between known nodes, a
    self-link enters adjacency and degree once. *)
Definition newGraph (graphData : GraphData) : Graph :=
  let nodeSet := JsSet.of_list (map id (nodes graphData)) in
  let edges := links graphData in
  let adj0 := fold_left (fun m n => JsMap.set m n []) nodeSet [] in
  let degrees0 := fold_left (fun m n => JsMap.set m n 0) nodeSet [] in
  let '(adj, degrees, m) := fold_left (addEdge nodeSet) edges (adj0, degrees0, 0) in
  mkGraph nodeSet edges adj degrees m.

(** ** Louvain *)

Definition netGain (res : Q) (k_i_in_target k_i_in_current : nat)
  (sigma_tot_current sigma_tot_target nodeDegree : Z) (m2 : nat) : Q :=
  let gain_links := (inject_Z (Z.of_nat k_i_in_target) - inject_Z (Z.of_nat k_i_in_current))%Q in
  let gain_degrees :=
    ((res * inject_Z nodeDegree / inject_Z (Z.of_nat m2))
     * inject_Z ((sigma_tot_current - nodeDegree) - sigma_tot_target))%Q in
  (gain_links + gain_degrees)%Q.

Definition chooseCommunity (res : Q) (p : Partition) (nodeDegree : Z)
  (currentNodeCommunity k_i_in_current : nat) (sigma_tot_current : Z)
  (st : nat * Q) (entry : nat * nat) : completion (nat * Q) :=
  let '(targetComm, k_i_in_target) := entry in
  if targetComm =? currentNodeCommunity then Normal st
  else
    sigma_tot_target <- defined (JsMap.get (sigma_tot p) targetComm) ;;
    let net_gain := netGain res k_i_in_target k_i_in_current
                            sigma_tot_current sigma_tot_target nodeDegree (m2 p) in
    if gtQ net_gain (snd st) then Normal (targetComm, net_gain) else Normal st.

Definition optimizeNode (res : Q) (graph : Graph)
  (st : Partition * bool) (n : string) : completion (Partition * bool) :=
  let '(p, improvement) := st in
  nodeDegree <- degreeZ (g_degrees graph) n ;;
  neighbors <- defined (JsMap.get (g_adj graph) n) ;;
  currentNodeCommunity <- defined (JsMap.get (nodeToCommunity p) n) ;;
  neighborComms <- foldM (fun acc nb => c <- defined (JsMap.get (nodeToCommunity p) nb) ;;
                                        Normal (acc ++ [c])) neighbors [] ;;
  let neighborCommunities := tally neighborComms in
  let k_i_in_current := countOf neighborCommunities currentNodeCommunity in
  sigma_tot_current <- defined (JsMap.get (sigma_tot p) currentNodeCommunity) ;;
  ' (bestCommunity, _) <-
    foldM (chooseCommunity res p nodeDegree currentNodeCommunity k_i_in_current sigma_tot_current)
          neighborCommunities (currentNodeCommunity, 0%Q) ;;
  if bestCommunity =? currentNodeCommunity then Normal st
  else p' <- moveNode graph p n bestCommunity ;; Normal (p', true).

(** [while (improvement && pass_count < 100)], by the passes left. *)
Fixpoint optimizeModularity (passesLeft : nat) (res : Q) (graph : Graph) (p : Partition)
  : completion Partition :=
  match passesLeft with
  | 0 => Normal p
  | S k =>
      ' (p', improvement) <-
        foldM (optimizeNode res graph) (sort_strings (g_nodes graph)) (p, false) ;;
      if improvement then optimizeModularity k res graph p' else Normal p'
  end.

(** The key under which an edge is counted: the two community numbers,
    the smaller first, also when they coincide. *)
Definition communityKey (p : Partition) (edge : Link) : completion string :=
  comm1 <- defined (JsMap.get (nodeToCommunity p) (source edge)) ;;
  comm2 <- defined (JsMap.get (nodeToCommunity p) (target edge)) ;;
  Normal (if comm1 <=? comm2 then pairKey (toString comm1) (toString comm2)
          else pairKey (toString comm2) (toString comm1)).

Definition countEdge (p : Partition)
  (communityWeights : JsMap.t string nat) (edge : Link) : completion (JsMap.t string nat) :=
  key <- communityKey p edge ;;
  Normal (JsMap.set communityWeights key (countOf communityWeights key + 1)).

Definition aggregateCommunities (graph : Graph) (p : Partition) : completion GraphData :=
  let communityIds := JsMap.keys (communities p) in
  let newNodes := map (fun c => mkNode (toString c)) communityIds in
  communityWeights <- foldM (countEdge p) (g_edges graph) [] ;;
  Normal (mkGraphData newNodes (flat_map expandKey communityWeights)).

Fixpoint louvainLevels (fuel : nat) (res : Q) (graph : Graph) (p : Partition)
  : completion (list (JsMap.t string nat)) :=
  match fuel with
  | 0 => OutOfFuel
  | S fuel' =>
      p' <- optimizeModularity 100 res graph p ;;
      let level := nodeToCommunity p' in
      if JsMap.size (communities p') =? JsSet.size (g_nodes graph) then Normal [level]
      else
        newGraphData <- aggregateCommunities graph p' ;;
        if length (links newGraphData) =? 0 then Normal [level]
        else
          let graph' := newGraph newGraphData in
          p0 <- newPartition graph' ;;
          rest <- louvainLevels fuel' res graph' p0 ;;
          Normal (level :: rest)
  end.

(** Following one node through the levels; a community without an entry
    at a level is kept as it is. *)
Fixpoint follow (levels : list (JsMap.t string nat)) (currentCommunity : nat) : nat :=
  match levels with
  | [] => currentCommunity
  | level :: rest =>
      match JsMap.get level (toString currentCommunity) with
      | Some nextLevelCommunity => follow rest nextLevelCommunity
      | None => currentCommunity
      end
  end.

Definition composeHierarchy (hierarchy : list (JsMap.t string nat)) : JsMap.t string nat :=
  match hierarchy with
  | [] => []
  | level0 :: levels =>
      fold_left (fun m n => JsMap.set m n (follow levels (countOf level0 n)))
                (JsMap.keys level0) []
  end.

Definition runLouvain (fuel : nat) (graph : Graph) (params : LouvainParams)
  : completion (list CommunityAssignment) :=
  if g_m graph =? 0 then
    Normal (map (fun ni => mkAssignment (fst ni) (snd ni))
                (combine (g_nodes graph) (seq 0 (length (g_nodes graph)))))
  else
    p0 <- newPartition graph ;;
    hierarchy <- louvainLevels fuel (resolution params) graph p0 ;;
    Normal (normalize sort_nats (composeHierarchy hierarchy)).

(** ** Girvan-Newman *)

Definition initialAdjacency (graph : Graph) : completion Adjacency :=
  foldM (fun tempAdj e =>
           tempAdj1 <- connect tempAdj (source e) (target e) ;;
           if String.eqb (source e) (target e) then Normal tempAdj1
           else connect tempAdj1 (target e) (source e))
        (g_edges graph)
        (fold_left (fun m n => JsMap.set m n []) (g_nodes graph) []).

Record Divisive : Type := mkDivisive {
  m : nat;
  tempAdj : Adjacency
}.

Fixpoint divide (fuel : nat) (graph : Graph) (target : nat)
  (numComponents : nat) (st : Divisive) : completion Divisive :=
  if (numComponents <? target) && (0 <? m st) then
    match fuel with
    | 0 => OutOfFuel
    | S fuel' =>
        betweenness <- edgeBetweenness graph (tempAdj st) [] ;;
        let edge := edgeToRemove betweenness in
        if String.eqb edge "" then Normal st
        else
          tempAdj' <- removeFromAdjacency (tempAdj st) edge ;;
          let st' := mkDivisive (m st - 1) tempAdj' in
          components <- getComponents graph tempAdj' ;;
          divide fuel' graph target (length components) st'
    end
  else Normal st.

Definition girvanNewmanFinal (graph : Graph) (params : GirvanNewmanParams)
  : completion Divisive :=
  tempAdj0 <- initialAdjacency graph ;;
  components0 <- getComponents graph tempAdj0 ;;
  divide (g_m graph) graph (targetCommunities params)
         (length components0) (mkDivisive (g_m graph) tempAdj0).

Definition runGirvanNewman (graph : Graph) (params : GirvanNewmanParams)
  : completion (list CommunityAssignment) :=
  st <- girvanNewmanFinal graph params ;;
  finalComponents <- getComponents graph (tempAdj st) ;;
  Normal (assignComponents finalComponents).

End Worker2.
(** * Link prediction (utils/linkPrediction) *)

Module LinkPrediction.

Record PredictionGraph : Type := mkPredictionGraph {
  pg_nodes : list string;
  pg_adj : JsMap.t string (JsSet.t string);
  pg_degrees : JsMap.t string nat;
  pg_existingLinks : JsSet.t string
}.

Record LinkPredictionResult : Type :=
  mkResult { lp_source : string; lp_target : string; lp_score : Q }.

Definition COMMON_NEIGHBORS : string := "共同邻居".
Definition JACCARD : string := "杰卡德系数".
Definition ADAMIC_ADAR : string := "阿达姆/阿达尔指数".
Definition PREFERENTIAL_ATTACHMENT : string := "优先连接".

Definition addLinkToGraph (g : PredictionGraph) (link : Link) : PredictionGraph :=
  let sourceId := source link in
  let targetId := target link in
  match JsMap.get (pg_adj g) sourceId, JsMap.get (pg_adj g) targetId with
  | Some _, Some _ =>
      let adj1 :=
        match JsMap.get (pg_adj g) sourceId with
        | Some s => JsMap.set (pg_adj g) sourceId (JsSet.add s targetId)
        | None => pg_adj g
        end in
      let adj2 :=
        match JsMap.get adj1 targetId with
        | Some s => JsMap.set adj1 targetId (JsSet.add s sourceId)
        | None => adj1
        end in
      let deg1 :=
        JsMap.set (pg_degrees g) sourceId
          (match JsMap.get (pg_degrees g) sourceId with Some d => d | None => 0 end + 1) in
      let deg2 :=
        JsMap.set deg1 targetId
          (match JsMap.get deg1 targetId with Some d => d | None => 0 end + 1) in
      let key := if String.ltb sourceId targetId
                 then pairKey sourceId targetId
                 else pairKey targetId sourceId in
      mkPredictionGraph (pg_nodes g) adj2 deg2 (JsSet.add (pg_existingLinks g) key)
  | _, _ => g
  end.

Definition buildPredictionGraph (graphData : GraphData) : PredictionGraph :=
  let ids := map id (nodes graphData) in
  let adj := fold_left (fun m n => JsMap.set m n []) ids [] in
  let degrees := fold_left (fun m n => JsMap.set m n 0) ids [] in
  fold_left addLinkToGraph (links graphData)
    (mkPredictionGraph ids adj degrees []).

(** The pairs [(nodes[i], nodes[j])] with [i < j], in generation order. *)
Fixpoint indexPairs (l : list string) : list (string * string) :=
  match l with
  | [] => []
  | u :: rest => map (pair u) rest ++ indexPairs rest
  end.

Definition getCandidateLinks (graph : PredictionGraph) : list (string * string) :=
  filter (fun uv => negb (JsSet.has (pg_existingLinks graph) (pairKey (fst uv) (snd uv))))
    (indexPairs (pg_nodes graph)).

Definition neighborsOf (graph : PredictionGraph) (u : string) : JsSet.t string :=
  match JsMap.get (pg_adj graph) u with Some s => s | None => [] end.

Definition degreeOf (graph : PredictionGraph) (u : string) : nat :=
  match JsMap.get (pg_degrees graph) u with Some d => d | None => 0 end.

Definition intersection (a b : JsSet.t string) : list string :=
  filter (fun n => JsSet.has b n) a.

Definition Qnat (n : nat) : Q := inject_Z (Z.of_nat n).

Definition calculateCommonNeighbors (graph : PredictionGraph) : list LinkPredictionResult :=
  flat_map (fun uv =>
    let inter := JsSet.of_list (intersection (neighborsOf graph (fst uv)) (neighborsOf graph (snd uv))) in
    if 0 <? JsSet.size inter
    then [mkResult (fst uv) (snd uv) (Qnat (JsSet.size inter))]
    else [])
  (getCandidateLinks graph).

Definition calculateJaccard (graph : PredictionGraph) : list LinkPredictionResult :=
  flat_map (fun uv =>
    let neighborsU := neighborsOf graph (fst uv) in
    let neighborsV := neighborsOf graph (snd uv) in
    let inter := JsSet.of_list (intersection neighborsU neighborsV) in
    let union := JsSet.of_list (neighborsU ++ neighborsV) in
    if 0 <? JsSet.size union
    then [mkResult (fst uv) (snd uv) (Qnat (JsSet.size inter) / Qnat (JsSet.size union))]
    else [])
  (getCandidateLinks graph).

Section AdamicAdar.

(** [Math.log] on a degree; the natural logarithm is not a rational
    function, so the index is stated over any such function. *)
Variable Math_log : nat -> Q.

Definition adamicAdarScore (graph : PredictionGraph) (commonNeighbors : list string) : Q :=
  fold_left (fun score w =>
    let degreeW := degreeOf graph w in
    if 1 <? degreeW then (score + 1 / Math_log degreeW)%Q else score)
  commonNeighbors 0%Q.

Definition calculateAdamicAdar (graph : PredictionGraph) : list LinkPredictionResult :=
  flat_map (fun uv =>
    let commonNeighbors := intersection (neighborsOf graph (fst uv)) (neighborsOf graph (snd uv)) in
    let score := adamicAdarScore graph commonNeighbors in
    if Qlt_le_dec 0 score then [mkResult (fst uv) (snd uv) score] else [])
  (getCandidateLinks graph).

End AdamicAdar.

Definition calculatePreferentialAttachment (graph : PredictionGraph) : list LinkPredictionResult :=
  flat_map (fun uv =>
    let score := degreeOf graph (fst uv) * degreeOf graph (snd uv) in
    if 0 <? score then [mkResult (fst uv) (snd uv) (Qnat score)] else [])
  (getCandidateLinks graph).

Definition calculateLinkPrediction (Math_log : nat -> Q)
  (graphData : GraphData) (algorithm : string) : completion (list LinkPredictionResult) :=
  if length (nodes graphData) <? 2 then Normal []
  else
    let graph := buildPredictionGraph graphData in
    if String.eqb algorithm COMMON_NEIGHBORS then Normal (calculateCommonNeighbors graph)
    else if String.eqb algorithm JACCARD then Normal (calculateJaccard graph)
    else if String.eqb algorithm ADAMIC_ADAR then Normal (calculateAdamicAdar Math_log graph)
    else if String.eqb algorithm PREFERENTIAL_ATTACHMENT then Normal (calculatePreferentialAttachment graph)
    else Throws ("未知的链路预测算法: " ++ algorithm).

End LinkPrediction.

(** * Centrality (utils/centrality) *)

Module Centrality.

Definition IN_DEGREE : string := "入度中心性 (In-Degree)".
Definition OUT_DEGREE : string := "出度中心性 (Out-Degree)".
Definition CLOSENESS : string := "接近中心性 (Closeness)".
Definition BETWEENNESS : string := "介数中心性 (Betweenness)".
Definition PAGERANK : string := "PageRank".
Definition HITS_AUTHORITY : string := "HITS (Authority Score)".
Definition HITS_HUB : string := "HITS (Hub Score)".

Record CentralityResult : Type := mkScore { nodeId : string; score : Q }.

Inductive CentralityOutput : Type :=
| Scores (results : list CentralityResult)
| Hits (authority hub : list CentralityResult).

Record GraphRepresentation : Type := mkRepresentation {
  adj : JsMap.t string (list string);
  revAdj : JsMap.t string (list string);
  outDegrees : JsMap.t string nat
}.

Definition Qnat (n : nat) : Q := inject_Z (Z.of_nat n).

Definition addLink (isDirected : bool) (g : GraphRepresentation) (l : Link)
  : GraphRepresentation :=
  let sourceId := source l in
  let targetId := target l in
  if JsMap.has (adj g) sourceId && JsMap.has (adj g) targetId then
    let adj1 := Worker1.pushTo (adj g) sourceId targetId in
    let rev1 := Worker1.pushTo (revAdj g) targetId sourceId in
    let out1 := Worker1.increment (outDegrees g) sourceId in
    if isDirected then mkRepresentation adj1 rev1 out1
    else mkRepresentation (Worker1.pushTo adj1 targetId sourceId)
                          (Worker1.pushTo rev1 sourceId targetId)
                          (Worker1.increment out1 targetId)
  else g.

Definition buildGraphRepresentation (graphData : GraphData) (isDirected : bool)
  : GraphRepresentation :=
  let ids := map id (nodes graphData) in
  fold_left (addLink isDirected) (links graphData)
    (mkRepresentation (fold_left (fun m n => JsMap.set m n []) ids [])
                      (fold_left (fun m n => JsMap.set m n []) ids [])
                      (fold_left (fun m n => JsMap.set m n 0) ids [])).

(** ** Degree *)

Definition countLinks (ends : list string) (ids : list string) : JsMap.t string nat :=
  fold_left (fun m e => if JsMap.has m e
                        then JsMap.set m e (Worker1.countOf m e + 1) else m)
            ends (fold_left (fun m n => JsMap.set m n 0) ids []).

Definition degreeCentrality (ends : list string) (graphData : GraphData)
  : list CentralityResult :=
  let numNodes := length (nodes graphData) in
  if numNodes <=? 1 then map (fun n => mkScore (id n) 0%Q) (nodes graphData)
  else map (fun e => mkScore (fst e) (Qnat (snd e) / Qnat (numNodes - 1))%Q)
           (countLinks ends (map id (nodes graphData))).

Definition calculateInDegreeCentrality (graphData : GraphData) : list CentralityResult :=
  degreeCentrality (map target (links graphData)) graphData.

Definition calculateOutDegreeCentrality (graphData : GraphData) : list CentralityResult :=
  degreeCentrality (map source (links graphData)) graphData.

(** ** Closeness *)

Definition enqueueAt (distance : nat)
  (st : JsSet.t string * list (string * nat)) (neighbor : string)
  : JsSet.t string * list (string * nat) :=
  if JsSet.has (fst st) neighbor then st
  else (JsSet.add (fst st) neighbor, snd st ++ [(neighbor, distance + 1)]).

Fixpoint distances (fuel : nat) (adjacency : JsMap.t string (list string))
  (pending : list (string * nat)) (visited : JsSet.t string)
  (totalDistance reachableNodes : nat) : completion (nat * nat) :=
  match pending with
  | [] => Normal (totalDistance, reachableNodes)
  | (currentNode, distance) :: rest =>
      match fuel with
      | 0 => OutOfFuel
      | S fuel' =>
          let '(total1, reach1) :=
            if 0 <? distance then (totalDistance + distance, reachableNodes + 1)
            else (totalDistance, reachableNodes) in
          let neighbors := match JsMap.get adjacency currentNode with
                           | Some l => l | None => [] end in
          let '(visited', fresh) := fold_left (enqueueAt distance) neighbors (visited, []) in
          distances fuel' adjacency (rest ++ fresh) visited' total1 reach1
      end
  end.

Definition calculateClosenessCentrality (graphData : GraphData) (isDirected : bool)
  : completion (list CentralityResult) :=
  let g := buildGraphRepresentation graphData isDirected in
  foldM (fun results startNode =>
           ' (totalDistance, reachableNodes) <-
             distances (S (length (nodes graphData))) (adj g)
                       [(id startNode, 0)] [id startNode] 0 0 ;;
           let s := if (0 <? totalDistance) && (0 <? reachableNodes)
                    then (Qnat reachableNodes / Qnat totalDistance)%Q else 0%Q in
           Normal (results ++ [mkScore (id startNode) s]))
        (nodes graphData) [].

(** ** Betweenness (Brandes) *)

Definition creditNode (s : Worker1.Search) (w : string)
  (delta : JsMap.t string Q) (v : string) : completion (JsMap.t string Q) :=
  sv <- defined (JsMap.get (Worker1.bs_sigma s) v) ;;
  sw <- defined (JsMap.get (Worker1.bs_sigma s) w) ;;
  deltaW <- defined (JsMap.get delta w) ;;
  deltaV <- defined (JsMap.get delta v) ;;
  Normal (JsMap.set delta v (deltaV + (sv / sw) * (1 + deltaW))%Q).

Definition unwindNodes (sourceId : string) (s : Worker1.Search)
  (betweenness delta : JsMap.t string Q)
  : completion (JsMap.t string Q * JsMap.t string Q) :=
  foldM (fun (st : JsMap.t string Q * JsMap.t string Q) w =>
           let '(betweenness, delta) := st in
           pw <- defined (JsMap.get (Worker1.bs_P s) w) ;;
           delta' <- foldM (creditNode s w) pw delta ;;
           if String.eqb w sourceId then Normal (betweenness, delta')
           else
             b <- defined (JsMap.get betweenness w) ;;
             dw <- defined (JsMap.get delta' w) ;;
             Normal (JsMap.set betweenness w (b + dw)%Q, delta'))
        (List.rev (Worker1.bs_S s)) (betweenness, delta).

Definition calculateBetweennessCentrality (graphData : GraphData) (isDirected : bool)
  : completion (list CentralityResult) :=
  let ids := map id (nodes graphData) in
  let g := buildGraphRepresentation graphData isDirected in
  betweenness <-
    foldM (fun betweenness s =>
             let P := fold_left (fun m x => JsMap.set m x []) ids [] in
             let sigma := JsMap.set (fold_left (fun m x => JsMap.set m x 0%Q) ids []) s 1%Q in
             let d := JsMap.set (fold_left (fun m x => JsMap.set m x (-1)%Z) ids []) s 0%Z in
             found <- Worker1.search (S (length ids)) (adj g) [s] (Worker1.mkSearch [] P sigma d) ;;
             let delta := fold_left (fun m x => JsMap.set m x 0%Q) ids [] in
             ' (betweenness', _) <- unwindNodes s found betweenness delta ;;
             Normal betweenness')
          ids (fold_left (fun m x => JsMap.set m x 0%Q) ids []) ;;
  let n := length ids in
  let scale := if 2 <? n
               then (if isDirected then 1 / Qnat ((n - 1) * (n - 2))
                     else 2 / Qnat ((n - 1) * (n - 2)))%Q
               else 1%Q in
  Normal (map (fun e => mkScore (fst e) (snd e * scale)%Q) betweenness).

(** ** PageRank *)

Definition rankOf (ranks : JsMap.t string Q) (n : string) : Q :=
  match JsMap.get ranks n with Some r => r | None => 0%Q end.

Definition outDegreeOf (g : GraphRepresentation) (n : string) : nat :=
  Worker1.countOf (outDegrees g) n.

Definition danglingSum (g : GraphRepresentation) (ids : list string)
  (ranks : JsMap.t string Q) : Q :=
  fold_left (fun acc n => if outDegreeOf g n =? 0 then (acc + rankOf ranks n)%Q else acc)
            ids 0%Q.

Definition rankSum (g : GraphRepresentation) (ranks : JsMap.t string Q) (n : string) : Q :=
  fold_left (fun acc neighbor =>
               let neighborOutDegree := outDegreeOf g neighbor in
               if 0 <? neighborOutDegree
               then (acc + rankOf ranks neighbor / Qnat neighborOutDegree)%Q
               else acc)
            (match JsMap.get (revAdj g) n with Some l => l | None => [] end) 0%Q.

Definition newRankOf (g : GraphRepresentation) (ids : list string) (damping : Q)
  (ranks : JsMap.t string Q) (n : string) : Q :=
  let count := Qnat (length ids) in
  let danglingContribution := (danglingSum g ids ranks / count)%Q in
  ((1 - damping) / count + damping * (rankSum g ranks n + danglingContribution))%Q.

(** One power iteration: the new ranks and the accumulated change. *)
Definition iteration (g : GraphRepresentation) (ids : list string) (damping : Q)
  (ranks : JsMap.t string Q) : JsMap.t string Q * Q :=
  fold_left (fun (st : JsMap.t string Q * Q) n =>
               let newRanks := JsMap.set (fst st) n (newRankOf g ids damping ranks n) in
               (newRanks, (snd st + Qabs (rankOf newRanks n - rankOf ranks n))%Q))
            ids ([], 0%Q).

Fixpoint iterate (iterationsLeft : nat) (g : GraphRepresentation) (ids : list string)
  (damping tolerance : Q) (ranks : JsMap.t string Q) : JsMap.t string Q :=
  match iterationsLeft with
  | 0 => ranks
  | S k =>
      let '(newRanks, diff) := iteration g ids damping ranks in
      if Qlt_le_dec diff tolerance then newRanks
      else iterate k g ids damping tolerance newRanks
  end.

Definition total (ranks : JsMap.t string Q) : Q :=
  fold_left Qplus (JsMap.values ranks) 0%Q.

(** The ranks when the power iteration ends. *)
Definition powerIteration (graphData : GraphData) (isDirected : bool)
  (damping : Q) (maxIterations : nat) (tolerance : Q) : JsMap.t string Q :=
  let ids := map id (nodes graphData) in
  let g := buildGraphRepresentation graphData isDirected in
  let ranks0 := fold_left (fun m x => JsMap.set m x (1 / Qnat (length ids))%Q) ids [] in
  iterate maxIterations g ids damping tolerance ranks0.

Definition calculatePageRankWith (graphData : GraphData) (isDirected : bool)
  (damping : Q) (maxIterations : nat) (tolerance : Q) : list CentralityResult :=
  if length (nodes graphData) =? 0 then []
  else
    let ranks := powerIteration graphData isDirected damping maxIterations tolerance in
    let totalRank := total ranks in
    if Qlt_le_dec (1 # 1000000000) totalRank
    then map (fun e => mkScore (fst e) (snd e / totalRank)%Q) ranks
    else [].

(** The defaults [damping = 0.85], [maxIterations = 100],
    [tolerance = 1e-6]. *)
Definition calculatePageRank (graphData : GraphData) (isDirected : bool)
  : list CentralityResult :=
  calculatePageRankWith graphData isDirected (85 # 100) 100 (1 # 1000000).

(** ** HITS *)

Section Hits.

(** [Math.sqrt] is not a rational function; the routine is stated over
    any such function. *)
Variable Math_sqrt : Q -> Q.

Definition norm (sumSq : Q) : Q :=
  let r := Math_sqrt sumSq in
  if Qeq_bool r 0 then 1%Q else r.

Definition sumOver (scores : JsMap.t string Q) (neighbors : list string) : Q :=
  fold_left (fun acc neighbor => (acc + rankOf scores neighbor)%Q) neighbors 0%Q.

Definition update (table : JsMap.t string (list string)) (ids : list string)
  (from scores : JsMap.t string Q) : JsMap.t string Q * Q :=
  fold_left (fun (st : JsMap.t string Q * Q) n =>
               let s := sumOver from
                          (match JsMap.get table n with Some l => l | None => [] end) in
               (JsMap.set (fst st) n s, (snd st + s * s)%Q))
            ids (scores, 0%Q).

Definition normalizeScores (scores : JsMap.t string Q) (divisor : Q) : JsMap.t string Q :=
  map (fun e => (fst e, (snd e / divisor)%Q)) scores.

Fixpoint hitsLoop (iterationsLeft : nat) (g : GraphRepresentation) (ids : list string)
  (tolerance : Q) (authorityScores hubScores : JsMap.t string Q)
  : JsMap.t string Q * JsMap.t string Q :=
  match iterationsLeft with
  | 0 => (authorityScores, hubScores)
  | S k =>
      let lastAuth := authorityScores in
      let '(auth1, authSumSq) := update (revAdj g) ids hubScores authorityScores in
      let auth2 := normalizeScores auth1 (norm authSumSq) in
      let '(hub1, hubSumSq) := update (adj g) ids auth2 hubScores in
      let hub2 := normalizeScores hub1 (norm hubSumSq) in
      let diff := fold_left (fun acc n => (acc + Qabs (rankOf auth2 n - rankOf lastAuth n))%Q)
                            ids 0%Q in
      if Qlt_le_dec diff tolerance then (auth2, hub2)
      else hitsLoop k g ids tolerance auth2 hub2
  end.

Definition calculateHITS (graphData : GraphData) (isDirected : bool) : CentralityOutput :=
  let ids := map id (nodes graphData) in
  let g := buildGraphRepresentation graphData isDirected in
  if length ids =? 0 then Hits [] []
  else
    let ones := fold_left (fun m x => JsMap.set m x 1%Q) ids [] in
    let '(authorityScores, hubScores) := hitsLoop 100 g ids (1 # 1000000) ones ones in
    Hits (map (fun e => mkScore (fst e) (snd e)) authorityScores)
         (map (fun e => mkScore (fst e) (snd e)) hubScores).

(** ** The dispatcher *)

Definition calculateCentrality (graphData : GraphData) (algorithm : string)
  (isDirected : bool) : completion CentralityOutput :=
  if String.eqb algorithm IN_DEGREE then
    Normal (Scores (calculateInDegreeCentrality graphData))
  else if String.eqb algorithm OUT_DEGREE then
    Normal (Scores (calculateOutDegreeCentrality graphData))
  else if String.eqb algorithm CLOSENESS then
    r <- calculateClosenessCentrality graphData isDirected ;; Normal (Scores r)
  else if String.eqb algorithm BETWEENNESS then
    r <- calculateBetweennessCentrality graphData isDirected ;; Normal (Scores r)
  else if String.eqb algorithm PAGERANK then
    Normal (Scores (calculatePageRank graphData isDirected))
  else if String.eqb algorithm HITS_AUTHORITY || String.eqb algorithm HITS_HUB then
    Normal (calculateHITS graphData isDirected)
  else Normal (Scores []).

End Hits.

End Centrality.

(** * The LFR benchmark generator (utils/networkGenerators) *)

Module Generators.

Record LFRParams : Type := mkLFRParams {
  n : Z;
  mu : Q;
  minCommunity : Z;
  maxCommunity : Z;
  degreeExponent : Q;
  communityExponent : Q;
  minDegree : Z;
  maxDegree : Z
}.

Record GenerationResult : Type := mkGeneration {
  graphData : GraphData;
  groundTruth : list CommunityAssignment;
  edgeList : string
}.

Record Stubs : Type := mkStubs { internal : Z; external : Z }.

(** [Math.round] *)
Definition round (x : Q) : Z := Qfloor (x + (1 # 2)).

Definition nodeName (k : nat) : string := ("n" ++ toString k)%string.

(** [array[i]] and [array[i] = x] on an index inside the array. *)
Fixpoint update {A : Type} (l : list A) (i : nat) (x : A) : list A :=
  match l, i with
  | [], _ => []
  | _ :: l', 0 => x :: l'
  | y :: l', S i' => y :: update l' i' x
  end.

Definition swap {A : Type} (l : list A) (i j : nat) : list A :=
  match nth_error l i, nth_error l j with
  | Some x, Some y => update (update l i y) j x
  | _, _ => l
  end.

Section Random.

(** [Math_random k] is the value of the [k]-th call of [Math.random()]
    in a run, and [Math_pow] is [Math.pow]; the generator is stated
    over any such functions, and threads the number of draws made. *)
Variable Math_random : nat -> Q.
Variable Math_pow : Q -> Q -> Q.

(** [Math.floor(Math.random() * len)] at draw [k]. *)
Definition randomIndex (k : nat) (len : nat) : nat :=
  Z.to_nat (Qfloor (Math_random k * inject_Z (Z.of_nat len))).

(** The loop of [shuffle], from index [i] down to 1. *)
Fixpoint shuffleFrom {A : Type} (i : nat) (l : list A) (k : nat) : list A * nat :=
  match i with
  | 0 => (l, k)
  | S i' => shuffleFrom i' (swap l i (randomIndex k (i + 1))) (S k)
  end.

Definition shuffle {A : Type} (l : list A) (k : nat) : list A * nat :=
  shuffleFrom (length l - 1) l k.

Definition powerLawSample (min max : Z) (exponent : Q) (k : nat) : Z * nat :=
  let y := Math_random k in
  let alpha := (1 - exponent)%Q in
  let minAlpha := Math_pow (inject_Z min) alpha in
  let maxAlpha := Math_pow (inject_Z max) alpha in
  (round (Math_pow ((maxAlpha - minAlpha) * y + minAlpha) (1 / alpha)), S k).

(** 1. Community sizes. *)
Definition largest (sizes : list Z) : Z :=
  match sizes with
  | [] => 0%Z
  | s :: rest => fold_left Z.max rest s
  end.

Definition growLargest (sizes : list Z) (extra : Z) : list Z :=
  match indexOf sizes (largest sizes) with
  | Some i => update sizes i (nth i sizes 0%Z + extra)%Z
  | None => sizes
  end.

Fixpoint communitySizesFrom (fuel : nat) (p : LFRParams) (lo hi : Z)
  (sizes : list Z) (nRemaining : Z) (k : nat) : completion (list Z * nat) :=
  if (0 <? nRemaining)%Z then
    match fuel with
    | 0 => OutOfFuel
    | S fuel' =>
        let maxCSize := Z.min hi nRemaining in
        if (maxCSize <? lo)%Z then
          Normal (match sizes with [] => sizes | _ => growLargest sizes nRemaining end, k)
        else
          let '(sampled, k') := powerLawSample lo maxCSize (communityExponent p) k in
          let size := if (0 <? nRemaining - sampled)%Z && (nRemaining - sampled <? lo)%Z
                      then nRemaining else sampled in
          communitySizesFrom fuel' p lo hi (sizes ++ [size]) (nRemaining - size)%Z k'
    end
  else Normal (sizes, k).

(** 2. Nodes [n0], [n1], ... assigned to the communities in turn. *)
Fixpoint assignNodes (sizes : list Z) (nodeIdCounter : nat) : list (list string) :=
  match sizes with
  | [] => []
  | size :: rest =>
      map nodeName (seq nodeIdCounter (Z.to_nat size))
      :: assignNodes rest (nodeIdCounter + Z.to_nat size)
  end.

Definition truthOf (communities : list (list string)) : list CommunityAssignment :=
  concat (map (fun ci => map (fun x => mkAssignment x (snd ci)) (fst ci))
              (combine communities (seq 0 (length communities)))).

(** 3. Degrees. *)
Definition sampleDegree (p : LFRParams) (lo hi : Z) (communitySize : Z) (k : nat)
  : Z * nat :=
  let maxDegreeFromCommunity :=
    if Qlt_le_dec (1 # 1000000000) (1 - mu p)
    then Qfloor (inject_Z (communitySize - 1) / (1 - mu p))
    else (n p - 1)%Z in
  let effectiveMaxDegree := Z.min (Z.min hi (n p - 1)) maxDegreeFromCommunity in
  let effectiveMinDegree := Z.min lo effectiveMaxDegree in
  if (effectiveMinDegree <? effectiveMaxDegree)%Z
  then powerLawSample effectiveMinDegree effectiveMaxDegree (degreeExponent p) k
  else (effectiveMinDegree, k).

Definition sampleDegrees (p : LFRParams) (lo hi : Z) (communities : list (list string))
  (k : nat) : JsMap.t string Z * Z * nat :=
  fold_left (fun (st : JsMap.t string Z * Z * nat) community =>
               fold_left (fun (st : JsMap.t string Z * Z * nat) x =>
                            let '(degrees, totalDegree, k) := st in
                            let '(degree, k') :=
                              sampleDegree p lo hi (Z.of_nat (length community)) k in
                            (JsMap.set degrees x degree, (totalDegree + degree)%Z, k'))
                         community st)
            communities ([], 0%Z, k).

Definition degreeOf (degrees : JsMap.t string Z) (x : string) : Z :=
  match JsMap.get degrees x with Some d => d | None => 0%Z end.

(** The total degree is made even. *)
Definition evenTotal (nodeIds : list string) (degrees : JsMap.t string Z)
  (totalDegree : Z) (k : nat) : JsMap.t string Z * nat :=
  if (Z.rem totalDegree 2 =? 0)%Z then (degrees, k)
  else
    match nth_error nodeIds (randomIndex k (length nodeIds)) with
    | Some randNodeId =>
        (JsMap.set degrees randNodeId (degreeOf degrees randNodeId + 1)%Z, S k)
    | None => (degrees, S k)
    end.

(** 4. Internal and external stubs of each node. *)
Definition split (p : LFRParams) (totalNodeDegree : Z) : Stubs :=
  let externalDegree := round (inject_Z totalNodeDegree * mu p) in
  mkStubs (totalNodeDegree - externalDegree) externalDegree.

Definition initialProperties (p : LFRParams) (nodeIds : list string)
  (degrees : JsMap.t string Z) : JsMap.t string Stubs :=
  fold_left (fun m x => JsMap.set m x (split p (degreeOf degrees x))) nodeIds [].

Definition stubsOf (nodeProperties : JsMap.t string Stubs) (x : string) : Stubs :=
  match JsMap.get nodeProperties x with Some s => s | None => mkStubs 0 0 end.

Definition internalDegreeSum (nodeProperties : JsMap.t string Stubs)
  (communityNodes : list string) : Z :=
  fold_left (fun sum x => (sum + internal (stubsOf nodeProperties x))%Z) communityNodes 0%Z.

(** A community whose internal degrees have an odd sum has one stub of
    a random member moved between internal and external. *)
Definition fixParity (st : JsMap.t string Stubs * nat) (communityNodes : list string)
  : JsMap.t string Stubs * nat :=
  let '(nodeProperties, k) := st in
  if (Z.rem (internalDegreeSum nodeProperties communityNodes) 2 =? 0)%Z then st
  else
    match nth_error communityNodes (randomIndex k (length communityNodes)) with
    | Some nodeToFixId =>
        let props := stubsOf nodeProperties nodeToFixId in
        let props' := if (0 <? internal props)%Z
                      then mkStubs (internal props - 1) (external props + 1)
                      else mkStubs (internal props + 1) (external props - 1) in
        (JsMap.set nodeProperties nodeToFixId props', S k)
    | None => (nodeProperties, S k)
    end.

(** 5. The stub lists. *)
Definition copies (x : string) (count : Z) : list string := repeat x (Z.to_nat count).

Definition internalStubsOf (nodeProperties : JsMap.t string Stubs)
  (communityNodes : list string) : list string :=
  flat_map (fun x => copies x (internal (stubsOf nodeProperties x))) communityNodes.

Definition externalStubsOf (nodeProperties : JsMap.t string Stubs)
  (communities : list (list string)) : list string :=
  flat_map (fun communityNodes =>
              flat_map (fun x => copies x (external (stubsOf nodeProperties x)))
                       communityNodes)
           communities.

(** 6. Pairing the stubs. *)
Definition addLink (links : JsSet.t string) (u v : string) : JsSet.t string :=
  if String.eqb u v then links
  else if negb (JsSet.has links (pairKey u v)) && negb (JsSet.has links (pairKey v u))
       then JsSet.add links (pairKey u v)
       else links.

(** [for (let i = 0; i < stubs.length; i += 2) if (stubs[i + 1]) ...] *)
Fixpoint pairUp (links : JsSet.t string) (stubs : list string) : JsSet.t string :=
  match stubs with
  | u :: v :: rest => pairUp (if String.eqb v "" then links else addLink links u v) rest
  | _ => links
  end.

Definition connectInternal (nodeProperties : JsMap.t string Stubs)
  (st : JsSet.t string * nat) (communityNodes : list string) : JsSet.t string * nat :=
  let '(shuffled, k') := shuffle (internalStubsOf nodeProperties communityNodes) (snd st) in
  (pairUp (fst st) shuffled, k').

Definition linkOfKey (key : string) : Link :=
  match split_bar key with
  | s :: t :: _ => mkLink s t
  | [s] => mkLink s "undefined"
  | [] => mkLink "undefined" "undefined"
  end.

(** Step 3 and the parity of the total: the degree of every node. *)
Definition degreesFor (p : LFRParams) (communities : list (list string)) (k : nat)
  : JsMap.t string Z * nat :=
  let lo := Z.min (minDegree p) (maxDegree p) in
  let hi := Z.max (minDegree p) (maxDegree p) in
  let '(degrees0, totalDegree, k1) := sampleDegrees p lo hi communities k in
  evenTotal (concat communities) degrees0 totalDegree k1.

(** Step 4: the stubs of every node. *)
Definition stubsFor (p : LFRParams) (communities : list (list string))
  (degrees : JsMap.t string Z) (k : nat) : JsMap.t string Stubs * nat :=
  fold_left fixParity communities (initialProperties p (concat communities) degrees, k).

Definition connectStubs (nodeProperties : JsMap.t string Stubs)
  (communities : list (list string)) (k : nat) : JsSet.t string :=
  let '(links1, k1) := fold_left (connectInternal nodeProperties) communities ([], k) in
  let '(shuffled, _) := shuffle (externalStubsOf nodeProperties communities) k1 in
  pairUp links1 shuffled.

Definition planted (fuel : nat) (p : LFRParams) : completion (list (list string) * nat) :=
  ' (sizes, k) <-
    communitySizesFrom fuel p (Z.min (minCommunity p) (maxCommunity p))
                       (Z.max (minCommunity p) (maxCommunity p)) [] (n p) 0 ;;
  Normal (assignNodes sizes 0, k).

Definition generateLFRNetwork (fuel : nat) (p : LFRParams) : completion GenerationResult :=
  ' (communities, k) <- planted fuel p ;;
  let '(degrees, k1) := degreesFor p communities k in
  let '(nodeProperties, k') := stubsFor p communities degrees k1 in
  let finalLinks := map linkOfKey (connectStubs nodeProperties communities k') in
  Normal (mkGeneration
            (mkGraphData (map mkNode (concat communities)) finalLinks)
            (truthOf communities)
            (String.concat (String "010"%char EmptyString)
               (map (fun l => (source l ++ " " ++ target l)%string) finalLinks))).

End Random.

(** [x] to an integral power: [Math.pow] at integral exponents. *)
Definition powZ (x a : Q) : Q := Qpower x (Qfloor a).

End Generators.

(** * Reading an edge list (utils/graphUtils, services/parser.worker) *)

Module GraphUtils.

(** The class [\s] of a regular expression, which is also what [trim]
    removes, within the code units that [ascii] holds: tab, line feed,
    vertical tab, form feed, carriage return, space and no-break
    space. *)
Definition isSpace (c : ascii) : bool :=
  let b := nat_of_ascii c in
  ((9 <=? b) && (b <=? 13)) || (b =? 32) || (b =? 160).

Fixpoint trimStart (s : string) : string :=
  match s with
  | EmptyString => EmptyString
  | String c rest => if isSpace c then trimStart rest else s
  end.

Fixpoint blank (s : string) : bool :=
  match s with
  | EmptyString => true
  | String c rest => isSpace c && blank rest
  end.

Fixpoint trimEnd (s : string) : string :=
  match s with
  | EmptyString => EmptyString
  | String c rest => if blank s then EmptyString else String c (trimEnd rest)
  end.

(** [s.trim()] *)
Definition trim (s : string) : string := trimEnd (trimStart s).

(** [s.split('\n')] *)
Fixpoint splitLines (s : string) : list string :=
  match s with
  | EmptyString => [EmptyString]
  | String c rest =>
      if Ascii.eqb c "010"%char then EmptyString :: splitLines rest
      else match splitLines rest with
           | [] => [String c EmptyString]
           | h :: t => String c h :: t
           end
  end.

(** [s.split(/\s+/)]: [inGap] holds while a run of white space is
    being skipped. *)
Fixpoint splitSpacesFrom (inGap : bool) (s : string) : list string :=
  match s with
  | EmptyString => [EmptyString]
  | String c rest =>
      if isSpace c then
        if inGap then splitSpacesFrom true rest
        else EmptyString :: splitSpacesFrom true rest
      else match splitSpacesFrom false rest with
           | [] => [String c EmptyString]
           | h :: t => String c h :: t
           end
  end.

Definition splitSpaces (s : string) : list string := splitSpacesFrom false s.

Definition nonEmpty (s : string) : bool :=
  match s with EmptyString => false | _ => true end.

(** The body of [lines.forEach]: a line with at least two parts, the
    first two of them not empty, gives a link and two nodes. *)
Definition readLine (st : list Link * JsSet.t string) (line : string)
  : list Link * JsSet.t string :=
  match splitSpaces (trim line) with
  | source :: target :: _ =>
      if nonEmpty source && nonEmpty target
      then (fst st ++ [mkLink source target],
            JsSet.add (JsSet.add (snd st) source) target)
      else st
  | _ => st
  end.

(** [parseEdgeList]; the nodes are created with empty attributes. *)
Definition parseEdgeList (data : string) : GraphData :=
  let lines := splitLines (trim data) in
  let '(links, nodeSet) := fold_left readLine lines ([], []) in
  mkGraphData (map mkNode nodeSet) links.

(** The three attributes [enrichNodesWithDegrees] writes on a node:
    in-degree, out-degree and the general degree. *)
Record Degrees : Type := mkDegrees {
  inDegree : nat;
  outDegree : nat;
  totalDegree : nat
}.

(** [if (m.has(k)) m.set(k, (m.get(k) || 0) + 1)] *)
Definition countEnd (m : JsMap.t string nat) (k : string) : JsMap.t string nat :=
  if JsMap.has m k then JsMap.set m k (Worker1.countOf m k + 1) else m.

(** [enrichNodesWithDegrees]: for every node, in order, the attributes
    it is given. *)
Definition enrichNodesWithDegrees (graphData : GraphData) (isDirected : bool)
  : list (Node * Degrees) :=
  let zero := fold_left (fun m n => JsMap.set m (id n) 0) (nodes graphData) [] in
  let '(inDegrees, outDegrees) :=
    fold_left (fun (st : JsMap.t string nat * JsMap.t string nat) link =>
                 (countEnd (fst st) (target link), countEnd (snd st) (source link)))
              (links graphData) (zero, zero) in
  map (fun n =>
         let inD := Worker1.countOf inDegrees (id n) in
         let outD := Worker1.countOf outDegrees (id n) in
         (n, mkDegrees inD outD (if isDirected then inD + outD else outD)))
      (nodes graphData).

(** The edge-list text of a list of links:
    [links.map(l => `${l.source} ${l.target}`).join('\n')]. *)
Definition edgeListOf (links : list Link) : string :=
  String.concat (String "010"%char EmptyString)
    (map (fun l => (source l ++ " " ++ target l)%string) links).

End GraphUtils.

(** * The parser worker (services/parser.worker) *)

Module ParserWorker.

(** What [self.postMessage] is given: the graph data with the degree
    attributes on its nodes, or an error message. *)
Inductive Message : Type :=
| SUCCESS (nodes : list (Node * GraphUtils.Degrees)) (links : list Link)
| ERROR (payload : string).

(** [self.onmessage]; neither routine called raises. *)
Definition onmessage (edgeList : string) (isDirected : bool) : Message :=
  let parsedData := GraphUtils.parseEdgeList edgeList in
  SUCCESS (GraphUtils.enrichNodesWithDegrees parsedData isDirected) (links parsedData).

End ParserWorker.

(** * The planted-partition generator (utils/networkGenerators,
      [generateGNNetwork]) *)

Module GNBenchmark.

(** The two counts are whole numbers, as the controls of the
    application set them. *)
Record GNParams : Type := mkGNParams {
  numCommunities : nat;
  nodesPerCommunity : nat;
  p_in : Q;
  p_out : Q
}.

(** [`c${c}_n${i}`] *)
Definition nodeName (c i : nat) : string :=
  ("c" ++ toString c ++ "_n" ++ toString i)%string.

(** The first pair of loops: the ground truth, one entry per node
    pushed. *)
Definition planted (p : GNParams) : list CommunityAssignment :=
  flat_map (fun c => map (fun i => mkAssignment (nodeName c i) c)
                         (seq 0 (nodesPerCommunity p)))
           (seq 0 (numCommunities p)).

(** [groundTruth.find(gt => gt.node === x)!.community] *)
Definition communityOf (groundTruth : list CommunityAssignment) (x : string)
  : completion nat :=
  gt <- defined (find (fun gt => String.eqb (node gt) x) groundTruth) ;;
  Normal (community gt).

Section Random.

(** [Math_random k] is the value of the [k]-th call of
    [Math.random()]. *)
Variable Math_random : nat -> Q.

(** The body of the inner loop over the pairs [i < j]; the state is
    the links pushed and the number of draws made. *)
Definition tryLink (p : GNParams) (groundTruth : list CommunityAssignment)
  (st : list Link * nat) (pair : string * string) : completion (list Link * nat) :=
  let '(links, k) := st in
  communityA <- communityOf groundTruth (fst pair) ;;
  communityB <- communityOf groundTruth (snd pair) ;;
  let isIntraCommunity := communityA =? communityB in
  let prob := if isIntraCommunity then p_in p else p_out p in
  if Qlt_le_dec (Math_random k) prob
  then Normal (links ++ [mkLink (fst pair) (snd pair)], S k)
  else Normal (links, S k).

Definition generateGNNetwork (p : GNParams) : completion Generators.GenerationResult :=
  let groundTruth := planted p in
  let ids := map node groundTruth in
  ' (links, _) <- foldM (tryLink p groundTruth) (LinkPrediction.indexPairs ids) ([], 0) ;;
  Normal (Generators.mkGeneration
            (mkGraphData (map mkNode ids) links)
            groundTruth
            (GraphUtils.edgeListOf links)).

End Random.

End GNBenchmark.

(** * Label propagation, second variant
      (services/communityDetection.worker.ts, [runLabelPropagation] with
      the shuffled node order and the random choice among the best
      labels) *)

Module LabelPropagation2.

(** A label is a node identifier, or [undefined] when an index misses
    the list of best labels. *)
Definition Label : Type := option string.

#[global] Instance label_EqDec : EqDec Label.
Proof. intros x y. decide equality. apply string_dec. Defined.

Definition maxIterations : nat := 30.

Definition scanBest (st : nat * list Label) (entry : Label * nat) : nat * list Label :=
  let '(maxCount, bestLabels) := st in
  let '(label, count) := entry in
  if maxCount <? count then (count, [label])
  else if count =? maxCount then (maxCount, bestLabels ++ [label])
  else st.

Definition bestLabels (labelCounts : JsMap.t Label nat) : list Label :=
  snd (fold_left scanBest labelCounts (0, [])).

(** [communities.get(n)!] *)
Definition labelOf (communities : JsMap.t string Label) (n : string) : Label :=
  match JsMap.get communities n with Some l => l | None => None end.

(** [graph.adj.get(node) || []] *)
Definition neighborsOf (graph : Worker1.Graph) (n : string) : list string :=
  match JsMap.get (Worker1.g_adj graph) n with Some ns => ns | None => [] end.

(** [array[i]] for an integral index. *)
Definition at_index {A : Type} (l : list A) (i : Z) : option A :=
  if (i <? 0)%Z then None else nth_error l (Z.to_nat i).

Section Random.

(** [Math_random k] is the value of the [k]-th call of
    [Math.random()]. *)
Variable Math_random : nat -> Q.

(** [bestLabels[Math.floor(Math.random() * bestLabels.length)]] at draw
    [k]. *)
Definition pick (best : list Label) (k : nat) : Label :=
  match at_index best (Qfloor (Math_random k * inject_Z (Z.of_nat (length best)))) with
  | Some l => l
  | None => None
  end.

(** The body of [for (const node of shuffledNodes)]; the state is the
    labels, the flag [changed] and the number of draws made. *)
Definition visitNode (graph : Worker1.Graph)
  (st : JsMap.t string Label * bool * nat) (n : string)
  : JsMap.t string Label * bool * nat :=
  let '(communities, changed, k) := st in
  match neighborsOf graph n with
  | [] => st
  | neighbors =>
      let labelCounts := Worker1.tally (map (labelOf communities) neighbors) in
      let newCommunity := pick (bestLabels labelCounts) k in
      if eqb_key (labelOf communities n) newCommunity
      then (communities, changed, S k)
      else (JsMap.set communities n newCommunity, true, S k)
  end.

(** [while (changed && iterations < maxIterations)], by the iterations
    left; every iteration shuffles the nodes anew. *)
Fixpoint propagate (graph : Worker1.Graph) (iterationsLeft : nat)
  (communities : JsMap.t string Label) (k : nat) : JsMap.t string Label :=
  match iterationsLeft with
  | 0 => communities
  | S i =>
      let '(shuffledNodes, k1) := Generators.shuffle Math_random (Worker1.g_nodes graph) k in
      let '(communities', changed, k2) :=
        fold_left (visitNode graph) shuffledNodes (communities, false, k1) in
      if changed then propagate graph i communities' k2 else communities'
  end.

Definition initialLabels (nodes : list string) : JsMap.t string Label :=
  fold_left (fun m n => JsMap.set m n (Some n)) nodes [].

(** [Array.prototype.sort] without a comparison: the strings by code
    unit, every [undefined] after them. *)
Definition sortLabels (labels : list Label) : list Label :=
  map Some (sort_strings (flat_map (fun l => match l with Some s => [s] | None => [] end) labels))
  ++ filter (fun l => match l with Some _ => false | None => true end) labels.

Definition runLabelPropagation (graph : Worker1.Graph) : list CommunityAssignment :=
  Worker1.normalize sortLabels
    (propagate graph maxIterations (initialLabels (Worker1.g_nodes graph)) 0).

End Random.

End LabelPropagation2.

(** * Normalized mutual information (utils/performance) *)

Module Performance.

#[local] Open Scope R_scope.

Definition eps : R := / 10 ^ 15.

(** [Math.log2] *)
Definition log2 (x : R) : R := ln x / ln 2.

Definition labelsOf (partition : list CommunityAssignment) : list nat :=
  JsSet.of_list (map community partition).

Definition mapOf (partition : list CommunityAssignment) : JsMap.t string nat :=
  JsMap.of_list (map (fun item => (node item, community item)) partition).

Fixpoint bump (row : list nat) (j : nat) : list nat :=
  match row, j with
  | [], _ => []
  | c :: row', O => S c :: row'
  | c :: row', S j' => c :: bump row' j'
  end.

(** [contingencyTable[i][j]++] *)
Fixpoint bumpAt (table : list (list nat)) (i j : nat) : list (list nat) :=
  match table, i with
  | [], _ => []
  | row :: table', O => bump row j :: table'
  | row :: table', S i' => row :: bumpAt table' i' j
  end.

Definition countNode (groundTruthMap detectedMap : JsMap.t string nat)
  (groundTruthLabels detectedLabels : list nat)
  (table : list (list nat)) (n : Node) : list (list nat) :=
  match JsMap.get groundTruthMap (id n), JsMap.get detectedMap (id n) with
  | Some gtCommunity, Some dtCommunity =>
      match indexOf groundTruthLabels gtCommunity, indexOf detectedLabels dtCommunity with
      | Some gtIndex, Some dtIndex => bumpAt table gtIndex dtIndex
      | _, _ => table
      end
  | _, _ => table
  end.

Definition contingency (groundTruth detected : list CommunityAssignment)
  (nodes : list Node) : list (list nat) :=
  let groundTruthLabels := labelsOf groundTruth in
  let detectedLabels := labelsOf detected in
  fold_left (countNode (mapOf groundTruth) (mapOf detected) groundTruthLabels detectedLabels)
            nodes
            (repeat (repeat 0%nat (length detectedLabels)) (length groundTruthLabels)).

(** [contingencyTable[i].reduce((a, b) => a + b, 0)] *)
Definition rowSum (row : list nat) : nat := fold_left Nat.add row 0%nat.

(** [contingencyTable.reduce((sum, row) => sum + row[j], 0)] *)
Definition columnSum (table : list (list nat)) (j : nat) : nat :=
  fold_left (fun sum row => (sum + nth j row 0)%nat) table 0%nat.

Definition mutualInformation (table : list (list nat)) (n : nat) (columns : nat) : R :=
  fold_left (fun acc row =>
    fold_left (fun acc j =>
      if (0 <? nth j row 0)%nat then
        let p_ij := INR (nth j row 0%nat) / INR n in
        let p_i := INR (rowSum row) / INR n in
        let p_j := INR (columnSum table j) / INR n in
        acc + p_ij * log2 (p_ij / (p_i * p_j) + eps)
      else acc)
    (seq 0 columns) acc)
  table 0.

Definition entropyTerm (acc : R) (p : R) : R :=
  if Rlt_dec 0 p then acc - p * log2 (p + eps) else acc.

Definition entropyGroundTruth (table : list (list nat)) (n : nat) : R :=
  fold_left (fun acc row => entropyTerm acc (INR (rowSum row) / INR n)) table 0.

Definition entropyDetected (table : list (list nat)) (n : nat) (columns : nat) : R :=
  fold_left (fun acc j => entropyTerm acc (INR (columnSum table j) / INR n))
            (seq 0 columns) 0.

Definition calculateNMI (groundTruth detected : list CommunityAssignment)
  (nodes : list Node) : R :=
  let n := length nodes in
  let columns := length (labelsOf detected) in
  let table := contingency groundTruth detected nodes in
  let hGroundTruth := entropyGroundTruth table n in
  let hDetected := entropyDetected table n columns in
  if Req_EM_T hGroundTruth 0 then
    if Req_EM_T hDetected 0 then 1
    else Rmax 0 (Rmin 1 (2 * mutualInformation table n columns / (hGroundTruth + hDetected)))
  else Rmax 0 (Rmin 1 (2 * mutualInformation table n columns / (hGroundTruth + hDetected))).

End Performance.

(** * Inputs and notions used in the statements *)

Definition edge_ba : GraphData :=
  mkGraphData [mkNode "b"; mkNode "a"] [mkLink "b" "a"].

(** The path a - b - c - d. *)
Definition path4 : GraphData :=
  mkGraphData [mkNode "a"; mkNode "b"; mkNode "c"; mkNode "d"]
              [mkLink "a" "b"; mkLink "b" "c"; mkLink "c" "d"].

(** The path a - b - c, the edge b - c listed first. *)
Definition path3 : GraphData :=
  mkGraphData [mkNode "a"; mkNode "b"; mkNode "c"]
              [mkLink "b" "c"; mkLink "a" "b"].


Definition defaultParams (target : nat) : Worker1.Params :=
  Worker1.mkParams (Worker1.mkLouvainParams 1) (Worker1.mkGirvanNewmanParams target).






(** One edge a - b and a node z apart. *)
Definition lonely : GraphData :=
  mkGraphData [mkNode "a"; mkNode "b"; mkNode "z"] [mkLink "a" "b"].

(** The sum of the scores of a centrality result. *)
Definition sumOfScores (results : list Centrality.CentralityResult) : Q :=
  fold_right Qplus 0%Q (map Centrality.score results).

(** The shape of a rank table: one entry per node, in node order, each
    at least [bound]. *)
Definition ranked (ids : list string) (bound : Q) (ranks : JsMap.t string Q) : Prop :=
  map fst ranks = ids /\ forall e, In e ranks -> (bound <= snd e)%Q.

(** One node, one community. *)
Definition single : list CommunityAssignment := [mkAssignment "a" 0].

(** A string without the separator of the edge keys. *)
Definition barFree (s : string) : Prop := ~ In "|"%char (list_ascii_of_string s).

(** A link joining the nodes [a] and [b], in either direction. *)
Definition between (a b : string) (l : Link) : bool :=
  (String.eqb (source l) a && String.eqb (target l) b)
  || (String.eqb (source l) b && String.eqb (target l) a).

(** An edge whose ends lie in the communities [c1] and [c2], in either
    direction. *)
Definition joins (p : Worker1.Partition) (c1 c2 : nat) (e : Link) : bool :=
  match JsMap.get (Worker1.nodeToCommunity p) (source e),
        JsMap.get (Worker1.nodeToCommunity p) (target e) with
  | Some a, Some b => ((a =? c1) && (b =? c2)) || ((a =? c2) && (b =? c1))
  | _, _ => false
  end.

(** Every end of every edge has a community, and that community is one
    of the communities of the partition. *)
Definition covered (graph : Worker1.Graph) (p : Worker1.Partition) : Prop :=
  NoDup (JsMap.keys (Worker1.communities p))
  /\ forall e, In e (Worker1.g_edges graph) ->
       exists a b,
         JsMap.get (Worker1.nodeToCommunity p) (source e) = Some a
         /\ JsMap.get (Worker1.nodeToCommunity p) (target e) = Some b
         /\ In a (JsMap.keys (Worker1.communities p))
         /\ In b (JsMap.keys (Worker1.communities p)).

(** The partition of the path a - b - c - d after the first
    optimisation: a, b in community 2 and c, d in community 3. *)
Definition path4Partition : Worker1.Partition :=
  Worker1.mkPartition [("a", 2); ("b", 2); ("c", 3); ("d", 3)]
                      [(2, ["b"; "a"]); (3, ["d"; "c"])]
                      [(0, 0%Z); (1, 0%Z); (2, 3%Z); (3, 3%Z)] 6.

(** The key the second variant counts an edge under, when both ends
    have a community. *)
Definition keyOfEdge (p : Worker1.Partition) (e : Link) : option string :=
  match Worker2.communityKey p e with
  | Normal k => Some k
  | _ => None
  end.

(** The key of the pair of communities [c1], [c2] in the second
    variant: the smaller number first. *)
Definition numberKey (c1 c2 : nat) : string :=
  if c1 <=? c2 then pairKey (toString c1) (toString c2)
  else pairKey (toString c2) (toString c1).

(** A link key that joins two members of one planted community. *)
Definition internalKey (communities : list (list string)) (key : string) : Prop :=
  exists c u v, In c communities /\ In u c /\ In v c /\ key = pairKey u v.

(** The parameters of the smallest instance with two communities of odd
    degree sum: six nodes, communities of three, every degree one. *)
Definition sixNodes (mixing : Q) : Generators.LFRParams :=
  Generators.mkLFRParams 6 mixing 3 3 2 2 1 1.

(** A run in which every call of [Math.random()] returns 0.5. *)
Definition half (k : nat) : Q := 1 # 2.

Definition sixNodeCommunities : list (list string) :=
  [["n0"; "n1"; "n2"]; ["n3"; "n4"; "n5"]].

Definition sixNodeDegrees : JsMap.t string Z :=
  [("n0", 1%Z); ("n1", 1%Z); ("n2", 1%Z); ("n3", 1%Z); ("n4", 1%Z); ("n5", 1%Z)].

(** Eight nodes in two communities of four, every degree one. *)
Definition eightNodes (mixing : Q) : Generators.LFRParams :=
  Generators.mkLFRParams 8 mixing 4 4 2 2 1 1.

(** Every link joins two nodes of the graph data. *)
Definition linksWellFormed (graphData : GraphData) : Prop :=
  forall l, In l (links graphData) ->
    In (source l) (map id (nodes graphData)) /\ In (target l) (map id (nodes graphData)).

(** The link [e] joins [u] and [v], in either direction. *)
Definition linkJoins (e : Link) (u v : string) : Prop :=
  (source e = u /\ target e = v) \/ (source e = v /\ target e = u).

Definition linked (graphData : GraphData) (u v : string) : Prop :=
  exists e, In e (links graphData) /\ linkJoins e u v.

(** Two nodes are connected when a chain of links leads from one to the
    other. *)
Definition connected (graphData : GraphData) : string -> string -> Prop :=
  clos_refl_trans string (linked graphData).

(** [v] is a neighbour of [u] in the adjacency. *)
Definition adjacent (adjacency : Worker1.Adjacency) (u v : string) : Prop :=
  exists s, JsMap.get adjacency u = Some s /\ In v s.

Definition reaches (adjacency : Worker1.Adjacency) : string -> string -> Prop :=
  clos_refl_trans string (adjacent adjacency).

(** A set of nodes that contains the neighbours of its members. *)
Definition closedUnder (adjacency : Worker1.Adjacency) (visited : list string) : Prop :=
  forall x y, In x visited -> adjacent adjacency x y -> In y visited.

(** A list of nodes that is a whole connected component: it holds,
    for each of its members, exactly the nodes that member reaches. *)
Definition wholeComponent (adjacency : Worker1.Adjacency) (c : list string) : Prop :=
  c <> [] /\ forall u, In u c -> forall v, In v c <-> reaches adjacency u v.

(** The state of [getComponents] between two nodes of its outer loop. *)
Definition componentsSoFar (allNodes : list string) (adjacency : Worker1.Adjacency)
  (st : list (list string) * JsSet.t string) : Prop :=
  snd st = concat (fst st)
  /\ NoDup (snd st)
  /\ incl (snd st) allNodes
  /\ closedUnder adjacency (snd st)
  /\ Forall (wholeComponent adjacency) (fst st).

(** Every node of the list has an entry in the adjacency. *)
Definition definedOn (allNodes : list string) (adjacency : Worker1.Adjacency) : Prop :=
  forall x, In x allNodes -> exists s, JsMap.get adjacency x = Some s.

(** A link to a node that is not in the graph data. *)
Definition dangling : GraphData := mkGraphData [mkNode "a"] [mkLink "a" "b"].

(** The two tables of a partition agree: every node of the graph has a
    community, and a node has community [c] exactly when it is a member
    of [c]. *)
Definition consistent (allNodes : list string) (p : Worker1.Partition) : Prop :=
  NoDup (JsMap.keys (Worker1.communities p))
  /\ (forall x, In x allNodes -> exists c, JsMap.get (Worker1.nodeToCommunity p) x = Some c)
  /\ (forall x c, JsMap.get (Worker1.nodeToCommunity p) x = Some c ->
        exists s, JsMap.get (Worker1.communities p) c = Some s /\ In x s)
  /\ (forall c s x, JsMap.get (Worker1.communities p) c = Some s -> In x s ->
        JsMap.get (Worker1.nodeToCommunity p) x = Some c).

(** The state of the constructor of [Partition] after the nodes [done]:
    they are numbered in order, below [next]. *)
Definition numbered (done : list string) (st : Worker1.Partition * nat) : Prop :=
  consistent done (fst st)
  /\ (forall x c, JsMap.get (Worker1.nodeToCommunity (fst st)) x = Some c -> In x done)
  /\ (forall c, In c (JsMap.keys (Worker1.communities (fst st))) -> c < snd st).

(** ** Notions used by the further properties *)

(** A string without white space. *)
Fixpoint spaceFree (s : string) : bool :=
  match s with
  | EmptyString => true
  | String c rest => negb (GraphUtils.isSpace c) && spaceFree rest
  end.

(** A token of an edge-list line: not empty, no white space. *)
Definition token (s : string) : bool := GraphUtils.nonEmpty s && spaceFree s.

(** The ends of a list of links, in the order a reader meets them. *)
Definition endsOf (links : list Link) : list string :=
  flat_map (fun l => [source l; target l]) links.

(** The state of the reader of an edge list: the node set holds
    exactly the ends of the links read, and every end is a token. *)
Definition readerState (st : list Link * JsSet.t string) : Prop :=
  NoDup (snd st)
  /\ (forall x, In x (snd st) <-> In x (endsOf (fst st)))
  /\ (forall x, In x (endsOf (fst st)) -> token x = true).

(** An adjacency over the nodes [allNodes]: every node has an entry,
    the neighbours are nodes, and being a neighbour is mutual. *)
Definition undirectedOver (allNodes : list string) (adjacency : Worker1.Adjacency) : Prop :=
  definedOn allNodes adjacency
  /\ (forall u v, adjacent adjacency u v -> In v allNodes)
  /\ (forall u v, adjacent adjacency u v -> adjacent adjacency v u).

(** What [runGirvanNewman] returns when its main loop ends with the
    adjacency [final]: every node once, the community numbers exactly
    those below their count, two nodes together exactly when the links
    left join them, and no link left that the input does not have. *)
Definition dividedBy (graphData : GraphData) (final : Worker1.Adjacency)
  (result : list CommunityAssignment) : Prop :=
  NoDup (map node result)
  /\ (forall x, In x (map node result) <-> In x (map id (nodes graphData)))
  /\ (exists k, forall c, In c (map community result) <-> c < k)
  /\ (forall a b, In a result -> In b result ->
        (community a = community b <-> reaches final (node a) (node b)))
  /\ (forall u v, adjacent final u v -> linked graphData u v).

(** A triangle a - b - c with a pendant node d on c. *)
Definition kite : GraphData :=
  mkGraphData [mkNode "a"; mkNode "b"; mkNode "c"; mkNode "d"]
              [mkLink "a" "b"; mkLink "b" "c"; mkLink "a" "c"; mkLink "c" "d"].

(** A list of identifiers in strictly ascending order. *)
Fixpoint ascending (l : list string) : bool :=
  match l with
  | [] => true
  | a :: rest =>
      match rest with
      | [] => true
      | b :: _ => String.ltb a b
      end && ascending rest
  end.

(** The pair of nodes of a prediction. *)
Definition pairOf (r : LinkPrediction.LinkPredictionResult) : string * string :=
  (LinkPrediction.lp_source r, LinkPrediction.lp_target r).

(** [u] stands before [v] in the list. *)
Definition before (l : list string) (u v : string) : Prop :=
  exists i j, i < j /\ nth_error l i = Some u /\ nth_error l j = Some v.

(** A candidate pair yields at most one prediction, for that pair: the
    step shared by the four algorithms. *)
Ltac one_result :=
  let uv := fresh "uv" in
  let r := fresh "r" in
  let I := fresh "I" in
  intros uv r I; cbv beta zeta in I |- *;
  match type of I with
  | In _ (if ?c then _ else _) => destruct c; [|destruct I]
  end;
  destruct I as [<-|[]]; split; [reflexivity | destruct uv; reflexivity].


(** A string of decimal digits. *)
Definition isDigit (c : ascii) : bool :=
  (48 <=? nat_of_ascii c) && (nat_of_ascii c <=? 57).

Fixpoint allDigits (s : string) : bool :=
  match s with
  | EmptyString => true
  | String c rest => isDigit c && allDigits rest
  end.

(** The link of a pair of nodes. *)
Definition linkOfPair (uv : string * string) : Link := mkLink (fst uv) (snd uv).

(** The keys of a simple graph over the nodes [ids]: each key joins
    two different nodes, and no pair of nodes has a key in either
    direction twice. *)
Definition simpleKeys (ids : list string) (keys : JsSet.t string) : Prop :=
  NoDup keys
  /\ forall key, In key keys ->
       exists u v, key = pairKey u v /\ In u ids /\ In v ids /\ u <> v
                   /\ ~ In (pairKey v u) keys.

(** Four nodes in two communities of two, every node of degree one with
    its link inside its community: the LFR network of the run in which
    every draw is 0.5. *)
Definition lfrFourParams : Generators.LFRParams :=
  Generators.mkLFRParams 4 0 2 2 2 2 1 1.

Definition lfrFourNodes : Generators.GenerationResult :=
  Generators.mkGeneration
    (mkGraphData [mkNode "n0"; mkNode "n1"; mkNode "n2"; mkNode "n3"]
                 [mkLink "n0" "n1"; mkLink "n2" "n3"])
    [mkAssignment "n0" 0; mkAssignment "n1" 0; mkAssignment "n2" 1; mkAssignment "n3" 1]
    (GraphUtils.edgeListOf [mkLink "n0" "n1"; mkLink "n2" "n3"]).

(** A table of scores over the nodes [ids]: one entry for each node, in
    node order, none negative. *)
Definition scoresOver (ids : list string) (scores : JsMap.t string Q) : Prop :=
  JsMap.keys scores = ids /\ forall e, In e scores -> (0 <= snd e)%Q.

(** Every node of [U] is a key of the table. *)
Definition keysOn {V : Type} (U : list string) (m : JsMap.t string V) : Prop :=
  forall x, In x U -> In x (JsMap.keys m).

(** The number of nodes a breadth-first search has not reached: the
    entries of the distance table that are still negative. *)
Definition negatives (d : JsMap.t string Z) : nat :=
  length (filter (fun e => (snd e <? 0)%Z) d).

(** The search has reached [x]. *)
Definition settled (d : JsMap.t string Z) (x : string) : Prop :=
  exists dx, JsMap.get d x = Some dx /\ (0 <= dx)%Z.

(** The tables of a breadth-first search over the nodes [U] are
    complete, the nodes met are nodes of [U], and no path count is
    negative. *)
Definition searchState (U : list string) (s : Worker1.Search) : Prop :=
  keysOn U (Worker1.bs_d s)
  /\ keysOn U (Worker1.bs_sigma s)
  /\ keysOn U (Worker1.bs_P s)
  /\ (forall x, In x (Worker1.bs_S s) -> In x U)
  /\ (forall w pw, JsMap.get (Worker1.bs_P s) w = Some pw -> incl pw U)
  /\ (forall e, In e (Worker1.bs_sigma s) -> (0 <= snd e)%Q).

(** A table with the keys [keys], complete over [U], without negative
    entries. *)
Definition creditsOver (U keys : list string) (m : JsMap.t string Q) : Prop :=
  JsMap.keys m = keys /\ keysOn U m /\ forall e, In e m -> (0 <= snd e)%Q.

(** Every predecessor the search has recorded for a node is a
    neighbour of that node. *)
Definition predecessorsAdjacent (adjacency : Worker1.Adjacency) (s : Worker1.Search) : Prop :=
  forall w pw, JsMap.get (Worker1.bs_P s) w = Some pw ->
    forall v, In v pw -> adjacent adjacency v w.

(** The state of the main loop of Girvan-Newman over the nodes [U]: the
    adjacency is an undirected graph on [U], every key left is the key
    of a pair of nodes, and every pair of neighbours has its key
    left. *)
Definition dividing (U : list string) (st : Worker1.Divisive) : Prop :=
  undirectedOver U (Worker1.tempAdj st)
  /\ (forall e, In e (Worker1.currentEdges st) ->
        exists a b, In a U /\ In b U /\ e = Worker1.edgeKey a b)
  /\ (forall u v, adjacent (Worker1.tempAdj st) u v ->
        In (Worker1.edgeKey u v) (Worker1.currentEdges st)).

(** The key of a pair of nodes of [U]. *)
Definition nodePairKey (U : list string) (k : string) : Prop :=
  exists a b, In a U /\ In b U /\ k = Worker1.edgeKey a b.

(** * Properties *)

(** ** Sets and maps in insertion order *)

Lemma eqb_key_true : forall {K : Type} `{EqDec K} (x y : K),
  eqb_key x y = true <-> x = y.
Proof.
  intros K H x y. unfold eqb_key. destruct (eq_dec x y); split; congruence.
Qed.

Lemma eqb_key_refl : forall {K : Type} `{EqDec K} (x : K), eqb_key x x = true.
Proof. intros. apply eqb_key_true. reflexivity. Qed.

Lemma set_has_In : forall {K : Type} `{EqDec K} (s : JsSet.t K) (x : K),
  JsSet.has s x = true <-> In x s.
Proof.
  intros K H s x. unfold JsSet.has. rewrite existsb_exists. split.
  - intros [y [Hy E]]. apply eqb_key_true in E. subst. assumption.
  - intros Hx. exists x. split; [assumption | apply eqb_key_refl].
Qed.

Lemma set_has_false : forall {K : Type} `{EqDec K} (s : JsSet.t K) (x : K),
  JsSet.has s x = false <-> ~ In x s.
Proof.
  intros K H s x. rewrite <- set_has_In. destruct (JsSet.has s x); split; congruence.
Qed.

Lemma set_add_In : forall {K : Type} `{EqDec K} (s : JsSet.t K) (x y : K),
  In y (JsSet.add s x) <-> In y s \/ y = x.
Proof.
  intros K H s x y. unfold JsSet.add. destruct (JsSet.has s x) eqn:E.
  - apply set_has_In in E. split; [tauto|]. intros [?|?]; subst; assumption.
  - rewrite in_app_iff. simpl. intuition congruence.
Qed.

Lemma set_add_NoDup : forall {K : Type} `{EqDec K} (s : JsSet.t K) (x : K),
  NoDup s -> NoDup (JsSet.add s x).
Proof.
  intros K H s x Hs. unfold JsSet.add. destruct (JsSet.has s x) eqn:E; [assumption|].
  apply set_has_false in E. apply NoDup_app; [assumption | repeat constructor; simpl; tauto |].
  intros a Ha [<-|[]]. contradiction.
Qed.

Lemma set_of_list_from : forall {K : Type} `{EqDec K} (l : list K) (s : JsSet.t K),
  NoDup s ->
  NoDup (fold_left JsSet.add l s)
  /\ forall y, In y (fold_left JsSet.add l s) <-> In y s \/ In y l.
Proof.
  intros K H l. induction l as [|a l IH]; intros s Hs; simpl.
  - split; [assumption | tauto].
  - destruct (IH (JsSet.add s a) (set_add_NoDup s a Hs)) as [N I]. split; [assumption|].
    intros y. rewrite I, set_add_In. intuition congruence.
Qed.

Lemma set_of_list_NoDup : forall {K : Type} `{EqDec K} (l : list K),
  NoDup (JsSet.of_list l).
Proof. intros. apply set_of_list_from. constructor. Qed.

Lemma set_of_list_In : forall {K : Type} `{EqDec K} (l : list K) (y : K),
  In y (JsSet.of_list l) <-> In y l.
Proof.
  intros K H l y. unfold JsSet.of_list.
  destruct (set_of_list_from l [] (NoDup_nil K)) as [_ I]. rewrite I. simpl. tauto.
Qed.

Lemma set_delete_In : forall {K : Type} `{EqDec K} (s : JsSet.t K) (x y : K),
  In y (JsSet.delete s x) <-> In y s /\ y <> x.
Proof.
  intros K H s x y. unfold JsSet.delete. rewrite filter_In.
  unfold eqb_key. destruct (eq_dec x y); simpl; intuition congruence.
Qed.

Lemma map_get_set_same : forall {K V : Type} `{EqDec K} (m : JsMap.t K V) k v,
  JsMap.get (JsMap.set m k v) k = Some v.
Proof.
  intros K V H m k v. induction m as [|[k' v'] m IH]; simpl.
  - destruct (eq_dec k k); congruence.
  - destruct (eq_dec k k') as [E|E]; simpl.
    + destruct (eq_dec k k'); congruence.
    + destruct (eq_dec k k'); congruence.
Qed.

Lemma map_get_set_other : forall {K V : Type} `{EqDec K} (m : JsMap.t K V) k k' v,
  k' <> k -> JsMap.get (JsMap.set m k v) k' = JsMap.get m k'.
Proof.
  intros K V H m k k' v N. induction m as [|[k0 v0] m IH]; simpl.
  - destruct (eq_dec k' k); congruence.
  - destruct (eq_dec k k0) as [E|E]; simpl.
    + subst k0. destruct (eq_dec k' k); congruence.
    + destruct (eq_dec k' k0); congruence.
Qed.

Lemma map_get_In_keys : forall {K V : Type} `{EqDec K} (m : JsMap.t K V) k,
  In k (JsMap.keys m) <-> exists v, JsMap.get m k = Some v.
Proof.
  intros K V H m k. induction m as [|[k0 v0] m IH]; simpl.
  - split; [tauto | intros [v E]; discriminate].
  - destruct (eq_dec k k0) as [E|E].
    + subst. split; eauto.
    + rewrite IH. intuition congruence.
Qed.

Lemma map_get_None : forall {K V : Type} `{EqDec K} (m : JsMap.t K V) k,
  JsMap.get m k = None <-> ~ In k (JsMap.keys m).
Proof.
  intros K V H m k. rewrite map_get_In_keys. destruct (JsMap.get m k).
  - split; [discriminate | intros N; exfalso; eauto].
  - split; [intros _ [v E]; discriminate | reflexivity].
Qed.

Lemma map_keys_set : forall {K V : Type} `{EqDec K} (m : JsMap.t K V) k v,
  JsMap.keys (JsMap.set m k v)
  = if JsMap.has m k then JsMap.keys m else JsMap.keys m ++ [k].
Proof.
  intros K V H m k v. unfold JsMap.has. induction m as [|[k0 v0] m IH]; simpl.
  - reflexivity.
  - destruct (eq_dec k k0) as [E|E]; simpl; [reflexivity|].
    rewrite IH. destruct (JsMap.get m k); reflexivity.
Qed.

Lemma map_get_In : forall {K V : Type} `{EqDec K} (m : JsMap.t K V) k v,
  JsMap.get m k = Some v -> In (k, v) m.
Proof.
  intros K V H m k v. induction m as [|[k0 v0] m IH]; simpl; [discriminate|].
  destruct (eq_dec k k0); intros E.
  - left. congruence.
  - right. auto.
Qed.

Lemma map_In_get : forall {K V : Type} `{EqDec K} (m : JsMap.t K V) k v,
  NoDup (JsMap.keys m) -> In (k, v) m -> JsMap.get m k = Some v.
Proof.
  intros K V H m k v. induction m as [|[k0 v0] m IH]; simpl; [tauto|].
  intros N [E|I].
  - inversion E; subst. destruct (eq_dec k k); congruence.
  - inversion N; subst. destruct (eq_dec k k0) as [E|E].
    + subst. exfalso. apply H2. change (In (fst (k0, v)) (map fst m)). apply in_map. assumption.
    + auto.
Qed.

Lemma map_keys_set_NoDup : forall {K V : Type} `{EqDec K} (m : JsMap.t K V) k v,
  NoDup (JsMap.keys m) -> NoDup (JsMap.keys (JsMap.set m k v)).
Proof.
  intros K V H m k v N. rewrite map_keys_set. unfold JsMap.has.
  destruct (JsMap.get m k) eqn:E; [assumption|].
  apply map_get_None in E. apply NoDup_app; [assumption | repeat constructor; simpl; tauto |].
  intros a Ha [<-|[]]. contradiction.
Qed.

(** Initialising a map over a list of keys. *)
Lemma map_init_get : forall {K V : Type} `{EqDec K} (f : K -> V) (l : list K)
  (m : JsMap.t K V) k,
  JsMap.get (fold_left (fun m n => JsMap.set m n (f n)) l m) k
  = if in_dec eq_dec k l then Some (f k) else JsMap.get m k.
Proof.
  intros K V H f l. induction l as [|a l IH]; intros m k; simpl.
  - reflexivity.
  - rewrite IH. destruct (in_dec eq_dec k l) as [I|I].
    + destruct (eq_dec a k); reflexivity.
    + destruct (eq_dec a k) as [E|E].
      * subst. apply map_get_set_same.
      * apply map_get_set_other. congruence.
Qed.

Lemma map_init_keys : forall {K V : Type} `{EqDec K} (f : K -> V) (l : list K),
  NoDup l ->
  forall m, NoDup (JsMap.keys m) -> (forall x, In x l -> ~ In x (JsMap.keys m)) ->
  JsMap.keys (fold_left (fun m n => JsMap.set m n (f n)) l m) = JsMap.keys m ++ l.
Proof.
  intros K V H f l N. induction N as [|a l Ha N IH]; intros m Nm D; simpl.
  - rewrite app_nil_r. reflexivity.
  - rewrite IH.
    + rewrite map_keys_set. unfold JsMap.has.
      assert (E : JsMap.get m a = None) by (apply map_get_None; apply D; left; reflexivity).
      rewrite E. rewrite <- app_assoc. reflexivity.
    + apply map_keys_set_NoDup. assumption.
    + intros x Hx. rewrite map_keys_set. unfold JsMap.has.
      assert (E : JsMap.get m a = None) by (apply map_get_None; apply D; left; reflexivity).
      rewrite E, in_app_iff. simpl. intros [I|[I|[]]].
      * apply (D x); [right; assumption | assumption].
      * subst. contradiction.
Qed.

(** ** Sorting strings *)

Lemma insert_string_In : forall x y l, In y (insert_string x l) <-> y = x \/ In y l.
Proof.
  intros x y l. induction l as [|a l IH]; simpl.
  - intuition congruence.
  - destruct (String.leb x a); simpl; [intuition congruence|].
    rewrite IH. intuition congruence.
Qed.

Lemma sort_strings_In : forall l y, In y (sort_strings l) <-> In y l.
Proof.
  intros l y. induction l as [|a l IH]; simpl; [tauto|].
  rewrite insert_string_In, IH. intuition congruence.
Qed.

Lemma ascii_compare_refl : forall c : ascii, Ascii.compare c c = Eq.
Proof. intros c. unfold Ascii.compare. apply N.compare_refl. Qed.

Lemma ascii_compare_lt_trans : forall a b c : ascii,
  Ascii.compare a b = Lt -> Ascii.compare b c = Lt -> Ascii.compare a c = Lt.
Proof.
  unfold Ascii.compare. intros a b c. rewrite !N.compare_lt_iff. apply N.lt_trans.
Qed.

Lemma string_compare_refl : forall s : string, String.compare s s = Eq.
Proof.
  induction s as [|c s IH]; simpl; [reflexivity|]. rewrite ascii_compare_refl. assumption.
Qed.

Lemma string_compare_lt_trans : forall a b c : string,
  String.compare a b = Lt -> String.compare b c = Lt -> String.compare a c = Lt.
Proof.
  induction a as [|x a IH]; intros [|y b] [|z c]; simpl; try congruence.
  destruct (Ascii.compare x y) eqn:Exy; try discriminate;
  destruct (Ascii.compare y z) eqn:Eyz; try discriminate; intros Hab Hbc.
  - apply Ascii.compare_eq_iff in Exy, Eyz. subst. rewrite ascii_compare_refl. eauto.
  - apply Ascii.compare_eq_iff in Exy. subst. rewrite Eyz. reflexivity.
  - apply Ascii.compare_eq_iff in Eyz. subst. rewrite Exy. reflexivity.
  - rewrite (ascii_compare_lt_trans _ _ _ Exy Eyz). reflexivity.
Qed.





(** ** Edge keys *)

Lemma barFree_cons : forall c s,
  barFree (String c s) <-> c <> "|"%char /\ barFree s.
Proof.
  intros c s. unfold barFree. simpl. split.
  - intros N. split; [intros E; apply N; left; assumption | intros I; apply N; right; assumption].
  - intros [N1 N2] [E|I]; [apply N1; assumption | apply N2; assumption].
Qed.

Lemma split_bar_barFree : forall s, barFree s -> split_bar s = [s].
Proof.
  induction s as [|c s IH]; intros B; simpl; [reflexivity|].
  apply barFree_cons in B. destruct B as [N B].
  destruct (Ascii.eqb_spec c "|"%char) as [E|_]; [contradiction|].
  rewrite IH by assumption. reflexivity.
Qed.

Lemma split_bar_joined : forall a b,
  barFree a -> barFree b -> split_bar (a ++ String "|"%char b) = [a; b].
Proof.
  induction a as [|c a IH]; intros b Ba Bb; simpl.
  - rewrite split_bar_barFree by assumption. reflexivity.
  - apply barFree_cons in Ba. destruct Ba as [N Ba].
    destruct (Ascii.eqb_spec c "|"%char) as [E|_]; [contradiction|].
    rewrite (IH b Ba Bb). reflexivity.
Qed.

Lemma split_bar_pairKey : forall a b,
  barFree a -> barFree b -> split_bar (pairKey a b) = [a; b].
Proof. intros a b Ba Bb. apply split_bar_joined; assumption. Qed.

Lemma pairKey_inj : forall a b a' b',
  barFree a -> barFree b -> barFree a' -> barFree b' ->
  pairKey a b = pairKey a' b' -> a = a' /\ b = b'.
Proof.
  intros a b a' b' Ba Bb Ba' Bb' E.
  assert (S : split_bar (pairKey a b) = split_bar (pairKey a' b')) by (rewrite E; reflexivity).
  rewrite !split_bar_pairKey in S by assumption.
  injection S as -> ->. split; reflexivity.
Qed.

Lemma barFree_app : forall a b, barFree a -> barFree b -> barFree (a ++ b).
Proof.
  induction a as [|c a IH]; intros b Ba Bb; simpl; [assumption|].
  apply barFree_cons in Ba. destruct Ba as [N Ba].
  apply barFree_cons. split; [assumption | apply IH; assumption].
Qed.

Lemma barFree_digits : forall d : Decimal.uint, barFree (NilEmpty.string_of_uint d).
Proof.
  induction d; simpl; try (apply barFree_cons; split; [discriminate | assumption]).
  intros [].
Qed.

Lemma barFree_toString : forall n, barFree (toString n).
Proof. intros n. apply barFree_digits. Qed.

Lemma toString_inj : forall a b, toString a = toString b -> a = b.
Proof.
  intros a b E. unfold toString in E.
  assert (U : Some (Nat.to_uint a) = Some (Nat.to_uint b)).
  { rewrite <- !NilEmpty.usu. rewrite E. reflexivity. }
  injection U as U. rewrite <- (Unsigned.of_to a), <- (Unsigned.of_to b), U. reflexivity.
Qed.

Lemma ltb_irrefl : forall a, String.ltb a a = false.
Proof. intros a. unfold String.ltb. rewrite string_compare_refl. reflexivity. Qed.

Lemma ltb_asym : forall a b, a <> b -> String.ltb b a = negb (String.ltb a b).
Proof.
  intros a b N. unfold String.ltb. rewrite (String.compare_antisym b a).
  destruct (String.compare a b) eqn:C; simpl; try reflexivity.
  apply String.compare_eq_iff in C. contradiction.
Qed.

Lemma between_iff : forall a b x y,
  between a b (mkLink x y) = true <-> (x = a /\ y = b) \/ (x = b /\ y = a).
Proof.
  intros a b x y. unfold between. simpl.
  rewrite orb_true_iff, !andb_true_iff, !String.eqb_eq. tauto.
Qed.

(** ** Counting the links of weighted keys *)

Lemma filter_repeat : forall {A : Type} (f : A -> bool) (x : A) (c : nat),
  length (filter f (repeat x c)) = if f x then c else 0.
Proof.
  intros A f x c. induction c as [|c IH]; simpl.
  - destruct (f x); reflexivity.
  - destruct (f x) eqn:F; simpl; rewrite IH; reflexivity.
Qed.

Lemma count_flat_map : forall (P : Link -> bool) (k0 : string) (w : JsMap.t string nat),
  NoDup (JsMap.keys w) ->
  (forall k c, In (k, c) w ->
     length (filter P (Worker1.expandKey (k, c))) = if String.eqb k k0 then c else 0) ->
  length (filter P (flat_map Worker1.expandKey w)) = Worker1.countOf w k0.
Proof.
  intros P k0 w. induction w as [|[k c] w IH]; intros N A.
  - reflexivity.
  - cbn [flat_map]. rewrite filter_app, length_app.
    rewrite (A k c) by (left; reflexivity).
    inversion N as [|? ? Hk Nw]; subst.
    rewrite IH; [|assumption | intros k' c' I; apply A; right; assumption].
    unfold Worker1.countOf. simpl.
    destruct (String.eqb_spec k k0) as [->|Ne].
    + destruct (eq_dec k0 k0) as [_|F]; [|congruence].
      assert (G : JsMap.get w k0 = None) by (apply map_get_None; assumption).
      rewrite G. lia.
    + destruct (eq_dec k0 k) as [F|_]; [congruence|]. reflexivity.
Qed.

(** Folding a partial key function over the edges is a tally of the
    keys. *)
Lemma count_keys_tally : forall (key : Link -> option string) (edges : list Link)
  (w : JsMap.t string nat),
  fold_left (fun w e => match key e with
                        | Some k => JsMap.set w k (Worker1.countOf w k + 1)
                        | None => w
                        end) edges w
  = fold_left (fun m l => JsMap.set m l (Worker1.countOf m l + 1))
              (flat_map (fun e => match key e with Some k => [k] | None => [] end) edges) w.
Proof.
  intros key edges. induction edges as [|e edges IH]; intros w; simpl; [reflexivity|].
  rewrite IH. destruct (key e); simpl; reflexivity.
Qed.

Lemma count_occ_flat_map : forall (key : Link -> option string) (f : Link -> bool)
  (k0 : string) (edges : list Link),
  (forall e, In e edges -> (key e = Some k0 <-> f e = true)) ->
  count_occ string_dec
    (flat_map (fun e => match key e with Some k => [k] | None => [] end) edges) k0
  = length (filter f edges).
Proof.
  intros key f k0 edges. induction edges as [|e edges IH]; intros A; simpl; [reflexivity|].
  rewrite count_occ_app, IH by (intros e' I; apply A; right; assumption).
  specialize (A e (or_introl eq_refl)).
  destruct (key e) as [k|] eqn:K; simpl.
  - destruct (string_dec k k0) as [->|Ne].
    + rewrite (proj1 A eq_refl). reflexivity.
    + destruct (f e); [|reflexivity]. exfalso. apply Ne.
      assert (E : Some k = Some k0) by (apply A; reflexivity). congruence.
  - destruct (f e); [|reflexivity]. assert (E : @None string = Some k0) by (apply A; reflexivity).
    discriminate.
Qed.
(** * Link prediction: existing edges among the predictions *)

(** C1. On the graph parsed from the edge list [b a] (nodes [b], [a] in
    that order, one edge between them) preferential attachment predicts
    the pair [(b, a)], which is the existing edge: the key stored for an
    edge is ordered by identifier, the key looked up for a candidate is
    in node order. *)
Theorem existing_edge_predicted :
  forall Math_log,
    LinkPrediction.calculateLinkPrediction Math_log edge_ba
      LinkPrediction.PREFERENTIAL_ATTACHMENT
    = Normal [LinkPrediction.mkResult "b" "a" 1%Q].
Proof. intros; vm_compute; reflexivity. Qed.

(** * Louvain: nodes missing from the partition *)

(** C2. On the path a - b - c - d the first variant of the worker
    answers a Louvain request with the empty partition: the first level
    ends with the communities numbered 2 and 3, the aggregated graph
    names them "0" and "1", and the composition of the levels looks
    for "2" and "3", finds neither and drops all four nodes. *)
Theorem louvain_drops_nodes :
  Worker1.onmessage 10 path4 Worker1.LOUVAIN (defaultParams 1)
  = Normal (Worker1.SUCCESS []).
Proof. vm_compute. reflexivity. Qed.

(** The hierarchy behind it. *)
Lemma louvain_path4_hierarchy :
  (p0 <- Worker1.newPartition (Worker1.newGraph path4) ;;
   Worker1.louvainLevels 10 1 (Worker1.newGraph path4) p0)
  = Normal [[("a", 2); ("b", 2); ("c", 3); ("d", 3)]; [("0", 1); ("1", 1)]].
Proof. vm_compute. reflexivity. Qed.

(** The second variant keeps every node on the same input. *)
Lemma louvain_second_variant_path4 :
  Worker2.runLouvain 10 (Worker2.newGraph path4) (Worker1.mkLouvainParams 1)
  = Normal [mkAssignment "a" 0; mkAssignment "b" 0; mkAssignment "c" 1; mkAssignment "d" 1].
Proof. vm_compute. reflexivity. Qed.

(** * PageRank: the scores sum to one *)

Lemma map_set_absent : forall {K V : Type} `{EqDec K} (m : JsMap.t K V) k v,
  JsMap.get m k = None -> JsMap.set m k v = m ++ [(k, v)].
Proof.
  intros K V H m k v. induction m as [|[k0 v0] m IH]; simpl; [reflexivity|].
  destruct (eq_dec k k0); [discriminate|]. intros G. rewrite IH by assumption. reflexivity.
Qed.

(** Filling a map over distinct fresh keys lists them in order. *)
Lemma map_init_explicit : forall {K V : Type} `{EqDec K} (f : K -> V) (l : list K),
  NoDup l ->
  forall m, (forall x, In x l -> ~ In x (JsMap.keys m)) ->
  fold_left (fun m n => JsMap.set m n (f n)) l m = m ++ map (fun k => (k, f k)) l.
Proof.
  intros K V H f l N. induction N as [|a l Ha N IH]; intros m D; simpl.
  - rewrite app_nil_r. reflexivity.
  - rewrite map_set_absent by (apply map_get_None; apply D; left; reflexivity).
    rewrite IH.
    + rewrite <- app_assoc. reflexivity.
    + intros x Hx. unfold JsMap.keys. rewrite map_app, in_app_iff. simpl.
      intros [I|[I|[]]].
      * apply (D x); [right; assumption | assumption].
      * subst. contradiction.
Qed.

Lemma iteration_ranks_from : forall g ids damping ranks (l : list string) (st : JsMap.t string Q * Q),
  fst (fold_left (fun (st : JsMap.t string Q * Q) n =>
                    let newRanks := JsMap.set (fst st) n (Centrality.newRankOf g ids damping ranks n) in
                    (newRanks, (snd st + Qabs (Centrality.rankOf newRanks n - Centrality.rankOf ranks n))%Q))
                 l st)
  = fold_left (fun m n => JsMap.set m n (Centrality.newRankOf g ids damping ranks n)) l (fst st).
Proof.
  intros g ids damping ranks l. induction l as [|a l IH]; intros st; simpl; [reflexivity|].
  rewrite IH. reflexivity.
Qed.

Lemma iteration_ranks : forall g ids damping ranks,
  fst (Centrality.iteration g ids damping ranks)
  = fold_left (fun m n => JsMap.set m n (Centrality.newRankOf g ids damping ranks n)) ids [].
Proof.
  intros g ids damping ranks. unfold Centrality.iteration. apply iteration_ranks_from.
Qed.

Lemma Qnat_pos : forall n : nat, (0 < n)%nat -> (0 < Centrality.Qnat n)%Q.
Proof.
  intros n Hn. unfold Centrality.Qnat. change 0%Q with (inject_Z 0).
  rewrite <- Zlt_Qlt. lia.
Qed.

Lemma rankOf_nonneg : forall (ranks : JsMap.t string Q) x,
  (forall e, In e ranks -> (0 <= snd e)%Q) -> (0 <= Centrality.rankOf ranks x)%Q.
Proof.
  intros ranks x A. unfold Centrality.rankOf. destruct (JsMap.get ranks x) eqn:G.
  - apply map_get_In in G. apply (A (x, q)). assumption.
  - apply Qle_refl.
Qed.

Lemma fold_nonneg : forall {A : Type} (f : Q -> A -> Q) (l : list A) (acc : Q),
  (forall a x, (0 <= a)%Q -> (0 <= f a x)%Q) -> (0 <= acc)%Q -> (0 <= fold_left f l acc)%Q.
Proof.
  intros A f l. induction l as [|x l IH]; intros acc F P; simpl; auto.
Qed.

Lemma danglingSum_nonneg : forall g ids ranks,
  (forall e, In e ranks -> (0 <= snd e)%Q) -> (0 <= Centrality.danglingSum g ids ranks)%Q.
Proof.
  intros g ids ranks A. unfold Centrality.danglingSum. apply fold_nonneg; [|apply Qle_refl].
  intros a x Pa. destruct (Centrality.outDegreeOf g x =? 0); [|assumption].
  assert (R := rankOf_nonneg ranks x A). lra.
Qed.

Lemma rankSum_nonneg : forall g ranks n,
  (forall e, In e ranks -> (0 <= snd e)%Q) -> (0 <= Centrality.rankSum g ranks n)%Q.
Proof.
  intros g ranks n A. unfold Centrality.rankSum. apply fold_nonneg; [|apply Qle_refl].
  intros a x Pa. destruct (0 <? Centrality.outDegreeOf g x) eqn:P; [|assumption].
  apply Nat.ltb_lt in P. assert (R := rankOf_nonneg ranks x A).
  assert (D := Qnat_pos _ P).
  assert (0 <= Centrality.rankOf ranks x / Centrality.Qnat (Centrality.outDegreeOf g x))%Q.
  { apply Qle_shift_div_l; [assumption|]. lra. }
  lra.
Qed.

(** Every new rank is at least [(1 - damping) / n]. *)
Lemma newRankOf_bound : forall g ids damping ranks n,
  ids <> [] -> (0 <= damping)%Q ->
  (forall e, In e ranks -> (0 <= snd e)%Q) ->
  ((1 - damping) / Centrality.Qnat (length ids)
   <= Centrality.newRankOf g ids damping ranks n)%Q.
Proof.
  intros g ids damping ranks n NE D A. unfold Centrality.newRankOf.
  assert (L : (0 < Centrality.Qnat (length ids))%Q).
  { apply Qnat_pos. destruct ids; [congruence | simpl; lia]. }
  assert (S := rankSum_nonneg g ranks n A).
  assert (G := danglingSum_nonneg g ids ranks A).
  assert (0 <= Centrality.danglingSum g ids ranks / Centrality.Qnat (length ids))%Q.
  { apply Qle_shift_div_l; [assumption|]. lra. }
  assert (0 <= damping * (Centrality.rankSum g ranks n
                          + Centrality.danglingSum g ids ranks / Centrality.Qnat (length ids)))%Q.
  { apply Qmult_le_0_compat; lra. }
  lra.
Qed.


Lemma ranked_initial : forall ids bound,
  NoDup ids -> (bound <= 1 / Centrality.Qnat (length ids))%Q ->
  ranked ids bound
    (fold_left (fun m x => JsMap.set m x (1 / Centrality.Qnat (length ids))%Q) ids []).
Proof.
  intros ids bound N B.
  rewrite (map_init_explicit (fun _ => (1 / Centrality.Qnat (length ids))%Q) ids N [])
    by (intros x _ []).
  simpl. split.
  - rewrite map_map. simpl. apply map_id.
  - intros e I. apply in_map_iff in I. destruct I as [k [<- _]]. exact B.
Qed.

Lemma ranked_iteration : forall g ids damping bound ranks,
  NoDup ids -> ids <> [] -> (0 <= damping)%Q -> (0 <= bound)%Q ->
  ranked ids bound ranks ->
  ranked ids ((1 - damping) / Centrality.Qnat (length ids))
         (fst (Centrality.iteration g ids damping ranks)).
Proof.
  intros g ids damping bound ranks N NE D B [_ A].
  rewrite iteration_ranks.
  rewrite (map_init_explicit (fun n => Centrality.newRankOf g ids damping ranks n) ids N [])
    by (intros x _ []).
  simpl. split.
  - rewrite map_map. simpl. apply map_id.
  - intros e I. apply in_map_iff in I. destruct I as [k [<- _]]. simpl.
    apply newRankOf_bound; try assumption.
    intros e' I'. apply Qle_trans with bound; [assumption | apply A; assumption].
Qed.

Lemma ranked_iterate : forall g ids damping tolerance k ranks,
  NoDup ids -> ids <> [] -> (0 <= damping)%Q -> (damping <= 1)%Q ->
  ranked ids ((1 - damping) / Centrality.Qnat (length ids)) ranks ->
  ranked ids ((1 - damping) / Centrality.Qnat (length ids))
         (Centrality.iterate k g ids damping tolerance ranks).
Proof.
  intros g ids damping tolerance k. induction k as [|k IH]; intros ranks N NE D0 D1 R; simpl.
  - assumption.
  - assert (L : (0 < Centrality.Qnat (length ids))%Q).
    { apply Qnat_pos. destruct ids; [congruence | simpl; lia]. }
    assert (B : (0 <= (1 - damping) / Centrality.Qnat (length ids))%Q).
    { apply Qle_shift_div_l; [assumption|]. lra. }
    assert (R' := ranked_iteration g ids damping _ ranks N NE D0 B R).
    destruct (Centrality.iteration g ids damping ranks) as [newRanks diff]. simpl in R'.
    destruct (Qlt_le_dec diff tolerance); [assumption|]. apply IH; assumption.
Qed.

Lemma fold_left_Qplus : forall (l : list Q) (acc : Q),
  (fold_left Qplus l acc == acc + fold_right Qplus 0 l)%Q.
Proof.
  induction l as [|x l IH]; intros acc; simpl.
  - lra.
  - rewrite IH. ring.
Qed.

Lemma sum_bound : forall (l : list Q) (bound : Q),
  (forall x, In x l -> (bound <= x)%Q) ->
  (inject_Z (Z.of_nat (length l)) * bound <= fold_right Qplus 0 l)%Q.
Proof.
  induction l as [|x l IH]; intros bound A.
  - simpl. change (inject_Z 0) with 0%Q. lra.
  - change (fold_right Qplus 0 (x :: l))%Q with (x + fold_right Qplus 0 l)%Q.
    assert (Hx : (bound <= x)%Q) by (apply A; left; reflexivity).
    assert (Hl := IH bound (fun y Hy => A y (or_intror Hy))).
    replace (Z.of_nat (length (x :: l))) with (1 + Z.of_nat (length l))%Z by (simpl length; lia).
    rewrite inject_Z_plus. change (inject_Z 1) with 1%Q.
    setoid_replace ((1 + inject_Z (Z.of_nat (length l))) * bound)%Q
      with (bound + inject_Z (Z.of_nat (length l)) * bound)%Q by ring.
    lra.
Qed.

Lemma sum_scaled : forall (l : list Q) (t : Q),
  ~ (t == 0)%Q ->
  (fold_right Qplus 0 (map (fun v => v / t) l) == fold_right Qplus 0 l / t)%Q.
Proof.
  intros l t T. induction l as [|x l IH]; simpl.
  - field. assumption.
  - rewrite IH. field. assumption.
Qed.

Lemma total_bound : forall ids bound ranks,
  ranked ids bound ranks ->
  (Centrality.Qnat (length ids) * bound <= Centrality.total ranks)%Q.
Proof.
  intros ids bound ranks [K A]. unfold Centrality.total. rewrite fold_left_Qplus.
  assert (S := sum_bound (JsMap.values ranks) bound).
  assert (E : length (JsMap.values ranks) = length ids).
  { unfold JsMap.values. rewrite length_map, <- K, length_map. reflexivity. }
  rewrite E in S. unfold Centrality.Qnat.
  assert ((inject_Z (Z.of_nat (length ids)) * bound
           <= fold_right Qplus 0 (JsMap.values ranks))%Q).
  { apply S. intros x I. unfold JsMap.values in I. apply in_map_iff in I.
    destruct I as [e [<- I]]. apply A. assumption. }
  lra.
Qed.

(** C3.  For a graph with at least one node (node identifiers distinct)
    every rank after the power iteration is at least [(1 - damping)/n],
    the total exceeds 1e-9, the result is the table of ranks divided by
    their total, it has one score per node, and the scores sum to one;
    in general the result is empty only when there is no node or the
    total is at most 1e-9. *)
Theorem pagerank_sums_to_one :
  (forall graphData isDirected,
     Centrality.calculatePageRank graphData isDirected = [] ->
     nodes graphData = []
     \/ (Centrality.total
           (Centrality.powerIteration graphData isDirected (85 # 100) 100 (1 # 1000000))
         <= 1 # 1000000000)%Q)
  /\ (forall graphData isDirected,
        nodes graphData <> [] ->
        NoDup (map id (nodes graphData)) ->
        let ranks :=
          Centrality.powerIteration graphData isDirected (85 # 100) 100 (1 # 1000000) in
        let results := Centrality.calculatePageRank graphData isDirected in
        (forall e, In e ranks ->
           ((1 - (85 # 100)) / Centrality.Qnat (length (nodes graphData)) <= snd e)%Q)
        /\ (1 # 1000000000 < Centrality.total ranks)%Q
        /\ results
           = map (fun e => Centrality.mkScore (fst e) (snd e / Centrality.total ranks)%Q) ranks
        /\ map Centrality.nodeId results = map id (nodes graphData)
        /\ (sumOfScores results == 1)%Q
        /\ (Qabs (sumOfScores results - 1) <= 1 # 1000000)%Q).
Proof.
  split.
  - intros graphData isDirected E.
    unfold Centrality.calculatePageRank, Centrality.calculatePageRankWith in E.
    destruct (length (nodes graphData) =? 0) eqn:Z.
    + left. apply Nat.eqb_eq in Z. destruct (nodes graphData); [reflexivity | discriminate].
    + destruct (Qlt_le_dec (1 # 1000000000)
                  (Centrality.total
                     (Centrality.powerIteration graphData isDirected (85 # 100) 100 (1 # 1000000))))
        as [L|L]; [|right; exact L].
      left. apply map_eq_nil in E.
      assert (T : (Centrality.total (@nil (string * Q)) == 0)%Q) by reflexivity.
      rewrite E in L. rewrite T in L. discriminate L.
  - intros graphData isDirected NE N ranks results.
    set (ids := map id (nodes graphData)) in *.
    assert (NE' : ids <> []).
    { unfold ids. destruct (nodes graphData); [congruence | discriminate]. }
    assert (Len : length (nodes graphData) = length ids) by (unfold ids; rewrite length_map; reflexivity).
    assert (L : (0 < Centrality.Qnat (length ids))%Q).
    { apply Qnat_pos. destruct ids; [congruence | simpl; lia]. }
    assert (R : ranked ids ((1 - (85 # 100)) / Centrality.Qnat (length ids)) ranks).
    { unfold ranks, Centrality.powerIteration. fold ids.
      apply ranked_iterate; try assumption; try discriminate.
      apply ranked_initial; [assumption|].
      apply Qle_shift_div_l; [assumption|].
      setoid_replace ((1 - (85 # 100)) / Centrality.Qnat (length ids)
                      * Centrality.Qnat (length ids))%Q
        with (15 # 100)%Q by (field; lra).
      discriminate. }
    assert (T : (1 # 1000000000 < Centrality.total ranks)%Q).
    { assert (B := total_bound _ _ _ R).
      setoid_replace (Centrality.Qnat (length ids)
                      * ((1 - (85 # 100)) / Centrality.Qnat (length ids)))%Q
        with (15 # 100)%Q in B by (field; lra).
      apply Qlt_le_trans with (15 # 100)%Q; [reflexivity | assumption]. }
    assert (E : results
                = map (fun e => Centrality.mkScore (fst e) (snd e / Centrality.total ranks)%Q) ranks).
    { unfold results, Centrality.calculatePageRank, Centrality.calculatePageRankWith.
      rewrite Len. destruct (length ids =? 0) eqn:Z.
      - apply Nat.eqb_eq in Z. destruct ids; [congruence | discriminate].
      - fold ranks. destruct (Qlt_le_dec (1 # 1000000000) (Centrality.total ranks)) as [_|G].
        + reflexivity.
        + exfalso. apply (Qlt_irrefl (Centrality.total ranks)).
          apply Qle_lt_trans with (1 # 1000000000)%Q; assumption. }
    assert (S : (sumOfScores results == 1)%Q).
    { rewrite E. unfold sumOfScores. rewrite map_map. simpl.
      assert (Et : (Centrality.total ranks == fold_right Qplus 0 (map snd ranks))%Q).
      { unfold Centrality.total, JsMap.values. rewrite fold_left_Qplus. ring. }
      assert (P : ~ (Centrality.total ranks == 0)%Q) by (intros Q0; rewrite Q0 in T; discriminate T).
      rewrite <- (map_map snd (fun v => (v / Centrality.total ranks)%Q)).
      rewrite sum_scaled by assumption.
      rewrite <- Et. field. assumption. }
    split; [rewrite Len; apply R|]. split; [exact T|]. split; [exact E|]. split; [|split].
    + rewrite E, map_map. simpl. destruct R as [K _]. exact K.
    + exact S.
    + rewrite S. discriminate.
Qed.

Lemma pagerank_sums_to_one_witness :
  path3.(nodes) <> []
  /\ NoDup (map id (nodes path3))
  /\ (sumOfScores (Centrality.calculatePageRank path3 false) == 1)%Q.
Proof.
  assert (NE : nodes path3 <> []) by (vm_compute; discriminate).
  assert (N : NoDup (map id (nodes path3))).
  { vm_compute. repeat constructor; simpl; intuition discriminate. }
  split; [exact NE|]. split; [exact N|].
  destruct pagerank_sums_to_one as [_ P].
  apply (P path3 false NE N).
Defined.

(** * Girvan-Newman: the components and the early exit *)

(** ** Marking and enqueueing the neighbours of a node *)

Lemma enqueueNew_fold : forall (neighbours : list string) (visited : JsSet.t string)
  (fresh : list string),
  NoDup visited ->
  exists added,
    fold_left Worker1.enqueueNew neighbours (visited, fresh)
    = (visited ++ added, fresh ++ added)
    /\ NoDup (visited ++ added)
    /\ (forall x, In x added <-> In x neighbours /\ ~ In x visited).
Proof.
  induction neighbours as [|v rest IH]; intros visited fresh N.
  - exists []. rewrite !app_nil_r. simpl. split; [reflexivity|]. split; [assumption|].
    intros x. tauto.
  - simpl. unfold Worker1.enqueueNew at 2. simpl.
    destruct (JsSet.has visited v) eqn:H.
    + apply set_has_In in H. destruct (IH visited fresh N) as [added [E [N' A]]].
      exists added. split; [exact E|]. split; [exact N'|].
      intros x. rewrite A. split; [tauto|]. intros [[<-|I] Nx]; [contradiction | tauto].
    + assert (Hv := H). apply set_has_false in Hv.
      assert (Ad : JsSet.add visited v = visited ++ [v]).
      { unfold JsSet.add. rewrite H. reflexivity. }
      rewrite Ad.
      assert (N1 : NoDup (visited ++ [v])).
      { rewrite <- Ad. apply set_add_NoDup. assumption. }
      destruct (IH (visited ++ [v]) (fresh ++ [v]) N1) as [added [E [N' A]]].
      exists (v :: added). rewrite E, <- !app_assoc. simpl.
      split; [reflexivity|]. split; [rewrite <- app_assoc in N'; exact N'|].
      intros x. simpl. rewrite A, in_app_iff. simpl. split.
      * intros [<-|[I Nx]]; [tauto|]. split; [tauto|]. tauto.
      * intros [[<-|I] Nx]; [tauto|].
        destruct (string_dec v x) as [->|Ne]; [tauto|]. right. split; [assumption|]. tauto.
Qed.

Lemma reaches_sym : forall adjacency,
  (forall u v, adjacent adjacency u v -> adjacent adjacency v u) ->
  forall u v, reaches adjacency u v -> reaches adjacency v u.
Proof.
  intros adjacency S u v R. induction R as [x y A| |x y z _ IH1 _ IH2].
  - apply rt_step. apply S. assumption.
  - apply rt_refl.
  - apply rt_trans with y; assumption.
Qed.

Lemma closed_reaches : forall adjacency c,
  closedUnder adjacency c -> forall u v, reaches adjacency u v -> In u c -> In v c.
Proof.
  intros adjacency c C u v R. induction R as [x y A| |x y z _ IH1 _ IH2]; intros I.
  - apply (C x y); assumption.
  - assumption.
  - auto.
Qed.

(** ** The breadth-first search of one component *)

Section Search.

Variable allNodes : list string.
Variable adjacency : Worker1.Adjacency.

Hypothesis adjacency_defined :
  forall x, In x allNodes -> exists s, JsMap.get adjacency x = Some s.
Hypothesis adjacency_inside :
  forall u v, adjacent adjacency u v -> In v allNodes.
Hypothesis adjacency_symmetric :
  forall u v, adjacent adjacency u v -> adjacent adjacency v u.

(** With fuel for every node not yet visited and every node pending,
    the search ends; it appends to the component the nodes pending and
    then the nodes it marks, each reached from a pending node, and the
    neighbours of all of them are marked in the end. *)
Lemma explore_ok : forall fuel pending visited component,
  NoDup visited -> incl visited allNodes -> incl pending visited ->
  length pending + length allNodes <= fuel + length visited ->
  exists extra,
    Worker1.explore fuel adjacency pending visited component
    = Normal (component ++ pending ++ extra, visited ++ extra)
    /\ NoDup (visited ++ extra)
    /\ incl (visited ++ extra) allNodes
    /\ (forall x, In x extra -> exists p, In p pending /\ reaches adjacency p x)
    /\ (forall x y, In x (pending ++ extra) -> adjacent adjacency x y ->
                    In y (visited ++ extra)).
Proof.
  induction fuel as [|fuel IH]; intros pending visited component N Iv Ip L.
  - assert (Lv := NoDup_incl_length N Iv).
    destruct pending as [|u rest]; [|simpl in L; lia].
    exists []. simpl. rewrite !app_nil_r.
    split; [reflexivity|]. split; [assumption|]. split; [assumption|].
    split; [intros x [] | intros x y []].
  - destruct pending as [|u rest].
    + exists []. simpl. rewrite !app_nil_r.
      split; [reflexivity|]. split; [assumption|]. split; [assumption|].
      split; [intros x [] | intros x y []].
    + assert (Hu : In u allNodes) by (apply Iv, Ip; left; reflexivity).
      destruct (adjacency_defined u Hu) as [s Gs].
      destruct (enqueueNew_fold s visited [] N) as [added [E [Na A]]].
      simpl Worker1.explore. rewrite Gs. simpl bind. rewrite E.
      change ([] ++ added) with added.
      assert (Ia : incl (visited ++ added) allNodes).
      { intros x Hx. apply in_app_iff in Hx. destruct Hx as [Hx|Hx]; [auto|].
        apply A in Hx. apply (adjacency_inside u x). exists s. tauto. }
      assert (Ir : incl (rest ++ added) (visited ++ added)).
      { intros x Hx. apply in_app_iff in Hx. apply in_app_iff.
        destruct Hx as [Hx|Hx]; [left; apply Ip; right; assumption | right; assumption]. }
      assert (Lr : length (rest ++ added) + length allNodes
                   <= fuel + length (visited ++ added)).
      { rewrite !length_app. simpl in L. lia. }
      destruct (IH (rest ++ added) (visited ++ added) (component ++ [u]) Na Ia Ir Lr)
        as [extra [R [Ne [Ie [Re Ce]]]]].
      exists (added ++ extra). rewrite R.
      split; [rewrite <- !app_assoc; reflexivity|].
      split; [rewrite app_assoc; exact Ne|].
      split; [rewrite app_assoc; exact Ie|].
      split.
      * intros x Hx. apply in_app_iff in Hx. destruct Hx as [Hx|Hx].
        -- exists u. split; [left; reflexivity|]. apply rt_step. exists s.
           apply A in Hx. tauto.
        -- destruct (Re x Hx) as [p [Hp Rp]]. apply in_app_iff in Hp.
           destruct Hp as [Hp|Hp].
           ++ exists p. split; [right; assumption | assumption].
           ++ exists u. split; [left; reflexivity|].
              apply rt_trans with p; [|assumption]. apply rt_step. exists s.
              apply A in Hp. tauto.
      * intros x y Hx Axy. rewrite app_assoc. simpl in Hx. destruct Hx as [<-|Hx].
        -- destruct Axy as [s' [Gs' Hy]]. rewrite Gs in Gs'. injection Gs' as <-.
           apply in_app_iff. left. apply in_app_iff.
           destruct (in_dec string_dec y visited) as [Hv|Hv]; [left; assumption|].
           right. apply A. tauto.
        -- apply (Ce x y); [|assumption]. rewrite <- app_assoc. assumption.
Qed.

(** One round of the outer loop of [getComponents]. *)
Lemma component_step : forall st n,
  componentsSoFar allNodes adjacency st -> In n allNodes ->
  exists st',
    (if JsSet.has (snd st) n then Normal st
     else
       ' (component, visited') <-
         Worker1.explore (length allNodes) adjacency [n] (JsSet.add (snd st) n) [] ;;
       Normal (fst st ++ [component], visited')) = Normal st'
    /\ componentsSoFar allNodes adjacency st'
    /\ incl (snd st) (snd st')
    /\ In n (snd st').
Proof.
  intros [components visited] n [Ec [N [Iv [Cl Fc]]]] Hn. simpl in *.
  destruct (JsSet.has visited n) eqn:H.
  - exists (components, visited). apply set_has_In in H.
    split; [reflexivity|]. split; [repeat split; assumption|].
    split; [apply incl_refl | exact H].
  - assert (Hv := H). apply set_has_false in Hv.
    assert (Ad : JsSet.add visited n = visited ++ [n]).
    { unfold JsSet.add. rewrite H. reflexivity. }
    rewrite Ad.
    assert (N1 : NoDup (visited ++ [n])) by (rewrite <- Ad; apply set_add_NoDup; assumption).
    assert (I1 : incl (visited ++ [n]) allNodes).
    { intros x Hx. apply in_app_iff in Hx. destruct Hx as [Hx|[<-|[]]]; auto. }
    assert (P1 : incl [n] (visited ++ [n])).
    { intros x [<-|[]]. apply in_app_iff. right. left. reflexivity. }
    assert (L1 : length [n] + length allNodes <= length allNodes + length (visited ++ [n])).
    { rewrite length_app. simpl. lia. }
    destruct (explore_ok (length allNodes) [n] (visited ++ [n]) [] N1 I1 P1 L1)
      as [extra [R [Ne [Ie [Re Ce]]]]].
    rewrite R. simpl bind. simpl app.
    exists (components ++ [n :: extra], (visited ++ [n]) ++ extra). simpl.
    assert (Ev : (visited ++ [n]) ++ extra = visited ++ n :: extra)
      by (rewrite <- app_assoc; reflexivity).
    assert (Rn : forall x, In x (n :: extra) -> reaches adjacency n x).
    { intros x [<-|Hx]; [apply rt_refl|].
      destruct (Re x Hx) as [p [[<-|[]] Rp]]. assumption. }
    assert (Cc : closedUnder adjacency (n :: extra)).
    { intros x y Hx Axy.
      assert (Hy : In y ((visited ++ [n]) ++ extra)) by (apply (Ce x y); assumption).
      rewrite Ev in Hy. apply in_app_iff in Hy. destruct Hy as [Hy|Hy]; [|assumption].
      exfalso. assert (Hxv : In x visited).
      { apply (Cl y x); [assumption | apply adjacency_symmetric; assumption]. }
      rewrite Ev in Ne.
      revert Ne Hxv Hx. clear. intros Ne Hxv Hx.
      induction visited as [|a l IHl]; [destruct Hxv|].
      simpl in Ne. inversion Ne as [|? ? Na Nl]; subst.
      destruct Hxv as [<-|Hxv].
      - apply Na. apply in_app_iff. right. assumption.
      - apply IHl; assumption. }
    split; [reflexivity|]. split.
    + split; [|split; [|split; [|split]]]; simpl.
      * rewrite concat_app. simpl. rewrite app_nil_r, Ev, Ec. reflexivity.
      * exact Ne.
      * exact Ie.
      * intros x y Hx Axy. rewrite Ev in Hx |- *. apply in_app_iff in Hx. apply in_app_iff.
        destruct Hx as [Hx|Hx]; [left; apply (Cl x y); assumption|].
        right. apply (Cc x y); assumption.
      * apply Forall_app. split; [assumption|]. constructor; [|constructor].
        split; [discriminate|]. intros u Hu v. split.
        -- intros Hv'. apply rt_trans with n.
           ++ apply reaches_sym; [assumption | apply Rn; assumption].
           ++ apply Rn. assumption.
        -- intros Ruv. apply (closed_reaches adjacency (n :: extra) Cc u v); assumption.
    + split.
      * intros x Hx. rewrite Ev. apply in_app_iff. left. assumption.
      * rewrite Ev. apply in_app_iff. right. left. reflexivity.
Qed.


Lemma components_fold : forall ns st,
  incl ns allNodes ->
  componentsSoFar allNodes adjacency st ->
  exists st',
    foldM (fun (st : list (list string) * JsSet.t string) n =>
             let '(components, visited) := st in
             if JsSet.has visited n then Normal st
             else
               ' (component, visited') <-
                 Worker1.explore (length allNodes) adjacency [n] (JsSet.add visited n) [] ;;
               Normal (components ++ [component], visited'))
          ns st = Normal st'
    /\ componentsSoFar allNodes adjacency st'
    /\ incl (snd st) (snd st')
    /\ incl ns (snd st').
Proof.
  induction ns as [|n ns IH]; intros st I C.
  - exists st. simpl. split; [reflexivity|]. split; [assumption|].
    split; [apply incl_refl | intros x []].
  - destruct (component_step st n C (I n (or_introl eq_refl))) as [st1 [E [C1 [I1 N1]]]].
    destruct (IH st1 (fun x Hx => I x (or_intror Hx)) C1) as [st2 [E2 [C2 [I2 N2]]]].
    exists st2. simpl foldM. destruct st as [components visited]. simpl in E.
    rewrite E. simpl bind. split; [exact E2|]. split; [exact C2|]. split.
    + intros x Hx. apply I2, I1. assumption.
    + intros x [<-|Hx]; [apply I2; assumption | apply N2; assumption].
Qed.

End Search.

(** [getComponents] ends and returns the connected components of the
    adjacency: its lists partition the nodes, none is empty, and two
    nodes share a list exactly when one reaches the other. *)
Lemma getComponents_ok : forall graph adjacency,
  NoDup (Worker1.g_nodes graph) ->
  (forall x, In x (Worker1.g_nodes graph) -> exists s, JsMap.get adjacency x = Some s) ->
  (forall u v, adjacent adjacency u v -> In v (Worker1.g_nodes graph)) ->
  (forall u v, adjacent adjacency u v -> adjacent adjacency v u) ->
  exists components,
    Worker1.getComponents graph adjacency = Normal components
    /\ NoDup (concat components)
    /\ (forall x, In x (concat components) <-> In x (Worker1.g_nodes graph))
    /\ (forall c, In c components -> c <> [])
    /\ (forall u v, In u (Worker1.g_nodes graph) ->
          ((exists c, In c components /\ In u c /\ In v c) <-> reaches adjacency u v)).
Proof.
  intros graph adjacency N D I S.
  assert (C0 : componentsSoFar (Worker1.g_nodes graph) adjacency ([], [])).
  { split; [reflexivity|]. split; [constructor|]. split; [intros x []|].
    split; [intros x y [] | constructor]. }
  destruct (components_fold (Worker1.g_nodes graph) adjacency D I S
              (Worker1.g_nodes graph) ([], []) (incl_refl _) C0)
    as [[components visited] [E [[Ec [Nv [Iv [Cl Fc]]]] [_ All]]]].
  simpl in Ec, Nv, Iv, Cl, Fc, All.
  exists components. unfold Worker1.getComponents. rewrite E. simpl bind.
  split; [reflexivity|]. subst visited.
  split; [assumption|]. split; [intros x; split; [apply Iv | apply All]|]. split.
  - intros c Hc. rewrite Forall_forall in Fc. apply (Fc c Hc).
  - intros u v Hu. rewrite Forall_forall in Fc. split.
    + intros [c [Hc [Huc Hvc]]]. destruct (Fc c Hc) as [_ W]. apply (W u Huc v). assumption.
    + intros R. assert (Hu' := All u Hu). apply in_concat in Hu'.
      destruct Hu' as [c [Hc Huc]]. exists c. split; [assumption|]. split; [assumption|].
      destruct (Fc c Hc) as [_ W]. apply (W u Huc v). assumption.
Qed.

(** ** The adjacency built from the edges *)

Lemma connect_defined : forall (adjacency : Worker1.Adjacency) a b s,
  JsMap.get adjacency a = Some s ->
  Worker1.connect adjacency a b = Normal (JsMap.set adjacency a (JsSet.add s b)).
Proof. intros adjacency a b s G. unfold Worker1.connect. rewrite G. reflexivity. Qed.

Lemma adjacent_connect : forall (adjacency : Worker1.Adjacency) a b s u v,
  JsMap.get adjacency a = Some s ->
  (adjacent (JsMap.set adjacency a (JsSet.add s b)) u v
   <-> adjacent adjacency u v \/ (u = a /\ v = b)).
Proof.
  intros adjacency a b s u v G. unfold adjacent. destruct (string_dec u a) as [->|N].
  - rewrite map_get_set_same. split.
    + intros [s' [E I]]. injection E as <-. apply set_add_In in I.
      destruct I as [I | ->]; [left; exists s; auto | right; auto].
    + intros [[s' [E I]]|[_ ->]].
      * rewrite G in E. injection E as <-. exists (JsSet.add s b). split; [reflexivity|].
        apply set_add_In. left. assumption.
      * exists (JsSet.add s b). split; [reflexivity|]. apply set_add_In. right. reflexivity.
  - rewrite map_get_set_other by assumption. split; [tauto|].
    intros [A|[E _]]; [assumption | contradiction].
Qed.

Lemma defined_connect : forall allNodes (adjacency : Worker1.Adjacency) a s,
  definedOn allNodes adjacency ->
  definedOn allNodes (JsMap.set adjacency a s).
Proof.
  intros allNodes adjacency a s D x Hx. destruct (string_dec x a) as [->|N].
  - rewrite map_get_set_same. eauto.
  - rewrite map_get_set_other by assumption. apply D. assumption.
Qed.

Lemma adjacency_fold : forall (step : Worker1.Adjacency -> Link -> completion Worker1.Adjacency)
  (allNodes : list string),
  (forall adjacency e,
     definedOn allNodes adjacency -> In (source e) allNodes -> In (target e) allNodes ->
     exists adjacency',
       step adjacency e = Normal adjacency'
       /\ definedOn allNodes adjacency'
       /\ forall u v, adjacent adjacency' u v <-> adjacent adjacency u v \/ linkJoins e u v) ->
  forall edges adjacency,
    definedOn allNodes adjacency ->
    (forall e, In e edges -> In (source e) allNodes /\ In (target e) allNodes) ->
    exists adjacency',
      foldM step edges adjacency = Normal adjacency'
      /\ definedOn allNodes adjacency'
      /\ forall u v, adjacent adjacency' u v
                     <-> adjacent adjacency u v \/ exists e, In e edges /\ linkJoins e u v.
Proof.
  intros step allNodes St edges. induction edges as [|e edges IH]; intros adjacency D W.
  - exists adjacency. simpl. split; [reflexivity|]. split; [assumption|].
    intros u v. split; [tauto|]. intros [A|[e [[] _]]]. assumption.
  - destruct (W e (or_introl eq_refl)) as [Hs Ht].
    destruct (St adjacency e D Hs Ht) as [a1 [E1 [D1 A1]]].
    destruct (IH a1 D1 (fun e' He' => W e' (or_intror He'))) as [a2 [E2 [D2 A2]]].
    exists a2. simpl. rewrite E1. simpl. split; [exact E2|]. split; [exact D2|].
    intros u v. rewrite A2, A1. split.
    + intros [[A|J]|[e' [He' J]]]; [tauto | right; exists e; simpl; auto
                                     | right; exists e'; simpl; auto].
    + intros [A|[e' [[<-|He'] J]]]; [tauto | tauto | right; exists e'; auto].
Qed.

Lemma first_variant_step : forall allNodes adjacency e,
  definedOn allNodes adjacency -> In (source e) allNodes -> In (target e) allNodes ->
  exists adjacency',
    (tempAdj1 <- Worker1.connect adjacency (source e) (target e) ;;
     Worker1.connect tempAdj1 (target e) (source e)) = Normal adjacency'
    /\ definedOn allNodes adjacency'
    /\ forall u v, adjacent adjacency' u v <-> adjacent adjacency u v \/ linkJoins e u v.
Proof.
  intros allNodes adjacency e D Hs Ht.
  destruct (D _ Hs) as [s1 G1].
  rewrite (connect_defined adjacency _ _ s1 G1). simpl bind.
  assert (D1 := defined_connect allNodes adjacency (source e) (JsSet.add s1 (target e)) D).
  destruct (D1 _ Ht) as [s2 G2].
  rewrite (connect_defined _ _ _ s2 G2).
  eexists. split; [reflexivity|]. split; [apply defined_connect; assumption|].
  intros u v. rewrite (adjacent_connect _ _ _ s2 u v G2), (adjacent_connect _ _ _ s1 u v G1).
  unfold linkJoins. intuition congruence.
Qed.

Lemma second_variant_step : forall allNodes adjacency e,
  definedOn allNodes adjacency -> In (source e) allNodes -> In (target e) allNodes ->
  exists adjacency',
    (tempAdj1 <- Worker1.connect adjacency (source e) (target e) ;;
     if String.eqb (source e) (target e) then Normal tempAdj1
     else Worker1.connect tempAdj1 (target e) (source e)) = Normal adjacency'
    /\ definedOn allNodes adjacency'
    /\ forall u v, adjacent adjacency' u v <-> adjacent adjacency u v \/ linkJoins e u v.
Proof.
  intros allNodes adjacency e D Hs Ht.
  destruct (D _ Hs) as [s1 G1].
  rewrite (connect_defined adjacency _ _ s1 G1). simpl bind.
  assert (D1 := defined_connect allNodes adjacency (source e) (JsSet.add s1 (target e)) D).
  destruct (String.eqb_spec (source e) (target e)) as [E|N].
  - eexists. split; [reflexivity|]. split; [assumption|].
    intros u v. rewrite (adjacent_connect _ _ _ s1 u v G1).
    unfold linkJoins. rewrite <- E. intuition congruence.
  - destruct (D1 _ Ht) as [s2 G2].
    rewrite (connect_defined _ _ _ s2 G2).
    eexists. split; [reflexivity|]. split; [apply defined_connect; assumption|].
    intros u v. rewrite (adjacent_connect _ _ _ s2 u v G2), (adjacent_connect _ _ _ s1 u v G1).
    unfold linkJoins. intuition congruence.
Qed.

Lemma empty_adjacency : forall allNodes : list string,
  definedOn allNodes (fold_left (fun m n => JsMap.set m n []) allNodes [])
  /\ forall u v, ~ adjacent (fold_left (fun m n => JsMap.set m n []) allNodes []) u v.
Proof.
  intros allNodes. split.
  - intros x Hx. rewrite (map_init_get (fun _ => @nil string)).
    destruct (in_dec eq_dec x allNodes); [eauto | contradiction].
  - intros u v [s [G I]]. rewrite (map_init_get (fun _ => @nil string)) in G.
    destruct (in_dec eq_dec u allNodes); [|discriminate].
    injection G as <-. destruct I.
Qed.

(** For well-formed links both variants build an adjacency in which
    the neighbours of a node are the nodes linked to it. *)
Lemma initialAdjacency_ok : forall graphData,
  linksWellFormed graphData ->
  (exists adjacency,
     Worker1.initialAdjacency (Worker1.newGraph graphData) = Normal adjacency
     /\ definedOn (Worker1.g_nodes (Worker1.newGraph graphData)) adjacency
     /\ forall u v, adjacent adjacency u v <-> linked graphData u v)
  /\ (exists adjacency,
        Worker2.initialAdjacency (Worker2.newGraph graphData) = Normal adjacency
        /\ definedOn (Worker1.g_nodes (Worker2.newGraph graphData)) adjacency
        /\ forall u v, adjacent adjacency u v <-> linked graphData u v).
Proof.
  intros graphData W.
  assert (N2 : Worker1.g_nodes (Worker2.newGraph graphData)
               = JsSet.of_list (map id (nodes graphData))).
  { unfold Worker2.newGraph.
    destruct (fold_left _ _ _) as [[a d] m]. reflexivity. }
  assert (E2 : Worker1.g_edges (Worker2.newGraph graphData) = links graphData).
  { unfold Worker2.newGraph.
    destruct (fold_left _ _ _) as [[a d] m]. reflexivity. }
  set (allNodes := JsSet.of_list (map id (nodes graphData))).
  assert (W' : forall e, In e (links graphData) ->
                         In (source e) allNodes /\ In (target e) allNodes).
  { intros e He. destruct (W e He). split; apply set_of_list_In; assumption. }
  destruct (empty_adjacency allNodes) as [D0 A0].
  split.
  - destruct (adjacency_fold _ allNodes (first_variant_step allNodes)
                (links graphData) _ D0 W') as [adjacency [E [D A]]].
    exists adjacency. split; [exact E|]. split; [exact D|].
    intros u v. rewrite A. unfold linked. split; [|tauto].
    intros [F|L]; [exfalso; apply (A0 u v F) | assumption].
  - destruct (adjacency_fold _ allNodes (second_variant_step allNodes)
                (links graphData) _ D0 W') as [adjacency [E [D A]]].
    exists adjacency. unfold Worker2.initialAdjacency. rewrite N2, E2.
    split; [exact E|]. split; [exact D|].
    intros u v. rewrite A. unfold linked. split; [|tauto].
    intros [F|L]; [exfalso; apply (A0 u v F) | assumption].
Qed.

(** ** The partition returned *)

Lemma assign_from : forall (components : list (list string)) (start : nat) u i,
  In (mkAssignment u i)
     (concat (map (fun ci => map (fun n => mkAssignment n (snd ci)) (fst ci))
                  (combine components (seq start (length components)))))
  <-> exists c, start <= i /\ nth_error components (i - start) = Some c /\ In u c.
Proof.
  induction components as [|c components IH]; intros start u i; simpl.
  - split; [tauto|]. intros [c [_ [E _]]]. destruct (i - start); discriminate.
  - rewrite in_app_iff, IH, in_map_iff. split.
    + intros [[n [E Hn]]|[c' [L [E Hc']]]].
      * injection E as -> ->. exists c. rewrite Nat.sub_diag. simpl. auto.
      * exists c'. split; [lia|]. replace (i - start) with (S (i - S start)) by lia.
        simpl. auto.
    + intros [c' [L [E Hc']]]. destruct (i - start) as [|k] eqn:K; simpl in E.
      * injection E as ->. left. exists u. split; [f_equal; lia | assumption].
      * right. exists c'. split; [lia|]. replace (i - S start) with k by lia. auto.
Qed.

Lemma assignComponents_In : forall components u i,
  In (mkAssignment u i) (Worker1.assignComponents components)
  <-> exists c, nth_error components i = Some c /\ In u c.
Proof.
  intros components u i. unfold Worker1.assignComponents. rewrite assign_from.
  rewrite Nat.sub_0_r. split; intros [c H]; exists c; [tauto | split; [lia | tauto]].
Qed.

Lemma disjoint_components : forall (components : list (list string)) i j ci cj x,
  NoDup (concat components) ->
  nth_error components i = Some ci -> nth_error components j = Some cj ->
  In x ci -> In x cj -> i = j.
Proof.
  induction components as [|c components IH]; intros i j ci cj x N Ei Ej Hi Hj.
  - destruct i; discriminate.
  - simpl in N. apply NoDup_app_remove_l in N as N'.
    assert (Dis : forall y c', In y c -> In c' components -> In y c' -> False).
    { intros y c' Hy Hc' Hy'. clear -N Hy Hc' Hy'.
      induction c as [|a c IHc]; [destruct Hy|].
      simpl in N. inversion N as [|? ? Na Nc]; subst. destruct Hy as [<-|Hy].
      - apply Na. apply in_app_iff. right. apply in_concat. exists c'. auto.
      - apply IHc; assumption. }
    destruct i as [|i], j as [|j]; simpl in Ei, Ej.
    + reflexivity.
    + injection Ei as <-. exfalso. apply (Dis x cj Hi); [apply (nth_error_In _ _ Ej) | assumption].
    + injection Ej as <-. exfalso. apply (Dis x ci Hj); [apply (nth_error_In _ _ Ei) | assumption].
    + f_equal. apply (IH i j ci cj x N' Ei Ej Hi Hj).
Qed.

Lemma divide_exit : forall fuel graph target numComponents st,
  target <= numComponents ->
  Worker1.divide fuel graph target numComponents st = Normal st.
Proof.
  intros fuel graph target numComponents st L.
  assert (G : (numComponents <? target) = false) by (apply Nat.ltb_ge; assumption).
  destruct fuel; simpl; rewrite G; reflexivity.
Qed.

Lemma divide_exit_second : forall fuel graph target numComponents st,
  target <= numComponents ->
  Worker2.divide fuel graph target numComponents st = Normal st.
Proof.
  intros fuel graph target numComponents st L.
  assert (G : (numComponents <? target) = false) by (apply Nat.ltb_ge; assumption).
  destruct fuel; simpl; rewrite G; reflexivity.
Qed.

Lemma connected_adjacency : forall graphData adjacency,
  (forall u v, adjacent adjacency u v <-> linked graphData u v) ->
  forall u v, reaches adjacency u v <-> connected graphData u v.
Proof.
  intros graphData adjacency A u v. unfold reaches, connected. split; intros R.
  - induction R as [x y H| |x y z _ IH1 _ IH2];
      [apply rt_step; apply A; assumption | apply rt_refl | apply rt_trans with y; assumption].
  - induction R as [x y H| |x y z _ IH1 _ IH2];
      [apply rt_step; apply A; assumption | apply rt_refl | apply rt_trans with y; assumption].
Qed.

Lemma linked_sym : forall graphData u v, linked graphData u v -> linked graphData v u.
Proof.
  intros graphData u v [e [He J]]. exists e. split; [assumption|].
  unfold linkJoins in *. tauto.
Qed.

Lemma linked_inside : forall graphData u v,
  linksWellFormed graphData -> linked graphData u v ->
  In v (JsSet.of_list (map id (nodes graphData))).
Proof.
  intros graphData u v W [e [He J]]. destruct (W e He) as [Hs Ht].
  apply set_of_list_In. destruct J as [[_ <-]|[<- _]]; assumption.
Qed.

(** The components [getComponents] finds on the adjacency of a
    well-formed graph, in either variant. *)
Lemma components_of_graph : forall graphData graph adjacency,
  linksWellFormed graphData ->
  Worker1.g_nodes graph = JsSet.of_list (map id (nodes graphData)) ->
  definedOn (Worker1.g_nodes graph) adjacency ->
  (forall u v, adjacent adjacency u v <-> linked graphData u v) ->
  exists components,
    Worker1.getComponents graph adjacency = Normal components
    /\ NoDup (concat components)
    /\ (forall x, In x (concat components) <-> In x (map id (nodes graphData)))
    /\ (forall c, In c components -> c <> [])
    /\ (forall u v i j,
          In (mkAssignment u i) (Worker1.assignComponents components) ->
          In (mkAssignment v j) (Worker1.assignComponents components) ->
          (i = j <-> connected graphData u v)).
Proof.
  intros graphData graph adjacency W Ng D A.
  assert (Nn : NoDup (Worker1.g_nodes graph)) by (rewrite Ng; apply set_of_list_NoDup).
  assert (In' : forall u v, adjacent adjacency u v -> In v (Worker1.g_nodes graph)).
  { intros u v H. rewrite Ng. apply (linked_inside graphData u v W). apply A. assumption. }
  assert (Sy : forall u v, adjacent adjacency u v -> adjacent adjacency v u).
  { intros u v H. apply A. apply linked_sym. apply A. assumption. }
  destruct (getComponents_ok graph adjacency Nn D In' Sy)
    as [components [E [Nc [Mem [Ne Cl]]]]].
  exists components. split; [exact E|]. split; [exact Nc|]. split.
  - intros x. rewrite Mem, Ng. apply set_of_list_In.
  - split; [exact Ne|].
    intros u v i j Hu Hv. apply assignComponents_In in Hu, Hv.
    destruct Hu as [ci [Ei Hu]]. destruct Hv as [cj [Ej Hv]].
    assert (Un : In u (Worker1.g_nodes graph)).
    { apply Mem. apply in_concat. exists ci. split; [apply (nth_error_In _ _ Ei) | assumption]. }
    rewrite <- (connected_adjacency graphData adjacency A). rewrite <- (Cl u v Un). split.
    + intros <-. exists ci. rewrite Ei in Ej. injection Ej as <-.
      split; [apply (nth_error_In _ _ Ei) | auto].
    + intros [c [Hc [Huc Hvc]]]. apply In_nth_error in Hc. destruct Hc as [k Ek].
      assert (i = k) by (apply (disjoint_components components i k ci c u Nc Ei Ek Hu Huc)).
      assert (j = k) by (apply (disjoint_components components j k cj c v Nc Ej Ek Hv Hvc)).
      congruence.
Qed.

(** C4.  For a graph whose links join nodes of the graph: the adjacency
    is built, [getComponents] returns the connected components (every
    node in exactly one, two nodes with the same community number
    exactly when a chain of links connects them), and when the target
    does not exceed their number the main loop ends in its initial
    state, no edge removed, and the result assigns to each node the
    index of its component. *)
Theorem girvan_newman_early_exit :
  forall graphData target,
    linksWellFormed graphData ->
    exists adjacency components,
      Worker1.initialAdjacency (Worker1.newGraph graphData) = Normal adjacency
      /\ Worker1.getComponents (Worker1.newGraph graphData) adjacency = Normal components
      /\ NoDup (concat components)
      /\ (forall x, In x (concat components) <-> In x (map id (nodes graphData)))
      /\ (forall c, In c components -> c <> [])
      /\ (forall u v i j,
            In (mkAssignment u i) (Worker1.assignComponents components) ->
            In (mkAssignment v j) (Worker1.assignComponents components) ->
            (i = j <-> connected graphData u v))
      /\ (target <= length components ->
          Worker1.girvanNewmanFinal (Worker1.newGraph graphData)
            (Worker1.mkGirvanNewmanParams target)
          = Normal (Worker1.mkDivisive (Worker1.initialEdges (Worker1.newGraph graphData))
                                       adjacency)
          /\ Worker1.runGirvanNewman (Worker1.newGraph graphData)
               (Worker1.mkGirvanNewmanParams target)
             = Normal (Worker1.assignComponents components)).
Proof.
  intros graphData target W.
  destruct (initialAdjacency_ok graphData W) as [[adjacency [Ea [D A]]] _].
  destruct (components_of_graph graphData (Worker1.newGraph graphData) adjacency W
              eq_refl D A) as [components [Ec [Nc [Mem [Ne Same]]]]].
  exists adjacency, components.
  split; [exact Ea|]. split; [exact Ec|]. split; [exact Nc|]. split; [exact Mem|].
  split; [exact Ne|]. split; [exact Same|].
  intros L.
  assert (F : Worker1.girvanNewmanFinal (Worker1.newGraph graphData)
                (Worker1.mkGirvanNewmanParams target)
              = Normal (Worker1.mkDivisive (Worker1.initialEdges (Worker1.newGraph graphData))
                                           adjacency)).
  { unfold Worker1.girvanNewmanFinal. rewrite Ea. simpl bind. rewrite Ec. simpl bind.
    apply divide_exit. exact L. }
  split; [exact F|].
  unfold Worker1.runGirvanNewman. rewrite F. simpl bind. rewrite Ec. reflexivity.
Qed.

(** The second variant behaves alike. *)
Lemma girvan_newman_early_exit_second :
  forall graphData target,
    linksWellFormed graphData ->
    exists adjacency components,
      Worker2.initialAdjacency (Worker2.newGraph graphData) = Normal adjacency
      /\ Worker1.getComponents (Worker2.newGraph graphData) adjacency = Normal components
      /\ (forall u v i j,
            In (mkAssignment u i) (Worker1.assignComponents components) ->
            In (mkAssignment v j) (Worker1.assignComponents components) ->
            (i = j <-> connected graphData u v))
      /\ (target <= length components ->
          Worker2.girvanNewmanFinal (Worker2.newGraph graphData)
            (Worker1.mkGirvanNewmanParams target)
          = Normal (Worker2.mkDivisive (Worker1.g_m (Worker2.newGraph graphData)) adjacency)
          /\ Worker2.runGirvanNewman (Worker2.newGraph graphData)
               (Worker1.mkGirvanNewmanParams target)
             = Normal (Worker1.assignComponents components)).
Proof.
  intros graphData target W.
  destruct (initialAdjacency_ok graphData W) as [_ [adjacency [Ea [D A]]]].
  assert (N2 : Worker1.g_nodes (Worker2.newGraph graphData)
               = JsSet.of_list (map id (nodes graphData))).
  { unfold Worker2.newGraph. destruct (fold_left _ _ _) as [[a d] m]. reflexivity. }
  destruct (components_of_graph graphData (Worker2.newGraph graphData) adjacency W
              N2 D A) as [components [Ec [Nc [Mem [Ne Same]]]]].
  exists adjacency, components.
  split; [exact Ea|]. split; [exact Ec|]. split; [exact Same|].
  intros L.
  assert (F : Worker2.girvanNewmanFinal (Worker2.newGraph graphData)
                (Worker1.mkGirvanNewmanParams target)
              = Normal (Worker2.mkDivisive (Worker1.g_m (Worker2.newGraph graphData))
                                           adjacency)).
  { unfold Worker2.girvanNewmanFinal. rewrite Ea. simpl bind. rewrite Ec. simpl bind.
    apply divide_exit_second. exact L. }
  split; [exact F|].
  unfold Worker2.runGirvanNewman. rewrite F. simpl bind. rewrite Ec. reflexivity.
Qed.

Lemma girvan_newman_early_exit_witness :
  Worker1.runGirvanNewman (Worker1.newGraph lonely) (Worker1.mkGirvanNewmanParams 2)
  = Normal [mkAssignment "a" 0; mkAssignment "b" 0; mkAssignment "z" 1].
Proof.
  assert (W : linksWellFormed lonely).
  { intros l [<-|[]]. vm_compute. tauto. }
  destruct (girvan_newman_early_exit lonely 2 W)
    as [adjacency [components [Ea [Ec [_ [_ [_ [_ Exit]]]]]]]].
  vm_compute in Ea. injection Ea as <-.
  vm_compute in Ec. injection Ec as <-.
  destruct Exit as [_ R]; [simpl; lia|]. rewrite R. reflexivity.
Defined.

(** Without the hypothesis on the links the run does not reach the
    loop: the adjacency of a link to an unknown node cannot be built. *)
Lemma dangling_link_throws :
  Worker1.runGirvanNewman (Worker1.newGraph dangling) (Worker1.mkGirvanNewmanParams 1)
  = Throws "TypeError: Cannot read properties of undefined".
Proof. vm_compute. reflexivity. Qed.

(** * Girvan-Newman: which edge is removed on a tie *)

(** C5, as the claim states it, fails.  On the path a - b - c with the
    edge b - c listed first both edges have betweenness 4; the edge
    removed is b - c, although the source of a - b is the smaller
    identifier.  Both variants of the worker agree. *)
Lemma tie_not_broken_by_identifier :
  (adjacency <- Worker1.initialAdjacency (Worker1.newGraph path3) ;;
   Worker1.edgeBetweenness (Worker1.newGraph path3) adjacency [("b|c", 0%Q); ("a|b", 0%Q)])
  = Normal [("b|c", 4%Q); ("a|b", 4%Q)]
  /\ String.ltb "a" "b" = true
  /\ Worker1.girvanNewmanFinal (Worker1.newGraph path3) (Worker1.mkGirvanNewmanParams 2)
     = Normal (Worker1.mkDivisive ["a|b"] [("a", ["b"]); ("b", ["a"]); ("c", [])])
  /\ Worker2.girvanNewmanFinal (Worker2.newGraph path3) (Worker1.mkGirvanNewmanParams 2)
     = Normal (Worker2.mkDivisive 1 [("a", ["b"]); ("b", ["a"]); ("c", [])]).
Proof. repeat split; vm_compute; reflexivity. Qed.

Lemma gtQ_true : forall a b : Q, Worker1.gtQ a b = true <-> (b < a)%Q.
Proof.
  intros a b. unfold Worker1.gtQ. destruct (Qlt_le_dec b a) as [L|L].
  - tauto.
  - split; [discriminate|]. intros L'. exfalso. apply (Qlt_irrefl a).
    apply Qle_lt_trans with b; assumption.
Qed.

Lemma gtQ_false : forall a b : Q, Worker1.gtQ a b = false <-> (a <= b)%Q.
Proof.
  intros a b. unfold Worker1.gtQ. destruct (Qlt_le_dec b a) as [L|L].
  - split; [discriminate|]. intros L'. exfalso. apply (Qlt_irrefl a).
    apply Qle_lt_trans with b; assumption.
  - tauto.
Qed.

Lemma scanMax_below : forall (v : Q) (entries : JsMap.t string Q) (st : Q * string),
  (fst st < v)%Q ->
  (forall e, In e entries -> (snd e < v)%Q) ->
  (fst (fold_left Worker1.scanMax entries st) < v)%Q.
Proof.
  intros v entries. induction entries as [|e entries IH]; intros st L A; simpl.
  - assumption.
  - apply IH.
    + unfold Worker1.scanMax. destruct (Worker1.gtQ (snd e) (fst st)); simpl.
      * apply A. left. reflexivity.
      * assumption.
    + intros e' I. apply A. right. assumption.
Qed.

Lemma scanMax_kept : forall (entries : JsMap.t string Q) (st : Q * string),
  (forall e, In e entries -> (snd e <= fst st)%Q) ->
  fold_left Worker1.scanMax entries st = st.
Proof.
  induction entries as [|e entries IH]; intros st A; simpl.
  - reflexivity.
  - assert (E : Worker1.scanMax st e = st).
    { unfold Worker1.scanMax.
      rewrite (proj2 (gtQ_false (snd e) (fst st))); [reflexivity|].
      apply A. left. reflexivity. }
    rewrite E. apply IH. intros e' I. apply A. right. assumption.
Qed.

(** Every non-empty betweenness map (its values are not negative) has
    such a first maximum. *)
Lemma first_maximum_exists : forall (betweenness : JsMap.t string Q),
  betweenness <> [] ->
  (forall e, In e betweenness -> (-1 < snd e)%Q) ->
  exists earlier edge value later,
    betweenness = earlier ++ (edge, value) :: later
    /\ (forall e, In e earlier -> (snd e < value)%Q)
    /\ (forall e, In e later -> (snd e <= value)%Q).
Proof.
  induction betweenness as [|[k v] rest IH]; intros NE P; [congruence|].
  destruct rest as [|e rest'].
  - exists [], k, v, []. split; [reflexivity|]. split; intros e [].
  - destruct IH as [earlier [edge [value [later [E [B A]]]]]];
      [discriminate | intros e' I; apply P; right; assumption|].
    destruct (Qlt_le_dec v value) as [L|L].
    + exists ((k, v) :: earlier), edge, value, later. rewrite E.
      split; [reflexivity|]. split; [|assumption].
      intros e' [<-|I]; [assumption | apply B; assumption].
    + exists [], k, v, (e :: rest'). split; [reflexivity|]. split; [intros e' []|].
      intros e' I. rewrite E in I. apply in_app_iff in I.
      destruct I as [I|[<-|I]].
      * apply Qlt_le_weak. apply Qlt_le_trans with value; [apply B; assumption | assumption].
      * assumption.
      * apply Qle_trans with value; [apply A; assumption | assumption].
Qed.

(** C5, amended.  In both variants the edge removed is the first entry,
    in the iteration order of the betweenness map, whose value is the
    maximum: every earlier entry is strictly smaller, no later entry is
    larger. *)
Theorem first_maximum_removed :
  forall (betweenness earlier later : JsMap.t string Q) (edge : string) (value : Q),
    betweenness = earlier ++ (edge, value) :: later ->
    (-1 < value)%Q ->
    (forall e, In e earlier -> (snd e < value)%Q) ->
    (forall e, In e later -> (snd e <= value)%Q) ->
    Worker1.edgeToRemove betweenness = edge.
Proof.
  intros betweenness earlier later edge value -> P E L.
  unfold Worker1.edgeToRemove. rewrite fold_left_app. simpl.
  assert (B : (fst (fold_left Worker1.scanMax earlier ((-1)%Q, "")) < value)%Q).
  { apply scanMax_below; [exact P | exact E]. }
  assert (S : Worker1.scanMax (fold_left Worker1.scanMax earlier ((-1)%Q, "")) (edge, value)
              = (value, edge)).
  { unfold Worker1.scanMax at 1. cbn [fst snd].
    rewrite (proj2 (gtQ_true _ _) B). reflexivity. }
  rewrite S, scanMax_kept; [reflexivity | exact L].
Qed.

Lemma first_maximum_removed_witness :
  Worker1.edgeToRemove [("b|c", 4%Q); ("a|b", 4%Q)] = "b|c".
Proof.
  apply (first_maximum_removed [("b|c", 4%Q); ("a|b", 4%Q)] [] [("a|b", 4%Q)] "b|c" 4%Q).
  - reflexivity.
  - reflexivity.
  - intros e [].
  - intros e [<-|[]]. simpl. discriminate.
Defined.

(** * The LFR generator at the extremes of the mixing parameter *)

Lemma round_exact : forall (z : Z) (q : Q), (q == inject_Z z)%Q -> Generators.round q = z.
Proof.
  intros z q E. unfold Generators.round.
  assert (L : (z <= Qfloor (q + (1 # 2)))%Z).
  { rewrite <- (Qfloor_Z z). apply Qfloor_resp_le. rewrite E. lra. }
  assert (U : (Qfloor (q + (1 # 2)) < z + 1)%Z).
  { rewrite Zlt_Qlt. apply Qle_lt_trans with (q + (1 # 2))%Q; [apply Qfloor_le|].
    rewrite E, inject_Z_plus. change (inject_Z 1) with 1%Q. lra. }
  lia.
Qed.

Lemma split_all_external : forall p d,
  (Generators.mu p == 1)%Q -> Generators.split p d = Generators.mkStubs 0 d.
Proof.
  intros p d M. unfold Generators.split.
  rewrite (round_exact d) by (rewrite M; ring). f_equal. lia.
Qed.

Lemma split_all_internal : forall p d,
  (Generators.mu p == 0)%Q -> Generators.split p d = Generators.mkStubs d 0.
Proof.
  intros p d M. unfold Generators.split.
  rewrite (round_exact 0) by (rewrite M; change (inject_Z 0) with 0%Q; ring). f_equal. lia.
Qed.

Lemma initialProperties_stubs : forall p nodeIds degrees x,
  Generators.stubsOf (Generators.initialProperties p nodeIds degrees) x
  = if in_dec string_dec x nodeIds
    then Generators.split p (Generators.degreeOf degrees x)
    else Generators.mkStubs 0 0.
Proof.
  intros p nodeIds degrees x. unfold Generators.stubsOf, Generators.initialProperties.
  rewrite (map_init_get (fun x => Generators.split p (Generators.degreeOf degrees x))).
  unfold eq_dec, string_EqDec. destruct (in_dec string_dec x nodeIds); reflexivity.
Qed.

Lemma internalDegreeSum_zero : forall props c,
  (forall x, Generators.internal (Generators.stubsOf props x) = 0%Z) ->
  Generators.internalDegreeSum props c = 0%Z.
Proof.
  intros props c A. unfold Generators.internalDegreeSum.
  assert (G : forall acc, fold_left (fun sum x => (sum + Generators.internal (Generators.stubsOf props x))%Z) c acc = acc).
  { induction c as [|x c IH]; intros acc; simpl; [reflexivity|]. rewrite A, Z.add_0_r. apply IH. }
  apply G.
Qed.

(** No community has an odd sum: the parity step changes nothing. *)
Lemma fixParity_even : forall Math_random props cs k,
  (forall c, In c cs -> Z.rem (Generators.internalDegreeSum props c) 2 = 0%Z) ->
  fold_left (Generators.fixParity Math_random) cs (props, k) = (props, k).
Proof.
  intros Math_random props cs k. induction cs as [|c cs IH]; intros A; simpl; [reflexivity|].
  rewrite (A c (or_introl eq_refl)). simpl. apply IH. intros c' I. apply A. right. assumption.
Qed.

Lemma copies_none : forall x count, (count <= 0)%Z -> Generators.copies x count = [].
Proof.
  intros x count L. unfold Generators.copies.
  replace (Z.to_nat count) with 0 by lia. reflexivity.
Qed.

Lemma flat_map_nil : forall {A B : Type} (f : A -> list B) (l : list A),
  (forall x, In x l -> f x = []) -> flat_map f l = [].
Proof.
  intros A B f l. induction l as [|x l IH]; intros E; simpl; [reflexivity|].
  rewrite (E x (or_introl eq_refl)), IH; [reflexivity|]. intros y I. apply E. right. assumption.
Qed.

Lemma internalStubs_members : forall props c x,
  In x (Generators.internalStubsOf props c) -> In x c.
Proof.
  intros props c x I. unfold Generators.internalStubsOf in I. apply in_flat_map in I.
  destruct I as [y [Hy I]]. unfold Generators.copies in I. apply repeat_spec in I. subst. assumption.
Qed.

(** ** Shuffling keeps the elements *)

Lemma update_In : forall {A : Type} (l : list A) i y x,
  In x (Generators.update l i y) -> In x l \/ x = y.
Proof.
  intros A l. induction l as [|a l IH]; intros i y x I; simpl in *.
  - destruct i; destruct I.
  - destruct i as [|i]; simpl in I.
    + destruct I as [<-|I]; auto.
    + destruct I as [<-|I]; auto. destruct (IH i y x I); auto.
Qed.

Lemma swap_In : forall {A : Type} (l : list A) i j x,
  In x (Generators.swap l i j) -> In x l.
Proof.
  intros A l i j x I. unfold Generators.swap in I.
  destruct (nth_error l i) as [a|] eqn:Ei; [|assumption].
  destruct (nth_error l j) as [b|] eqn:Ej; [|assumption].
  apply update_In in I. destruct I as [I | ->]; [|apply (nth_error_In _ _ Ei)].
  apply update_In in I. destruct I as [I | ->]; [assumption | apply (nth_error_In _ _ Ej)].
Qed.

Lemma shuffleFrom_In : forall {A : Type} Math_random i (l : list A) k x,
  In x (fst (Generators.shuffleFrom Math_random i l k)) -> In x l.
Proof.
  intros A Math_random i. induction i as [|i IH]; intros l k x I; simpl in I.
  - assumption.
  - apply IH in I. apply swap_In in I. assumption.
Qed.

Lemma shuffle_In : forall {A : Type} Math_random (l : list A) k x,
  In x (fst (Generators.shuffle Math_random l k)) -> In x l.
Proof. intros A Math_random l k x. apply shuffleFrom_In. Qed.

Lemma shuffle_nil : forall {A : Type} Math_random k,
  Generators.shuffle Math_random (@nil A) k = ([], k).
Proof. reflexivity. Qed.

(** ** Pairing *)

Lemma addLink_In : forall links u v key,
  In key (Generators.addLink links u v) -> In key links \/ key = pairKey u v.
Proof.
  intros links u v key I. unfold Generators.addLink in I.
  destruct (String.eqb u v); [auto|].
  destruct (negb (JsSet.has links (pairKey u v)) && negb (JsSet.has links (pairKey v u)));
    [|auto].
  apply set_add_In in I. assumption.
Qed.

Lemma pairUp_In : forall (Q : string -> Prop) n stubs links,
  length stubs <= n ->
  (forall key, In key links -> Q key) ->
  (forall u v, In u stubs -> In v stubs -> Q (pairKey u v)) ->
  forall key, In key (Generators.pairUp links stubs) -> Q key.
Proof.
  intros Q n. induction n as [|n IH]; intros stubs links L A B key I.
  - destruct stubs; [|simpl in L; lia]. simpl in I. auto.
  - destruct stubs as [|u [|v rest]]; simpl in I; auto.
    apply (IH rest (if String.eqb v "" then links else Generators.addLink links u v)).
    + simpl in L. lia.
    + intros key' I'. destruct (String.eqb v ""); [auto|].
      apply addLink_In in I'. destruct I' as [I' | ->]; [auto|].
      apply B; simpl; auto.
    + intros u' v' Iu Iv. apply B; simpl; auto.
    + assumption.
Qed.

Lemma connectInternal_In : forall Math_random props communities cs st,
  (forall c, In c cs -> In c communities) ->
  (forall key, In key (fst st) -> internalKey communities key) ->
  forall key,
    In key (fst (fold_left (Generators.connectInternal Math_random props) cs st)) ->
    internalKey communities key.
Proof.
  intros Math_random props communities cs. induction cs as [|c cs IH]; intros st S A key I.
  - simpl in I. auto.
  - simpl in I. apply (IH (Generators.connectInternal Math_random props st c)).
    + intros c' I'. apply S. right. assumption.
    + intros key' I'. unfold Generators.connectInternal in I'.
      match type of I' with
      | context [Generators.shuffle ?r ?l ?k] =>
          destruct (Generators.shuffle r l k) as [shuffled k'] eqn:Sh
      end.
      simpl in I'.
      apply (pairUp_In (internalKey communities) (length shuffled) shuffled (fst st)
               (Nat.le_refl _) A); [|assumption].
      intros u v Iu Iv. exists c, u, v.
      assert (M : forall x, In x shuffled -> In x c).
      { intros x Ix. apply (internalStubs_members props c).
        assert (Fs : fst (shuffled, k') = shuffled) by reflexivity.
        rewrite <- Fs, <- Sh in Ix. apply shuffle_In in Ix. exact Ix. }
      split; [apply S; left; reflexivity|]. auto.
    + assumption.
Qed.

(** Without external stubs every link key joins two members of one
    community. *)
Lemma connectStubs_internal : forall Math_random props communities k,
  (forall x, (Generators.external (Generators.stubsOf props x) <= 0)%Z) ->
  forall key, In key (Generators.connectStubs Math_random props communities k) ->
              internalKey communities key.
Proof.
  intros Math_random props communities k E key I. unfold Generators.connectStubs in I.
  destruct (fold_left (Generators.connectInternal Math_random props) communities ([], k))
    as [links1 k1] eqn:F.
  assert (X : Generators.externalStubsOf props communities = []).
  { unfold Generators.externalStubsOf. apply flat_map_nil. intros c _.
    apply flat_map_nil. intros x _. apply copies_none. apply E. }
  rewrite X in I. simpl in I.
  apply (connectInternal_In Math_random props communities communities ([], k)); auto.
  - intros key' [].
  - rewrite F. assumption.
Qed.

Lemma assignNodes_barFree : forall sizes start x,
  In x (concat (Generators.assignNodes sizes start)) -> barFree x.
Proof.
  induction sizes as [|size sizes IH]; intros start x I; simpl in I; [destruct I|].
  apply in_app_iff in I. destruct I as [I|I].
  - apply in_map_iff in I. destruct I as [i [<- _]]. unfold Generators.nodeName.
    apply barFree_cons. split; [discriminate | apply barFree_toString].
  - apply (IH _ _ I).
Qed.

Lemma planted_barFree : forall Math_random Math_pow fuel p communities k x,
  Generators.planted Math_random Math_pow fuel p = Normal (communities, k) ->
  In x (concat communities) -> barFree x.
Proof.
  intros Math_random Math_pow fuel p communities k x P I. unfold Generators.planted in P.
  destruct (Generators.communitySizesFrom Math_random Math_pow fuel p
              (Z.min (Generators.minCommunity p) (Generators.maxCommunity p))
              (Z.max (Generators.minCommunity p) (Generators.maxCommunity p))
              [] (Generators.n p) 0) as [[sizes k0]| |]; simpl in P; try discriminate.
  injection P as <- <-. apply (assignNodes_barFree _ _ _ I).
Qed.

Lemma in_concat_member : forall (communities : list (list string)) c x,
  In c communities -> In x c -> In x (concat communities).
Proof. intros communities c x Ic Ix. apply in_concat. exists c. auto. Qed.

(** C6, as the claim states it, fails.  With [mu = 0], six nodes in two
    communities of three and every degree one (every call of
    [Math.random()] returning 0.5): the internal degrees of each
    community sum to 3, so one stub of n1 and one of n4 become
    external; n1 then has internal degree 0 against total degree 1,
    and the generated graph holds the link n1 - n4 between the two
    communities. *)
Lemma odd_community_gets_external_stub :
  Generators.planted half Generators.powZ 10 (sixNodes 0) = Normal (sixNodeCommunities, 2)
  /\ Generators.degreesFor half Generators.powZ (sixNodes 0) sixNodeCommunities 2
     = (sixNodeDegrees, 2)
  /\ fst (Generators.stubsFor half (sixNodes 0) sixNodeCommunities sixNodeDegrees 2)
     = [("n0", Generators.mkStubs 1 0); ("n1", Generators.mkStubs 0 1);
        ("n2", Generators.mkStubs 1 0); ("n3", Generators.mkStubs 1 0);
        ("n4", Generators.mkStubs 0 1); ("n5", Generators.mkStubs 1 0)]
  /\ (r <- Generators.generateLFRNetwork half Generators.powZ 10 (sixNodes 0) ;;
      Normal (links (Generators.graphData r), Generators.groundTruth r))
     = Normal ([mkLink "n0" "n2"; mkLink "n3" "n5"; mkLink "n1" "n4"],
               [mkAssignment "n0" 0; mkAssignment "n1" 0; mkAssignment "n2" 0;
                mkAssignment "n3" 1; mkAssignment "n4" 1; mkAssignment "n5" 1]).
Proof. repeat split; vm_compute; reflexivity. Qed.

(** C6, amended.  For [mu = 1] every node has internal degree 0 and all
    its stubs external, and no community has an internal stub.  For
    [mu = 0] every node's internal degree equals its total degree
    before the parity step; when the internal degrees of every
    community sum to an even number the parity step changes nothing,
    and every link of the generated graph joins two members of one
    planted community. *)
Theorem lfr_mixing_extremes :
  (forall Math_random p communities degrees k,
     (Generators.mu p == 1)%Q ->
     let props := fst (Generators.stubsFor Math_random p communities degrees k) in
     (forall x, Generators.internal (Generators.stubsOf props x) = 0%Z)
     /\ (forall x, In x (concat communities) ->
           Generators.external (Generators.stubsOf props x) = Generators.degreeOf degrees x)
     /\ (forall c, In c communities -> Generators.internalStubsOf props c = []))
  /\ (forall Math_random Math_pow fuel p communities k degrees k1,
        (Generators.mu p == 0)%Q ->
        Generators.planted Math_random Math_pow fuel p = Normal (communities, k) ->
        Generators.degreesFor Math_random Math_pow p communities k = (degrees, k1) ->
        let props0 := Generators.initialProperties p (concat communities) degrees in
        (forall x, In x (concat communities) ->
           Generators.internal (Generators.stubsOf props0 x) = Generators.degreeOf degrees x
           /\ Generators.external (Generators.stubsOf props0 x) = 0%Z)
        /\ ((forall c, In c communities ->
               Z.rem (Generators.internalDegreeSum props0 c) 2 = 0%Z) ->
            Generators.stubsFor Math_random p communities degrees k1 = (props0, k1)
            /\ exists r,
                 Generators.generateLFRNetwork Math_random Math_pow fuel p = Normal r
                 /\ forall l, In l (links (Generators.graphData r)) ->
                      exists c, In c communities /\ In (source l) c /\ In (target l) c)).
Proof.
  split.
  - intros Math_random p communities degrees k M props.
    assert (P0 : forall x,
               Generators.stubsOf
                 (Generators.initialProperties p (concat communities) degrees) x
               = if in_dec string_dec x (concat communities)
                 then Generators.mkStubs 0 (Generators.degreeOf degrees x)
                 else Generators.mkStubs 0 0).
    { intros x. rewrite initialProperties_stubs.
      destruct (in_dec string_dec x (concat communities)); [|reflexivity].
      apply split_all_external. assumption. }
    assert (I0 : forall x,
               Generators.internal
                 (Generators.stubsOf
                    (Generators.initialProperties p (concat communities) degrees) x) = 0%Z).
    { intros x. rewrite P0. destruct (in_dec string_dec x (concat communities)); reflexivity. }
    assert (E : props = Generators.initialProperties p (concat communities) degrees).
    { unfold props, Generators.stubsFor. rewrite fixParity_even; [reflexivity|].
      intros c _. rewrite internalDegreeSum_zero by assumption. reflexivity. }
    rewrite E. split; [exact I0|]. split.
    + intros x I. rewrite P0. destruct (in_dec string_dec x (concat communities));
        [reflexivity | contradiction].
    + intros c _. unfold Generators.internalStubsOf. apply flat_map_nil.
      intros x _. apply copies_none. rewrite I0. lia.
  - intros Math_random Math_pow fuel p communities k degrees k1 M P D props0.
    assert (P0 : forall x,
               Generators.stubsOf props0 x
               = if in_dec string_dec x (concat communities)
                 then Generators.mkStubs (Generators.degreeOf degrees x) 0
                 else Generators.mkStubs 0 0).
    { intros x. unfold props0. rewrite initialProperties_stubs.
      destruct (in_dec string_dec x (concat communities)); [|reflexivity].
      apply split_all_internal. assumption. }
    split.
    + intros x I. rewrite P0. destruct (in_dec string_dec x (concat communities));
        [split; reflexivity | contradiction].
    + intros Even.
      assert (S : Generators.stubsFor Math_random p communities degrees k1 = (props0, k1)).
      { unfold Generators.stubsFor. apply fixParity_even. exact Even. }
      split; [exact S|].
      unfold Generators.generateLFRNetwork. rewrite P. simpl bind. rewrite D, S.
      eexists. split; [reflexivity|]. simpl links.
      intros l Hl. apply in_map_iff in Hl. destruct Hl as [key [<- Hk]].
      apply connectStubs_internal in Hk.
      * destruct Hk as [c [u [v [Ic [Iu [Iv ->]]]]]].
        exists c. split; [assumption|].
        assert (Bu : barFree u).
        { apply (planted_barFree _ _ _ _ _ _ u P). apply (in_concat_member _ c); assumption. }
        assert (Bv : barFree v).
        { apply (planted_barFree _ _ _ _ _ _ v P). apply (in_concat_member _ c); assumption. }
        unfold Generators.linkOfKey. rewrite split_bar_pairKey by assumption. simpl. auto.
      * intros x. rewrite P0. destruct (in_dec string_dec x (concat communities)); simpl; lia.
Qed.

Lemma lfr_mixing_extremes_witness :
  (forall x, Generators.internal
               (Generators.stubsOf
                  (fst (Generators.stubsFor half (sixNodes 1) sixNodeCommunities
                          sixNodeDegrees 2)) x) = 0%Z)
  /\ exists r,
       Generators.generateLFRNetwork half Generators.powZ 10 (eightNodes 0) = Normal r
       /\ forall l, In l (links (Generators.graphData r)) ->
            exists c, In c [["n0"; "n1"; "n2"; "n3"]; ["n4"; "n5"; "n6"; "n7"]]
                      /\ In (source l) c /\ In (target l) c.
Proof.
  destruct lfr_mixing_extremes as [One Zero].
  split.
  - apply (One half (sixNodes 1) sixNodeCommunities sixNodeDegrees 2). reflexivity.
  - apply (Zero half Generators.powZ 10 (eightNodes 0)
             [["n0"; "n1"; "n2"; "n3"]; ["n4"; "n5"; "n6"; "n7"]] 2
             [("n0", 1%Z); ("n1", 1%Z); ("n2", 1%Z); ("n3", 1%Z);
              ("n4", 1%Z); ("n5", 1%Z); ("n6", 1%Z); ("n7", 1%Z)] 2).
    + reflexivity.
    + vm_compute. reflexivity.
    + vm_compute. reflexivity.
    + intros c [<-|[<-|[]]]; vm_compute; reflexivity.
Defined.

(** * NMI of trivial partitions *)

Lemma eps_positive : (0 < Performance.eps)%R.
Proof. unfold Performance.eps. apply Rinv_0_lt_compat. apply pow_lt. Lra.lra. Qed.

Lemma log2_above_one : forall x : R, (1 < x)%R -> (0 < Performance.log2 x)%R.
Proof.
  intros x Hx. unfold Performance.log2.
  assert (L2 : (0 < ln 2)%R) by (rewrite <- ln_1; apply ln_increasing; Lra.lra).
  assert (Lx : (0 < ln x)%R) by (rewrite <- ln_1; apply ln_increasing; Lra.lra).
  apply Rdiv_lt_0_compat; assumption.
Qed.

(** The entropy the source computes for a single community is not zero:
    the epsilon inside the logarithm makes it negative. *)
Lemma entropy_of_single_community :
  Performance.entropyTerm 0 1 = (0 - 1 * Performance.log2 (1 + Performance.eps))%R
  /\ (Performance.entropyTerm 0 1 < 0)%R.
Proof.
  assert (E : Performance.entropyTerm 0 1
              = (0 - 1 * Performance.log2 (1 + Performance.eps))%R).
  { unfold Performance.entropyTerm. destruct (Rlt_dec 0 1) as [_|N]; [reflexivity|].
    exfalso. apply N. Lra.lra. }
  split; [exact E|]. rewrite E.
  assert (P := log2_above_one (1 + Performance.eps)).
  assert (Q := eps_positive). Lra.lra.
Qed.

(** C7.  For two partitions that each put the only node into one
    community the source returns 0, not 1: both entropies come out as
    [- log2 (1 + eps)], so the guard for trivial partitions is not
    taken, the quotient is [-1] and the clamp gives 0. *)
Theorem nmi_of_single_communities :
  Performance.calculateNMI single single [mkNode "a"] = 0%R.
Proof.
  unfold Performance.calculateNMI, single.
  change (Performance.contingency [mkAssignment "a" 0] [mkAssignment "a" 0] [mkNode "a"])
    with [[1%nat]].
  change (length (Performance.labelsOf [mkAssignment "a" 0])) with 1%nat.
  change (length [mkNode "a"]) with 1%nat.
  unfold Performance.entropyGroundTruth, Performance.entropyDetected,
    Performance.mutualInformation.
  cbn [fold_left seq nth Nat.ltb Nat.leb Performance.rowSum Performance.columnSum Nat.add].
  replace (INR 1 / INR 1)%R with 1%R by (simpl; field).
  replace (1 / (1 * 1))%R with 1%R by field.
  destruct entropy_of_single_community as [E N].
  destruct (Req_dec_T (Performance.entropyTerm 0 1) 0) as [Z|_]; [Lra.lra|].
  rewrite E.
  assert (P := log2_above_one (1 + Performance.eps)).
  assert (Q := eps_positive).
  set (L := Performance.log2 (1 + Performance.eps)) in *.
  assert (Lp : (0 < L)%R) by (apply P; Lra.lra).
  replace (2 * (0 + 1 * L) / (0 - 1 * L + (0 - 1 * L)))%R with (-1)%R by (field; Lra.lra).
  rewrite Rmin_right by Lra.lra. rewrite Rmax_left by Lra.lra. reflexivity.
Qed.

(** Whatever the partitions, the value returned lies in the unit
    interval, and it is 1 when both computed entropies are 0. *)
Lemma nmi_in_unit_interval : forall groundTruth detected nodes,
  (0 <= Performance.calculateNMI groundTruth detected nodes <= 1)%R.
Proof.
  intros groundTruth detected nodes. unfold Performance.calculateNMI.
  assert (C : forall x, (0 <= Rmax 0 (Rmin 1 x) <= 1)%R).
  { intros x. split; [apply Rmax_l|]. apply Rmax_lub; [Lra.lra | apply Rmin_l]. }
  destruct (Req_dec_T _ 0); [destruct (Req_dec_T _ 0)|]; try apply C. Lra.lra.
Qed.

Lemma nmi_of_zero_entropies : forall groundTruth detected nodes,
  Performance.entropyGroundTruth
    (Performance.contingency groundTruth detected nodes) (length nodes) = 0%R ->
  Performance.entropyDetected
    (Performance.contingency groundTruth detected nodes) (length nodes)
    (length (Performance.labelsOf detected)) = 0%R ->
  Performance.calculateNMI groundTruth detected nodes = 1%R.
Proof.
  intros groundTruth detected nodes Hg Hd. unfold Performance.calculateNMI.
  destruct (Req_dec_T _ 0) as [_|N]; [|contradiction].
  destruct (Req_dec_T _ 0) as [_|N]; [reflexivity | contradiction].
Qed.

(** * Label propagation, deterministic variant *)

Lemma countOf_set_same : forall {K : Type} `{EqDec K} (m : JsMap.t K nat) k v,
  Worker1.countOf (JsMap.set m k v) k = v.
Proof. intros. unfold Worker1.countOf. rewrite map_get_set_same. reflexivity. Qed.

Lemma countOf_set_other : forall {K : Type} `{EqDec K} (m : JsMap.t K nat) k k' v,
  k' <> k -> Worker1.countOf (JsMap.set m k v) k' = Worker1.countOf m k'.
Proof. intros. unfold Worker1.countOf. rewrite map_get_set_other by assumption. reflexivity. Qed.

(** The tally holds, for each label met, the number of its occurrences. *)
Lemma tally_from : forall {K : Type} `{EqDec K} (labels : list K) (m : JsMap.t K nat),
  NoDup (JsMap.keys m) ->
  let m' := fold_left (fun m l => JsMap.set m l (Worker1.countOf m l + 1)) labels m in
  NoDup (JsMap.keys m')
  /\ (forall k, Worker1.countOf m' k = Worker1.countOf m k + count_occ eq_dec labels k)
  /\ (forall k, In k (JsMap.keys m') <-> In k (JsMap.keys m) \/ In k labels).
Proof.
  intros K H labels. induction labels as [|a labels IH]; intros m N; simpl.
  - repeat split; auto. intros [?|[]]. assumption.
  - specialize (IH (JsMap.set m a (Worker1.countOf m a + 1)) (map_keys_set_NoDup _ _ _ N)).
    simpl in IH. destruct IH as [N' [C I]]. split; [assumption|]. split.
    + intros k. rewrite C. destruct (eq_dec a k) as [E|E].
      * subst. rewrite countOf_set_same. lia.
      * rewrite countOf_set_other by congruence. lia.
    + intros k. rewrite I, map_keys_set. unfold JsMap.has.
      destruct (JsMap.get m a) eqn:G.
      * assert (In a (JsMap.keys m)) by (apply map_get_In_keys; eauto).
        intuition (subst; auto).
      * rewrite in_app_iff. simpl. intuition (subst; auto).
Qed.















(** ** The pass: every node is visited, in order *)

Lemma visitNode_labels : forall graph st n,
  fst (Worker1.visitNode graph st n) = fst (Worker1.visitNode graph (fst st, false) n).
Proof.
  intros graph [communities changed] n. unfold Worker1.visitNode. cbn [fst].
  destruct (Worker1.neighborLabels graph communities n); [reflexivity|].
  destruct (Worker1.newCommunityOf (s :: l)); [|reflexivity].
  destruct (match JsMap.get communities n with Some l0 => eqb_key l0 s0 | None => false end);
    reflexivity.
Qed.


Lemma fold_visit_labels : forall graph nodeIds st,
  fst (fold_left (Worker1.visitNode graph) nodeIds st)
  = fst (fold_left (Worker1.visitNode graph) nodeIds (fst st, false)).
Proof.
  intros graph nodeIds. induction nodeIds as [|n nodeIds IH]; intros st; cbn [fold_left].
  - reflexivity.
  - rewrite (IH (Worker1.visitNode graph st n)),
            (IH (Worker1.visitNode graph (fst st, false) n)).
    rewrite (visitNode_labels graph st n). reflexivity.
Qed.



(** ** The flag of a pass *)





(** ** The loop *)




(** * Louvain: the partition of a phase *)

Lemma map_get_delete : forall {K V : Type} `{EqDec K} (m : JsMap.t K V) k k',
  NoDup (JsMap.keys m) ->
  JsMap.get (JsMap.delete m k) k' = if eq_dec k' k then None else JsMap.get m k'.
Proof.
  intros K V H m k k'. induction m as [|[k0 v0] m IH]; intros N; simpl.
  - destruct (eq_dec k' k); reflexivity.
  - inversion N as [|? ? Hk Nm]; subst. destruct (eq_dec k k0) as [E|E].
    + subst k0. destruct (eq_dec k' k) as [E'|E'].
      * subst k'. apply map_get_None. assumption.
      * reflexivity.
    + simpl. destruct (eq_dec k' k0) as [E0|E0].
      * subst k0. destruct (eq_dec k' k); [congruence | reflexivity].
      * apply IH. assumption.
Qed.

Lemma map_keys_delete_NoDup : forall {K V : Type} `{EqDec K} (m : JsMap.t K V) k,
  NoDup (JsMap.keys m) -> NoDup (JsMap.keys (JsMap.delete m k)).
Proof.
  intros K V H m k. induction m as [|[k0 v0] m IH]; intros N; simpl; [constructor|].
  inversion N as [|? ? Hk Nm]; subst. destruct (eq_dec k k0); [assumption|].
  simpl. constructor; [|apply IH; assumption].
  intros I. apply Hk. apply map_get_In_keys in I. destruct I as [v G].
  rewrite map_get_delete in G by assumption. destruct (eq_dec k0 k); [discriminate|].
  apply map_get_In_keys. eauto.
Qed.

Lemma bind_Normal : forall {A B : Type} (c : completion A) (k : A -> completion B) b,
  bind c k = Normal b -> exists a, c = Normal a /\ k a = Normal b.
Proof.
  intros A B c k b E. destruct c as [a| |]; simpl in E; try discriminate. eauto.
Qed.

Lemma defined_Normal : forall {A : Type} (o : option A) a,
  defined o = Normal a -> o = Some a.
Proof. intros A o a E. destruct o; simpl in E; [congruence | discriminate]. Qed.

Lemma foldM_preserves : forall {A S : Type} (P : S -> Prop) (f : S -> A -> completion S)
  (l : list A),
  (forall s a s', In a l -> f s a = Normal s' -> P s -> P s') ->
  forall s s', foldM f l s = Normal s' -> P s -> P s'.
Proof.
  intros A S P f l. induction l as [|a l IH]; intros Step s s' E Ps; simpl in E.
  - congruence.
  - apply bind_Normal in E. destruct E as [s1 [E1 E2]].
    apply (IH (fun s0 a0 s0' I => Step s0 a0 s0' (or_intror I)) s1 s' E2).
    apply (Step s a s1 (or_introl eq_refl) E1 Ps).
Qed.

(** Moving a node to another community keeps the tables in agreement. *)
Lemma moveNode_consistent : forall allNodes graph p n newComm p',
  consistent allNodes p ->
  JsMap.get (Worker1.nodeToCommunity p) n <> Some newComm ->
  Worker1.moveNode graph p n newComm = Normal p' ->
  consistent allNodes p'.
Proof.
  intros allNodes graph p n newComm p' [N [D [F B]]] Ne E.
  unfold Worker1.moveNode in E.
  apply bind_Normal in E. destruct E as [oldComm [Eo E]]. apply defined_Normal in Eo.
  apply bind_Normal in E. destruct E as [nodeDegree [_ E]].
  apply bind_Normal in E. destruct E as [sOld [_ E]].
  apply bind_Normal in E. destruct E as [sNew [_ E]].
  apply bind_Normal in E. destruct E as [membersOld [Em E]]. apply defined_Normal in Em.
  apply bind_Normal in E. destruct E as [membersNew [En E]]. apply defined_Normal in En.
  injection E as <-. unfold consistent. cbn [Worker1.nodeToCommunity Worker1.communities].
  assert (Noc : newComm <> oldComm) by (intros ->; apply Ne; assumption).
  set (membersOld' := JsSet.delete membersOld n) in *.
  set (comms1 := JsMap.set (Worker1.communities p) oldComm membersOld') in *.
  set (comms2 := if JsSet.size membersOld' =? 0 then JsMap.delete comms1 oldComm else comms1) in *.
  assert (N1 : NoDup (JsMap.keys comms1)) by (apply map_keys_set_NoDup; assumption).
  assert (N2 : NoDup (JsMap.keys comms2)).
  { unfold comms2. destruct (JsSet.size membersOld' =? 0);
      [apply map_keys_delete_NoDup; assumption | assumption]. }
  assert (G2 : forall c, c <> oldComm -> JsMap.get comms2 c = JsMap.get (Worker1.communities p) c).
  { intros c Hc. unfold comms2. destruct (JsSet.size membersOld' =? 0).
    - rewrite map_get_delete by assumption. destruct (eq_dec c oldComm); [contradiction|].
      unfold comms1. apply map_get_set_other. assumption.
    - unfold comms1. apply map_get_set_other. assumption. }
  assert (Gn : JsMap.get (Worker1.communities p) newComm = Some membersNew).
  { rewrite <- G2 by assumption. assumption. }
  split; [|split; [|split]].
  - apply map_keys_set_NoDup. assumption.
  - intros x Hx. destruct (string_dec x n) as [->|Nx].
    + rewrite map_get_set_same. eauto.
    + rewrite map_get_set_other by assumption. apply D. assumption.
  - intros x c G. destruct (string_dec x n) as [->|Nx].
    + rewrite map_get_set_same in G. injection G as <-. rewrite map_get_set_same.
      eexists. split; [reflexivity|]. apply set_add_In. right. reflexivity.
    + rewrite map_get_set_other in G by assumption.
      destruct (F x c G) as [s [Gs Is]].
      destruct (Nat.eq_dec c newComm) as [->|Nc].
      * rewrite map_get_set_same. eexists. split; [reflexivity|].
        apply set_add_In. left. rewrite Gn in Gs. injection Gs as <-. assumption.
      * rewrite map_get_set_other by assumption.
        destruct (Nat.eq_dec c oldComm) as [->|No].
        -- rewrite Em in Gs. injection Gs as <-.
           assert (Ix : In x membersOld') by (apply set_delete_In; split; assumption).
           assert (Sz : (JsSet.size membersOld' =? 0) = false).
           { apply Nat.eqb_neq. unfold JsSet.size. destruct membersOld'; [destruct Ix | discriminate]. }
           unfold comms2. rewrite Sz. unfold comms1. rewrite map_get_set_same. eauto.
        -- rewrite G2 by assumption. eauto.
  - intros c s x G Is. destruct (Nat.eq_dec c newComm) as [->|Nc].
    + rewrite map_get_set_same in G. injection G as <-. apply set_add_In in Is.
      destruct Is as [Is | ->]; [|apply map_get_set_same].
      assert (Gx := B newComm membersNew x Gn Is).
      destruct (string_dec x n) as [->|Nx]; [congruence|].
      rewrite map_get_set_other by assumption. assumption.
    + rewrite map_get_set_other in G by assumption.
      destruct (Nat.eq_dec c oldComm) as [->|No].
      * unfold comms2 in G. destruct (JsSet.size membersOld' =? 0).
        -- rewrite map_get_delete in G by assumption.
           destruct (eq_dec oldComm oldComm); [discriminate | congruence].
        -- unfold comms1 in G. rewrite map_get_set_same in G. injection G as <-.
           apply set_delete_In in Is. destruct Is as [Is Nx].
           rewrite map_get_set_other by assumption. apply (B oldComm membersOld x Em Is).
      * rewrite G2 in G by assumption. assert (Gx := B c s x G Is).
        destruct (string_dec x n) as [->|Nx]; [congruence|].
        rewrite map_get_set_other by assumption. assumption.
Qed.

Lemma numbered_step : forall graph done p communityId n st',
  ~ In n done ->
  numbered done (p, communityId) ->
  (d <- Worker1.degreeZ (Worker1.g_degrees graph) n ;;
   Normal (Worker1.mkPartition
             (JsMap.set (Worker1.nodeToCommunity p) n communityId)
             (JsMap.set (Worker1.communities p) communityId [n])
             (JsMap.set (Worker1.sigma_tot p) communityId d)
             (Worker1.m2 p),
           S communityId)) = Normal st' ->
  numbered (done ++ [n]) st'.
Proof.
  intros graph done p communityId n st' Nn [[N [D [F B]]] [Kn Kc]] E.
  apply bind_Normal in E. destruct E as [d [_ E]]. injection E as <-.
  cbn [fst snd] in N, D, F, B, Kn, Kc.
  assert (Fresh : JsMap.get (Worker1.communities p) communityId = None).
  { apply map_get_None. intros I. apply Kc in I. lia. }
  unfold numbered, consistent. cbn [fst snd Worker1.nodeToCommunity Worker1.communities].
  split; [split; [|split; [|split]] | split].
  - apply map_keys_set_NoDup. assumption.
  - intros x Ix. destruct (string_dec x n) as [->|Nx].
    + rewrite map_get_set_same. eauto.
    + rewrite map_get_set_other by assumption. apply D.
      apply in_app_or in Ix. destruct Ix as [Ix|[Ix|[]]]; [assumption | congruence].
  - intros x c G. destruct (string_dec x n) as [->|Nx].
    + rewrite map_get_set_same in G. injection G as <-. rewrite map_get_set_same.
      eexists. split; [reflexivity | left; reflexivity].
    + rewrite map_get_set_other in G by assumption.
      destruct (F x c G) as [s [Gs Is]].
      rewrite map_get_set_other by congruence. eauto.
  - intros c s x G Is. destruct (Nat.eq_dec c communityId) as [->|Nc].
    + rewrite map_get_set_same in G. injection G as <-.
      destruct Is as [<-|[]]. apply map_get_set_same.
    + rewrite map_get_set_other in G by assumption.
      assert (Gx := B c s x G Is).
      destruct (string_dec x n) as [->|Nx]; [exfalso; apply Nn; apply (Kn n c Gx)|].
      rewrite map_get_set_other by assumption. assumption.
  - intros x c G. apply in_or_app. destruct (string_dec x n) as [->|Nx].
    + right. left. reflexivity.
    + rewrite map_get_set_other in G by assumption. left. apply (Kn x c G).
  - intros c I. apply map_get_In_keys in I. destruct I as [v G].
    destruct (Nat.eq_dec c communityId) as [->|Nc]; [lia|].
    rewrite map_get_set_other in G by assumption.
    assert (I : In c (JsMap.keys (Worker1.communities p))) by (apply map_get_In_keys; eauto).
    apply Kc in I. lia.
Qed.

Lemma numbered_from : forall graph l done st st',
  NoDup (done ++ l) ->
  numbered done st ->
  foldM (fun (st : Worker1.Partition * nat) n =>
           let '(p, communityId) := st in
           d <- Worker1.degreeZ (Worker1.g_degrees graph) n ;;
           Normal (Worker1.mkPartition
                     (JsMap.set (Worker1.nodeToCommunity p) n communityId)
                     (JsMap.set (Worker1.communities p) communityId [n])
                     (JsMap.set (Worker1.sigma_tot p) communityId d)
                     (Worker1.m2 p),
                   S communityId)) l st = Normal st' ->
  numbered (done ++ l) st'.
Proof.
  intros graph l. induction l as [|n l IH]; intros done st st' N I E; simpl in E.
  - injection E as <-. rewrite app_nil_r. assumption.
  - apply bind_Normal in E. destruct E as [st1 [E1 E2]]. destruct st as [p communityId].
    replace (done ++ n :: l) with ((done ++ [n]) ++ l) in * by (rewrite <- app_assoc; reflexivity).
    apply (IH (done ++ [n]) st1 st' N); [|assumption].
    apply (numbered_step graph done p communityId n st1); [|assumption|assumption].
    intros Id. rewrite <- app_assoc in N. apply NoDup_remove_2 in N.
    apply N. apply in_or_app. left. assumption.
Qed.

(** The constructor of [Partition] yields tables that agree. *)
Lemma newPartition_consistent : forall graph p,
  NoDup (Worker1.g_nodes graph) ->
  Worker1.newPartition graph = Normal p ->
  consistent (Worker1.g_nodes graph) p.
Proof.
  intros graph p N E. unfold Worker1.newPartition in E.
  apply bind_Normal in E. destruct E as [[p' k] [E E']]. injection E' as ->.
  apply (numbered_from graph (Worker1.g_nodes graph) [] _ (p, k)) in E; [apply E|exact N|].
  unfold numbered, consistent. simpl. repeat split; try constructor; try discriminate;
    intros; try contradiction; discriminate.
Qed.

Lemma optimizeNode_consistent : forall allNodes res graph st n st',
  Worker1.optimizeNode res graph st n = Normal st' ->
  consistent allNodes (fst st) -> consistent allNodes (fst st').
Proof.
  intros allNodes res graph [p improvement] n st' E C. unfold Worker1.optimizeNode in E.
  apply bind_Normal in E. destruct E as [current [Ec E]]. apply defined_Normal in Ec.
  apply bind_Normal in E. destruct E as [neighbors [_ E]].
  apply bind_Normal in E. destruct E as [nodeDegree [_ E]].
  apply bind_Normal in E. destruct E as [neighborComms [_ E]].
  apply bind_Normal in E. destruct E as [[best dq] [_ E]].
  destruct (Nat.eqb_spec best current) as [Eb|Nb].
  - injection E as <-. assumption.
  - apply bind_Normal in E. destruct E as [p' [Em E]]. injection E as <-. simpl.
    apply (moveNode_consistent allNodes graph p n best p' C); [congruence | assumption].
Qed.

Lemma optimizeNode_consistent_second : forall allNodes res graph st n st',
  Worker2.optimizeNode res graph st n = Normal st' ->
  consistent allNodes (fst st) -> consistent allNodes (fst st').
Proof.
  intros allNodes res graph [p improvement] n st' E C. unfold Worker2.optimizeNode in E.
  apply bind_Normal in E. destruct E as [nodeDegree [_ E]].
  apply bind_Normal in E. destruct E as [neighbors [_ E]].
  apply bind_Normal in E. destruct E as [current [Ec E]]. apply defined_Normal in Ec.
  apply bind_Normal in E. destruct E as [neighborComms [_ E]].
  apply bind_Normal in E. destruct E as [sigma [_ E]].
  apply bind_Normal in E. destruct E as [[best dq] [_ E]].
  destruct (Nat.eqb_spec best current) as [Eb|Nb].
  - injection E as <-. assumption.
  - apply bind_Normal in E. destruct E as [p' [Em E]]. injection E as <-. simpl.
    apply (moveNode_consistent allNodes graph p n best p' C); [congruence | assumption].
Qed.

(** The first phase keeps the tables in agreement, in both variants. *)
Lemma optimizeModularity_consistent : forall allNodes fuel res graph p p',
  Worker1.optimizeModularity fuel res graph p = Normal p' ->
  consistent allNodes p -> consistent allNodes p'.
Proof.
  intros allNodes fuel res graph. induction fuel as [|fuel IH]; intros p p' E C; simpl in E.
  - discriminate.
  - apply bind_Normal in E. destruct E as [[p1 improvement] [E1 E]].
    assert (C1 : consistent allNodes p1).
    { apply (foldM_preserves (fun st => consistent allNodes (fst st))
               (Worker1.optimizeNode res graph) _
               (fun s a s' _ => optimizeNode_consistent allNodes res graph s a s')
               _ _ E1 C). }
    destruct improvement; [apply (IH p1 p' E C1) | injection E as <-; assumption].
Qed.

Lemma optimizeModularity_consistent_second : forall allNodes passes res graph p p',
  Worker2.optimizeModularity passes res graph p = Normal p' ->
  consistent allNodes p -> consistent allNodes p'.
Proof.
  intros allNodes passes res graph. induction passes as [|k IH]; intros p p' E C; simpl in E.
  - injection E as <-. assumption.
  - apply bind_Normal in E. destruct E as [[p1 improvement] [E1 E]].
    assert (C1 : consistent allNodes p1).
    { apply (foldM_preserves (fun st => consistent allNodes (fst st))
               (Worker2.optimizeNode res graph) _
               (fun s a s' _ => optimizeNode_consistent_second allNodes res graph s a s')
               _ _ E1 C). }
    destruct improvement; [apply (IH p1 p' E C1) | injection E as <-; assumption].
Qed.

(** Tables that agree give every end of every edge a community of the
    partition. *)
Lemma consistent_covered : forall graph p,
  consistent (Worker1.g_nodes graph) p ->
  (forall e, In e (Worker1.g_edges graph) ->
     In (source e) (Worker1.g_nodes graph) /\ In (target e) (Worker1.g_nodes graph)) ->
  covered graph p.
Proof.
  intros graph p [N [D [F B]]] W. split; [assumption|]. intros e I.
  destruct (W e I) as [Is It].
  destruct (D _ Is) as [a Ga]. destruct (D _ It) as [b Gb].
  exists a, b. split; [assumption|]. split; [assumption|].
  destruct (F _ _ Ga) as [sa [Ha _]]. destruct (F _ _ Gb) as [sb [Hb _]].
  split; apply map_get_In_keys; eauto.
Qed.

(** Every partition the first phase returns on a graph whose links join
    nodes of the graph is covered: the hypothesis of the theorem on the
    aggregated graph holds at every level of a run. *)
Lemma phase_covered : forall graphData fuel res p0 p,
  linksWellFormed graphData ->
  Worker1.newPartition (Worker1.newGraph graphData) = Normal p0 ->
  Worker1.optimizeModularity fuel res (Worker1.newGraph graphData) p0 = Normal p ->
  covered (Worker1.newGraph graphData) p.
Proof.
  intros graphData fuel res p0 p W E0 E.
  apply consistent_covered.
  - apply (optimizeModularity_consistent _ fuel res _ p0 p E).
    apply newPartition_consistent; [apply set_of_list_NoDup | assumption].
  - intros e I. simpl in *. destruct (W e I) as [Is It].
    split; apply set_of_list_In; assumption.
Qed.

Lemma phase_covered_second : forall graphData passes res p0 p,
  linksWellFormed graphData ->
  Worker1.newPartition (Worker2.newGraph graphData) = Normal p0 ->
  Worker2.optimizeModularity passes res (Worker2.newGraph graphData) p0 = Normal p ->
  covered (Worker2.newGraph graphData) p.
Proof.
  intros graphData passes res p0 p W E0 E.
  assert (Gn : Worker1.g_nodes (Worker2.newGraph graphData)
               = JsSet.of_list (map id (nodes graphData))).
  { unfold Worker2.newGraph.
    destruct (fold_left _ _ _) as [[adj degrees] m]. reflexivity. }
  assert (Ge : Worker1.g_edges (Worker2.newGraph graphData) = links graphData).
  { unfold Worker2.newGraph.
    destruct (fold_left _ _ _) as [[adj degrees] m]. reflexivity. }
  apply consistent_covered.
  - apply (optimizeModularity_consistent_second _ passes res _ p0 p E).
    apply newPartition_consistent; [rewrite Gn; apply set_of_list_NoDup | assumption].
  - intros e I. rewrite Gn. rewrite Ge in I. destruct (W e I) as [Is It].
    split; apply set_of_list_In; assumption.
Qed.

(** * Louvain: the aggregated graph *)

Lemma edgeKey_form : forall a b,
  a <> b -> barFree a -> barFree b ->
  exists x y, Worker1.edgeKey a b = pairKey x y /\ barFree x /\ barFree y
              /\ String.ltb x y = true
              /\ ((x = a /\ y = b) \/ (x = b /\ y = a)).
Proof.
  intros a b N Ba Bb. unfold Worker1.edgeKey. destruct (String.ltb a b) eqn:L.
  - exists a, b. repeat split; auto.
  - exists b, a. repeat split; auto. rewrite (ltb_asym a b N), L. reflexivity.
Qed.

Lemma edgeKey_sym : forall a b, a <> b -> Worker1.edgeKey a b = Worker1.edgeKey b a.
Proof.
  intros a b N. unfold Worker1.edgeKey. rewrite (ltb_asym a b N).
  destruct (String.ltb a b); reflexivity.
Qed.

Lemma edgeKey_inj : forall a b a' b',
  a <> b -> a' <> b' -> barFree a -> barFree b -> barFree a' -> barFree b' ->
  Worker1.edgeKey a b = Worker1.edgeKey a' b' ->
  (a = a' /\ b = b') \/ (a = b' /\ b = a').
Proof.
  intros a b a' b' N N' Ba Bb Ba' Bb' E. unfold Worker1.edgeKey in E.
  destruct (String.ltb a b), (String.ltb a' b');
    apply pairKey_inj in E; try assumption; tauto.
Qed.

Lemma combine_fst : forall {A B : Type} (l1 : list A) (l2 : list B),
  length l1 = length l2 -> map fst (combine l1 l2) = l1.
Proof.
  induction l1 as [|a l1 IH]; intros [|b l2] L; simpl in *; try discriminate; [reflexivity|].
  rewrite IH by lia. reflexivity.
Qed.

Lemma combine_snd_inj : forall {A B : Type} (l1 : list A) (l2 : list B) a a' b,
  NoDup l2 -> In (a, b) (combine l1 l2) -> In (a', b) (combine l1 l2) -> a = a'.
Proof.
  induction l1 as [|x l1 IH]; intros [|y l2] a a' b N I I'; simpl in *; try contradiction.
  inversion N as [|? ? Hy N2]; subst.
  destruct I as [E|I], I' as [E'|I'].
  - congruence.
  - injection E as -> ->. exfalso. apply Hy. apply (in_combine_r _ _ _ _ I').
  - injection E' as -> ->. exfalso. apply Hy. apply (in_combine_r _ _ _ _ I).
  - apply (IH l2 a a' b); assumption.
Qed.

Lemma names_NoDup : forall n, NoDup (map toString (seq 0 n)).
Proof.
  intros n. apply Finite.Injective_map_NoDup; [|apply seq_NoDup].
  intros a b E. apply toString_inj. assumption.
Qed.

Lemma communityNames_get : forall p c,
  In c (JsMap.keys (Worker1.communities p)) ->
  exists s, JsMap.get (Worker1.communityNames p) c = Some s.
Proof.
  intros p c I. apply map_get_In_keys. unfold JsMap.keys, Worker1.communityNames.
  rewrite combine_fst; [exact I|].
  unfold JsMap.keys. rewrite !length_map, length_seq. reflexivity.
Qed.

Lemma communityNames_barFree : forall p c s,
  JsMap.get (Worker1.communityNames p) c = Some s -> barFree s.
Proof.
  intros p c s G. apply map_get_In in G. unfold Worker1.communityNames in G.
  apply in_combine_r in G. apply in_map_iff in G. destruct G as [i [<- _]].
  apply barFree_toString.
Qed.

Lemma communityNames_inj : forall p c c' s,
  JsMap.get (Worker1.communityNames p) c = Some s ->
  JsMap.get (Worker1.communityNames p) c' = Some s -> c = c'.
Proof.
  intros p c c' s G G'. apply map_get_In in G, G'. unfold Worker1.communityNames in G, G'.
  apply (combine_snd_inj _ _ _ _ _ (names_NoDup _) G G').
Qed.

(** The key the first variant counts an edge under. *)
Lemma communityKey_covered : forall p e a b sa sb,
  JsMap.get (Worker1.nodeToCommunity p) (source e) = Some a ->
  JsMap.get (Worker1.nodeToCommunity p) (target e) = Some b ->
  JsMap.get (Worker1.communityNames p) a = Some sa ->
  JsMap.get (Worker1.communityNames p) b = Some sb ->
  Worker1.communityKey p (Worker1.communityNames p) e
  = if a =? b then None else Some (Worker1.edgeKey sa sb).
Proof.
  intros p e a b sa sb Ga Gb Na Nb. unfold Worker1.communityKey.
  rewrite Ga, Gb, Na, Nb. destruct (a =? b); [reflexivity|].
  unfold Worker1.edgeKey. simpl. destruct (String.ltb sa sb); reflexivity.
Qed.

Lemma communityKey_joins : forall graph p c1 c2 s1 s2 e,
  covered graph p -> In e (Worker1.g_edges graph) ->
  c1 <> c2 ->
  JsMap.get (Worker1.communityNames p) c1 = Some s1 ->
  JsMap.get (Worker1.communityNames p) c2 = Some s2 ->
  (Worker1.communityKey p (Worker1.communityNames p) e = Some (Worker1.edgeKey s1 s2)
   <-> joins p c1 c2 e = true).
Proof.
  intros graph p c1 c2 s1 s2 e [_ C] I N G1 G2.
  destruct (C e I) as [a [b [Ga [Gb [Ia Ib]]]]].
  destruct (communityNames_get p a Ia) as [sa Na].
  destruct (communityNames_get p b Ib) as [sb Nb].
  rewrite (communityKey_covered p e a b sa sb Ga Gb Na Nb).
  unfold joins. rewrite Ga, Gb.
  assert (S12 : s1 <> s2).
  { intros E. subst. apply N. apply (communityNames_inj p c1 c2 s2); assumption. }
  assert (B1 := communityNames_barFree _ _ _ G1). assert (B2 := communityNames_barFree _ _ _ G2).
  assert (Ba := communityNames_barFree _ _ _ Na). assert (Bb := communityNames_barFree _ _ _ Nb).
  destruct (Nat.eqb_spec a b) as [E|Nab].
  - subst b. split; [discriminate|]. intros J. exfalso.
    rewrite orb_true_iff, !andb_true_iff, !Nat.eqb_eq in J. destruct J as [[? ?]|[? ?]]; congruence.
  - assert (Sab : sa <> sb).
    { intros E. subst. apply Nab. apply (communityNames_inj p a b sb); assumption. }
    rewrite orb_true_iff, !andb_true_iff, !Nat.eqb_eq. split.
    + intros K. injection K as K.
      destruct (edgeKey_inj sa sb s1 s2 Sab S12 Ba Bb B1 B2 K) as [[-> ->]|[-> ->]].
      * left. split; [apply (communityNames_inj p a c1 s1) | apply (communityNames_inj p b c2 s2)];
          assumption.
      * right. split; [apply (communityNames_inj p a c2 s2) | apply (communityNames_inj p b c1 s1)];
          assumption.
    + intros [[-> ->]|[-> ->]].
      * rewrite G1 in Na. rewrite G2 in Nb. injection Na as <-. injection Nb as <-. reflexivity.
      * rewrite G2 in Na. rewrite G1 in Nb. injection Na as <-. injection Nb as <-.
        rewrite (edgeKey_sym s2 s1) by congruence. reflexivity.
Qed.

(** Every key counted by the first variant joins two distinct names. *)
Lemma communityKey_form : forall graph p e k,
  covered graph p -> In e (Worker1.g_edges graph) ->
  Worker1.communityKey p (Worker1.communityNames p) e = Some k ->
  exists x y, k = pairKey x y /\ barFree x /\ barFree y /\ String.ltb x y = true.
Proof.
  intros graph p e k [_ C] I K.
  destruct (C e I) as [a [b [Ga [Gb [Ia Ib]]]]].
  destruct (communityNames_get p a Ia) as [sa Na].
  destruct (communityNames_get p b Ib) as [sb Nb].
  rewrite (communityKey_covered p e a b sa sb Ga Gb Na Nb) in K.
  destruct (Nat.eqb_spec a b) as [E|Nab]; [discriminate|]. injection K as <-.
  assert (Sab : sa <> sb).
  { intros E. subst. apply Nab. apply (communityNames_inj p a b sb); assumption. }
  destruct (edgeKey_form sa sb Sab (communityNames_barFree _ _ _ Na)
              (communityNames_barFree _ _ _ Nb)) as [x [y [E [Bx [By [L _]]]]]].
  exists x, y. auto.
Qed.

Lemma in_keylist : forall (key : Link -> option string) (edges : list Link) k,
  In k (flat_map (fun e => match key e with Some k => [k] | None => [] end) edges)
  <-> exists e, In e edges /\ key e = Some k.
Proof.
  intros key edges k. rewrite in_flat_map. split; intros [e [I K]]; exists e; split; auto.
  - destruct (key e); simpl in K; [destruct K as [->|[]]; reflexivity | destruct K].
  - rewrite K. left. reflexivity.
Qed.

(** The weights the first variant accumulates. *)
Lemma weights_first_variant : forall graph p,
  covered graph p ->
  let w := fold_left (Worker1.countEdge p (Worker1.communityNames p))
                     (Worker1.g_edges graph) [] in
  NoDup (JsMap.keys w)
  /\ (forall k c, In (k, c) w ->
        exists x y, k = pairKey x y /\ barFree x /\ barFree y /\ String.ltb x y = true)
  /\ (forall c1 c2 s1 s2,
        c1 <> c2 ->
        JsMap.get (Worker1.communityNames p) c1 = Some s1 ->
        JsMap.get (Worker1.communityNames p) c2 = Some s2 ->
        Worker1.countOf w (Worker1.edgeKey s1 s2)
        = length (filter (joins p c1 c2) (Worker1.g_edges graph))).
Proof.
  intros graph p C w.
  assert (W : w = fold_left (fun m l => JsMap.set m l (Worker1.countOf m l + 1))
                    (flat_map (fun e => match Worker1.communityKey p (Worker1.communityNames p) e with
                                        | Some k => [k] | None => [] end)
                              (Worker1.g_edges graph)) []).
  { unfold w. rewrite <- count_keys_tally. reflexivity. }
  destruct (tally_from
              (flat_map (fun e => match Worker1.communityKey p (Worker1.communityNames p) e with
                                  | Some k => [k] | None => [] end)
                        (Worker1.g_edges graph)) [] (NoDup_nil _)) as [N [Cnt I]].
  simpl in N, Cnt, I. rewrite <- W in N, Cnt, I.
  split; [exact N|]. split.
  - intros k c Hin.
    assert (Hk : In k (JsMap.keys w)).
    { unfold JsMap.keys. change k with (fst (k, c)). apply in_map. assumption. }
    apply I in Hk. destruct Hk as [[]|Hk].
    apply in_keylist in Hk. destruct Hk as [e [He K]].
    apply (communityKey_form graph p e k C He K).
  - intros c1 c2 s1 s2 N12 G1 G2. rewrite Cnt. simpl.
    apply count_occ_flat_map. intros e He.
    apply (communityKey_joins graph p c1 c2 s1 s2 e C He N12 G1 G2).
Qed.

Lemma expandKey_pairKey : forall x y c,
  barFree x -> barFree y ->
  Worker1.expandKey (pairKey x y, c) = repeat (mkLink x y) c.
Proof.
  intros x y c Bx By. unfold Worker1.expandKey. simpl fst.
  rewrite split_bar_pairKey by assumption. reflexivity.
Qed.

Lemma aggregate_first_variant : forall graph p,
  covered graph p ->
  (forall l, In l (links (Worker1.aggregateCommunities graph p)) -> source l <> target l)
  /\ (forall c1 c2 s1 s2,
        c1 <> c2 ->
        JsMap.get (Worker1.communityNames p) c1 = Some s1 ->
        JsMap.get (Worker1.communityNames p) c2 = Some s2 ->
        length (filter (between s1 s2) (links (Worker1.aggregateCommunities graph p)))
        = length (filter (joins p c1 c2) (Worker1.g_edges graph))).
Proof.
  intros graph p C. destruct (weights_first_variant graph p C) as [N [F Cnt]].
  unfold Worker1.aggregateCommunities. simpl links.
  set (w := fold_left (Worker1.countEdge p (Worker1.communityNames p))
                      (Worker1.g_edges graph) []) in *.
  split.
  - intros l Hl. apply in_flat_map in Hl. destruct Hl as [[k c] [Hin Hl]].
    destruct (F k c Hin) as [x [y [-> [Bx [By L]]]]].
    rewrite expandKey_pairKey in Hl by assumption. apply repeat_spec in Hl. subst l. simpl.
    intros E. subst y. rewrite ltb_irrefl in L. discriminate.
  - intros c1 c2 s1 s2 N12 G1 G2. rewrite <- (Cnt c1 c2 s1 s2 N12 G1 G2).
    apply count_flat_map; [exact N|].
    intros k c Hin. destruct (F k c Hin) as [x [y [-> [Bx [By L]]]]].
    rewrite expandKey_pairKey by assumption. rewrite filter_repeat.
    assert (S12 : s1 <> s2).
    { intros E. subst. apply N12. apply (communityNames_inj p c1 c2 s2); assumption. }
    assert (B1 := communityNames_barFree _ _ _ G1). assert (B2 := communityNames_barFree _ _ _ G2).
    assert (Nxy : x <> y) by (intros E; subst; rewrite ltb_irrefl in L; discriminate).
    destruct (between s1 s2 (mkLink x y)) eqn:Bt.
    + apply between_iff in Bt.
      assert (K : pairKey x y = Worker1.edgeKey s1 s2).
      { unfold Worker1.edgeKey. destruct Bt as [[-> ->]|[-> ->]].
        - rewrite L. reflexivity.
        - rewrite (ltb_asym s2 s1) by congruence. rewrite L. reflexivity. }
      rewrite K, String.eqb_refl. reflexivity.
    + destruct (String.eqb_spec (pairKey x y) (Worker1.edgeKey s1 s2)) as [K|_]; [|reflexivity].
      exfalso. assert (Bt' : between s1 s2 (mkLink x y) = true); [|congruence].
      apply between_iff. unfold Worker1.edgeKey in K.
      destruct (String.ltb s1 s2); apply pairKey_inj in K; try assumption; tauto.
Qed.

(** ** The second variant *)

Lemma keyOfEdge_covered : forall graph p e,
  covered graph p -> In e (Worker1.g_edges graph) ->
  exists a b,
    JsMap.get (Worker1.nodeToCommunity p) (source e) = Some a
    /\ JsMap.get (Worker1.nodeToCommunity p) (target e) = Some b
    /\ Worker2.communityKey p e = Normal (numberKey a b).
Proof.
  intros graph p e [_ C] I. destruct (C e I) as [a [b [Ga [Gb _]]]].
  exists a, b. split; [assumption|]. split; [assumption|].
  unfold Worker2.communityKey. rewrite Ga, Gb. reflexivity.
Qed.

Lemma numberKey_sym : forall a b, numberKey a b = numberKey b a.
Proof.
  intros a b. unfold numberKey.
  destruct (Nat.leb_spec a b), (Nat.leb_spec b a); try reflexivity; try lia.
  assert (a = b) by lia. subst. reflexivity.
Qed.

Lemma numberKey_inj : forall a b a' b',
  numberKey a b = numberKey a' b' -> (a = a' /\ b = b') \/ (a = b' /\ b = a').
Proof.
  intros a b a' b' E. unfold numberKey in E.
  destruct (a <=? b), (a' <=? b');
    apply pairKey_inj in E; try apply barFree_toString;
    destruct E as [E1 E2]; apply toString_inj in E1, E2; tauto.
Qed.

Lemma numberKey_form : forall a b,
  exists x y, numberKey a b = pairKey (toString x) (toString y) /\ x <= y
              /\ ((x = a /\ y = b) \/ (x = b /\ y = a)).
Proof.
  intros a b. unfold numberKey. destruct (Nat.leb_spec a b).
  - exists a, b. auto.
  - exists b, a. split; [reflexivity|]. split; [lia | auto].
Qed.

Lemma keyOfEdge_joins : forall graph p c1 c2 e,
  covered graph p -> In e (Worker1.g_edges graph) ->
  (keyOfEdge p e = Some (numberKey c1 c2) <-> joins p c1 c2 e = true).
Proof.
  intros graph p c1 c2 e C I.
  destruct (keyOfEdge_covered graph p e C I) as [a [b [Ga [Gb K]]]].
  unfold keyOfEdge, joins. rewrite K, Ga, Gb.
  rewrite orb_true_iff, !andb_true_iff, !Nat.eqb_eq. split.
  - intros E. injection E as E. apply numberKey_inj in E. tauto.
  - intros [[-> ->]|[-> ->]]; [reflexivity | rewrite numberKey_sym; reflexivity].
Qed.

Lemma countEdges_second_variant : forall graph p,
  covered graph p ->
  forall edges w,
    (forall e, In e edges -> In e (Worker1.g_edges graph)) ->
    foldM (Worker2.countEdge p) edges w
    = Normal (fold_left (fun w e => match keyOfEdge p e with
                                    | Some k => JsMap.set w k (Worker1.countOf w k + 1)
                                    | None => w
                                    end) edges w).
Proof.
  intros graph p C edges. induction edges as [|e edges IH]; intros w S; simpl; [reflexivity|].
  destruct (keyOfEdge_covered graph p e C (S e (or_introl eq_refl))) as [a [b [_ [_ K]]]].
  unfold Worker2.countEdge at 1. unfold keyOfEdge at 2. rewrite K. simpl.
  apply IH. intros e' I. apply S. right. assumption.
Qed.

Lemma aggregate_second_variant : forall graph p,
  covered graph p ->
  exists newGraphData,
    Worker2.aggregateCommunities graph p = Normal newGraphData
    /\ forall c1 c2,
         length (filter (between (toString c1) (toString c2)) (links newGraphData))
         = length (filter (joins p c1 c2) (Worker1.g_edges graph)).
Proof.
  intros graph p C. unfold Worker2.aggregateCommunities.
  rewrite (countEdges_second_variant graph p C) by auto. simpl.
  eexists. split; [reflexivity|]. simpl links.
  rewrite count_keys_tally.
  destruct (tally_from
              (flat_map (fun e => match keyOfEdge p e with Some k => [k] | None => [] end)
                        (Worker1.g_edges graph)) [] (NoDup_nil _)) as [N [Cnt I]].
  simpl in N, Cnt, I.
  set (w := fold_left (fun m l => JsMap.set m l (Worker1.countOf m l + 1))
                      (flat_map (fun e => match keyOfEdge p e with Some k => [k] | None => [] end)
                                (Worker1.g_edges graph)) []) in *.
  intros c1 c2.
  assert (Cn : Worker1.countOf w (numberKey c1 c2)
               = length (filter (joins p c1 c2) (Worker1.g_edges graph))).
  { rewrite Cnt. simpl. apply count_occ_flat_map. intros e He.
    apply (keyOfEdge_joins graph p c1 c2 e C He). }
  rewrite <- Cn. apply count_flat_map; [exact N|].
  intros k c Hin.
  assert (Hk : In k (JsMap.keys w)).
  { unfold JsMap.keys. change k with (fst (k, c)). apply in_map. assumption. }
  apply I in Hk. destruct Hk as [[]|Hk].
  apply in_keylist in Hk. destruct Hk as [e [He K]].
  destruct (keyOfEdge_covered graph p e C He) as [a [b [_ [_ K']]]].
  unfold keyOfEdge in K. rewrite K' in K. injection K as <-.
  destruct (numberKey_form a b) as [x [y [E [L _]]]]. rewrite E.
  rewrite expandKey_pairKey by apply barFree_toString. rewrite filter_repeat.
  destruct (between (toString c1) (toString c2) (mkLink (toString x) (toString y))) eqn:Bt.
  - apply between_iff in Bt.
    assert (K : pairKey (toString x) (toString y) = numberKey c1 c2).
    { unfold numberKey.
      destruct Bt as [[E1 E2]|[E1 E2]]; apply toString_inj in E1, E2; subst.
      - rewrite (proj2 (Nat.leb_le _ _) L). reflexivity.
      - destruct (Nat.leb_spec c1 c2); [|reflexivity].
        assert (c1 = c2) by lia. subst. reflexivity. }
    rewrite K, String.eqb_refl. reflexivity.
  - destruct (String.eqb_spec (pairKey (toString x) (toString y)) (numberKey c1 c2)) as [K|_];
      [|reflexivity].
    exfalso. assert (Bt' : between (toString c1) (toString c2)
                             (mkLink (toString x) (toString y)) = true); [|congruence].
    apply between_iff. unfold numberKey in K.
    destruct (c1 <=? c2); apply pairKey_inj in K; try apply barFree_toString; tauto.
Qed.

(** ** The aggregated graph is a graph *)

Lemma ids_of_nodes : forall l : list string, map id (map mkNode l) = l.
Proof. intros l. rewrite map_map. simpl. apply map_id. Qed.

(** The links of the aggregated graph join nodes of the aggregated
    graph, so that the next level starts from a graph of the same
    kind. *)
Lemma aggregate_wellFormed : forall graph p,
  covered graph p -> linksWellFormed (Worker1.aggregateCommunities graph p).
Proof.
  intros graph p C l Hl. unfold Worker1.aggregateCommunities in *. simpl in *.
  rewrite ids_of_nodes.
  apply in_flat_map in Hl. destruct Hl as [[k c] [Hin Hl]].
  set (w := fold_left (Worker1.countEdge p (Worker1.communityNames p))
                      (Worker1.g_edges graph) []) in *.
  assert (W : w = fold_left (fun m l => JsMap.set m l (Worker1.countOf m l + 1))
                    (flat_map (fun e => match Worker1.communityKey p (Worker1.communityNames p) e with
                                        | Some k => [k] | None => [] end)
                              (Worker1.g_edges graph)) []).
  { unfold w. rewrite <- count_keys_tally. reflexivity. }
  destruct (tally_from
              (flat_map (fun e => match Worker1.communityKey p (Worker1.communityNames p) e with
                                  | Some k => [k] | None => [] end)
                        (Worker1.g_edges graph)) [] (NoDup_nil _)) as [_ [_ I]].
  simpl in I. rewrite <- W in I.
  assert (Hk : In k (JsMap.keys w)).
  { unfold JsMap.keys. change k with (fst (k, c)). apply in_map. assumption. }
  apply I in Hk. destruct Hk as [[]|Hk].
  apply in_keylist in Hk. destruct Hk as [e [He K]].
  destruct C as [N C]. destruct (C e He) as [a [b [Ga [Gb [Ia Ib]]]]].
  destruct (communityNames_get p a Ia) as [sa Na].
  destruct (communityNames_get p b Ib) as [sb Nb].
  rewrite (communityKey_covered p e a b sa sb Ga Gb Na Nb) in K.
  destruct (Nat.eqb_spec a b) as [E|Nab]; [discriminate|]. injection K as <-.
  assert (Sab : sa <> sb).
  { intros E. subst. apply Nab. apply (communityNames_inj p a b sb); assumption. }
  destruct (edgeKey_form sa sb Sab (communityNames_barFree _ _ _ Na)
              (communityNames_barFree _ _ _ Nb)) as [x [y [E [Bx [By [_ XY]]]]]].
  rewrite E, expandKey_pairKey in Hl by assumption. apply repeat_spec in Hl. subst l. simpl.
  assert (Va : In sa (JsMap.values (Worker1.communityNames p))).
  { apply map_get_In in Na. unfold JsMap.values. change sa with (snd (a, sa)).
    apply in_map. assumption. }
  assert (Vb : In sb (JsMap.values (Worker1.communityNames p))).
  { apply map_get_In in Nb. unfold JsMap.values. change sb with (snd (b, sb)).
    apply in_map. assumption. }
  destruct XY as [[-> ->]|[-> ->]]; split; apply set_of_list_In; assumption.
Qed.

Lemma aggregate_wellFormed_second : forall graph p newGraphData,
  covered graph p ->
  Worker2.aggregateCommunities graph p = Normal newGraphData ->
  linksWellFormed newGraphData.
Proof.
  intros graph p newGraphData C E. unfold Worker2.aggregateCommunities in E.
  rewrite (countEdges_second_variant graph p C) in E by auto. simpl in E.
  injection E as <-. intros l Hl. simpl in *.
  rewrite count_keys_tally in Hl.
  destruct (tally_from
              (flat_map (fun e => match keyOfEdge p e with Some k => [k] | None => [] end)
                        (Worker1.g_edges graph)) [] (NoDup_nil _)) as [_ [_ I]].
  simpl in I.
  set (w := fold_left (fun m l => JsMap.set m l (Worker1.countOf m l + 1))
                      (flat_map (fun e => match keyOfEdge p e with Some k => [k] | None => [] end)
                                (Worker1.g_edges graph)) []) in *.
  apply in_flat_map in Hl. destruct Hl as [[k c] [Hin Hl]].
  assert (Hk : In k (JsMap.keys w)).
  { unfold JsMap.keys. change k with (fst (k, c)). apply in_map. assumption. }
  apply I in Hk. destruct Hk as [[]|Hk].
  apply in_keylist in Hk. destruct Hk as [e [He K]].
  destruct (keyOfEdge_covered graph p e C He) as [a [b [Ga [Gb K']]]].
  unfold keyOfEdge in K. rewrite K' in K. injection K as <-.
  destruct C as [N C]. destruct (C e He) as [a' [b' [Ga' [Gb' [Ia Ib]]]]].
  assert (a' = a) by congruence. assert (b' = b) by congruence. subst a' b'.
  destruct (numberKey_form a b) as [x [y [E [_ XY]]]].
  rewrite E, expandKey_pairKey in Hl by apply barFree_toString.
  apply repeat_spec in Hl. subst l. simpl.
  rewrite map_map. simpl.
  destruct XY as [[-> ->]|[-> ->]]; split; apply in_map; assumption.
Qed.
(** C9, as the claim states it, fails in the second variant of the
    worker.  On the path a - b - c - d the first optimisation puts a, b
    into community 1 and c, d into community 3; the aggregated graph
    has the links 1 - 1 and 3 - 3, one for each edge inside a
    community. *)
Lemma internal_edges_kept_as_self_edges :
  (p0 <- Worker1.newPartition (Worker2.newGraph path4) ;;
   p <- Worker2.optimizeModularity 100 1 (Worker2.newGraph path4) p0 ;;
   Worker2.aggregateCommunities (Worker2.newGraph path4) p)
  = Normal (mkGraphData [mkNode "1"; mkNode "3"]
                        [mkLink "1" "1"; mkLink "1" "3"; mkLink "3" "3"]).
Proof. vm_compute. reflexivity. Qed.

(** C9, amended.  For a partition that gives every end of every edge a
    community: in the first variant the aggregated graph has no
    self-edge and, for two distinct communities, as many links between
    their nodes as the original graph has edges between their members;
    in the second variant the same count holds for every pair of
    communities, a community paired with itself included, so that the
    edges inside a community appear as self-edges of its node. *)
Theorem aggregated_graph :
  forall graph p,
    covered graph p ->
    ((forall l, In l (links (Worker1.aggregateCommunities graph p)) -> source l <> target l)
     /\ (forall c1 c2 s1 s2,
           c1 <> c2 ->
           JsMap.get (Worker1.communityNames p) c1 = Some s1 ->
           JsMap.get (Worker1.communityNames p) c2 = Some s2 ->
           length (filter (between s1 s2) (links (Worker1.aggregateCommunities graph p)))
           = length (filter (joins p c1 c2) (Worker1.g_edges graph))))
    /\ (exists newGraphData,
          Worker2.aggregateCommunities graph p = Normal newGraphData
          /\ forall c1 c2,
               length (filter (between (toString c1) (toString c2)) (links newGraphData))
               = length (filter (joins p c1 c2) (Worker1.g_edges graph))).
Proof.
  intros graph p C. split.
  - apply aggregate_first_variant. assumption.
  - apply aggregate_second_variant. assumption.
Qed.

Lemma path4Partition_covered : covered (Worker1.newGraph path4) path4Partition.
Proof.
  split.
  - vm_compute. repeat constructor; simpl; intuition discriminate.
  - intros e I. vm_compute in I.
    destruct I as [<-|[<-|[<-|[]]]]; vm_compute; eexists; eexists; intuition eauto.
Qed.

Lemma aggregated_graph_witness :
  (forall l, In l (links (Worker1.aggregateCommunities (Worker1.newGraph path4) path4Partition)) ->
     source l <> target l)
  /\ length (filter (between "0" "1")
               (links (Worker1.aggregateCommunities (Worker1.newGraph path4) path4Partition)))
     = length (filter (joins path4Partition 2 3) (Worker1.g_edges (Worker1.newGraph path4))).
Proof.
  destruct (aggregated_graph (Worker1.newGraph path4) path4Partition path4Partition_covered)
    as [[S B] _].
  split; [exact S|]. apply B; [discriminate | reflexivity | reflexivity].
Defined.

(** The partition of the witness is the one the first variant reaches
    on the path. *)
Lemma path4Partition_reached :
  (p0 <- Worker1.newPartition (Worker1.newGraph path4) ;;
   Worker1.optimizeModularity 10 1 (Worker1.newGraph path4) p0)
  = Normal path4Partition.
Proof. vm_compute. reflexivity. Qed.

(** * Unknown algorithm selectors *)

Lemma eqb_false_of : forall a b : string, a <> b -> String.eqb a b = false.
Proof. intros a b N. apply String.eqb_neq. assumption. Qed.

(** C10, as the claim states it, fails: the centrality dispatcher
    answers an unknown selector with an empty list, and link prediction
    returns an empty list for a graph of fewer than two nodes before it
    looks at the selector. *)
Lemma unknown_selector_not_raised :
  Centrality.calculateCentrality (fun x => x) path3 "Eigenvector" false
  = Normal (Centrality.Scores [])
  /\ LinkPrediction.calculateLinkPrediction (fun _ => 1%Q)
       (mkGraphData [mkNode "a"] []) "Katz"
     = Normal [].
Proof. split; vm_compute; reflexivity. Qed.

(** C10, amended.  For a selector outside the enumeration: the worker
    posts an error message that carries the selector; link prediction
    throws when the graph has at least two nodes and returns the empty
    list otherwise; the centrality dispatcher returns the empty list. *)
Theorem unknown_selector :
  (forall fuel graphData algorithm params,
     ~ In algorithm [Worker1.LOUVAIN; Worker1.GIRVAN_NEWMAN; Worker1.LABEL_PROPAGATION] ->
     Worker1.onmessage fuel graphData algorithm params
     = Normal (Worker1.ERROR ("选择了未知的算法: " ++ algorithm)))
  /\ (forall Math_log graphData algorithm,
        ~ In algorithm [LinkPrediction.COMMON_NEIGHBORS; LinkPrediction.JACCARD;
                        LinkPrediction.ADAMIC_ADAR; LinkPrediction.PREFERENTIAL_ATTACHMENT] ->
        LinkPrediction.calculateLinkPrediction Math_log graphData algorithm
        = if length (nodes graphData) <? 2 then Normal []
          else Throws ("未知的链路预测算法: " ++ algorithm))
  /\ (forall Math_sqrt graphData algorithm isDirected,
        ~ In algorithm [Centrality.IN_DEGREE; Centrality.OUT_DEGREE; Centrality.CLOSENESS;
                        Centrality.BETWEENNESS; Centrality.PAGERANK;
                        Centrality.HITS_AUTHORITY; Centrality.HITS_HUB] ->
        Centrality.calculateCentrality Math_sqrt graphData algorithm isDirected
        = Normal (Centrality.Scores [])).
Proof.
  split; [|split].
  - intros fuel graphData algorithm params N. simpl in N.
    unfold Worker1.onmessage, Worker1.dispatch.
    rewrite !eqb_false_of by (intros E; apply N; subst; tauto). reflexivity.
  - intros Math_log graphData algorithm N. simpl in N.
    unfold LinkPrediction.calculateLinkPrediction.
    rewrite !eqb_false_of by (intros E; apply N; subst; tauto). reflexivity.
  - intros Math_sqrt graphData algorithm isDirected N. simpl in N.
    unfold Centrality.calculateCentrality.
    rewrite !eqb_false_of by (intros E; apply N; subst; tauto). reflexivity.
Qed.

Lemma unknown_selector_witness :
  Worker1.onmessage 0 path3 "Infomap" (defaultParams 2)
  = Normal (Worker1.ERROR "选择了未知的算法: Infomap")
  /\ LinkPrediction.calculateLinkPrediction (fun _ => 1%Q) path3 "Katz"
     = Throws "未知的链路预测算法: Katz"
  /\ Centrality.calculateCentrality (fun x => x) path3 "Eigenvector" true
     = Normal (Centrality.Scores []).
Proof.
  destruct unknown_selector as [W [L C]].
  split; [|split].
  - apply (W 0 path3 "Infomap" (defaultParams 2)). vm_compute. intuition discriminate.
  - apply (L (fun _ => 1%Q) path3 "Katz"). vm_compute. intuition discriminate.
  - apply (C (fun x => x) path3 "Eigenvector" true). vm_compute. intuition discriminate.
Defined.

(** * Tables: entries and keys after an update *)

Lemma map_set_entries : forall {K V : Type} `{EqDec K} (m : JsMap.t K V) k v e,
  In e (JsMap.set m k v) -> e = (k, v) \/ In e m.
Proof.
  intros K V H m k v e. induction m as [|[k0 v0] m IH]; simpl.
  - intros [<-|[]]. left. reflexivity.
  - destruct (eq_dec k k0) as [E|E]; simpl.
    + subst k0. intros [<-|I]; [left; reflexivity | right; right; assumption].
    + intros [<-|I]; [right; left; reflexivity|].
      destruct (IH I) as [->|J]; [left; reflexivity | right; right; assumption].
Qed.

Lemma map_keys_set_known : forall {K V : Type} `{EqDec K} (m : JsMap.t K V) k v,
  In k (JsMap.keys m) -> JsMap.keys (JsMap.set m k v) = JsMap.keys m.
Proof.
  intros K V H m k v I. rewrite map_keys_set. unfold JsMap.has.
  destruct (JsMap.get m k) eqn:G; [reflexivity|].
  exfalso. apply (proj1 (map_get_None m k)) in G. contradiction.
Qed.

(** * Reading an edge list *)

Lemma splitSpacesFrom_cons : forall s inGap,
  exists h t, GraphUtils.splitSpacesFrom inGap s = h :: t.
Proof.
  induction s as [|c s IH]; intros inGap; simpl.
  - eauto.
  - destruct (GraphUtils.isSpace c).
    + destruct inGap; [apply IH | eauto].
    + destruct (IH false) as [h [t ->]]. eauto.
Qed.

(** Every part [split(/\s+/)] returns is free of white space. *)
Lemma splitSpacesFrom_spaceFree : forall s inGap x,
  In x (GraphUtils.splitSpacesFrom inGap s) -> spaceFree x = true.
Proof.
  induction s as [|c s IH]; intros inGap x I; simpl in I.
  - destruct I as [<-|[]]. reflexivity.
  - destruct (GraphUtils.isSpace c) eqn:Sp.
    + destruct inGap; [apply (IH true x I)|].
      destruct I as [<-|I]; [reflexivity | apply (IH true x I)].
    + destruct (splitSpacesFrom_cons s false) as [h [t E]]. rewrite E in I.
      assert (Hh : spaceFree h = true) by (apply (IH false); rewrite E; left; reflexivity).
      destruct I as [<-|I].
      * simpl. rewrite Sp, Hh. reflexivity.
      * apply (IH false). rewrite E. right. assumption.
Qed.

Lemma endsOf_app : forall a b, endsOf (a ++ b) = endsOf a ++ endsOf b.
Proof. intros a b. unfold endsOf. apply flat_map_app. Qed.

Lemma readLine_state : forall st line,
  readerState st -> readerState (GraphUtils.readLine st line).
Proof.
  intros [links nodeSet] line [N [I T]]. unfold GraphUtils.readLine.
  destruct (GraphUtils.splitSpaces (GraphUtils.trim line)) as [|source [|target rest]] eqn:E;
    try (split; [exact N | split; [exact I | exact T]]).
  destruct (GraphUtils.nonEmpty source && GraphUtils.nonEmpty target) eqn:Ne;
    [|split; [exact N | split; [exact I | exact T]]].
  apply andb_prop in Ne. destruct Ne as [Ns Nt].
  assert (Fs : spaceFree source = true).
  { apply (splitSpacesFrom_spaceFree (GraphUtils.trim line) false).
    unfold GraphUtils.splitSpaces in E. rewrite E. left. reflexivity. }
  assert (Ft : spaceFree target = true).
  { apply (splitSpacesFrom_spaceFree (GraphUtils.trim line) false).
    unfold GraphUtils.splitSpaces in E. rewrite E. right. left. reflexivity. }
  simpl in N, I, T. unfold readerState. simpl fst. simpl snd.
  split; [|split].
  - apply set_add_NoDup. apply set_add_NoDup. assumption.
  - intros x. rewrite endsOf_app, in_app_iff, !set_add_In, I. simpl. intuition.
  - intros x Hx. rewrite endsOf_app, in_app_iff in Hx. simpl in Hx.
    destruct Hx as [Hx|[<-|[<-|[]]]]; [apply T; assumption | |];
      unfold token; rewrite ?Ns, ?Nt, ?Fs, ?Ft; reflexivity.
Qed.

Lemma readLines_state : forall lines st,
  readerState st -> readerState (fold_left GraphUtils.readLine lines st).
Proof.
  induction lines as [|line lines IH]; intros st S; simpl; [assumption|].
  apply IH. apply readLine_state. assumption.
Qed.

Lemma endsOf_In : forall links x,
  In x (endsOf links) <-> exists l, In l links /\ (source l = x \/ target l = x).
Proof.
  intros links x. unfold endsOf. rewrite in_flat_map. split.
  - intros [l [I [E|[E|[]]]]]; exists l; auto.
  - intros [l [I [E|E]]]; exists l; simpl; auto.
Qed.

(** X1.  Whatever the text, the graph [parseEdgeList] returns is a
    graph: the node identifiers are pairwise distinct, every link joins
    two of the nodes, and every node is an end of some link. *)
Theorem parseEdgeList_graph : forall data,
  let g := GraphUtils.parseEdgeList data in
  NoDup (map id (nodes g))
  /\ linksWellFormed g
  /\ (forall n, In n (nodes g) ->
        exists l, In l (links g) /\ (source l = id n \/ target l = id n)).
Proof.
  intros data. unfold GraphUtils.parseEdgeList.
  assert (S := readLines_state (GraphUtils.splitLines (GraphUtils.trim data)) ([], [])).
  destruct (fold_left GraphUtils.readLine _ _) as [links nodeSet].
  destruct S as [N [I T]].
  { split; [constructor | split; [simpl; tauto | simpl; tauto]]. }
  simpl in N, I, T. simpl. rewrite ids_of_nodes.
  split; [assumption|]. split.
  - intros l Hl. simpl in *. rewrite ids_of_nodes.
    split; apply I; apply endsOf_In; exists l; auto.
  - intros n Hn. apply endsOf_In. apply I.
    apply in_map_iff in Hn. destruct Hn as [x [<- Hx]]. assumption.
Qed.

(** X2.  Every node identifier [parseEdgeList] returns is a token of
    the text: it is not empty and contains no white space. *)
Theorem parseEdgeList_tokens : forall data,
  Forall (fun n => token (id n) = true) (nodes (GraphUtils.parseEdgeList data)).
Proof.
  intros data. unfold GraphUtils.parseEdgeList.
  assert (S := readLines_state (GraphUtils.splitLines (GraphUtils.trim data)) ([], [])).
  destruct (fold_left GraphUtils.readLine _ _) as [links nodeSet].
  destruct S as [N [I T]].
  { split; [constructor | split; [simpl; tauto | simpl; tauto]]. }
  simpl in N, I, T. simpl. apply Forall_forall. intros n Hn.
  apply in_map_iff in Hn. destruct Hn as [x [<- Hx]]. simpl.
  apply T. apply I. assumption.
Qed.

(** ** The round trip through the edge-list text *)

Lemma string_app_assoc : forall a b c : string, ((a ++ b) ++ c = a ++ (b ++ c))%string.
Proof. induction a as [|x a IH]; intros b c; simpl; [reflexivity | rewrite IH; reflexivity]. Qed.

Lemma string_app_nil : forall a : string, (a ++ "" = a)%string.
Proof. induction a as [|x a IH]; simpl; [reflexivity | rewrite IH; reflexivity]. Qed.

Lemma trimEnd_spaceFree : forall s, spaceFree s = true -> GraphUtils.trimEnd s = s.
Proof.
  induction s as [|c s IH]; intros F; [reflexivity|].
  simpl in F. apply andb_prop in F. destruct F as [Fc Fs].
  apply negb_true_iff in Fc. simpl. rewrite Fc. simpl. rewrite IH by assumption. reflexivity.
Qed.

Lemma blank_app_token : forall a t, token t = true -> GraphUtils.blank (a ++ t) = false.
Proof.
  intros a t T. unfold token in T. apply andb_prop in T. destruct T as [Ne F].
  induction a as [|c a IH]; simpl.
  - destruct t as [|c t]; [discriminate|]. simpl in F. apply andb_prop in F.
    destruct F as [Fc _]. apply negb_true_iff in Fc. simpl. rewrite Fc. reflexivity.
  - rewrite IH. apply andb_false_r.
Qed.

Lemma trimEnd_app_token : forall a t,
  token t = true -> GraphUtils.trimEnd (a ++ t) = (a ++ t)%string.
Proof.
  intros a t T. induction a as [|c a IH].
  - simpl. apply trimEnd_spaceFree. unfold token in T. apply andb_prop in T. tauto.
  - change (String c a ++ t)%string with (String c (a ++ t)).
    assert (B := blank_app_token (String c a) t T).
    change (String c a ++ t)%string with (String c (a ++ t)) in B.
    simpl. simpl in B. rewrite B, IH. reflexivity.
Qed.

Lemma trimStart_token : forall t r,
  token t = true -> GraphUtils.trimStart (t ++ r) = (t ++ r)%string.
Proof.
  intros t r T. unfold token in T. apply andb_prop in T. destruct T as [Ne F].
  destruct t as [|c t]; [discriminate|]. simpl in F. apply andb_prop in F.
  destruct F as [Fc _]. apply negb_true_iff in Fc. simpl. rewrite Fc. reflexivity.
Qed.

(** A text that begins and ends with a token is left as it is by
    [trim]. *)
Lemma trim_between_tokens : forall s a t,
  token s = true -> token t = true ->
  GraphUtils.trim (s ++ a ++ t) = (s ++ a ++ t)%string.
Proof.
  intros s a t S T. unfold GraphUtils.trim. rewrite trimStart_token by assumption.
  rewrite <- string_app_assoc. apply trimEnd_app_token. assumption.
Qed.

Lemma splitSpacesFrom_token : forall t inGap r,
  token t = true ->
  GraphUtils.splitSpacesFrom inGap (t ++ r)
  = match GraphUtils.splitSpacesFrom false r with
    | h :: rest => (t ++ h)%string :: rest
    | [] => [t]
    end.
Proof.
  intros t inGap r T. unfold token in T. apply andb_prop in T. destruct T as [Ne F].
  revert inGap. induction t as [|c t IH]; intros inGap; [discriminate|].
  simpl in F. apply andb_prop in F. destruct F as [Fc Ft]. apply negb_true_iff in Fc.
  simpl. rewrite Fc. destruct t as [|c' t].
  - simpl. destruct (GraphUtils.splitSpacesFrom false r); reflexivity.
  - rewrite (IH eq_refl Ft false).
    destruct (GraphUtils.splitSpacesFrom false r); reflexivity.
Qed.

(** A line made of two tokens splits into the two. *)
Lemma splitSpaces_line : forall s t,
  token s = true -> token t = true ->
  GraphUtils.splitSpaces (s ++ " " ++ t) = [s; t].
Proof.
  intros s t S T. unfold GraphUtils.splitSpaces.
  rewrite (splitSpacesFrom_token s false _ S).
  change (" " ++ t)%string with (String " "%char t).
  cbn [GraphUtils.splitSpacesFrom]. replace (GraphUtils.isSpace " ") with true by reflexivity.
  rewrite <- (string_app_nil t) at 1.
  rewrite (splitSpacesFrom_token t true "" T). simpl.
  rewrite !string_app_nil. reflexivity.
Qed.

Lemma readLine_line : forall st l,
  token (source l) = true -> token (target l) = true ->
  GraphUtils.readLine st (source l ++ " " ++ target l)
  = (fst st ++ [l], JsSet.add (JsSet.add (snd st) (source l)) (target l)).
Proof.
  intros st [s t] S T. cbn [source target] in *. unfold GraphUtils.readLine.
  rewrite trim_between_tokens, splitSpaces_line by assumption.
  unfold token in S, T. apply andb_prop in S, T. destruct S as [-> _], T as [-> _].
  reflexivity.
Qed.

Lemma readLines_lines : forall ls st,
  Forall (fun l => token (source l) = true /\ token (target l) = true) ls ->
  fold_left GraphUtils.readLine
            (map (fun l => (source l ++ " " ++ target l)%string) ls) st
  = (fst st ++ ls, fold_left JsSet.add (endsOf ls) (snd st)).
Proof.
  induction ls as [|l ls IH]; intros st F; simpl.
  - rewrite app_nil_r. destruct st; reflexivity.
  - inversion F as [|? ? [S T] F']; subst.
    rewrite readLine_line by assumption. rewrite IH by assumption. simpl.
    rewrite <- app_assoc. reflexivity.
Qed.

Lemma splitLines_cons : forall s, exists h t, GraphUtils.splitLines s = h :: t.
Proof.
  induction s as [|c s IH]; simpl; [eauto|].
  destruct (Ascii.eqb c "010"); [eauto|]. destruct IH as [h [t ->]]. eauto.
Qed.

Lemma splitLines_spaceFree : forall s r,
  spaceFree s = true ->
  GraphUtils.splitLines (s ++ r)
  = match GraphUtils.splitLines r with
    | h :: rest => (s ++ h)%string :: rest
    | [] => [s]
    end.
Proof.
  induction s as [|c s IH]; intros r F.
  - simpl. destruct (splitLines_cons r) as [h [t ->]]. reflexivity.
  - simpl in F. apply andb_prop in F. destruct F as [Fc Fs].
    simpl. destruct (Ascii.eqb_spec c "010") as [->|_]; [discriminate|].
    rewrite IH by assumption. destruct (GraphUtils.splitLines r); reflexivity.
Qed.

Lemma splitLines_line : forall s t r,
  spaceFree s = true -> spaceFree t = true ->
  GraphUtils.splitLines ((s ++ " " ++ t) ++ r)
  = match GraphUtils.splitLines r with
    | h :: rest => ((s ++ " " ++ t) ++ h)%string :: rest
    | [] => [(s ++ " " ++ t)%string]
    end.
Proof.
  intros s t r S T. rewrite string_app_assoc. rewrite splitLines_spaceFree by assumption.
  change ((" " ++ t) ++ r)%string with (String " "%char (t ++ r)).
  cbn [GraphUtils.splitLines]. replace (Ascii.eqb " " "010") with false by reflexivity.
  rewrite splitLines_spaceFree by assumption.
  destruct (GraphUtils.splitLines r); simpl; rewrite ?string_app_assoc; reflexivity.
Qed.

Lemma concat_lines : forall (x y : string) (r : list string),
  String.concat (String "010" "") (x :: y :: r)
  = (x ++ String "010" (String.concat (String "010" "") (y :: r)))%string.
Proof. reflexivity. Qed.

Lemma splitLines_one : forall s t,
  spaceFree s = true -> spaceFree t = true ->
  GraphUtils.splitLines (s ++ " " ++ t) = [(s ++ " " ++ t)%string].
Proof.
  intros s t S T. rewrite <- (string_app_nil (s ++ " " ++ t)) at 1.
  rewrite splitLines_line by assumption. cbn [GraphUtils.splitLines].
  rewrite string_app_nil. reflexivity.
Qed.

Lemma splitLines_edgeList : forall l ls,
  Forall (fun l => token (source l) = true /\ token (target l) = true) (l :: ls) ->
  GraphUtils.splitLines (GraphUtils.edgeListOf (l :: ls))
  = map (fun l => (source l ++ " " ++ target l)%string) (l :: ls).
Proof.
  intros l ls. revert l. induction ls as [|l' ls IH]; intros l F.
  - inversion F as [|? ? [S T] _]; subst. unfold GraphUtils.edgeListOf.
    cbn [map String.concat].
    unfold token in S, T. apply andb_prop in S, T.
    rewrite splitLines_one by tauto. reflexivity.
  - inversion F as [|? ? [S T] F']; subst.
    specialize (IH l' F'). unfold GraphUtils.edgeListOf in *.
    cbn [map] in *. rewrite concat_lines.
    unfold token in S, T. apply andb_prop in S, T.
    rewrite splitLines_line by tauto.
    cbn [GraphUtils.splitLines]. rewrite Ascii.eqb_refl. rewrite IH.
    rewrite string_app_nil. reflexivity.
Qed.

Lemma edgeList_ends : forall l ls,
  Forall (fun l => token (source l) = true /\ token (target l) = true) (l :: ls) ->
  exists a t, token t = true
    /\ GraphUtils.edgeListOf (l :: ls) = (source l ++ a ++ t)%string.
Proof.
  intros l ls. revert l. induction ls as [|l' ls IH]; intros l F.
  - inversion F as [|? ? [S T] _]; subst. exists " "%string, (target l).
    split; [assumption | reflexivity].
  - inversion F as [|? ? [S T] F']; subst.
    destruct (IH l' F') as [a [t [Tt E]]].
    exists (" " ++ target l ++ String "010" (source l' ++ a))%string, t.
    split; [assumption|]. unfold GraphUtils.edgeListOf in *.
    cbn [map] in *. rewrite concat_lines, E.
    rewrite !string_app_assoc. cbn [String.append]. rewrite !string_app_assoc. reflexivity.
Qed.

Lemma trim_edgeList : forall ls,
  Forall (fun l => token (source l) = true /\ token (target l) = true) ls ->
  GraphUtils.trim (GraphUtils.edgeListOf ls) = GraphUtils.edgeListOf ls.
Proof.
  intros ls F. destruct ls as [|l ls]; [reflexivity|].
  destruct (edgeList_ends l ls F) as [a [t [Tt E]]]. rewrite E.
  inversion F as [|? ? [S _] _]; subst. apply trim_between_tokens; assumption.
Qed.

Lemma edgeList_reads_back : forall ls,
  Forall (fun l => token (source l) = true /\ token (target l) = true) ls ->
  GraphUtils.parseEdgeList (GraphUtils.edgeListOf ls)
  = mkGraphData (map mkNode (JsSet.of_list (endsOf ls))) ls.
Proof.
  intros ls F. unfold GraphUtils.parseEdgeList. rewrite trim_edgeList by assumption.
  destruct ls as [|l ls]; [reflexivity|].
  rewrite splitLines_edgeList by assumption.
  rewrite readLines_lines by assumption. reflexivity.
Qed.

(** X3.  The edge-list text of a list of links whose ends are tokens
    reads back as the same links, in the same order, with the ends as
    nodes in order of first occurrence. *)
Theorem parseEdgeList_edgeListOf : forall ls,
  Forall (fun l => token (source l) = true /\ token (target l) = true) ls ->
  GraphUtils.parseEdgeList (GraphUtils.edgeListOf ls)
  = mkGraphData (map mkNode (JsSet.of_list (endsOf ls))) ls.
Proof.
  intros ls F. apply edgeList_reads_back. assumption.
Qed.

Lemma parseEdgeList_edgeListOf_witness :
  GraphUtils.parseEdgeList (GraphUtils.edgeListOf [mkLink "a" "b"; mkLink "c" "a"])
  = mkGraphData [mkNode "a"; mkNode "b"; mkNode "c"] [mkLink "a" "b"; mkLink "c" "a"].
Proof.
  apply (parseEdgeList_edgeListOf [mkLink "a" "b"; mkLink "c" "a"]).
  repeat constructor.
Defined.

Lemma trimStart_blank : forall s,
  GraphUtils.blank s = true -> GraphUtils.trimStart s = EmptyString.
Proof.
  induction s as [|c s IH]; intros B; [reflexivity|].
  simpl in B. apply andb_prop in B. destruct B as [Bc Bs].
  simpl. rewrite Bc. apply IH. assumption.
Qed.

(** X4.  A text that holds nothing but white space (the empty text
    included) reads as the graph without nodes and links. *)
Theorem parseEdgeList_blank : forall data,
  GraphUtils.blank data = true ->
  GraphUtils.parseEdgeList data = mkGraphData [] [].
Proof.
  intros data B. unfold GraphUtils.parseEdgeList, GraphUtils.trim.
  rewrite trimStart_blank by assumption. reflexivity.
Qed.

Lemma parseEdgeList_blank_witness :
  GraphUtils.parseEdgeList (String " " (String "010" (String "009" " ")))
  = mkGraphData [] [].
Proof. apply parseEdgeList_blank. reflexivity. Defined.

(** * Counting the ends of links *)

(** The counting loop [if (m.has(k)) m.set(k, (m.get(k) || 0) + 1)]
    keeps the keys and adds, for every key, the number of its
    occurrences. *)
Lemma countEnds_spec : forall ends (m : JsMap.t string nat),
  JsMap.keys (fold_left GraphUtils.countEnd ends m) = JsMap.keys m
  /\ forall x, In x (JsMap.keys m) ->
       Worker1.countOf (fold_left GraphUtils.countEnd ends m) x
       = Worker1.countOf m x + count_occ string_dec ends x.
Proof.
  induction ends as [|e ends IH]; intros m; simpl.
  - split; [reflexivity | intros; lia].
  - destruct (IH (GraphUtils.countEnd m e)) as [K C].
    assert (Ke : JsMap.keys (GraphUtils.countEnd m e) = JsMap.keys m).
    { unfold GraphUtils.countEnd. destruct (JsMap.has m e) eqn:H; [|reflexivity].
      rewrite map_keys_set, H. reflexivity. }
    split; [rewrite K; exact Ke|].
    intros x Hx. rewrite C by (rewrite Ke; assumption).
    unfold GraphUtils.countEnd. destruct (string_dec e x) as [->|Ne].
    + assert (H : JsMap.has m x = true).
      { unfold JsMap.has. apply map_get_In_keys in Hx. destruct Hx as [v ->]. reflexivity. }
      rewrite H, countOf_set_same. lia.
    + destruct (JsMap.has m e); [|reflexivity].
      rewrite countOf_set_other by congruence. reflexivity.
Qed.

Lemma zero_over_nodes : forall (l : list Node) (m : JsMap.t string nat),
  fold_left (fun m n => JsMap.set m (id n) 0) l m
  = fold_left (fun m x => JsMap.set m x 0) (map id l) m.
Proof. induction l as [|n l IH]; intros m; simpl; [reflexivity | apply IH]. Qed.

Lemma countOf_zero : forall (ids : list string) x,
  Worker1.countOf (fold_left (fun m x => JsMap.set m x 0) ids []) x = 0.
Proof.
  intros ids x. unfold Worker1.countOf.
  rewrite (map_init_get (fun _ : string => 0) ids [] x).
  destruct (in_dec eq_dec x ids); reflexivity.
Qed.

Lemma zero_keys : forall (ids : list string) x,
  In x ids -> In x (JsMap.keys (fold_left (fun m x => JsMap.set m x 0) ids [])).
Proof.
  intros ids x I. apply map_get_In_keys.
  rewrite (map_init_get (fun _ : string => 0) ids [] x).
  destruct (in_dec eq_dec x ids); [eauto | contradiction].
Qed.

Lemma countBoth_split : forall (ls : list Link) (a b : JsMap.t string nat),
  fold_left (fun (st : JsMap.t string nat * JsMap.t string nat) link =>
               (GraphUtils.countEnd (fst st) (target link),
                GraphUtils.countEnd (snd st) (source link)))
            ls (a, b)
  = (fold_left GraphUtils.countEnd (map target ls) a,
     fold_left GraphUtils.countEnd (map source ls) b).
Proof. induction ls as [|l ls IH]; intros a b; simpl; [reflexivity | apply IH]. Qed.

(** The attributes a node is given. *)
Lemma enrichNodesWithDegrees_spec : forall graphData isDirected,
  let enriched := GraphUtils.enrichNodesWithDegrees graphData isDirected in
  map fst enriched = nodes graphData
  /\ Forall (fun nd =>
               let x := id (fst nd) in
               GraphUtils.inDegree (snd nd)
               = count_occ string_dec (map target (links graphData)) x
               /\ GraphUtils.outDegree (snd nd)
                  = count_occ string_dec (map source (links graphData)) x
               /\ GraphUtils.totalDegree (snd nd)
                  = if isDirected
                    then GraphUtils.inDegree (snd nd) + GraphUtils.outDegree (snd nd)
                    else GraphUtils.outDegree (snd nd))
            enriched.
Proof.
  intros graphData isDirected. unfold GraphUtils.enrichNodesWithDegrees.
  rewrite countBoth_split, zero_over_nodes.
  set (zero := fold_left (fun m x => JsMap.set m x 0) (map id (nodes graphData)) []).
  cbv zeta. split.
  - rewrite map_map. simpl. apply map_id.
  - apply Forall_forall. intros nd I. apply in_map_iff in I. destruct I as [n [<- I]].
    cbn [fst snd GraphUtils.inDegree GraphUtils.outDegree GraphUtils.totalDegree].
    assert (K : In (id n) (JsMap.keys zero)) by (apply zero_keys; apply in_map; assumption).
    destruct (countEnds_spec (map target (links graphData)) zero) as [_ Ct].
    destruct (countEnds_spec (map source (links graphData)) zero) as [_ Cs].
    rewrite (Ct _ K), (Cs _ K). unfold zero. rewrite countOf_zero.
    repeat split.
Qed.

(** X5.  [enrichNodesWithDegrees] keeps the nodes in their order and
    gives each one as in-degree the number of links whose target it is,
    as out-degree the number of links whose source it is, and as
    general degree their sum in a directed graph and the out-degree
    alone in an undirected one. *)
Theorem enrichNodesWithDegrees_counts : forall graphData isDirected,
  let enriched := GraphUtils.enrichNodesWithDegrees graphData isDirected in
  map fst enriched = nodes graphData
  /\ Forall (fun nd =>
               let x := id (fst nd) in
               GraphUtils.inDegree (snd nd)
               = count_occ string_dec (map target (links graphData)) x
               /\ GraphUtils.outDegree (snd nd)
                  = count_occ string_dec (map source (links graphData)) x
               /\ GraphUtils.totalDegree (snd nd)
                  = if isDirected
                    then GraphUtils.inDegree (snd nd) + GraphUtils.outDegree (snd nd)
                    else GraphUtils.outDegree (snd nd))
            enriched.
Proof.
  intros graphData isDirected. apply enrichNodesWithDegrees_spec.
Qed.

(** * Degree centrality *)

Lemma entries_of_counts : forall (m : JsMap.t string nat),
  NoDup (JsMap.keys m) ->
  m = map (fun k => (k, Worker1.countOf m k)) (JsMap.keys m).
Proof.
  induction m as [|[k v] m IH]; intros N; [reflexivity|].
  inversion N as [|? ? Hk Nm]; subst. simpl. f_equal.
  - unfold Worker1.countOf. simpl. destruct (eq_dec k k); [reflexivity | congruence].
  - rewrite (IH Nm) at 1. apply map_ext_in. intros x Hx. f_equal.
    unfold Worker1.countOf. simpl. destruct (eq_dec x k) as [->|_]; [contradiction | reflexivity].
Qed.

Lemma countLinks_entries : forall ends ids,
  NoDup ids ->
  Centrality.countLinks ends ids
  = map (fun x => (x, count_occ string_dec ends x)) ids.
Proof.
  intros ends ids N. unfold Centrality.countLinks.
  change (fold_left (fun m e => if JsMap.has m e
                                then JsMap.set m e (Worker1.countOf m e + 1) else m))
    with (fold_left GraphUtils.countEnd).
  set (zero := fold_left (fun m n => JsMap.set m n 0) ids []).
  assert (Kz : JsMap.keys zero = ids).
  { unfold zero. rewrite (map_init_explicit (fun _ : string => 0) ids N []) by (intros x _ []).
    simpl. unfold JsMap.keys. rewrite map_map. simpl. apply map_id. }
  destruct (countEnds_spec ends zero) as [K C].
  rewrite (entries_of_counts (fold_left GraphUtils.countEnd ends zero))
    by (rewrite K, Kz; assumption).
  rewrite K, Kz. apply map_ext_in. intros x Hx. f_equal.
  rewrite C by (rewrite Kz; assumption). unfold zero. rewrite countOf_zero. reflexivity.
Qed.

(** X6.  For distinct node identifiers the in-degree (out-degree)
    centrality lists the nodes in their order, each with the number of
    links whose target (source) it is divided by [n - 1]; with at most
    one node every score is 0. *)
Theorem degree_centrality_scores : forall graphData,
  NoDup (map id (nodes graphData)) ->
  let n := length (nodes graphData) in
  let scoreOf (ends : list string) (x : string) : Q :=
    if n <=? 1 then 0%Q
    else (Centrality.Qnat (count_occ string_dec ends x) / Centrality.Qnat (n - 1))%Q in
  Centrality.calculateInDegreeCentrality graphData
  = map (fun v => Centrality.mkScore (id v) (scoreOf (map target (links graphData)) (id v)))
        (nodes graphData)
  /\ Centrality.calculateOutDegreeCentrality graphData
     = map (fun v => Centrality.mkScore (id v) (scoreOf (map source (links graphData)) (id v)))
           (nodes graphData).
Proof.
  intros graphData N n scoreOf.
  unfold Centrality.calculateInDegreeCentrality, Centrality.calculateOutDegreeCentrality,
    Centrality.degreeCentrality, scoreOf. fold n.
  destruct (n <=? 1); [split; reflexivity|].
  rewrite !countLinks_entries by assumption. rewrite !map_map. split; reflexivity.
Qed.

Lemma degree_centrality_scores_witness :
  Centrality.calculateInDegreeCentrality path3
  = map (fun v => Centrality.mkScore (id v)
                    (Centrality.Qnat (count_occ string_dec (map target (links path3)) (id v))
                     / Centrality.Qnat 2)%Q)
        (nodes path3).
Proof.
  assert (N : NoDup (map id (nodes path3))).
  { vm_compute. repeat constructor; simpl; intuition discriminate. }
  exact (proj1 (degree_centrality_scores path3 N)).
Defined.

(** * The parser worker: parsing, then counting *)

Lemma count_occ_sum : forall (ids l : list string),
  NoDup ids -> incl l ids ->
  list_sum (map (count_occ string_dec l) ids) = length l.
Proof.
  intros ids l N. induction l as [|a l IH]; intros Sub.
  - clear N Sub. induction ids as [|x ids IHi]; [reflexivity|].
    change (0 + list_sum (map (count_occ string_dec []) ids) = 0). exact IHi.
  - specialize (IH (fun x I => Sub x (or_intror I))).
    assert (Ha : In a ids) by (apply Sub; left; reflexivity).
    cbn [length]. rewrite <- IH. clear IH Sub.
    induction ids as [|x ids IHi]; [destruct Ha|].
    inversion N as [|? ? Hx N']; subst. cbn [map]. unfold list_sum. cbn [fold_right].
    fold (list_sum (map (count_occ string_dec (a :: l)) ids)).
    fold (list_sum (map (count_occ string_dec l) ids)).
    destruct (string_dec a x) as [->|Ne].
    + rewrite count_occ_cons_eq by reflexivity.
      assert (Z : map (count_occ string_dec (x :: l)) ids = map (count_occ string_dec l) ids).
      { apply map_ext_in. intros y Hy. apply count_occ_cons_neq. intros ->. contradiction. }
      rewrite Z. lia.
    + rewrite count_occ_cons_neq by assumption.
      destruct Ha as [->|Ha]; [congruence|].
      rewrite (IHi N' Ha). lia.
Qed.

(** X29.  The parser worker answers every text with SUCCESS: the links
    are the links read, the nodes are the nodes read, in order; every
    node has in-degree or out-degree at least one, so its general degree
    is at least one in a directed graph; and the in-degrees, like the
    out-degrees, add up to the number of links. *)
Theorem parser_worker_degrees : forall edgeList isDirected,
  exists ns ls,
    ParserWorker.onmessage edgeList isDirected = ParserWorker.SUCCESS ns ls
    /\ ls = links (GraphUtils.parseEdgeList edgeList)
    /\ map fst ns = nodes (GraphUtils.parseEdgeList edgeList)
    /\ Forall (fun nd =>
                 1 <= GraphUtils.inDegree (snd nd) + GraphUtils.outDegree (snd nd)
                 /\ (isDirected = true -> 1 <= GraphUtils.totalDegree (snd nd)))
              ns
    /\ list_sum (map (fun nd => GraphUtils.inDegree (snd nd)) ns) = length ls
    /\ list_sum (map (fun nd => GraphUtils.outDegree (snd nd)) ns) = length ls.
Proof.
  intros edgeList isDirected. unfold ParserWorker.onmessage. cbv zeta.
  eexists. eexists. split; [reflexivity|]. split; [reflexivity|].
  destruct (enrichNodesWithDegrees_spec (GraphUtils.parseEdgeList edgeList) isDirected)
    as [Ns Ds].
  split; [exact Ns|].
  set (enriched := GraphUtils.enrichNodesWithDegrees (GraphUtils.parseEdgeList edgeList)
                     isDirected) in *.
  cbv zeta in Ds. rewrite Forall_forall in Ds.
  assert (Parsed : NoDup (map id (nodes (GraphUtils.parseEdgeList edgeList)))
                   /\ forall x, In x (map id (nodes (GraphUtils.parseEdgeList edgeList)))
                                <-> In x (endsOf (links (GraphUtils.parseEdgeList edgeList)))).
  { unfold GraphUtils.parseEdgeList.
    assert (S := readLines_state (GraphUtils.splitLines (GraphUtils.trim edgeList)) ([], [])).
    destruct (fold_left GraphUtils.readLine _ _) as [ls nodeSet].
    destruct S as [N [I T]].
    { split; [constructor | split; [simpl; tauto | simpl; tauto]]. }
    cbn [fst snd] in N, I. cbn [nodes links]. rewrite ids_of_nodes. split; assumption. }
  destruct Parsed as [N Ends].
  assert (Ids : map (fun nd => id (fst nd)) enriched
                = map id (nodes (GraphUtils.parseEdgeList edgeList))).
  { rewrite <- Ns, map_map. reflexivity. }
  split; [|split].
  - apply Forall_forall. intros nd I. destruct (Ds nd I) as [Din [Dout Dtot]].
    assert (E : In (id (fst nd)) (endsOf (links (GraphUtils.parseEdgeList edgeList)))).
    { apply Ends. rewrite <- Ids. apply in_map_iff. exists nd. split; [reflexivity | assumption]. }
    apply endsOf_In in E. destruct E as [l [Hl E]].
    assert (One : 1 <= GraphUtils.inDegree (snd nd) + GraphUtils.outDegree (snd nd)).
    { rewrite Din, Dout. destruct E as [E|E].
      - assert (C : 0 < count_occ string_dec
                          (map source (links (GraphUtils.parseEdgeList edgeList)))
                          (id (fst nd))).
        { apply count_occ_In. rewrite <- E. apply in_map. assumption. }
        lia.
      - assert (C : 0 < count_occ string_dec
                          (map target (links (GraphUtils.parseEdgeList edgeList)))
                          (id (fst nd))).
        { apply count_occ_In. rewrite <- E. apply in_map. assumption. }
        lia. }
    split; [exact One|]. intros ->. rewrite Dtot. exact One.
  - rewrite <- (length_map target (links (GraphUtils.parseEdgeList edgeList))).
    rewrite <- (count_occ_sum (map id (nodes (GraphUtils.parseEdgeList edgeList)))
                  (map target (links (GraphUtils.parseEdgeList edgeList))) N).
    + rewrite <- Ids, map_map. f_equal. apply map_ext_in. intros nd I.
      apply (Ds nd I).
    + intros x I. apply Ends. apply in_map_iff in I. destruct I as [l [<- Hl]].
      apply endsOf_In. exists l. auto.
  - rewrite <- (length_map source (links (GraphUtils.parseEdgeList edgeList))).
    rewrite <- (count_occ_sum (map id (nodes (GraphUtils.parseEdgeList edgeList)))
                  (map source (links (GraphUtils.parseEdgeList edgeList))) N).
    + rewrite <- Ids, map_map. f_equal. apply map_ext_in. intros nd I.
      apply (Ds nd I).
    + intros x I. apply Ends. apply in_map_iff in I. destruct I as [l [<- Hl]].
      apply endsOf_In. exists l. auto.
Qed.

(** * The graph representation of the centrality routines *)

Lemma map_set_comm : forall {K V : Type} `{EqDec K} (m : JsMap.t K V) s t v w,
  s <> t -> In s (JsMap.keys m) -> In t (JsMap.keys m) ->
  JsMap.set (JsMap.set m s v) t w = JsMap.set (JsMap.set m t w) s v.
Proof.
  intros K V H m s t v w N. induction m as [|[k u] m IH]; intros Is It; [destruct Is|].
  simpl. destruct (eq_dec s k) as [Es|Es], (eq_dec t k) as [Et|Et]; simpl.
  - congruence.
  - destruct (eq_dec t k); [congruence|]. destruct (eq_dec s k); [|congruence].
    reflexivity.
  - destruct (eq_dec t k); [|congruence]. destruct (eq_dec s k); [congruence|].
    reflexivity.
  - destruct (eq_dec t k); [congruence|]. destruct (eq_dec s k); [congruence|].
    f_equal. apply IH.
    + simpl in Is. destruct Is as [E|Is]; [congruence | assumption].
    + simpl in It. destruct It as [E|It]; [congruence | assumption].
Qed.

Lemma pushTo_comm : forall (m : JsMap.t string (list string)) s t a b,
  s <> t ->
  Worker1.pushTo (Worker1.pushTo m s a) t b = Worker1.pushTo (Worker1.pushTo m t b) s a.
Proof.
  intros m s t a b N. unfold Worker1.pushTo.
  destruct (JsMap.get m s) as [ls|] eqn:Gs; destruct (JsMap.get m t) as [lt|] eqn:Gt;
    cbv iota; rewrite ?map_get_set_other by congruence; rewrite ?Gs, ?Gt; try reflexivity.
  apply map_set_comm; [assumption | |]; apply map_get_In_keys; eauto.
Qed.

Lemma addLink_undirected : forall g l,
  Centrality.revAdj g = Centrality.adj g ->
  Centrality.revAdj (Centrality.addLink false g l) = Centrality.adj (Centrality.addLink false g l).
Proof.
  intros g l E. unfold Centrality.addLink.
  destruct (JsMap.has (Centrality.adj g) (source l) && JsMap.has (Centrality.adj g) (target l));
    [|assumption].
  cbn [Centrality.adj Centrality.revAdj]. rewrite E.
  destruct (string_dec (source l) (target l)) as [->|N]; [reflexivity|].
  symmetry. apply pushTo_comm. assumption.
Qed.

(** Each node's out-degree is the length of its adjacency list. *)
Lemma push_increment : forall (adj : JsMap.t string (list string)) (out : JsMap.t string nat) k x,
  (forall y, JsMap.get out y = option_map (@length string) (JsMap.get adj y)) ->
  forall y, JsMap.get (Worker1.increment out k) y
            = option_map (@length string) (JsMap.get (Worker1.pushTo adj k x) y).
Proof.
  intros adj out k x I y. unfold Worker1.increment, Worker1.pushTo.
  assert (Ik := I k). destruct (JsMap.get adj k) as [l|] eqn:G; simpl in Ik; rewrite Ik.
  - destruct (string_dec y k) as [->|N].
    + rewrite !map_get_set_same. simpl. rewrite length_app. reflexivity.
    + rewrite !map_get_set_other by assumption. apply I.
  - apply I.
Qed.

Lemma addLink_outDegrees : forall isDirected g l,
  (forall y, JsMap.get (Centrality.outDegrees g) y
             = option_map (@length string) (JsMap.get (Centrality.adj g) y)) ->
  forall y, JsMap.get (Centrality.outDegrees (Centrality.addLink isDirected g l)) y
            = option_map (@length string)
                (JsMap.get (Centrality.adj (Centrality.addLink isDirected g l)) y).
Proof.
  intros isDirected g l I. unfold Centrality.addLink.
  destruct (JsMap.has (Centrality.adj g) (source l) && JsMap.has (Centrality.adj g) (target l));
    [|assumption].
  destruct isDirected; cbn [Centrality.adj Centrality.outDegrees].
  - apply push_increment. assumption.
  - apply push_increment. apply push_increment. assumption.
Qed.

Lemma representation_invariant : forall isDirected ls g,
  (isDirected = false -> Centrality.revAdj g = Centrality.adj g) ->
  (forall y, JsMap.get (Centrality.outDegrees g) y
             = option_map (@length string) (JsMap.get (Centrality.adj g) y)) ->
  let g' := fold_left (Centrality.addLink isDirected) ls g in
  (isDirected = false -> Centrality.revAdj g' = Centrality.adj g')
  /\ (forall y, JsMap.get (Centrality.outDegrees g') y
                = option_map (@length string) (JsMap.get (Centrality.adj g') y)).
Proof.
  intros isDirected ls. induction ls as [|l ls IH]; intros g U O; simpl; [split; assumption|].
  apply IH.
  - intros ->. apply addLink_undirected. apply U. reflexivity.
  - apply addLink_outDegrees. assumption.
Qed.

(** X7.  In the graph representation every node's out-degree is the
    length of its adjacency list, and for an undirected graph the
    reverse adjacency is the adjacency itself. *)
Theorem graph_representation : forall graphData isDirected,
  let g := Centrality.buildGraphRepresentation graphData isDirected in
  (forall x, JsMap.get (Centrality.outDegrees g) x
             = option_map (@length string) (JsMap.get (Centrality.adj g) x))
  /\ (isDirected = false -> Centrality.revAdj g = Centrality.adj g).
Proof.
  intros graphData isDirected. unfold Centrality.buildGraphRepresentation.
  set (ids := map id (nodes graphData)).
  destruct (representation_invariant isDirected (links graphData)
              (Centrality.mkRepresentation
                 (fold_left (fun m n => JsMap.set m n []) ids [])
                 (fold_left (fun m n => JsMap.set m n []) ids [])
                 (fold_left (fun m n => JsMap.set m n 0) ids []))) as [U O].
  - reflexivity.
  - intros y. cbn [Centrality.outDegrees Centrality.adj].
    rewrite (map_init_get (fun _ : string => 0) ids [] y).
    rewrite (map_init_get (fun _ : string => @nil string) ids [] y).
    destruct (in_dec eq_dec y ids); reflexivity.
  - split; [exact O | exact U].
Qed.

(** X8.  On a graph without nodes every centrality measure returns an
    empty result, whatever links the graph data carries. *)
Theorem centrality_of_no_nodes : forall Math_sqrt ls algorithm isDirected,
  Centrality.calculateCentrality Math_sqrt (mkGraphData [] ls) algorithm isDirected
  = Normal (Centrality.Scores [])
  \/ Centrality.calculateCentrality Math_sqrt (mkGraphData [] ls) algorithm isDirected
     = Normal (Centrality.Hits [] []).
Proof.
  intros Math_sqrt ls algorithm isDirected. unfold Centrality.calculateCentrality.
  destruct (String.eqb algorithm Centrality.IN_DEGREE); [left; reflexivity|].
  destruct (String.eqb algorithm Centrality.OUT_DEGREE); [left; reflexivity|].
  destruct (String.eqb algorithm Centrality.CLOSENESS); [left; reflexivity|].
  destruct (String.eqb algorithm Centrality.BETWEENNESS); [left; reflexivity|].
  destruct (String.eqb algorithm Centrality.PAGERANK); [left; reflexivity|].
  destruct (String.eqb algorithm Centrality.HITS_AUTHORITY || String.eqb algorithm Centrality.HITS_HUB);
    [right; reflexivity | left; reflexivity].
Qed.

(** * Closeness *)

Lemma pushTo_members : forall (U : list string) (adj : JsMap.t string (list string)) k x,
  (forall y l, JsMap.get adj y = Some l -> incl l U) -> In x U ->
  forall y l, JsMap.get (Worker1.pushTo adj k x) y = Some l -> incl l U.
Proof.
  intros U adj k x M Hx y l G. unfold Worker1.pushTo in G.
  destruct (JsMap.get adj k) as [lk|] eqn:Gk; [|apply (M y l G)].
  destruct (string_dec y k) as [->|N].
  - rewrite map_get_set_same in G. injection G as <-.
    intros z Hz. apply in_app_or in Hz. destruct Hz as [Hz|[<-|[]]]; [|assumption].
    apply (M k lk Gk z Hz).
  - rewrite map_get_set_other in G by assumption. apply (M y l G).
Qed.

Lemma pushTo_has : forall (adj : JsMap.t string (list string)) k x y,
  JsMap.has (Worker1.pushTo adj k x) y = JsMap.has adj y.
Proof.
  intros adj k x y. unfold Worker1.pushTo, JsMap.has.
  destruct (JsMap.get adj k) as [lk|] eqn:Gk; [|reflexivity].
  destruct (string_dec y k) as [->|N].
  - rewrite map_get_set_same, Gk. reflexivity.
  - rewrite map_get_set_other by assumption. reflexivity.
Qed.

Lemma addLink_members : forall (U : list string) isDirected g l,
  (forall y ns, JsMap.get (Centrality.adj g) y = Some ns -> incl ns U) ->
  (forall k, JsMap.has (Centrality.adj g) k = true -> In k U) ->
  (forall y ns, JsMap.get (Centrality.adj (Centrality.addLink isDirected g l)) y = Some ns ->
                incl ns U)
  /\ (forall k, JsMap.has (Centrality.adj (Centrality.addLink isDirected g l)) k = true ->
                In k U).
Proof.
  intros U isDirected g l M H. unfold Centrality.addLink.
  destruct (JsMap.has (Centrality.adj g) (source l)) eqn:Hs; [|split; assumption].
  destruct (JsMap.has (Centrality.adj g) (target l)) eqn:Ht; [|split; assumption].
  simpl andb. cbv iota.
  destruct isDirected; cbn [Centrality.adj]; split.
  - apply pushTo_members; [assumption | apply H; assumption].
  - intros k. rewrite pushTo_has. apply H.
  - apply pushTo_members; [|apply H; assumption].
    apply pushTo_members; [assumption | apply H; assumption].
  - intros k. rewrite !pushTo_has. apply H.
Qed.

(** The adjacency lists of the representation hold nodes of the graph
    only. *)
Lemma representation_members : forall graphData isDirected y ns,
  JsMap.get (Centrality.adj (Centrality.buildGraphRepresentation graphData isDirected)) y
  = Some ns ->
  incl ns (map id (nodes graphData)).
Proof.
  intros graphData isDirected. unfold Centrality.buildGraphRepresentation.
  set (ids := map id (nodes graphData)).
  assert (A : forall ls g,
            (forall y ns, JsMap.get (Centrality.adj g) y = Some ns -> incl ns ids) ->
            (forall k, JsMap.has (Centrality.adj g) k = true -> In k ids) ->
            forall y ns,
              JsMap.get (Centrality.adj (fold_left (Centrality.addLink isDirected) ls g)) y
              = Some ns -> incl ns ids).
  { induction ls as [|l ls IH]; intros g M H; simpl; [exact M|].
    destruct (addLink_members ids isDirected g l M H) as [M' H']. apply IH; assumption. }
  apply A; cbn [Centrality.adj].
  - intros y ns G. rewrite (map_init_get (fun _ : string => @nil string) ids [] y) in G.
    destruct (in_dec eq_dec y ids); [|discriminate]. injection G as <-. intros z [].
  - intros k Hk. unfold JsMap.has in Hk.
    rewrite (map_init_get (fun _ : string => @nil string) ids [] k) in Hk.
    destruct (in_dec eq_dec k ids); [assumption | discriminate].
Qed.

Lemma enqueueAt_step : forall (U : list string) distance st v,
  NoDup (fst st) -> incl (fst st) U -> In v U ->
  NoDup (fst (Centrality.enqueueAt distance st v))
  /\ incl (fst (Centrality.enqueueAt distance st v)) U
  /\ length (fst (Centrality.enqueueAt distance st v)) + length (snd st)
     = length (fst st) + length (snd (Centrality.enqueueAt distance st v)).
Proof.
  intros U distance [visited fresh] v N I Hv. unfold Centrality.enqueueAt. cbn [fst snd] in *.
  destruct (JsSet.has visited v) eqn:Hh; cbn [fst snd].
  - repeat split; assumption.
  - split; [apply set_add_NoDup; assumption|]. split.
    + intros z Hz. apply set_add_In in Hz.
      destruct Hz as [Hz| ->]; [apply I; assumption | assumption].
    + unfold JsSet.add. rewrite Hh. rewrite !length_app. simpl. lia.
Qed.

Lemma enqueueAt_fold : forall (U : list string) distance neighbors st,
  NoDup (fst st) -> incl (fst st) U -> incl neighbors U ->
  NoDup (fst (fold_left (Centrality.enqueueAt distance) neighbors st))
  /\ incl (fst (fold_left (Centrality.enqueueAt distance) neighbors st)) U
  /\ length (fst (fold_left (Centrality.enqueueAt distance) neighbors st)) + length (snd st)
     = length (fst st)
       + length (snd (fold_left (Centrality.enqueueAt distance) neighbors st)).
Proof.
  intros U distance neighbors. induction neighbors as [|v neighbors IH];
    intros st N I In'; cbn [fold_left].
  - repeat split; assumption.
  - assert (Hv : In v U) by (apply In'; left; reflexivity).
    assert (In'' : incl neighbors U) by (intros z Hz; apply In'; right; assumption).
    destruct (enqueueAt_step U distance st v N I Hv) as [N1 [I1 L1]].
    destruct (IH (Centrality.enqueueAt distance st v) N1 I1 In'') as [N2 [I2 L2]].
    split; [assumption|]. split; [assumption|]. unfold JsSet.t in *. lia.
Qed.

Lemma distances_step : forall fuel adjacency c d rest visited totalDistance reachableNodes,
  Centrality.distances (S fuel) adjacency ((c, d) :: rest) visited totalDistance reachableNodes
  = let st := fold_left (Centrality.enqueueAt d)
                (match JsMap.get adjacency c with Some l => l | None => [] end)
                (visited, []) in
    Centrality.distances fuel adjacency (rest ++ snd st) (fst st)
      (if 0 <? d then totalDistance + d else totalDistance)
      (if 0 <? d then reachableNodes + 1 else reachableNodes).
Proof.
  intros. simpl. destruct (0 <? d); destruct (fold_left _ _ _); reflexivity.
Qed.

(** The search of [calculateClosenessCentrality] ends within as many
    steps as there are nodes, and counts no more nodes than
    distance. *)
Lemma distances_total : forall (U : list string) adjacency,
  (forall y ns, JsMap.get adjacency y = Some ns -> incl ns U) ->
  forall fuel pending visited totalDistance reachableNodes,
    NoDup visited -> incl visited U ->
    length pending + length U <= fuel + length visited ->
    reachableNodes <= totalDistance ->
    exists t r,
      Centrality.distances fuel adjacency pending visited totalDistance reachableNodes
      = Normal (t, r) /\ r <= t.
Proof.
  intros U adjacency M. induction fuel as [|fuel IH];
    intros pending visited totalDistance reachableNodes N I L R.
  - destruct pending as [|[c d] rest]; simpl; [eauto|].
    assert (length visited <= length U) by (apply NoDup_incl_length; assumption).
    simpl in L. lia.
  - destruct pending as [|[c d] rest]; [simpl; eauto|].
    rewrite distances_step.
    set (neighbors := match JsMap.get adjacency c with Some l => l | None => [] end).
    assert (In' : incl neighbors U).
    { unfold neighbors. destruct (JsMap.get adjacency c) eqn:G; [apply (M c l G) | intros z []]. }
    destruct (enqueueAt_fold U d neighbors (visited, []) N I In') as [N' [I' L']].
    cbv zeta. cbn [fst snd length] in L'. simpl in L. unfold JsSet.t in *.
    apply IH; try assumption.
    + rewrite length_app. lia.
    + destruct (0 <? d) eqn:D; [apply Nat.ltb_lt in D|]; lia.
Qed.

Lemma closeness_from : forall graphData isDirected vs results0,
  incl vs (nodes graphData) ->
  Forall (fun r => (0 <= Centrality.score r <= 1)%Q) results0 ->
  exists results,
    foldM (fun results startNode =>
             ' (totalDistance, reachableNodes) <-
               Centrality.distances (S (length (nodes graphData)))
                 (Centrality.adj (Centrality.buildGraphRepresentation graphData isDirected))
                 [(id startNode, 0)] [id startNode] 0 0 ;;
             let s := if (0 <? totalDistance) && (0 <? reachableNodes)
                      then (Centrality.Qnat reachableNodes / Centrality.Qnat totalDistance)%Q
                      else 0%Q in
             Normal (results ++ [Centrality.mkScore (id startNode) s]))
          vs results0
    = Normal results
    /\ map Centrality.nodeId results = map Centrality.nodeId results0 ++ map id vs
    /\ Forall (fun r => (0 <= Centrality.score r <= 1)%Q) results.
Proof.
  intros graphData isDirected vs. induction vs as [|v vs IH]; intros results0 I F; cbn [foldM].
  - exists results0. rewrite app_nil_r. auto.
  - assert (Hv : In (id v) (map id (nodes graphData))).
    { apply in_map. apply I. left. reflexivity. }
    destruct (distances_total (map id (nodes graphData))
                (Centrality.adj (Centrality.buildGraphRepresentation graphData isDirected))
                (representation_members graphData isDirected)
                (S (length (nodes graphData))) [(id v, 0)] [id v] 0 0) as [t [r [E R]]].
    + repeat constructor. intros [].
    + intros z [<-|[]]. assumption.
    + simpl. rewrite length_map. lia.
    + lia.
    + rewrite E. cbn [bind].
      destruct (IH (results0 ++ [Centrality.mkScore (id v)
                      (if (0 <? t) && (0 <? r)
                       then (Centrality.Qnat r / Centrality.Qnat t)%Q else 0%Q)]))
        as [results [Er [Ei Fr]]].
      * intros z Hz. apply I. right. assumption.
      * apply Forall_app. split; [assumption|]. constructor; [|constructor]. simpl.
        destruct ((0 <? t) && (0 <? r)) eqn:B; [|split; [apply Qle_refl | discriminate]].
        apply andb_prop in B. destruct B as [Bt Br]. apply Nat.ltb_lt in Bt, Br.
        assert (Pt := Qnat_pos t Bt). split.
        -- apply Qle_shift_div_l; [assumption|]. rewrite Qmult_0_l.
           apply Qlt_le_weak. apply Qnat_pos. assumption.
        -- apply Qle_shift_div_r; [assumption|]. rewrite Qmult_1_l.
           unfold Centrality.Qnat. rewrite <- Zle_Qle. lia.
      * exists results. split; [assumption|]. split; [|assumption].
        rewrite Ei, map_app, <- app_assoc. reflexivity.
Qed.

(** X9.  Closeness centrality always returns: one score per node, in
    node order, each between 0 and 1. *)
Theorem closeness_scores : forall graphData isDirected,
  exists results,
    Centrality.calculateClosenessCentrality graphData isDirected = Normal results
    /\ map Centrality.nodeId results = map id (nodes graphData)
    /\ Forall (fun r => (0 <= Centrality.score r <= 1)%Q) results.
Proof.
  intros graphData isDirected. unfold Centrality.calculateClosenessCentrality.
  destruct (closeness_from graphData isDirected (nodes graphData) [])
    as [results [E [I F]]].
  - intros z Hz. assumption.
  - constructor.
  - exists results. auto.
Qed.

(** * The graph of the workers *)

Lemma increment_keys : forall (degrees : JsMap.t string nat) k x,
  JsMap.get (Worker1.increment degrees k) x = None <-> JsMap.get degrees x = None.
Proof.
  intros degrees k x. unfold Worker1.increment.
  destruct (JsMap.get degrees k) as [d|] eqn:G; [|tauto].
  destruct (string_dec x k) as [->|N].
  - rewrite map_get_set_same, G. split; discriminate.
  - rewrite map_get_set_other by assumption. tauto.
Qed.

Lemma sum_set : forall (m : JsMap.t string nat) k d v,
  JsMap.get m k = Some d ->
  list_sum (JsMap.values (JsMap.set m k v)) + d = list_sum (JsMap.values m) + v.
Proof.
  induction m as [|[k0 v0] m IH]; intros k d v G; [discriminate|].
  simpl in *. destruct (eq_dec k k0) as [E|E].
  - injection G as ->. simpl. lia.
  - simpl. specialize (IH k d v G). lia.
Qed.

Lemma sum_increment : forall (degrees : JsMap.t string nat) k,
  JsMap.get degrees k <> None ->
  list_sum (JsMap.values (Worker1.increment degrees k))
  = list_sum (JsMap.values degrees) + 1.
Proof.
  intros degrees k D. unfold Worker1.increment.
  destruct (JsMap.get degrees k) as [d|] eqn:G; [|congruence].
  assert (S := sum_set degrees k d (d + 1) G). lia.
Qed.

(** The state of the constructor of [Graph] while it reads the
    links. *)
Lemma addEdge_step : forall (nodeSet : JsSet.t string) st e,
  (forall x, JsMap.get (snd st) x = option_map (@length string) (JsMap.get (fst st) x)) ->
  (forall x ns, JsMap.get (fst st) x = Some ns -> incl ns nodeSet) ->
  (forall x, In x nodeSet -> JsMap.get (snd st) x <> None) ->
  (forall x, JsMap.get (snd (Worker1.addEdge nodeSet st e)) x
             = option_map (@length string) (JsMap.get (fst (Worker1.addEdge nodeSet st e)) x))
  /\ (forall x ns, JsMap.get (fst (Worker1.addEdge nodeSet st e)) x = Some ns ->
                   incl ns nodeSet)
  /\ (forall x, In x nodeSet -> JsMap.get (snd (Worker1.addEdge nodeSet st e)) x <> None)
  /\ list_sum (JsMap.values (snd (Worker1.addEdge nodeSet st e)))
     = list_sum (JsMap.values (snd st))
       + 2 * (if JsSet.has nodeSet (source e) && JsSet.has nodeSet (target e)
              then 1 else 0).
Proof.
  intros nodeSet st e D M K. unfold Worker1.addEdge.
  destruct (JsSet.has nodeSet (source e)) eqn:Hs;
    [|cbn [andb]; repeat split; try assumption; lia].
  destruct (JsSet.has nodeSet (target e)) eqn:Ht;
    [|cbn [andb]; repeat split; try assumption; lia].
  cbn [andb fst snd]. apply set_has_In in Hs, Ht.
  split; [|split; [|split]].
  - apply push_increment. apply push_increment. assumption.
  - apply pushTo_members; [|assumption]. apply pushTo_members; assumption.
  - intros x Hx. rewrite !increment_keys. apply K. assumption.
  - rewrite sum_increment by (rewrite increment_keys; apply K; assumption).
    rewrite sum_increment by (apply K; assumption). lia.
Qed.

Lemma addEdge_state : forall (nodeSet : JsSet.t string) ls st,
  (forall x, JsMap.get (snd st) x = option_map (@length string) (JsMap.get (fst st) x)) ->
  (forall x ns, JsMap.get (fst st) x = Some ns -> incl ns nodeSet) ->
  (forall x, In x nodeSet -> JsMap.get (snd st) x <> None) ->
  (forall x, JsMap.get (snd (fold_left (Worker1.addEdge nodeSet) ls st)) x
             = option_map (@length string)
                 (JsMap.get (fst (fold_left (Worker1.addEdge nodeSet) ls st)) x))
  /\ (forall x ns, JsMap.get (fst (fold_left (Worker1.addEdge nodeSet) ls st)) x = Some ns ->
                   incl ns nodeSet)
  /\ list_sum (JsMap.values (snd (fold_left (Worker1.addEdge nodeSet) ls st)))
     = list_sum (JsMap.values (snd st))
       + 2 * length (filter (fun e => JsSet.has nodeSet (source e)
                                      && JsSet.has nodeSet (target e)) ls).
Proof.
  intros nodeSet ls. induction ls as [|e ls IH]; intros st D M K; cbn [fold_left filter].
  - repeat split; try assumption. simpl. lia.
  - destruct (addEdge_step nodeSet st e D M K) as [D1 [M1 [K1 S1]]].
    destruct (IH (Worker1.addEdge nodeSet st e) D1 M1 K1) as [D' [M' S']].
    split; [exact D'|]. split; [exact M'|]. rewrite S', S1.
    destruct (JsSet.has nodeSet (source e) && JsSet.has nodeSet (target e)); simpl; lia.
Qed.

Lemma all_zero_sum : forall (m : JsMap.t string nat),
  (forall e, In e m -> snd e = 0) -> list_sum (JsMap.values m) = 0.
Proof.
  induction m as [|[k v] m IH]; intros Z; [reflexivity|].
  cbn [JsMap.values map list_sum snd].
  assert (E := Z (k, v) (or_introl eq_refl)). cbn [snd] in E. subst v.
  apply IH. intros e He. apply Z. right. assumption.
Qed.

Lemma zero_sum : forall ids : list string,
  list_sum (JsMap.values (fold_left (fun m n => JsMap.set m n 0) ids [])) = 0.
Proof.
  intros ids. apply all_zero_sum.
  assert (A : forall (m : JsMap.t string nat),
            (forall e, In e m -> snd e = 0) ->
            forall e, In e (fold_left (fun m n => JsMap.set m n 0) ids m) -> snd e = 0).
  { induction ids as [|a ids IH]; intros m Z e He; simpl in He; [apply Z; assumption|].
    apply (IH (JsMap.set m a 0)); [|assumption].
    clear -Z. induction m as [|[k v] m IHm]; intros e' He'; simpl in He'.
    - destruct He' as [<-|[]]. reflexivity.
    - destruct (eq_dec a k).
      + destruct He' as [<-|He']; [reflexivity | apply Z; right; assumption].
      + destruct He' as [<-|He']; [apply (Z (k, v)); left; reflexivity|].
        apply IHm; [|assumption]. intros e0 H0. apply Z. right. assumption. }
  apply A. intros e [].
Qed.

(** X10.  In the graph the first worker variant builds, every node's
    degree is the length of its adjacency list, the adjacency lists
    hold nodes of the graph only, and the degrees sum to twice the
    number of links that join two nodes of the graph. *)
Theorem graph_constructor : forall graphData,
  let g := Worker1.newGraph graphData in
  (forall x, JsMap.get (Worker1.g_degrees g) x
             = option_map (@length string) (JsMap.get (Worker1.g_adj g) x))
  /\ (forall x ns, JsMap.get (Worker1.g_adj g) x = Some ns -> incl ns (Worker1.g_nodes g))
  /\ (forall x, In x (Worker1.g_nodes g) <-> In x (map id (nodes graphData)))
  /\ list_sum (JsMap.values (Worker1.g_degrees g))
     = 2 * length (filter (fun e => JsSet.has (Worker1.g_nodes g) (source e)
                                    && JsSet.has (Worker1.g_nodes g) (target e))
                          (links graphData)).
Proof.
  intros graphData. unfold Worker1.newGraph. cbv zeta.
  cbn [Worker1.g_degrees Worker1.g_adj Worker1.g_nodes].
  set (nodeSet := JsSet.of_list (map id (nodes graphData))).
  destruct (addEdge_state nodeSet (links graphData)
              (fold_left (fun m n => JsMap.set m n []) nodeSet [],
               fold_left (fun m n => JsMap.set m n 0) nodeSet [])) as [D [M S]].
  - intros x. cbn [fst snd].
    rewrite (map_init_get (fun _ : string => 0) nodeSet [] x).
    rewrite (map_init_get (fun _ : string => @nil string) nodeSet [] x).
    destruct (in_dec eq_dec x nodeSet); reflexivity.
  - intros x ns G. cbn [fst] in G.
    rewrite (map_init_get (fun _ : string => @nil string) nodeSet [] x) in G.
    destruct (in_dec eq_dec x nodeSet); [|discriminate]. injection G as <-. intros z [].
  - intros x Hx. cbn [snd]. rewrite (map_init_get (fun _ : string => 0) nodeSet [] x).
    destruct (in_dec eq_dec x nodeSet); [discriminate | contradiction].
  - split; [exact D|]. split; [exact M|]. split; [intros x; apply set_of_list_In|].
    rewrite S. cbn [snd]. rewrite zero_sum. reflexivity.
Qed.

Lemma addEdge_step_second : forall (nodeSet : JsSet.t string) st e,
  (forall x, JsMap.get (snd (fst st)) x
             = option_map (@length string) (JsMap.get (fst (fst st)) x)) ->
  (forall x ns, JsMap.get (fst (fst st)) x = Some ns -> incl ns nodeSet) ->
  (forall x, In x nodeSet -> JsMap.get (snd (fst st)) x <> None) ->
  let known := JsSet.has nodeSet (source e) && JsSet.has nodeSet (target e) in
  let st1 := Worker2.addEdge nodeSet st e in
  (forall x, JsMap.get (snd (fst st1)) x
             = option_map (@length string) (JsMap.get (fst (fst st1)) x))
  /\ (forall x ns, JsMap.get (fst (fst st1)) x = Some ns -> incl ns nodeSet)
  /\ (forall x, In x nodeSet -> JsMap.get (snd (fst st1)) x <> None)
  /\ snd st1 = snd st + (if known then 1 else 0)
  /\ list_sum (JsMap.values (snd (fst st1)))
       + (if known && String.eqb (source e) (target e) then 1 else 0)
     = list_sum (JsMap.values (snd (fst st))) + 2 * (if known then 1 else 0).
Proof.
  intros nodeSet [[adj degrees] m] e D M K. cbn [fst snd] in D, M, K. cbv zeta.
  unfold Worker2.addEdge.
  destruct (JsSet.has nodeSet (source e)) eqn:Hs;
    [|cbn [andb fst snd]; repeat split; try assumption; lia].
  destruct (JsSet.has nodeSet (target e)) eqn:Ht;
    [|cbn [andb fst snd]; repeat split; try assumption; lia].
  cbn [andb]. apply set_has_In in Hs, Ht.
  destruct (String.eqb (source e) (target e)) eqn:E; cbn [fst snd].
  - split; [apply push_increment; assumption|].
    split; [apply pushTo_members; assumption|].
    split; [intros x Hx; rewrite increment_keys; apply K; assumption|].
    split; [reflexivity|].
    rewrite sum_increment by (apply K; assumption). lia.
  - split; [apply push_increment; apply push_increment; assumption|].
    split; [apply pushTo_members; [|assumption]; apply pushTo_members; assumption|].
    split; [intros x Hx; rewrite !increment_keys; apply K; assumption|].
    split; [reflexivity|].
    rewrite sum_increment by (rewrite increment_keys; apply K; assumption).
    rewrite sum_increment by (apply K; assumption). lia.
Qed.

Lemma addEdge_state_second : forall (nodeSet : JsSet.t string) ls st,
  (forall x, JsMap.get (snd (fst st)) x
             = option_map (@length string) (JsMap.get (fst (fst st)) x)) ->
  (forall x ns, JsMap.get (fst (fst st)) x = Some ns -> incl ns nodeSet) ->
  (forall x, In x nodeSet -> JsMap.get (snd (fst st)) x <> None) ->
  (forall x, JsMap.get (snd (fst (fold_left (Worker2.addEdge nodeSet) ls st))) x
             = option_map (@length string)
                 (JsMap.get (fst (fst (fold_left (Worker2.addEdge nodeSet) ls st))) x))
  /\ (forall x ns,
        JsMap.get (fst (fst (fold_left (Worker2.addEdge nodeSet) ls st))) x = Some ns ->
        incl ns nodeSet)
  /\ snd (fold_left (Worker2.addEdge nodeSet) ls st)
     = snd st + length (filter (fun e => JsSet.has nodeSet (source e)
                                         && JsSet.has nodeSet (target e)) ls)
  /\ list_sum (JsMap.values (snd (fst (fold_left (Worker2.addEdge nodeSet) ls st))))
       + length (filter (fun e => JsSet.has nodeSet (source e)
                                  && JsSet.has nodeSet (target e)
                                  && String.eqb (source e) (target e)) ls)
     = list_sum (JsMap.values (snd (fst st)))
       + 2 * length (filter (fun e => JsSet.has nodeSet (source e)
                                      && JsSet.has nodeSet (target e)) ls).
Proof.
  intros nodeSet ls. induction ls as [|e ls IH]; intros st D M K; cbn [fold_left filter].
  - repeat split; try assumption; simpl; lia.
  - destruct (addEdge_step_second nodeSet st e D M K) as [D1 [M1 [K1 [C1 S1]]]].
    destruct (IH (Worker2.addEdge nodeSet st e) D1 M1 K1) as [D' [M' [C' S']]].
    split; [exact D'|]. split; [exact M'|]. rewrite C', C1.
    destruct (JsSet.has nodeSet (source e) && JsSet.has nodeSet (target e));
      destruct (String.eqb (source e) (target e)); cbn [andb length] in *; split; lia.
Qed.

(** X11.  In the graph the second worker variant builds, every node's
    degree is the length of its adjacency list, [m] is the number of
    links that join two nodes of the graph, and the degrees sum to
    [2 m] less the number of such links that join a node to itself. *)
Theorem graph_constructor_second : forall graphData,
  let g := Worker2.newGraph graphData in
  let known := fun e => JsSet.has (Worker1.g_nodes g) (source e)
                        && JsSet.has (Worker1.g_nodes g) (target e) in
  (forall x, JsMap.get (Worker1.g_degrees g) x
             = option_map (@length string) (JsMap.get (Worker1.g_adj g) x))
  /\ (forall x ns, JsMap.get (Worker1.g_adj g) x = Some ns -> incl ns (Worker1.g_nodes g))
  /\ Worker1.g_m g = length (filter known (links graphData))
  /\ list_sum (JsMap.values (Worker1.g_degrees g))
       + length (filter (fun e => known e && String.eqb (source e) (target e))
                        (links graphData))
     = 2 * Worker1.g_m g.
Proof.
  intros graphData. unfold Worker2.newGraph. cbv zeta.
  set (nodeSet := JsSet.of_list (map id (nodes graphData))).
  destruct (addEdge_state_second nodeSet (links graphData)
              (fold_left (fun m n => JsMap.set m n []) nodeSet [],
               fold_left (fun m n => JsMap.set m n 0) nodeSet [], 0)) as [D [M [C S]]].
  - intros x. cbn [fst snd].
    rewrite (map_init_get (fun _ : string => 0) nodeSet [] x).
    rewrite (map_init_get (fun _ : string => @nil string) nodeSet [] x).
    destruct (in_dec eq_dec x nodeSet); reflexivity.
  - intros x ns G. cbn [fst] in G.
    rewrite (map_init_get (fun _ : string => @nil string) nodeSet [] x) in G.
    destruct (in_dec eq_dec x nodeSet); [|discriminate]. injection G as <-. intros z [].
  - intros x Hx. cbn [fst snd]. rewrite (map_init_get (fun _ : string => 0) nodeSet [] x).
    destruct (in_dec eq_dec x nodeSet); [discriminate | contradiction].
  - destruct (fold_left (Worker2.addEdge nodeSet) (links graphData) _) as [[adj degrees] m].
    cbn [fst snd Worker1.g_degrees Worker1.g_adj Worker1.g_nodes Worker1.g_m] in *.
    split; [exact D|]. split; [exact M|]. split; [exact C|].
    rewrite zero_sum in S. rewrite C. simpl in S. lia.
Qed.

(** * Normalising community labels *)

Lemma insert_string_perm : forall x l, Permutation (insert_string x l) (x :: l).
Proof.
  intros x l. induction l as [|y l IH]; simpl; [apply Permutation_refl|].
  destruct (String.leb x y); [apply Permutation_refl|].
  apply perm_trans with (y :: x :: l); [apply perm_skip; assumption | apply perm_swap].
Qed.

Lemma sort_strings_perm : forall l, Permutation (sort_strings l) l.
Proof.
  induction l as [|x l IH]; simpl; [apply perm_nil|].
  apply perm_trans with (x :: sort_strings l);
    [apply insert_string_perm | apply perm_skip; assumption].
Qed.

Lemma insert_nat_perm : forall x l, Permutation (insert_nat x l) (x :: l).
Proof.
  intros x l. induction l as [|y l IH]; simpl; [apply Permutation_refl|].
  destruct (x <=? y); [apply Permutation_refl|].
  apply perm_trans with (y :: x :: l); [apply perm_skip; assumption | apply perm_swap].
Qed.

Lemma sort_nats_perm : forall l, Permutation (sort_nats l) l.
Proof.
  induction l as [|x l IH]; simpl; [apply perm_nil|].
  apply perm_trans with (x :: sort_nats l);
    [apply insert_nat_perm | apply perm_skip; assumption].
Qed.

Lemma of_list_from : forall {K V : Type} `{EqDec K} (l : list (K * V)) (m : JsMap.t K V),
  NoDup (map fst l) -> (forall x, In x (map fst l) -> ~ In x (JsMap.keys m)) ->
  fold_left (fun m kv => JsMap.set m (fst kv) (snd kv)) l m = m ++ l.
Proof.
  intros K V H l. induction l as [|[k v] l IH]; intros m N D; simpl.
  - rewrite app_nil_r. reflexivity.
  - simpl in N. inversion N as [|? ? Hk Nl]; subst.
    rewrite map_set_absent by (apply map_get_None; apply D; left; reflexivity).
    rewrite IH; [rewrite <- app_assoc; reflexivity | assumption |].
    intros x Hx. unfold JsMap.keys. rewrite map_app, in_app_iff. simpl.
    intros [I|[I|[]]]; [apply (D x); [right; assumption | assumption]|].
    subst. contradiction.
Qed.

Lemma indexOf_nth : forall {K : Type} `{EqDec K} (l : list K) x i,
  indexOf l x = Some i -> nth_error l i = Some x /\ i < length l.
Proof.
  intros K H l x. induction l as [|y l IH]; intros i E; simpl in E; [discriminate|].
  destruct (eq_dec x y) as [->|N].
  - injection E as <-. simpl. split; [reflexivity | lia].
  - destruct (indexOf l x) as [j|] eqn:J; [|discriminate]. injection E as <-.
    destruct (IH j eq_refl) as [Hn Hl]. simpl. split; [assumption | lia].
Qed.

Lemma indexOf_In : forall {K : Type} `{EqDec K} (l : list K) x,
  In x l -> exists i, indexOf l x = Some i.
Proof.
  intros K H l x. induction l as [|y l IH]; intros I; [destruct I|].
  simpl. destruct (eq_dec x y) as [->|N]; [eauto|].
  destruct I as [E|I]; [congruence|]. destruct (IH I) as [i ->]. simpl. eauto.
Qed.

Lemma indexOf_NoDup : forall {K : Type} `{EqDec K} (l : list K) x i,
  NoDup l -> nth_error l i = Some x -> indexOf l x = Some i.
Proof.
  intros K H l x. induction l as [|y l IH]; intros i N E; [destruct i; discriminate|].
  inversion N as [|? ? Hy Nl]; subst. destruct i as [|i]; simpl in *.
  - injection E as ->. destruct (eq_dec x x); [reflexivity | congruence].
  - destruct (eq_dec x y) as [->|Ne].
    + exfalso. apply Hy. apply nth_error_In with i. assumption.
    + rewrite (IH i Nl E). reflexivity.
Qed.

Lemma get_combine_seq : forall {K : Type} `{EqDec K} (l : list K) s x,
  JsMap.get (combine l (seq s (length l))) x = option_map (Nat.add s) (indexOf l x).
Proof.
  intros K H l. induction l as [|y l IH]; intros s x; simpl; [reflexivity|].
  destruct (eq_dec x y) as [->|N].
  - simpl. f_equal. lia.
  - rewrite IH. destruct (indexOf l x); simpl; [f_equal; lia | reflexivity].
Qed.

(** Normalising renames the labels of a partition, one to one, onto
    the numbers below the number of distinct labels. *)
Lemma normalize_spec : forall {L : Type} `{EqDec L} (sortLabels : list L -> list L)
  (partition : JsMap.t string L),
  (forall l, Permutation (sortLabels l) l) ->
  exists (number : L -> nat) (k : nat),
    Worker1.normalize sortLabels partition
    = map (fun e => mkAssignment (fst e) (number (snd e))) partition
    /\ (forall a b, In a (JsMap.values partition) -> In b (JsMap.values partition) ->
          number a = number b -> a = b)
    /\ (forall c, (exists a, In a (JsMap.values partition) /\ number a = c) <-> c < k).
Proof.
  intros L H sortLabels partition P. unfold Worker1.normalize.
  set (uniq := sortLabels (JsSet.of_list (JsMap.values partition))).
  assert (Nu : NoDup uniq).
  { unfold uniq. apply (Permutation_NoDup (l := JsSet.of_list (JsMap.values partition))).
    - apply Permutation_sym. apply P.
    - apply set_of_list_NoDup. }
  assert (Iu : forall x, In x uniq <-> In x (JsMap.values partition)).
  { intros x. unfold uniq. split; intros Hx.
    - apply set_of_list_In. apply (Permutation_in _ (P _)). exact Hx.
    - apply (Permutation_in _ (Permutation_sym (P _))). apply set_of_list_In. exact Hx. }
  assert (Em : JsMap.of_list (combine uniq (seq 0 (length uniq)))
               = combine uniq (seq 0 (length uniq))).
  { unfold JsMap.of_list. rewrite of_list_from; [reflexivity | |intros x _ []].
    rewrite combine_fst by (rewrite length_seq; reflexivity). assumption. }
  rewrite Em.
  exists (Worker1.countOf (combine uniq (seq 0 (length uniq)))), (length uniq).
  split; [reflexivity|].
  assert (Num : forall a, In a uniq ->
            exists i, indexOf uniq a = Some i
                      /\ Worker1.countOf (combine uniq (seq 0 (length uniq))) a = i).
  { intros a Ha. destruct (indexOf_In uniq a Ha) as [i E]. exists i. split; [assumption|].
    unfold Worker1.countOf. rewrite get_combine_seq, E. reflexivity. }
  split.
  - intros a b Ha Hb E. apply Iu in Ha, Hb.
    destruct (Num a Ha) as [i [Ia Ca]]. destruct (Num b Hb) as [j [Ib Cb]].
    apply indexOf_nth in Ia, Ib. destruct Ia as [Na _], Ib as [Nb _].
    rewrite Ca, Cb in E. subst j. congruence.
  - intros c. split.
    + intros [a [Ha <-]]. apply Iu in Ha. destruct (Num a Ha) as [i [Ia ->]].
      apply indexOf_nth in Ia. tauto.
    + intros Hc. destruct (nth_error uniq c) as [a|] eqn:E.
      * exists a. assert (Ha : In a uniq) by (apply nth_error_In with c; assumption).
        split; [apply Iu; assumption|].
        destruct (Num a Ha) as [i [Ia ->]].
        rewrite (indexOf_NoDup uniq a c Nu E) in Ia. congruence.
      * apply nth_error_None in E. lia.
Qed.

(** ** Label propagation *)

Lemma visitNode_keys : forall graph st n,
  In n (JsMap.keys (fst st)) ->
  JsMap.keys (fst (Worker1.visitNode graph st n)) = JsMap.keys (fst st).
Proof.
  intros graph st n I. unfold Worker1.visitNode.
  destruct (Worker1.neighborLabels graph (fst st) n); [reflexivity|].
  destruct (Worker1.newCommunityOf (s :: l)); [|reflexivity].
  destruct (match JsMap.get (fst st) n with Some l0 => eqb_key l0 s0 | None => false end);
    [reflexivity|].
  cbn [fst]. rewrite map_keys_set. unfold JsMap.has.
  apply map_get_In_keys in I. destruct I as [v ->]. reflexivity.
Qed.

Lemma pass_keys : forall graph nodeIds st,
  incl nodeIds (JsMap.keys (fst st)) ->
  JsMap.keys (fst (fold_left (Worker1.visitNode graph) nodeIds st)) = JsMap.keys (fst st).
Proof.
  intros graph nodeIds. induction nodeIds as [|n nodeIds IH]; intros st I; simpl; [reflexivity|].
  assert (K := visitNode_keys graph st n (I n (or_introl eq_refl))).
  rewrite IH; [assumption|]. rewrite K. intros x Hx. apply I. right. assumption.
Qed.

Lemma propagate_keys : forall graph nodeIds k communities,
  incl nodeIds (JsMap.keys communities) ->
  JsMap.keys (Worker1.propagate graph nodeIds k communities) = JsMap.keys communities.
Proof.
  intros graph nodeIds k. induction k as [|k IH]; intros communities I; simpl; [reflexivity|].
  assert (K := pass_keys graph nodeIds (communities, false) I). cbn [fst] in K.
  unfold Worker1.pass. destruct (fold_left (Worker1.visitNode graph) nodeIds (communities, false))
    as [communities' changed]. cbn [fst] in K.
  destruct changed; [|assumption]. rewrite IH; [assumption|]. rewrite K. assumption.
Qed.

(** The first variant: the nodes in ascending order. *)
Lemma label_propagation_first : forall graphData,
  let graph := Worker1.newGraph graphData in
  let result := Worker1.runLabelPropagation graph in
  map node result = sort_strings (Worker1.g_nodes graph)
  /\ NoDup (map node result)
  /\ (forall x, In x (map node result) <-> In x (map id (nodes graphData)))
  /\ exists k, forall c, In c (map community result) <-> c < k.
Proof.
  intros graphData graph result.
  set (nodeIds := sort_strings (Worker1.g_nodes graph)).
  assert (Nn : NoDup nodeIds).
  { unfold nodeIds. apply (Permutation_NoDup (l := Worker1.g_nodes graph)).
    - apply Permutation_sym. apply sort_strings_perm.
    - apply set_of_list_NoDup. }
  assert (K0 : JsMap.keys (Worker1.initialLabels nodeIds) = nodeIds).
  { unfold Worker1.initialLabels.
    rewrite (map_init_explicit (fun n : string => n) nodeIds Nn []) by (intros x _ []).
    simpl. unfold JsMap.keys. rewrite map_map. simpl. apply map_id. }
  assert (K : JsMap.keys (Worker1.labelPropagationLabels graph) = nodeIds).
  { unfold Worker1.labelPropagationLabels. fold nodeIds.
    rewrite propagate_keys; [assumption|]. rewrite K0. apply incl_refl. }
  destruct (normalize_spec sort_strings (Worker1.labelPropagationLabels graph) sort_strings_perm)
    as [number [k [E [Inj Sur]]]].
  assert (En : map node result = nodeIds).
  { unfold result, Worker1.runLabelPropagation. rewrite E, map_map. simpl. exact K. }
  split; [exact En|]. split; [rewrite En; exact Nn|]. split.
  - intros x. rewrite En. unfold nodeIds. rewrite sort_strings_In.
    apply set_of_list_In.
  - exists k. intros c. rewrite <- Sur.
    unfold result, Worker1.runLabelPropagation. rewrite E, map_map. simpl.
    rewrite in_map_iff. unfold JsMap.values. split.
    + intros [e [<- He]]. exists (snd e). split; [apply in_map; assumption | reflexivity].
    + intros [a [Ha <-]]. apply in_map_iff in Ha. destruct Ha as [e [<- He]]. eauto.
Qed.

(** ** The second variant *)

Lemma sortLabels_perm : forall l, Permutation (LabelPropagation2.sortLabels l) l.
Proof.
  intros l. unfold LabelPropagation2.sortLabels.
  apply perm_trans with
    (map Some (flat_map (fun o : LabelPropagation2.Label =>
                           match o with Some s => [s] | None => [] end) l)
     ++ filter (fun o : LabelPropagation2.Label =>
                  match o with Some _ => false | None => true end) l).
  - apply Permutation_app_tail. apply Permutation_map. apply sort_strings_perm.
  - induction l as [|[s|] l IH]; cbn [flat_map filter map app].
    + apply perm_nil.
    + apply perm_skip. exact IH.
    + apply Permutation_sym. apply Permutation_cons_app. apply Permutation_sym. exact IH.
Qed.

Lemma visitNode_keys_second : forall Math_random graph st n,
  In n (JsMap.keys (fst (fst st))) ->
  JsMap.keys (fst (fst (LabelPropagation2.visitNode Math_random graph st n)))
  = JsMap.keys (fst (fst st)).
Proof.
  intros Math_random graph [[communities changed] k] n I. cbn [fst] in *.
  unfold LabelPropagation2.visitNode.
  destruct (LabelPropagation2.neighborsOf graph n) as [|v vs]; [reflexivity|].
  cbv zeta. destruct (eqb_key _ _); cbn [fst]; [reflexivity|].
  apply map_keys_set_known. assumption.
Qed.

Lemma pass_keys_second : forall Math_random graph nodeIds st,
  incl nodeIds (JsMap.keys (fst (fst st))) ->
  JsMap.keys (fst (fst (fold_left (LabelPropagation2.visitNode Math_random graph) nodeIds st)))
  = JsMap.keys (fst (fst st)).
Proof.
  intros Math_random graph nodeIds. induction nodeIds as [|n nodeIds IH]; intros st I;
    cbn [fold_left]; [reflexivity|].
  assert (K := visitNode_keys_second Math_random graph st n (I n (or_introl eq_refl))).
  rewrite IH; [assumption|]. rewrite K. intros x Hx. apply I. right. assumption.
Qed.

Lemma propagate_keys_second : forall Math_random graph i communities k,
  incl (Worker1.g_nodes graph) (JsMap.keys communities) ->
  JsMap.keys (LabelPropagation2.propagate Math_random graph i communities k)
  = JsMap.keys communities.
Proof.
  intros Math_random graph i. induction i as [|i IH]; intros communities k I;
    cbn [LabelPropagation2.propagate]; [reflexivity|].
  destruct (Generators.shuffle Math_random (Worker1.g_nodes graph) k)
    as [shuffledNodes k1] eqn:Sh.
  assert (Sub : incl shuffledNodes (JsMap.keys communities)).
  { intros x Hx. apply I.
    apply (shuffle_In Math_random (Worker1.g_nodes graph) k x). rewrite Sh. exact Hx. }
  assert (K := pass_keys_second Math_random graph shuffledNodes (communities, false, k1) Sub).
  destruct (fold_left (LabelPropagation2.visitNode Math_random graph) shuffledNodes
              (communities, false, k1)) as [[communities' changed] k2].
  cbn [fst] in K. destruct changed; [|assumption].
  rewrite IH; [assumption|]. rewrite K. assumption.
Qed.

(** The second variant, with draws in [0, 1): the nodes in the order
    of the graph. *)
Lemma label_propagation_second : forall graphData Math_random,
  (forall k, (0 <= Math_random k)%Q /\ (Math_random k < 1)%Q) ->
  let graph := Worker2.newGraph graphData in
  let result := LabelPropagation2.runLabelPropagation Math_random graph in
  map node result = Worker1.g_nodes graph
  /\ NoDup (map node result)
  /\ (forall x, In x (map node result) <-> In x (map id (nodes graphData)))
  /\ exists k, forall c, In c (map community result) <-> c < k.
Proof.
  intros graphData Math_random _ graph result.
  assert (Gn : Worker1.g_nodes graph = JsSet.of_list (map id (nodes graphData))).
  { unfold graph, Worker2.newGraph. destruct (fold_left _ _ _) as [[a d] m]. reflexivity. }
  assert (Nn : NoDup (Worker1.g_nodes graph)) by (rewrite Gn; apply set_of_list_NoDup).
  set (labels := LabelPropagation2.propagate Math_random graph LabelPropagation2.maxIterations
                   (LabelPropagation2.initialLabels (Worker1.g_nodes graph)) 0).
  assert (K0 : JsMap.keys (LabelPropagation2.initialLabels (Worker1.g_nodes graph))
               = Worker1.g_nodes graph).
  { unfold LabelPropagation2.initialLabels.
    rewrite map_init_keys; [reflexivity | assumption | constructor | intros x _ []]. }
  assert (K : JsMap.keys labels = Worker1.g_nodes graph).
  { unfold labels. rewrite propagate_keys_second; [assumption|]. rewrite K0. apply incl_refl. }
  destruct (normalize_spec LabelPropagation2.sortLabels labels sortLabels_perm)
    as [number [k [E [Inj Sur]]]].
  assert (En : map node result = Worker1.g_nodes graph).
  { unfold result, LabelPropagation2.runLabelPropagation. fold labels.
    rewrite E, map_map. cbn [node]. exact K. }
  split; [exact En|]. split; [rewrite En; exact Nn|]. split.
  - intros x. rewrite En, Gn. apply set_of_list_In.
  - exists k. intros c. rewrite <- Sur.
    unfold result, LabelPropagation2.runLabelPropagation. fold labels.
    rewrite E, map_map. cbn [community].
    rewrite in_map_iff. unfold JsMap.values. split.
    + intros [e [<- He]]. exists (snd e). split; [apply in_map; assumption | reflexivity].
    + intros [a [Ha <-]]. apply in_map_iff in Ha. destruct Ha as [e [<- He]]. eauto.
Qed.

(** X12.  Label propagation returns exactly one entry for every node of
    the graph, and the community numbers it uses are exactly the
    numbers below their count: in the first variant with the nodes in
    ascending order of the identifiers, in the second variant, for draws
    in [0, 1), with the nodes in the order of the graph. *)
Theorem label_propagation_partition : forall graphData,
  (let graph := Worker1.newGraph graphData in
   let result := Worker1.runLabelPropagation graph in
   map node result = sort_strings (Worker1.g_nodes graph)
   /\ NoDup (map node result)
   /\ (forall x, In x (map node result) <-> In x (map id (nodes graphData)))
   /\ exists k, forall c, In c (map community result) <-> c < k)
  /\ (forall Math_random,
        (forall k, (0 <= Math_random k)%Q /\ (Math_random k < 1)%Q) ->
        let graph := Worker2.newGraph graphData in
        let result := LabelPropagation2.runLabelPropagation Math_random graph in
        map node result = Worker1.g_nodes graph
        /\ NoDup (map node result)
        /\ (forall x, In x (map node result) <-> In x (map id (nodes graphData)))
        /\ exists k, forall c, In c (map community result) <-> c < k).
Proof.
  intros graphData. split.
  - apply label_propagation_first.
  - intros Math_random R. apply label_propagation_second. exact R.
Qed.


(** * Louvain: the partition tables *)

Lemma moveNode_nonempty : forall allNodes graph p n newComm p',
  consistent allNodes p ->
  (forall c s, JsMap.get (Worker1.communities p) c = Some s -> s <> []) ->
  JsMap.get (Worker1.nodeToCommunity p) n <> Some newComm ->
  Worker1.moveNode graph p n newComm = Normal p' ->
  forall c s, JsMap.get (Worker1.communities p') c = Some s -> s <> [].
Proof.
  intros allNodes graph p n newComm p' [N _] Ne Nn E.
  unfold Worker1.moveNode in E.
  apply bind_Normal in E. destruct E as [oldComm [Eo E]]. apply defined_Normal in Eo.
  apply bind_Normal in E. destruct E as [nodeDegree [_ E]].
  apply bind_Normal in E. destruct E as [sOld [_ E]].
  apply bind_Normal in E. destruct E as [sNew [_ E]].
  apply bind_Normal in E. destruct E as [membersOld [Em E]]. apply defined_Normal in Em.
  apply bind_Normal in E. destruct E as [membersNew [En E]]. apply defined_Normal in En.
  injection E as <-. cbn [Worker1.communities].
  set (membersOld' := JsSet.delete membersOld n) in *.
  set (comms1 := JsMap.set (Worker1.communities p) oldComm membersOld') in *.
  assert (N1 : NoDup (JsMap.keys comms1)) by (apply map_keys_set_NoDup; assumption).
  intros c s G. destruct (Nat.eq_dec c newComm) as [->|Nc].
  - rewrite map_get_set_same in G. injection G as <-.
    intros Z. assert (I : In n (JsSet.add membersNew n)) by (apply set_add_In; right; reflexivity).
    rewrite Z in I. destruct I.
  - rewrite map_get_set_other in G by assumption.
    destruct (JsSet.size membersOld' =? 0) eqn:Sz.
    + rewrite map_get_delete in G by assumption.
      destruct (eq_dec c oldComm); [discriminate|].
      unfold comms1 in G. rewrite map_get_set_other in G by assumption. apply (Ne c s G).
    + destruct (Nat.eq_dec c oldComm) as [->|No].
      * unfold comms1 in G. rewrite map_get_set_same in G. injection G as <-.
        apply Nat.eqb_neq in Sz. intros Z. rewrite Z in Sz. apply Sz. reflexivity.
      * unfold comms1 in G. rewrite map_get_set_other in G by assumption. apply (Ne c s G).
Qed.

Lemma moveNode_keys : forall graph p n newComm p',
  Worker1.moveNode graph p n newComm = Normal p' ->
  JsMap.keys (Worker1.nodeToCommunity p') = JsMap.keys (Worker1.nodeToCommunity p).
Proof.
  intros graph p n newComm p' E. unfold Worker1.moveNode in E.
  apply bind_Normal in E. destruct E as [oldComm [Eo E]]. apply defined_Normal in Eo.
  apply bind_Normal in E. destruct E as [nodeDegree [_ E]].
  apply bind_Normal in E. destruct E as [sOld [_ E]].
  apply bind_Normal in E. destruct E as [sNew [_ E]].
  apply bind_Normal in E. destruct E as [membersOld [_ E]].
  apply bind_Normal in E. destruct E as [membersNew [_ E]].
  injection E as <-. cbn [Worker1.nodeToCommunity].
  rewrite map_keys_set. unfold JsMap.has. rewrite Eo. reflexivity.
Qed.

(** What both variants of [optimizeNode] do to the partition: nothing,
    or one move of the node to a community other than its own. *)
Lemma optimizeNode_moves : forall res graph st n st',
  Worker1.optimizeNode res graph st n = Normal st' ->
  fst st' = fst st
  \/ exists newComm,
       JsMap.get (Worker1.nodeToCommunity (fst st)) n <> Some newComm
       /\ Worker1.moveNode graph (fst st) n newComm = Normal (fst st').
Proof.
  intros res graph [p improvement] n st' E. unfold Worker1.optimizeNode in E.
  apply bind_Normal in E. destruct E as [current [Ec E]]. apply defined_Normal in Ec.
  apply bind_Normal in E. destruct E as [neighbors [_ E]].
  apply bind_Normal in E. destruct E as [nodeDegree [_ E]].
  apply bind_Normal in E. destruct E as [neighborComms [_ E]].
  apply bind_Normal in E. destruct E as [[best dq] [_ E]].
  destruct (Nat.eqb_spec best current) as [Eb|Nb].
  - injection E as <-. left. reflexivity.
  - apply bind_Normal in E. destruct E as [p' [Em E]]. injection E as <-. right.
    exists best. cbn [fst]. split; [congruence | assumption].
Qed.

Lemma optimizeNode_moves_second : forall res graph st n st',
  Worker2.optimizeNode res graph st n = Normal st' ->
  fst st' = fst st
  \/ exists newComm,
       JsMap.get (Worker1.nodeToCommunity (fst st)) n <> Some newComm
       /\ Worker1.moveNode graph (fst st) n newComm = Normal (fst st').
Proof.
  intros res graph [p improvement] n st' E. unfold Worker2.optimizeNode in E.
  apply bind_Normal in E. destruct E as [nodeDegree [_ E]].
  apply bind_Normal in E. destruct E as [neighbors [_ E]].
  apply bind_Normal in E. destruct E as [current [Ec E]]. apply defined_Normal in Ec.
  apply bind_Normal in E. destruct E as [neighborComms [_ E]].
  apply bind_Normal in E. destruct E as [sigma [_ E]].
  apply bind_Normal in E. destruct E as [[best dq] [_ E]].
  destruct (Nat.eqb_spec best current) as [Eb|Nb].
  - injection E as <-. left. reflexivity.
  - apply bind_Normal in E. destruct E as [p' [Em E]]. injection E as <-. right.
    exists best. cbn [fst]. split; [congruence | assumption].
Qed.

(** A property of partitions that every move keeps is kept by the
    first phase, in both variants. *)
Lemma phase_keeps : forall (P : Worker1.Partition -> Prop) graph,
  (forall p n newComm p',
     P p -> JsMap.get (Worker1.nodeToCommunity p) n <> Some newComm ->
     Worker1.moveNode graph p n newComm = Normal p' -> P p') ->
  (forall fuel res p p',
     Worker1.optimizeModularity fuel res graph p = Normal p' -> P p -> P p')
  /\ (forall passes res p p',
        Worker2.optimizeModularity passes res graph p = Normal p' -> P p -> P p').
Proof.
  intros P graph Move. split.
  - induction fuel as [|fuel IH]; intros res p p' E Pp; simpl in E; [discriminate|].
    apply bind_Normal in E. destruct E as [[p1 improvement] [E1 E]].
    assert (P1 : P p1).
    { apply (foldM_preserves (fun st => P (fst st)) (Worker1.optimizeNode res graph) _
               (fun s a s' _ Es Ps =>
                  match optimizeNode_moves res graph s a s' Es with
                  | or_introl Same => eq_ind_r P Ps Same
                  | or_intror (ex_intro _ c (conj Nc Em)) => Move _ _ _ _ Ps Nc Em
                  end) _ _ E1 Pp). }
    destruct improvement; [apply (IH res p1 p' E P1) | injection E as <-; assumption].
  - induction passes as [|k IH]; intros res p p' E Pp; simpl in E.
    + injection E as <-. assumption.
    + apply bind_Normal in E. destruct E as [[p1 improvement] [E1 E]].
      assert (P1 : P p1).
      { apply (foldM_preserves (fun st => P (fst st)) (Worker2.optimizeNode res graph) _
                 (fun s a s' _ Es Ps =>
                    match optimizeNode_moves_second res graph s a s' Es with
                    | or_introl Same => eq_ind_r P Ps Same
                    | or_intror (ex_intro _ c (conj Nc Em)) => Move _ _ _ _ Ps Nc Em
                    end) _ _ E1 Pp). }
      destruct improvement; [apply (IH res p1 p' E P1) | injection E as <-; assumption].
Qed.

Lemma newPartition_singletons : forall graph p,
  Worker1.newPartition graph = Normal p ->
  forall c s, JsMap.get (Worker1.communities p) c = Some s -> s <> [].
Proof.
  intros graph p E. unfold Worker1.newPartition in E.
  apply bind_Normal in E. destruct E as [[p' k] [E E']]. injection E' as ->.
  match type of E with
  | foldM ?f ?l _ = Normal _ =>
      assert (A := foldM_preserves
                     (fun st : Worker1.Partition * nat =>
                        forall c s, JsMap.get (Worker1.communities (fst st)) c = Some s ->
                                    s <> []) f l)
  end.
  refine (A _ _ _ E _).
  - intros [p1 k1] n [p2 k2] _ Es Ps. apply bind_Normal in Es. destruct Es as [d [_ Es]].
    injection Es as <- <-. cbn [fst Worker1.communities] in *. intros c s G.
    destruct (Nat.eq_dec c k1) as [->|Nc].
    + rewrite map_get_set_same in G. injection G as <-. discriminate.
    + rewrite map_get_set_other in G by assumption. apply (Ps c s G).
  - intros c s G. discriminate.
Qed.

Lemma newPartition_keys_from : forall graph l st st',
  NoDup (JsMap.keys (Worker1.nodeToCommunity (fst st)) ++ l) ->
  foldM (fun (st : Worker1.Partition * nat) n =>
           let '(p, communityId) := st in
           d <- Worker1.degreeZ (Worker1.g_degrees graph) n ;;
           Normal (Worker1.mkPartition
                     (JsMap.set (Worker1.nodeToCommunity p) n communityId)
                     (JsMap.set (Worker1.communities p) communityId [n])
                     (JsMap.set (Worker1.sigma_tot p) communityId d)
                     (Worker1.m2 p),
                   S communityId)) l st = Normal st' ->
  JsMap.keys (Worker1.nodeToCommunity (fst st'))
  = JsMap.keys (Worker1.nodeToCommunity (fst st)) ++ l.
Proof.
  intros graph l. induction l as [|n l IH]; intros st st' N E; simpl in E.
  - injection E as <-. rewrite app_nil_r. reflexivity.
  - apply bind_Normal in E. destruct E as [st1 [E1 E2]]. destruct st as [p k].
    apply bind_Normal in E1. destruct E1 as [d [_ E1]]. injection E1 as <-.
    cbn [fst] in *.
    assert (Hn : JsMap.get (Worker1.nodeToCommunity p) n = None).
    { apply map_get_None. intros I. apply NoDup_remove_2 in N. apply N.
      apply in_or_app. left. assumption. }
    apply IH in E2; cbn [fst Worker1.nodeToCommunity] in *.
    + rewrite E2, map_keys_set. unfold JsMap.has. rewrite Hn.
      rewrite <- app_assoc. reflexivity.
    + rewrite map_keys_set. unfold JsMap.has. rewrite Hn.
      rewrite <- app_assoc. exact N.
Qed.

Lemma newPartition_keys : forall graph p,
  NoDup (Worker1.g_nodes graph) ->
  Worker1.newPartition graph = Normal p ->
  JsMap.keys (Worker1.nodeToCommunity p) = Worker1.g_nodes graph.
Proof.
  intros graph p N E. unfold Worker1.newPartition in E.
  apply bind_Normal in E. destruct E as [[p' k] [E E']]. injection E' as ->.
  apply newPartition_keys_from in E; [exact E | exact N].
Qed.

(** X13.  After the first phase of Louvain, in either variant, the two
    tables of the partition agree: every node of the graph has a
    community, a node has community [c] exactly when it is a member of
    [c], and no community is empty. *)
Theorem louvain_phase_partition : forall graphData res p0 p,
  (exists fuel,
     Worker1.newPartition (Worker1.newGraph graphData) = Normal p0
     /\ Worker1.optimizeModularity fuel res (Worker1.newGraph graphData) p0 = Normal p)
  \/ (exists passes,
        Worker1.newPartition (Worker2.newGraph graphData) = Normal p0
        /\ Worker2.optimizeModularity passes res (Worker2.newGraph graphData) p0 = Normal p) ->
  (forall x, In x (map id (nodes graphData)) ->
     exists c s, JsMap.get (Worker1.nodeToCommunity p) x = Some c
                 /\ JsMap.get (Worker1.communities p) c = Some s /\ In x s)
  /\ (forall c s x, JsMap.get (Worker1.communities p) c = Some s ->
        (In x s <-> JsMap.get (Worker1.nodeToCommunity p) x = Some c))
  /\ (forall c s, JsMap.get (Worker1.communities p) c = Some s -> s <> []).
Proof.
  intros graphData res p0 p R.
  set (ids := JsSet.of_list (map id (nodes graphData))).
  assert (G2 : Worker1.g_nodes (Worker2.newGraph graphData) = ids).
  { unfold Worker2.newGraph. destruct (fold_left _ _ _) as [[adj degrees] m]. reflexivity. }
  assert (Inv : consistent ids p
                /\ forall c s, JsMap.get (Worker1.communities p) c = Some s -> s <> []).
  { destruct R as [[fuel [E0 E]]|[passes [E0 E]]].
    - destruct (phase_keeps
                  (fun q => consistent ids q
                            /\ forall c s, JsMap.get (Worker1.communities q) c = Some s -> s <> [])
                  (Worker1.newGraph graphData)) as [K _].
      + intros q n newComm q' [C Ne] Nn Em. split.
        * apply (moveNode_consistent ids _ q n newComm q' C Nn Em).
        * apply (moveNode_nonempty ids _ q n newComm q' C Ne Nn Em).
      + apply (K fuel res p0 p E). split.
        * apply (newPartition_consistent (Worker1.newGraph graphData) p0);
            [apply set_of_list_NoDup | assumption].
        * apply (newPartition_singletons _ _ E0).
    - destruct (phase_keeps
                  (fun q => consistent ids q
                            /\ forall c s, JsMap.get (Worker1.communities q) c = Some s -> s <> [])
                  (Worker2.newGraph graphData)) as [_ K].
      + intros q n newComm q' [C Ne] Nn Em. split.
        * apply (moveNode_consistent ids _ q n newComm q' C Nn Em).
        * apply (moveNode_nonempty ids _ q n newComm q' C Ne Nn Em).
      + apply (K passes res p0 p E). split.
        * rewrite <- G2. apply newPartition_consistent;
            [rewrite G2; apply set_of_list_NoDup | assumption].
        * apply (newPartition_singletons _ _ E0). }
  destruct Inv as [[N [D [F B]]] Ne]. split; [|split].
  - intros x Hx. destruct (D x) as [c Gc]; [apply set_of_list_In; assumption|].
    destruct (F x c Gc) as [s [Gs Is]]. eauto.
  - intros c s x Gs. split; [apply (B c s x Gs)|].
    intros Gx. destruct (F x c Gx) as [s' [Gs' Is]]. congruence.
  - exact Ne.
Qed.

Lemma louvain_phase_partition_witness :
  Forall (fun x =>
            exists c s, JsMap.get (Worker1.nodeToCommunity path4Partition) x = Some c
                        /\ JsMap.get (Worker1.communities path4Partition) c = Some s /\ In x s)
         ["a"; "b"; "c"; "d"].
Proof.
  apply Forall_forall.
  assert (R : exists p0,
            Worker1.newPartition (Worker1.newGraph path4) = Normal p0
            /\ Worker1.optimizeModularity 10 1 (Worker1.newGraph path4) p0
               = Normal path4Partition).
  { eexists. split; [vm_compute; reflexivity | vm_compute; reflexivity]. }
  destruct R as [p0 [E0 E]].
  exact (proj1 (louvain_phase_partition path4 1 p0 path4Partition
                  (or_introl (ex_intro _ 10 (conj E0 E))))).
Defined.

(** * Louvain, second variant: the partition returned *)

Lemma louvainLevels_head : forall fuel res graph p0 hierarchy,
  Worker2.louvainLevels fuel res graph p0 = Normal hierarchy ->
  exists p' rest,
    Worker2.optimizeModularity 100 res graph p0 = Normal p'
    /\ hierarchy = Worker1.nodeToCommunity p' :: rest.
Proof.
  intros fuel res graph p0 hierarchy E. destruct fuel as [|fuel]; [discriminate|].
  cbn [Worker2.louvainLevels] in E.
  apply bind_Normal in E. destruct E as [p' [Ep E]]. exists p'.
  destruct (JsMap.size (Worker1.communities p') =? JsSet.size (Worker1.g_nodes graph)).
  - injection E as <-. eauto.
  - apply bind_Normal in E. destruct E as [newGraphData [_ E]].
    destruct (length (links newGraphData) =? 0).
    + injection E as <-. eauto.
    + apply bind_Normal in E. destruct E as [q0 [_ E]].
      apply bind_Normal in E. destruct E as [rest [_ E]]. injection E as <-. eauto.
Qed.

Lemma composeHierarchy_entries : forall level0 levels,
  NoDup (JsMap.keys level0) ->
  Worker2.composeHierarchy (level0 :: levels)
  = map (fun n => (n, Worker2.follow levels (Worker1.countOf level0 n))) (JsMap.keys level0).
Proof.
  intros level0 levels N. unfold Worker2.composeHierarchy.
  rewrite (map_init_explicit
             (fun n => Worker2.follow levels (Worker1.countOf level0 n))
             (JsMap.keys level0) N []) by (intros x _ []).
  reflexivity.
Qed.

Lemma dense_numbers : forall {A : Type} (l : list A),
  map snd (combine l (seq 0 (length l))) = seq 0 (length l).
Proof.
  intros A l. generalize 0. induction l as [|a l IH]; intros s; simpl; [reflexivity|].
  rewrite IH. reflexivity.
Qed.

(** X14.  Whenever the second variant of Louvain returns, its result
    has exactly one entry for every node of the graph, in the order of
    the nodes, and the community numbers it uses are exactly the
    numbers below their count. *)
Theorem louvain_second_partition : forall graphData fuel params result,
  Worker2.runLouvain fuel (Worker2.newGraph graphData) params = Normal result ->
  map node result = Worker1.g_nodes (Worker2.newGraph graphData)
  /\ NoDup (map node result)
  /\ exists k, forall c, In c (map community result) <-> c < k.
Proof.
  intros graphData fuel params result E.
  set (graph := Worker2.newGraph graphData) in *.
  assert (N : NoDup (Worker1.g_nodes graph)).
  { unfold graph, Worker2.newGraph. destruct (fold_left _ _ _) as [[adj degrees] m].
    apply set_of_list_NoDup. }
  unfold Worker2.runLouvain in E. destruct (Worker1.g_m graph =? 0).
  - injection E as <-. rewrite !map_map. cbn [node community].
    assert (En : map (fun x : string * nat => fst x)
                     (combine (Worker1.g_nodes graph) (seq 0 (length (Worker1.g_nodes graph))))
                 = Worker1.g_nodes graph).
    { apply (combine_fst (Worker1.g_nodes graph)). rewrite length_seq. reflexivity. }
    rewrite En. split; [reflexivity|]. split; [assumption|].
    exists (length (Worker1.g_nodes graph)). intros c.
    change (map (fun x : string * nat => snd x)
                (combine (Worker1.g_nodes graph) (seq 0 (length (Worker1.g_nodes graph)))))
      with (map snd (combine (Worker1.g_nodes graph) (seq 0 (length (Worker1.g_nodes graph))))).
    rewrite dense_numbers, in_seq. lia.
  - apply bind_Normal in E. destruct E as [p0 [E0 E]].
    apply bind_Normal in E. destruct E as [hierarchy [Eh E]]. injection E as <-.
    destruct (louvainLevels_head _ _ _ _ _ Eh) as [p' [rest [Ep ->]]].
    assert (K : JsMap.keys (Worker1.nodeToCommunity p') = Worker1.g_nodes graph).
    { destruct (phase_keeps
                  (fun q => JsMap.keys (Worker1.nodeToCommunity q) = Worker1.g_nodes graph)
                  graph) as [_ Keep].
      - intros q n newComm q' Kq _ Em. rewrite (moveNode_keys _ _ _ _ _ Em). assumption.
      - apply (Keep 100 (Worker1.resolution params) p0 p' Ep).
        apply newPartition_keys; assumption. }
    rewrite composeHierarchy_entries by (rewrite K; assumption). rewrite K.
    destruct (normalize_spec sort_nats
                (map (fun n => (n, Worker2.follow rest
                                     (Worker1.countOf (Worker1.nodeToCommunity p') n)))
                     (Worker1.g_nodes graph)) sort_nats_perm)
      as [number [k [En [Inj Sur]]]].
    rewrite En. rewrite !map_map. cbn [node community fst snd].
    split; [apply map_id|]. split; [rewrite map_id; assumption|].
    exists k. intros c. rewrite <- Sur. unfold JsMap.values. rewrite map_map. cbn [snd].
    rewrite !in_map_iff. split.
    + intros [n [<- Hn]]. eexists. split; [|reflexivity]. apply in_map_iff. eauto.
    + intros [a [Ha <-]]. apply in_map_iff in Ha. destruct Ha as [n [<- Hn]]. eauto.
Qed.

Lemma louvain_second_partition_witness :
  map node [mkAssignment "a" 0; mkAssignment "b" 0; mkAssignment "c" 1; mkAssignment "d" 1]
  = Worker1.g_nodes (Worker2.newGraph path4).
Proof.
  refine (proj1 (louvain_second_partition path4 10 (Worker1.mkLouvainParams 1) _ _)).
  vm_compute. reflexivity.
Defined.

(** * Girvan-Newman: the partition returned *)

Lemma disconnect_spec : forall (adjacency adjacency' : Worker1.Adjacency) a b,
  Worker1.disconnect adjacency a b = Normal adjacency' ->
  (forall x, JsMap.get adjacency' x = None <-> JsMap.get adjacency x = None)
  /\ (forall x y, adjacent adjacency' x y <-> adjacent adjacency x y /\ ~ (x = a /\ y = b)).
Proof.
  intros adjacency adjacency' a b E. unfold Worker1.disconnect in E.
  apply bind_Normal in E. destruct E as [s [G E]]. apply defined_Normal in G.
  injection E as <-. split.
  - intros x. destruct (string_dec x a) as [->|N].
    + rewrite map_get_set_same, G. split; discriminate.
    + rewrite map_get_set_other by assumption. tauto.
  - intros x y. unfold adjacent. destruct (string_dec x a) as [->|N].
    + rewrite map_get_set_same. split.
      * intros [s' [Es I]]. injection Es as <-. apply set_delete_In in I.
        split; [exists s; tauto | intros [_ Eb]; tauto].
      * intros [[s' [Es I]] Nab]. rewrite G in Es. injection Es as <-.
        exists (JsSet.delete s b). split; [reflexivity|]. apply set_delete_In.
        split; [assumption|]. intros Eb. apply Nab. split; [reflexivity | assumption].
    + rewrite map_get_set_other by assumption. split.
      * intros H. split; [assumption | intros [Ea _]; contradiction].
      * tauto.
Qed.

Lemma removeFromAdjacency_keeps : forall allNodes adjacency edge adjacency',
  Worker1.removeFromAdjacency adjacency edge = Normal adjacency' ->
  undirectedOver allNodes adjacency ->
  undirectedOver allNodes adjacency'
  /\ forall x y, adjacent adjacency' x y -> adjacent adjacency x y.
Proof.
  intros allNodes adjacency edge adjacency' E [D [I S]].
  unfold Worker1.removeFromAdjacency in E.
  destruct (split_bar edge) as [|u [|v rest]]; try discriminate.
  apply bind_Normal in E. destruct E as [adjacency1 [E1 E2]].
  destruct (disconnect_spec _ _ _ _ E1) as [K1 A1].
  destruct (disconnect_spec _ _ _ _ E2) as [K2 A2].
  assert (A : forall x y, adjacent adjacency' x y
                          <-> adjacent adjacency x y /\ ~ (x = u /\ y = v) /\ ~ (x = v /\ y = u)).
  { intros x y. rewrite A2, A1. tauto. }
  split; [split; [|split]|].
  - intros x Hx. destruct (D x Hx) as [s G].
    destruct (JsMap.get adjacency' x) eqn:G'; [eauto|].
    apply K2, K1 in G'. congruence.
  - intros x y H. apply A in H. apply (I x y). tauto.
  - intros x y H. apply A in H. apply A. destruct H as [H [N1 N2]].
    split; [apply S; assumption|]. tauto.
  - intros x y H. apply A in H. tauto.
Qed.

Lemma divide_keeps : forall allNodes fuel graph target numComponents st st',
  Worker1.divide fuel graph target numComponents st = Normal st' ->
  undirectedOver allNodes (Worker1.tempAdj st) ->
  undirectedOver allNodes (Worker1.tempAdj st')
  /\ forall x y, adjacent (Worker1.tempAdj st') x y -> adjacent (Worker1.tempAdj st) x y.
Proof.
  intros allNodes fuel graph target. induction fuel as [|fuel IH];
    intros numComponents st st' E U; simpl in E.
  - destruct ((numComponents <? target) && (0 <? JsSet.size (Worker1.currentEdges st)));
      [discriminate|]. injection E as <-. auto.
  - destruct ((numComponents <? target) && (0 <? JsSet.size (Worker1.currentEdges st)));
      [|injection E as <-; auto].
    apply bind_Normal in E. destruct E as [betweenness [_ E]].
    destruct (String.eqb (Worker1.edgeToRemove betweenness) ""); [injection E as <-; auto|].
    apply bind_Normal in E. destruct E as [tempAdj' [Er E]].
    apply bind_Normal in E. destruct E as [components [_ E]].
    destruct (removeFromAdjacency_keeps allNodes _ _ _ Er U) as [U' Sub].
    destruct (IH _ _ _ E U') as [U'' Sub']. cbn [Worker1.tempAdj] in *.
    split; [assumption|]. intros x y H. apply Sub, Sub'. assumption.
Qed.

Lemma divide_keeps_second : forall allNodes fuel graph target numComponents st st',
  Worker2.divide fuel graph target numComponents st = Normal st' ->
  undirectedOver allNodes (Worker2.tempAdj st) ->
  undirectedOver allNodes (Worker2.tempAdj st')
  /\ forall x y, adjacent (Worker2.tempAdj st') x y -> adjacent (Worker2.tempAdj st) x y.
Proof.
  intros allNodes fuel graph target. induction fuel as [|fuel IH];
    intros numComponents st st' E U; simpl in E.
  - destruct ((numComponents <? target) && (0 <? Worker2.m st));
      [discriminate|]. injection E as <-. auto.
  - destruct ((numComponents <? target) && (0 <? Worker2.m st));
      [|injection E as <-; auto].
    apply bind_Normal in E. destruct E as [betweenness [_ E]].
    destruct (String.eqb (Worker1.edgeToRemove betweenness) ""); [injection E as <-; auto|].
    apply bind_Normal in E. destruct E as [tempAdj' [Er E]].
    apply bind_Normal in E. destruct E as [components [_ E]].
    destruct (removeFromAdjacency_keeps allNodes _ _ _ Er U) as [U' Sub].
    destruct (IH _ _ _ E U') as [U'' Sub']. cbn [Worker2.tempAdj] in *.
    split; [assumption|]. intros x y H. apply Sub, Sub'. assumption.
Qed.

Lemma assignComponents_nodes : forall components,
  map node (Worker1.assignComponents components) = concat components.
Proof.
  intros components. unfold Worker1.assignComponents. generalize 0.
  induction components as [|c components IH]; intros start; simpl; [reflexivity|].
  rewrite map_app, IH, map_map. simpl. rewrite map_id. reflexivity.
Qed.

(** The partition read off the components of an adjacency over the
    nodes of the graph. *)
Lemma components_divide : forall graphData graph final,
  Worker1.g_nodes graph = JsSet.of_list (map id (nodes graphData)) ->
  undirectedOver (Worker1.g_nodes graph) final ->
  (forall u v, adjacent final u v -> linked graphData u v) ->
  exists components,
    Worker1.getComponents graph final = Normal components
    /\ dividedBy graphData final (Worker1.assignComponents components).
Proof.
  intros graphData graph final Gn [D [I S]] Sub.
  assert (N : NoDup (Worker1.g_nodes graph)) by (rewrite Gn; apply set_of_list_NoDup).
  destruct (getComponents_ok graph final N D I S) as [components [E [Nc [Ic [Ne R]]]]].
  exists components. split; [exact E|].
  unfold dividedBy. rewrite assignComponents_nodes.
  split; [exact Nc|]. split; [|split; [|split]].
  - intros x. rewrite Ic, Gn. apply set_of_list_In.
  - exists (length components). intros c. rewrite in_map_iff. split.
    + intros [[u i] [<- H]]. apply assignComponents_In in H. destruct H as [comp [Hn _]].
      cbn [community]. apply nth_error_Some. congruence.
    + intros Hc. destruct (nth_error components c) as [comp|] eqn:En;
        [|apply nth_error_None in En; lia].
      assert (Hcomp : In comp components) by (apply nth_error_In with c; assumption).
      destruct comp as [|u comp]; [exfalso; apply (Ne [] Hcomp); reflexivity|].
      exists (mkAssignment u c). split; [reflexivity|].
      apply assignComponents_In. exists (u :: comp). split; [assumption | left; reflexivity].
  - intros [u i] [v j] Ha Hb. cbn [community node].
    apply assignComponents_In in Ha, Hb.
    destruct Ha as [ci [Ei Hu]], Hb as [cj [Ej Hv]].
    assert (Hu' : In u (Worker1.g_nodes graph)).
    { apply Ic. apply in_concat. exists ci. split; [apply nth_error_In with i|]; assumption. }
    rewrite <- (R u v Hu'). split.
    + intros <-. exists ci. rewrite Ej in Ei. injection Ei as ->.
      split; [apply nth_error_In with i; assumption | tauto].
    + intros [c [Hc [Huc Hvc]]].
      apply In_nth_error in Hc. destruct Hc as [k Ek].
      assert (i = k) by (apply (disjoint_components components i k ci c u); assumption).
      assert (j = k) by (apply (disjoint_components components j k cj c v); assumption).
      congruence.
  - exact Sub.
Qed.

(** X15.  For graph data whose links join nodes of the graph: whenever
    the main loop of Girvan-Newman ends, the routine returns, every
    node has exactly one entry, the community numbers are exactly the
    numbers below their count, two nodes share a community exactly
    when the links that were not removed connect them, and those links
    are links of the input.  Both worker variants. *)
Theorem girvan_newman_partition : forall graphData params,
  linksWellFormed graphData ->
  (forall st,
     Worker1.girvanNewmanFinal (Worker1.newGraph graphData) params = Normal st ->
     exists result,
       Worker1.runGirvanNewman (Worker1.newGraph graphData) params = Normal result
       /\ dividedBy graphData (Worker1.tempAdj st) result)
  /\ (forall st,
        Worker2.girvanNewmanFinal (Worker2.newGraph graphData) params = Normal st ->
        exists result,
          Worker2.runGirvanNewman (Worker2.newGraph graphData) params = Normal result
          /\ dividedBy graphData (Worker2.tempAdj st) result).
Proof.
  intros graphData params W.
  destruct (initialAdjacency_ok graphData W)
    as [[adjacency1 [E1 [D1 A1]]] [adjacency2 [E2 [D2 A2]]]].
  assert (G2 : Worker1.g_nodes (Worker2.newGraph graphData)
               = JsSet.of_list (map id (nodes graphData))).
  { unfold Worker2.newGraph. destruct (fold_left _ _ _) as [[a d] m]. reflexivity. }
  split.
  - intros st F. unfold Worker1.runGirvanNewman. rewrite F. cbn [bind].
    unfold Worker1.girvanNewmanFinal in F. rewrite E1 in F. cbn [bind] in F.
    apply bind_Normal in F. destruct F as [components0 [_ F]].
    destruct (divide_keeps (Worker1.g_nodes (Worker1.newGraph graphData)) _ _ _ _ _ _ F)
      as [U Sub].
    { cbn [Worker1.tempAdj]. split; [exact D1|]. split.
      - intros u v H. apply A1 in H. apply (linked_inside graphData u v W H).
      - intros u v H. apply A1. apply linked_sym. apply A1. assumption. }
    destruct (components_divide graphData (Worker1.newGraph graphData) (Worker1.tempAdj st)
                eq_refl U) as [components [Ec Dv]].
    { intros u v H. apply A1. apply Sub. assumption. }
    rewrite Ec. cbn [bind]. eauto.
  - intros st F. unfold Worker2.runGirvanNewman. rewrite F. cbn [bind].
    unfold Worker2.girvanNewmanFinal in F. rewrite E2 in F. cbn [bind] in F.
    apply bind_Normal in F. destruct F as [components0 [_ F]].
    destruct (divide_keeps_second (Worker1.g_nodes (Worker2.newGraph graphData)) _ _ _ _ _ _ F)
      as [U Sub].
    { cbn [Worker2.tempAdj]. split; [exact D2|]. split.
      - intros u v H. apply A2 in H. rewrite G2. apply (linked_inside graphData u v W H).
      - intros u v H. apply A2. apply linked_sym. apply A2. assumption. }
    destruct (components_divide graphData (Worker2.newGraph graphData) (Worker2.tempAdj st)
                G2 U) as [components [Ec Dv]].
    { intros u v H. apply A2. apply Sub. assumption. }
    rewrite Ec. cbn [bind]. eauto.
Qed.

Lemma girvan_newman_partition_witness :
  exists st result,
    Worker1.girvanNewmanFinal (Worker1.newGraph kite) (Worker1.mkGirvanNewmanParams 2)
    = Normal st
    /\ Worker1.runGirvanNewman (Worker1.newGraph kite) (Worker1.mkGirvanNewmanParams 2)
       = Normal result
    /\ dividedBy kite (Worker1.tempAdj st) result.
Proof.
  assert (W : linksWellFormed kite).
  { intros l [<-|[<-|[<-|[<-|[]]]]]; vm_compute; tauto. }
  assert (F : exists st,
            Worker1.girvanNewmanFinal (Worker1.newGraph kite) (Worker1.mkGirvanNewmanParams 2)
            = Normal st) by (eexists; vm_compute; reflexivity).
  destruct F as [st F].
  destruct (proj1 (girvan_newman_partition kite (Worker1.mkGirvanNewmanParams 2) W) st F)
    as [result [E D]].
  exists st, result. split; [exact F|]. split; [exact E | exact D].
Defined.

(** X16.  A Girvan-Newman request for a graph of more than 100 distinct
    nodes is answered with the error message about the size of the
    graph, whatever the links and the parameters; no community is
    computed. *)
Theorem girvan_newman_size_limit : forall fuel graphData params,
  100 < JsSet.size (JsSet.of_list (map id (nodes graphData))) ->
  Worker1.onmessage fuel graphData Worker1.GIRVAN_NEWMAN params
  = Normal (Worker1.ERROR Worker1.tooLarge).
Proof.
  intros fuel graphData params L. unfold Worker1.onmessage, Worker1.dispatch.
  replace (String.eqb Worker1.GIRVAN_NEWMAN Worker1.LOUVAIN) with false by reflexivity.
  rewrite String.eqb_refl.
  change (Worker1.g_nodes (Worker1.newGraph graphData))
    with (JsSet.of_list (map id (nodes graphData))).
  apply Nat.ltb_lt in L. rewrite L. reflexivity.
Qed.

Lemma girvan_newman_size_limit_witness :
  Worker1.onmessage 0 (mkGraphData (map (fun k => mkNode (toString k)) (seq 0 101)) [])
    Worker1.GIRVAN_NEWMAN (defaultParams 2)
  = Normal (Worker1.ERROR Worker1.tooLarge).
Proof.
  apply girvan_newman_size_limit. vm_compute. repeat constructor.
Defined.

(** * Link prediction: the pairs returned *)

Lemma indexPairs_before : forall l u v,
  In (u, v) (LinkPrediction.indexPairs l) -> before l u v.
Proof.
  induction l as [|a rest IH]; intros u v I; simpl in I; [destruct I|].
  apply in_app_or in I. destruct I as [I|I].
  - apply in_map_iff in I. destruct I as [y [E Hy]]. injection E as -> ->.
    apply In_nth_error in Hy. destruct Hy as [j Ej].
    exists 0, (S j). split; [lia|]. split; [reflexivity | exact Ej].
  - destruct (IH u v I) as [i [j [L [Ei Ej]]]].
    exists (S i), (S j). split; [lia|]. split; assumption.
Qed.

Lemma before_In : forall l u v, before l u v -> In u l /\ In v l.
Proof.
  intros l u v [i [j [_ [Ei Ej]]]]. split; eapply nth_error_In; eassumption.
Qed.

Lemma before_NoDup : forall l u v,
  NoDup l -> before l u v -> u <> v /\ ~ before l v u.
Proof.
  intros l u v N [i [j [L [Ei Ej]]]].
  assert (Inj : forall a b x, nth_error l a = Some x -> nth_error l b = Some x -> a = b).
  { intros a b x Ea Eb. apply (proj1 (NoDup_nth_error l) N).
    - apply nth_error_Some. congruence.
    - congruence. }
  split.
  - intros ->. assert (i = j) by (apply (Inj i j v); assumption). lia.
  - intros [i' [j' [L' [Ei' Ej']]]].
    assert (i' = j) by (apply (Inj i' j v); assumption).
    assert (j' = i) by (apply (Inj j' i u); assumption). lia.
Qed.

Lemma ltb_trans : forall a b c,
  String.ltb a b = true -> String.ltb b c = true -> String.ltb a c = true.
Proof.
  intros a b c. unfold String.ltb.
  destruct (String.compare a b) eqn:Eab; try discriminate.
  destruct (String.compare b c) eqn:Ebc; try discriminate.
  rewrite (string_compare_lt_trans _ _ _ Eab Ebc). reflexivity.
Qed.

Lemma ascending_head : forall rest a y,
  ascending (a :: rest) = true -> In y rest -> String.ltb a y = true.
Proof.
  induction rest as [|b rest IH]; intros a y A I; [destruct I|].
  cbn [ascending] in A. apply andb_prop in A. destruct A as [Lab A].
  destruct I as [<-|I]; [assumption|].
  apply ltb_trans with b; [assumption | apply (IH b y A I)].
Qed.

Lemma ascending_before : forall l u v,
  ascending l = true -> before l u v -> String.ltb u v = true.
Proof.
  induction l as [|a rest IH]; intros u v A [i [j [L [Ei Ej]]]];
    [destruct i; discriminate|].
  destruct j as [|j]; [lia|]. simpl in Ej. destruct i as [|i].
  - simpl in Ei. injection Ei as ->.
    apply (ascending_head rest u v A). apply nth_error_In with j. assumption.
  - simpl in Ei. apply IH.
    + cbn [ascending] in A. apply andb_prop in A. tauto.
    + exists i, j. split; [lia | tauto].
Qed.

(** Reading a link keeps the nodes and the keys noted, and notes the
    key of the link when both its ends are nodes. *)
Lemma addLinkToGraph_notes : forall (ids : list string) g l,
  (forall x, In x ids -> JsMap.get (LinkPrediction.pg_adj g) x <> None) ->
  let g' := LinkPrediction.addLinkToGraph g l in
  (forall x, In x ids -> JsMap.get (LinkPrediction.pg_adj g') x <> None)
  /\ LinkPrediction.pg_nodes g' = LinkPrediction.pg_nodes g
  /\ (forall k, In k (LinkPrediction.pg_existingLinks g) ->
                In k (LinkPrediction.pg_existingLinks g'))
  /\ (In (source l) ids -> In (target l) ids ->
      In (Worker1.edgeKey (source l) (target l)) (LinkPrediction.pg_existingLinks g')).
Proof.
  intros ids g l K. cbv zeta. unfold LinkPrediction.addLinkToGraph.
  destruct (JsMap.get (LinkPrediction.pg_adj g) (source l)) as [ss|] eqn:Gs.
  - destruct (JsMap.get (LinkPrediction.pg_adj g) (target l)) as [st|] eqn:Gt.
    + cbn [LinkPrediction.pg_adj LinkPrediction.pg_nodes LinkPrediction.pg_existingLinks].
      split; [|split; [reflexivity | split]].
      * intros x Hx.
        destruct (JsMap.get (JsMap.set (LinkPrediction.pg_adj g) (source l)
                               (JsSet.add ss (target l))) (target l)) as [s2|] eqn:G2.
        -- destruct (string_dec x (target l)) as [->|Nt];
             [rewrite map_get_set_same; discriminate|].
           rewrite map_get_set_other by assumption.
           destruct (string_dec x (source l)) as [->|Ns];
             [rewrite map_get_set_same; discriminate|].
           rewrite map_get_set_other by assumption. apply K. assumption.
        -- destruct (string_dec x (source l)) as [->|Ns];
             [rewrite map_get_set_same; discriminate|].
           rewrite map_get_set_other by assumption. apply K. assumption.
      * intros k Hk. apply set_add_In. left. assumption.
      * intros _ _. apply set_add_In. right. reflexivity.
    + split; [assumption|]. split; [reflexivity|]. split; [auto|].
      intros _ Ht. exfalso. apply (K _ Ht). assumption.
  - split; [assumption|]. split; [reflexivity|]. split; [auto|].
    intros Hs _. exfalso. apply (K _ Hs). assumption.
Qed.

Lemma buildPredictionGraph_notes : forall graphData,
  let g := LinkPrediction.buildPredictionGraph graphData in
  LinkPrediction.pg_nodes g = map id (nodes graphData)
  /\ forall l, In l (links graphData) ->
       In (source l) (map id (nodes graphData)) -> In (target l) (map id (nodes graphData)) ->
       In (Worker1.edgeKey (source l) (target l)) (LinkPrediction.pg_existingLinks g).
Proof.
  intros graphData. cbv zeta. unfold LinkPrediction.buildPredictionGraph.
  set (ids := map id (nodes graphData)).
  assert (A : forall ls g,
            (forall x, In x ids -> JsMap.get (LinkPrediction.pg_adj g) x <> None) ->
            LinkPrediction.pg_nodes (fold_left LinkPrediction.addLinkToGraph ls g)
            = LinkPrediction.pg_nodes g
            /\ (forall k, In k (LinkPrediction.pg_existingLinks g) ->
                  In k (LinkPrediction.pg_existingLinks
                          (fold_left LinkPrediction.addLinkToGraph ls g)))
            /\ forall l, In l ls -> In (source l) ids -> In (target l) ids ->
                 In (Worker1.edgeKey (source l) (target l))
                    (LinkPrediction.pg_existingLinks
                       (fold_left LinkPrediction.addLinkToGraph ls g))).
  { induction ls as [|l0 ls IH]; intros g K; cbn [fold_left].
    - split; [reflexivity|]. split; [auto | intros l []].
    - destruct (addLinkToGraph_notes ids g l0 K) as [K1 [N1 [M1 A1]]].
      destruct (IH _ K1) as [N2 [M2 A2]].
      split; [rewrite N2; exact N1|]. split; [intros k Hk; apply M2, M1; assumption|].
      intros l [<-|Hl] Hs Ht; [apply M2, A1; assumption | apply A2; assumption]. }
  destruct (A (links graphData)
              (LinkPrediction.mkPredictionGraph ids
                 (fold_left (fun m n => JsMap.set m n []) ids [])
                 (fold_left (fun m n => JsMap.set m n 0) ids []) [])) as [N [_ E]].
  - intros x Hx. cbn [LinkPrediction.pg_adj].
    rewrite (map_init_get (fun _ : string => @nil string) ids [] x).
    destruct (in_dec eq_dec x ids); [discriminate | contradiction].
  - split; [exact N | exact E].
Qed.

(** Every prediction, of every algorithm, is a candidate pair. *)
Lemma results_candidates : forall Math_log graphData algorithm results,
  LinkPrediction.calculateLinkPrediction Math_log graphData algorithm = Normal results ->
  exists keep : string * string -> list LinkPrediction.LinkPredictionResult,
    results = flat_map keep
                (LinkPrediction.getCandidateLinks
                   (LinkPrediction.buildPredictionGraph graphData))
    /\ forall uv r, In r (keep uv) -> keep uv = [r] /\ pairOf r = uv.
Proof.
  intros Math_log graphData algorithm results E.
  unfold LinkPrediction.calculateLinkPrediction in E.
  destruct (length (nodes graphData) <? 2).
  { injection E as <-. exists (fun _ => []). split; [|intros uv r []].
    induction (LinkPrediction.getCandidateLinks _); [reflexivity | assumption]. }
  destruct (String.eqb algorithm LinkPrediction.COMMON_NEIGHBORS).
  { injection E as <-. eexists. split; [reflexivity | one_result]. }
  destruct (String.eqb algorithm LinkPrediction.JACCARD).
  { injection E as <-. eexists. split; [reflexivity | one_result]. }
  destruct (String.eqb algorithm LinkPrediction.ADAMIC_ADAR).
  { injection E as <-. eexists. split; [reflexivity | one_result]. }
  destruct (String.eqb algorithm LinkPrediction.PREFERENTIAL_ATTACHMENT); [|discriminate].
  injection E as <-. eexists. split; [reflexivity | one_result].
Qed.

Lemma candidate_pairs : forall graphData u v,
  In (u, v) (LinkPrediction.getCandidateLinks (LinkPrediction.buildPredictionGraph graphData)) ->
  before (map id (nodes graphData)) u v
  /\ JsSet.has (LinkPrediction.pg_existingLinks (LinkPrediction.buildPredictionGraph graphData))
               (pairKey u v) = false.
Proof.
  intros graphData u v I. unfold LinkPrediction.getCandidateLinks in I.
  apply filter_In in I. destruct I as [I H]. cbn [fst snd] in H.
  destruct (buildPredictionGraph_notes graphData) as [N _]. rewrite N in I.
  split; [apply indexPairs_before; assumption|]. apply negb_true_iff. assumption.
Qed.

(** X17.  When the nodes are listed in strictly ascending order of
    their identifiers, no algorithm predicts a pair that a link of the
    graph already joins. *)
Theorem sorted_nodes_no_existing_link : forall Math_log graphData algorithm results,
  ascending (map id (nodes graphData)) = true ->
  LinkPrediction.calculateLinkPrediction Math_log graphData algorithm = Normal results ->
  forall r, In r results ->
    ~ linked graphData (LinkPrediction.lp_source r) (LinkPrediction.lp_target r).
Proof.
  intros Math_log graphData algorithm results A E r Hr.
  destruct (results_candidates _ _ _ _ E) as [keep [-> Keep]].
  apply in_flat_map in Hr. destruct Hr as [[u v] [Hc Hk]].
  destruct (Keep _ _ Hk) as [_ P]. unfold pairOf in P. injection P as -> ->.
  destruct (candidate_pairs graphData u v Hc) as [B H].
  assert (L := ascending_before _ u v A B).
  destruct (before_In _ u v B) as [Hu Hv].
  assert (Nuv : u <> v) by (intros ->; rewrite ltb_irrefl in L; discriminate).
  intros [e [He J]].
  destruct (buildPredictionGraph_notes graphData) as [_ X].
  assert (K : In (pairKey u v)
                 (LinkPrediction.pg_existingLinks
                    (LinkPrediction.buildPredictionGraph graphData))).
  { destruct J as [[Es Et]|[Es Et]].
    - specialize (X e He). rewrite Es, Et in X. specialize (X Hu Hv).
      unfold Worker1.edgeKey in X. rewrite L in X. exact X.
    - specialize (X e He). rewrite Es, Et in X. specialize (X Hv Hu).
      unfold Worker1.edgeKey in X. rewrite (ltb_asym u v Nuv), L in X. exact X. }
  apply set_has_In in K. congruence.
Qed.

Lemma sorted_nodes_no_existing_link_witness :
  Forall (fun r => ~ linked path3 (LinkPrediction.lp_source r) (LinkPrediction.lp_target r))
         [LinkPrediction.mkResult "a" "c" 1%Q].
Proof.
  apply Forall_forall.
  apply (sorted_nodes_no_existing_link (fun _ => 1%Q) path3 LinkPrediction.COMMON_NEIGHBORS).
  - reflexivity.
  - vm_compute. reflexivity.
Defined.

Lemma NoDup_append : forall {A : Type} (l1 l2 : list A),
  NoDup l1 -> NoDup l2 -> (forall x, In x l1 -> ~ In x l2) -> NoDup (l1 ++ l2).
Proof.
  induction l1 as [|a l1 IH]; intros l2 N1 N2 D; simpl; [assumption|].
  inversion N1 as [|? ? Ha N1']; subst. constructor.
  - rewrite in_app_iff. intros [I|I]; [contradiction|]. apply (D a); [left; reflexivity | assumption].
  - apply IH; [assumption | assumption|]. intros x Hx. apply D. right. assumption.
Qed.

Lemma indexPairs_NoDup : forall l, NoDup l -> NoDup (LinkPrediction.indexPairs l).
Proof.
  induction l as [|a rest IH]; intros N; simpl; [constructor|].
  inversion N as [|? ? Ha Nr]; subst. apply NoDup_append.
  - apply Finite.Injective_map_NoDup; [|assumption]. intros x y E. congruence.
  - apply IH. assumption.
  - intros [u v] I1 I2. apply in_map_iff in I1. destruct I1 as [y [E _]]. injection E as -> ->.
    apply indexPairs_before in I2. apply before_In in I2. tauto.
Qed.

Lemma kept_pairs_NoDup : forall (keep : string * string -> list LinkPrediction.LinkPredictionResult)
  (candidates : list (string * string)),
  (forall uv r, In r (keep uv) -> keep uv = [r] /\ pairOf r = uv) ->
  NoDup candidates ->
  NoDup (map pairOf (flat_map keep candidates)).
Proof.
  intros keep candidates Keep. induction candidates as [|c cs IH]; intros N; simpl;
    [constructor|].
  inversion N as [|? ? Hc Ncs]; subst. rewrite map_app. apply NoDup_append.
  - destruct (keep c) as [|r l] eqn:E; [constructor|].
    destruct (Keep c r) as [E1 _]; [rewrite E; left; reflexivity|].
    rewrite E in E1. injection E1 as ->. repeat constructor. intros [].
  - apply IH. assumption.
  - intros x I1 I2. apply in_map_iff in I1. destruct I1 as [r [<- Hr]].
    destruct (Keep c r Hr) as [_ P]. apply in_map_iff in I2. destruct I2 as [r' [E' Hr']].
    apply in_flat_map in Hr'. destruct Hr' as [c' [Hc' Hk']].
    destruct (Keep c' r' Hk') as [_ P']. apply Hc. congruence.
Qed.

(** X18.  When the node identifiers are pairwise distinct, every
    algorithm reports a pair of nodes at most once: the source stands
    before the target in the node list, so no pair joins a node with
    itself, and no pair is reported a second time, in either
    direction. *)
Theorem predictions_are_distinct_pairs : forall Math_log graphData algorithm results,
  NoDup (map id (nodes graphData)) ->
  LinkPrediction.calculateLinkPrediction Math_log graphData algorithm = Normal results ->
  NoDup (map pairOf results)
  /\ forall r, In r results ->
       before (map id (nodes graphData)) (LinkPrediction.lp_source r) (LinkPrediction.lp_target r)
       /\ LinkPrediction.lp_source r <> LinkPrediction.lp_target r
       /\ forall r', In r' results ->
            pairOf r' <> (LinkPrediction.lp_target r, LinkPrediction.lp_source r).
Proof.
  intros Math_log graphData algorithm results N E.
  destruct (results_candidates _ _ _ _ E) as [keep [-> Keep]].
  destruct (buildPredictionGraph_notes graphData) as [Nodes _].
  assert (B : forall r,
            In r (flat_map keep (LinkPrediction.getCandidateLinks
                                   (LinkPrediction.buildPredictionGraph graphData))) ->
            before (map id (nodes graphData))
                   (LinkPrediction.lp_source r) (LinkPrediction.lp_target r)).
  { intros r Hr. apply in_flat_map in Hr. destruct Hr as [[u v] [Hc Hk]].
    destruct (Keep _ _ Hk) as [_ P]. unfold pairOf in P. injection P as -> ->.
    apply (candidate_pairs graphData u v Hc). }
  split.
  - apply kept_pairs_NoDup; [assumption|]. unfold LinkPrediction.getCandidateLinks.
    apply NoDup_filter. rewrite Nodes. apply indexPairs_NoDup. assumption.
  - intros r Hr. assert (Br := B r Hr).
    destruct (before_NoDup _ _ _ N Br) as [Ne Nb].
    split; [assumption|]. split; [assumption|].
    intros r' Hr' P. apply Nb. assert (Br' := B r' Hr').
    unfold pairOf in P. injection P as P1 P2. rewrite P1, P2 in Br'. exact Br'.
Qed.

Lemma predictions_are_distinct_pairs_witness :
  NoDup (map pairOf [LinkPrediction.mkResult "a" "c" 1%Q]).
Proof.
  refine (proj1 (predictions_are_distinct_pairs (fun _ => 1%Q) path3
                   LinkPrediction.COMMON_NEIGHBORS _ _ _)).
  - vm_compute. repeat constructor; simpl; intuition discriminate.
  - vm_compute. reflexivity.
Defined.

(** * Link prediction: the Jaccard coefficient *)

Lemma intersection_le_union : forall (a b : JsSet.t string),
  JsSet.size (JsSet.of_list (LinkPrediction.intersection a b))
  <= JsSet.size (JsSet.of_list (a ++ b)).
Proof.
  intros a b. unfold JsSet.size. apply NoDup_incl_length; [apply set_of_list_NoDup|].
  intros x Hx. apply (proj1 (set_of_list_In _ _)) in Hx. apply (proj2 (set_of_list_In _ _)).
  unfold LinkPrediction.intersection in Hx. apply filter_In in Hx.
  apply in_or_app. tauto.
Qed.

(** X19.  Every Jaccard coefficient returned lies between 0 and 1. *)
Theorem jaccard_in_unit_interval : forall graphData,
  Forall (fun r => (0 <= LinkPrediction.lp_score r <= 1)%Q)
         (LinkPrediction.calculateJaccard (LinkPrediction.buildPredictionGraph graphData)).
Proof.
  intros graphData. apply Forall_forall. intros r Hr.
  unfold LinkPrediction.calculateJaccard in Hr. apply in_flat_map in Hr.
  destruct Hr as [uv [_ Hr]]. cbv zeta in Hr.
  set (g := LinkPrediction.buildPredictionGraph graphData) in *.
  assert (L := intersection_le_union (LinkPrediction.neighborsOf g (fst uv))
                                     (LinkPrediction.neighborsOf g (snd uv))).
  destruct (0 <? JsSet.size (JsSet.of_list (LinkPrediction.neighborsOf g (fst uv)
                                             ++ LinkPrediction.neighborsOf g (snd uv)))) eqn:P;
    [|destruct Hr].
  destruct Hr as [<-|[]]. cbn [LinkPrediction.lp_score].
  apply Nat.ltb_lt in P.
  assert (Pu : (0 < LinkPrediction.Qnat
                      (JsSet.size (JsSet.of_list (LinkPrediction.neighborsOf g (fst uv)
                                                  ++ LinkPrediction.neighborsOf g (snd uv)))))%Q).
  { unfold LinkPrediction.Qnat. change 0%Q with (inject_Z 0). rewrite <- Zlt_Qlt. lia. }
  split.
  - apply Qle_shift_div_l; [assumption|]. rewrite Qmult_0_l.
    unfold LinkPrediction.Qnat. change 0%Q with (inject_Z 0). rewrite <- Zle_Qle. lia.
  - apply Qle_shift_div_r; [assumption|]. rewrite Qmult_1_l.
    unfold LinkPrediction.Qnat. rewrite <- Zle_Qle. lia.
Qed.

(** * The generators: shuffling *)

Lemma update_perm : forall {A : Type} (l : list A) j y a,
  nth_error l j = Some y -> Permutation (y :: Generators.update l j a) (a :: l).
Proof.
  intros A l. induction l as [|b l IH]; intros j y a E; [destruct j; discriminate|].
  destruct j as [|j]; simpl in *.
  - injection E as ->. apply perm_swap.
  - apply perm_trans with (b :: y :: Generators.update l j a); [apply perm_swap|].
    apply perm_trans with (b :: a :: l); [apply perm_skip; apply IH; assumption|].
    apply perm_swap.
Qed.

Lemma update_same : forall {A : Type} (l : list A) j y,
  nth_error l j = Some y -> Generators.update l j y = l.
Proof.
  intros A l. induction l as [|b l IH]; intros j y E; [destruct j; discriminate|].
  destruct j as [|j]; simpl in *; [congruence|]. rewrite IH by assumption. reflexivity.
Qed.

Lemma update_update : forall {A : Type} (l : list A) j x y,
  Generators.update (Generators.update l j x) j y = Generators.update l j y.
Proof.
  intros A l. induction l as [|b l IH]; intros j x y; [destruct j; reflexivity|].
  destruct j as [|j]; simpl; [reflexivity|]. rewrite IH. reflexivity.
Qed.

Lemma swap_perm : forall {A : Type} (l : list A) i j,
  Permutation (Generators.swap l i j) l.
Proof.
  intros A l. unfold Generators.swap. induction l as [|a l IH]; intros i j.
  - destruct i, j; apply Permutation_refl.
  - destruct i as [|i], j as [|j]; simpl.
    + apply Permutation_refl.
    + destruct (nth_error l j) as [y|] eqn:Ej; [|apply Permutation_refl].
      simpl. apply update_perm. assumption.
    + destruct (nth_error l i) as [x|] eqn:Ei; [|apply Permutation_refl].
      simpl. apply update_perm. assumption.
    + specialize (IH i j).
      destruct (nth_error l i) as [x|]; [|apply Permutation_refl].
      destruct (nth_error l j) as [y|]; [|apply Permutation_refl].
      simpl. apply perm_skip. assumption.
Qed.

Lemma shuffleFrom_perm : forall {A : Type} Math_random i (l : list A) k,
  Permutation (fst (Generators.shuffleFrom Math_random i l k)) l
  /\ snd (Generators.shuffleFrom Math_random i l k) = k + i.
Proof.
  intros A Math_random i. induction i as [|i IH]; intros l k; cbn [Generators.shuffleFrom].
  - cbn [fst snd]. split; [apply Permutation_refl | lia].
  - destruct (IH (Generators.swap l (S i) (Generators.randomIndex Math_random k (S i + 1)))
                 (S k)) as [P E].
    split; [|rewrite E; lia].
    apply perm_trans with (Generators.swap l (S i)
                             (Generators.randomIndex Math_random k (S i + 1)));
      [assumption | apply swap_perm].
Qed.

Lemma randomIndex_below : forall Math_random k len,
  (0 <= Math_random k)%Q -> (Math_random k < 1)%Q -> 0 < len ->
  Generators.randomIndex Math_random k len < len.
Proof.
  intros Math_random k len L U P. unfold Generators.randomIndex.
  assert (Pl : (0 < inject_Z (Z.of_nat len))%Q).
  { change 0%Q with (inject_Z 0). rewrite <- Zlt_Qlt. lia. }
  assert (F : (Qfloor (Math_random k * inject_Z (Z.of_nat len)) < Z.of_nat len)%Z).
  { rewrite Zlt_Qlt.
    apply Qle_lt_trans with (Math_random k * inject_Z (Z.of_nat len))%Q; [apply Qfloor_le|].
    rewrite <- (Qmult_1_l (inject_Z (Z.of_nat len))) at 2.
    apply Qmult_lt_compat_r; assumption. }
  assert (G : (0 <= Qfloor (Math_random k * inject_Z (Z.of_nat len)))%Z).
  { rewrite <- (Qfloor_Z 0). apply Qfloor_resp_le. change (inject_Z 0) with 0%Q.
    apply Qmult_le_0_compat; [assumption | apply Qlt_le_weak; assumption]. }
  lia.
Qed.

(** X20.  With [Math.random()] in [0, 1), every index [shuffle] draws
    lies inside the array, the list it returns is a permutation of its
    argument, and it makes one draw for every element but the
    first. *)
Theorem shuffle_is_permutation : forall {A : Type} Math_random (l : list A) k,
  (forall j, (0 <= Math_random j < 1)%Q) ->
  (forall i j, Generators.randomIndex Math_random j (i + 1) <= i)
  /\ Permutation (fst (Generators.shuffle Math_random l k)) l
  /\ snd (Generators.shuffle Math_random l k) = k + (length l - 1).
Proof.
  intros A Math_random l k R. split.
  - intros i j. destruct (R j) as [L U].
    assert (B := randomIndex_below Math_random j (i + 1) L U). lia.
  - unfold Generators.shuffle. apply shuffleFrom_perm.
Qed.

Lemma shuffle_is_permutation_witness :
  Permutation (fst (Generators.shuffle half ["a"; "b"; "c"] 0)) ["a"; "b"; "c"].
Proof.
  refine (proj1 (proj2 (shuffle_is_permutation half ["a"; "b"; "c"] 0 _))).
  intros j. split; [discriminate | reflexivity].
Defined.

(** * The LFR generator: fewer nodes than a community needs *)

(** X21.  When fewer nodes are asked for than the smaller of the two
    community bounds, the LFR generator returns the empty network: no
    node, no link, no ground truth and an empty edge list. *)
Theorem lfr_too_few_nodes : forall Math_random Math_pow fuel p,
  (Generators.n p < Z.min (Generators.minCommunity p) (Generators.maxCommunity p))%Z ->
  Generators.generateLFRNetwork Math_random Math_pow (S fuel) p
  = Normal (Generators.mkGeneration (mkGraphData [] []) [] "").
Proof.
  intros Math_random Math_pow fuel p L.
  unfold Generators.generateLFRNetwork, Generators.planted.
  cbn [Generators.communitySizesFrom].
  destruct (0 <? Generators.n p)%Z eqn:P.
  - assert (M : (Z.min (Z.max (Generators.minCommunity p) (Generators.maxCommunity p))
                       (Generators.n p)
                 <? Z.min (Generators.minCommunity p) (Generators.maxCommunity p))%Z = true).
    { apply Z.ltb_lt. lia. }
    rewrite M. reflexivity.
  - reflexivity.
Qed.

Lemma lfr_too_few_nodes_witness :
  Generators.generateLFRNetwork half Generators.powZ 1 (Generators.mkLFRParams 2 0 3 5 2 2 1 2)
  = Normal (Generators.mkGeneration (mkGraphData [] []) [] "").
Proof. apply lfr_too_few_nodes. reflexivity. Defined.

(** * The planted-partition generator *)

Lemma allDigits_digits : forall d : Decimal.uint, allDigits (NilEmpty.string_of_uint d) = true.
Proof. induction d; simpl; try assumption; reflexivity. Qed.

Lemma allDigits_toString : forall n, allDigits (toString n) = true.
Proof. intros n. apply allDigits_digits. Qed.

Lemma digit_not_space : forall c, isDigit c = true -> GraphUtils.isSpace c = false.
Proof.
  intros c D. unfold isDigit in D. unfold GraphUtils.isSpace.
  apply andb_prop in D. destruct D as [L U]. apply Nat.leb_le in L, U.
  destruct (Nat.leb_spec 9 (nat_of_ascii c)); destruct (Nat.leb_spec (nat_of_ascii c) 13);
    destruct (Nat.eqb_spec (nat_of_ascii c) 32); destruct (Nat.eqb_spec (nat_of_ascii c) 160);
    simpl; try reflexivity; lia.
Qed.

Lemma allDigits_spaceFree : forall s, allDigits s = true -> spaceFree s = true.
Proof.
  induction s as [|c s IH]; intros D; [reflexivity|].
  simpl in D. apply andb_prop in D. destruct D as [Dc Ds].
  simpl. rewrite (digit_not_space c Dc), IH by assumption. reflexivity.
Qed.

Lemma spaceFree_app : forall a b,
  spaceFree a = true -> spaceFree b = true -> spaceFree (a ++ b) = true.
Proof.
  induction a as [|c a IH]; intros b Fa Fb; [assumption|].
  simpl in *. apply andb_prop in Fa. destruct Fa as [Fc Fa].
  rewrite Fc, IH by assumption. reflexivity.
Qed.

(** Digits before an underscore: the two parts of a name are read off
    it. *)
Lemma digits_underscore_inj : forall a a' r r',
  allDigits a = true -> allDigits a' = true ->
  (a ++ String "_" r)%string = (a' ++ String "_" r')%string -> a = a' /\ r = r'.
Proof.
  induction a as [|c a IH]; intros [|c' a'] r r' D D' E; simpl in *.
  - injection E as ->. auto.
  - injection E as <- _. apply andb_prop in D'. destruct D' as [X _]. discriminate X.
  - injection E as -> _. apply andb_prop in D. destruct D as [X _]. discriminate X.
  - injection E as <- E. apply andb_prop in D, D'. destruct D as [_ D], D' as [_ D'].
    destruct (IH a' r r' D D' E) as [-> ->]. auto.
Qed.

Lemma nodeName_inj : forall c i c' i',
  GNBenchmark.nodeName c i = GNBenchmark.nodeName c' i' -> c = c' /\ i = i'.
Proof.
  intros c i c' i' E. unfold GNBenchmark.nodeName in E. simpl in E. injection E as E.
  apply digits_underscore_inj in E; try apply allDigits_toString.
  destruct E as [Ec Ei]. injection Ei as Ei.
  split; apply toString_inj; assumption.
Qed.

Lemma nodeName_token : forall c i, token (GNBenchmark.nodeName c i) = true.
Proof.
  intros c i. unfold token, GNBenchmark.nodeName. simpl.
  apply spaceFree_app; [apply allDigits_spaceFree, allDigits_toString|].
  simpl. apply allDigits_spaceFree, allDigits_toString.
Qed.

Lemma planted_In : forall p a,
  In a (GNBenchmark.planted p)
  <-> exists c i, c < GNBenchmark.numCommunities p /\ i < GNBenchmark.nodesPerCommunity p
                  /\ a = mkAssignment (GNBenchmark.nodeName c i) c.
Proof.
  intros p a. unfold GNBenchmark.planted. rewrite in_flat_map. split.
  - intros [c [Hc Ha]]. apply in_map_iff in Ha. destruct Ha as [i [<- Hi]].
    apply in_seq in Hc, Hi. exists c, i. repeat split; lia.
  - intros [c [i [Hc [Hi ->]]]]. exists c. split; [apply in_seq; lia|].
    apply in_map_iff. exists i. split; [reflexivity | apply in_seq; lia].
Qed.

Lemma planted_NoDup : forall p, NoDup (map node (GNBenchmark.planted p)).
Proof.
  intros p. unfold GNBenchmark.planted.
  assert (A : forall cs, NoDup cs ->
            NoDup (map node (flat_map (fun c => map (fun i => mkAssignment (GNBenchmark.nodeName c i) c)
                                                    (seq 0 (GNBenchmark.nodesPerCommunity p))) cs))).
  { induction cs as [|c cs IH]; intros N; simpl; [constructor|].
    inversion N as [|? ? Hc Ncs]; subst. rewrite map_app. apply NoDup_append.
    - rewrite map_map. cbn [node]. apply Finite.Injective_map_NoDup; [|apply seq_NoDup].
      intros i j E. apply nodeName_inj in E. tauto.
    - apply IH. assumption.
    - intros x I1 I2. rewrite map_map in I1. cbn [node] in I1.
      apply in_map_iff in I1. destruct I1 as [i [<- _]].
      apply in_map_iff in I2. destruct I2 as [a [Ea Ha]].
      apply in_flat_map in Ha. destruct Ha as [c' [Hc' Ha]].
      apply in_map_iff in Ha. destruct Ha as [j [<- _]]. cbn [node] in Ea.
      apply nodeName_inj in Ea. destruct Ea as [-> _]. contradiction. }
  apply A. apply seq_NoDup.
Qed.

Lemma planted_length : forall p,
  length (GNBenchmark.planted p)
  = GNBenchmark.numCommunities p * GNBenchmark.nodesPerCommunity p.
Proof.
  intros p. unfold GNBenchmark.planted.
  assert (A : forall cs,
            length (flat_map (fun c => map (fun i => mkAssignment (GNBenchmark.nodeName c i) c)
                                           (seq 0 (GNBenchmark.nodesPerCommunity p))) cs)
            = length cs * GNBenchmark.nodesPerCommunity p).
  { induction cs as [|c cs IH]; simpl; [reflexivity|].
    rewrite length_app, length_map, length_seq, IH. reflexivity. }
  rewrite A, length_seq. reflexivity.
Qed.

Lemma find_unique : forall (groundTruth : list CommunityAssignment) a,
  NoDup (map node groundTruth) -> In a groundTruth ->
  find (fun gt => String.eqb (node gt) (node a)) groundTruth = Some a.
Proof.
  induction groundTruth as [|b l IH]; intros a N I; [destruct I|].
  simpl in N. inversion N as [|? ? Hb Nl]; subst. simpl.
  destruct (String.eqb_spec (node b) (node a)) as [E|Ne].
  - destruct I as [->|I]; [reflexivity|]. exfalso. apply Hb. rewrite E. apply in_map. assumption.
  - destruct I as [->|I]; [congruence|]. apply IH; assumption.
Qed.

Lemma communityOf_planted : forall p c i,
  c < GNBenchmark.numCommunities p -> i < GNBenchmark.nodesPerCommunity p ->
  GNBenchmark.communityOf (GNBenchmark.planted p) (GNBenchmark.nodeName c i) = Normal c.
Proof.
  intros p c i Hc Hi. unfold GNBenchmark.communityOf.
  assert (I : In (mkAssignment (GNBenchmark.nodeName c i) c) (GNBenchmark.planted p)).
  { apply planted_In. exists c, i. auto. }
  assert (F := find_unique _ _ (planted_NoDup p) I). cbn [node] in F.
  rewrite F. reflexivity.
Qed.

Lemma planted_names : forall p x,
  In x (map node (GNBenchmark.planted p)) ->
  exists c i, c < GNBenchmark.numCommunities p /\ i < GNBenchmark.nodesPerCommunity p
              /\ x = GNBenchmark.nodeName c i.
Proof.
  intros p x I. apply in_map_iff in I. destruct I as [a [<- Ha]].
  apply planted_In in Ha. destruct Ha as [c [i [Hc [Hi ->]]]]. exists c, i. auto.
Qed.

(** The loop over the pairs: it ends, makes one draw for each pair,
    and the links it adds are pairs it met, each at most once. *)
Lemma tryLinks_from : forall Math_random p pairs links0 k,
  (forall uv, In uv pairs ->
     In (fst uv) (map node (GNBenchmark.planted p))
     /\ In (snd uv) (map node (GNBenchmark.planted p))) ->
  exists chosen,
    foldM (GNBenchmark.tryLink Math_random p (GNBenchmark.planted p)) pairs (links0, k)
    = Normal (links0 ++ map linkOfPair chosen, k + length pairs)
    /\ (forall uv, In uv chosen -> In uv pairs)
    /\ (NoDup pairs -> NoDup chosen)
    /\ (forall c i c' i',
          In (GNBenchmark.nodeName c i, GNBenchmark.nodeName c' i') pairs ->
          c < GNBenchmark.numCommunities p -> i < GNBenchmark.nodesPerCommunity p ->
          c' < GNBenchmark.numCommunities p -> i' < GNBenchmark.nodesPerCommunity p ->
          (In (GNBenchmark.nodeName c i, GNBenchmark.nodeName c' i') chosen ->
           exists j, k <= j /\
             (Math_random j < if c =? c' then GNBenchmark.p_in p else GNBenchmark.p_out p)%Q)
          /\ ((forall j, k <= j ->
                 (Math_random j < if c =? c' then GNBenchmark.p_in p else GNBenchmark.p_out p)%Q) ->
              In (GNBenchmark.nodeName c i, GNBenchmark.nodeName c' i') chosen)).
Proof.
  intros Math_random p pairs. induction pairs as [|[u v] pairs IH]; intros links0 k K.
  - exists []. simpl. rewrite app_nil_r, Nat.add_0_r.
    split; [reflexivity|]. split; [intros uv []|]. split; [intros; constructor|].
    intros c i c' i' [].
  - destruct (K (u, v) (or_introl eq_refl)) as [Hu Hv]. cbn [fst snd] in Hu, Hv.
    destruct (planted_names p u Hu) as [cu [iu [Hcu [Hiu ->]]]].
    destruct (planted_names p v Hv) as [cv [iv [Hcv [Hiv ->]]]].
    cbn [foldM]. unfold GNBenchmark.tryLink at 1. cbn [fst snd].
    rewrite !communityOf_planted by assumption. cbn [bind].
    assert (K' : forall uv, In uv pairs ->
              In (fst uv) (map node (GNBenchmark.planted p))
              /\ In (snd uv) (map node (GNBenchmark.planted p))).
    { intros uv I. apply K. right. assumption. }
    destruct (Qlt_le_dec (Math_random k)
                (if cu =? cv then GNBenchmark.p_in p else GNBenchmark.p_out p)) as [Lt|Ge];
      cbn [bind].
    + destruct (IH (links0 ++ [mkLink (GNBenchmark.nodeName cu iu) (GNBenchmark.nodeName cv iv)])
                   (S k) K') as [chosen [E [Sub [Nd Ch]]]].
      exists ((GNBenchmark.nodeName cu iu, GNBenchmark.nodeName cv iv) :: chosen).
      rewrite E. split; [|split; [|split]].
      * cbn [map length]. unfold linkOfPair at 2. cbn [fst snd].
        rewrite <- app_assoc. f_equal. f_equal. lia.
      * intros uv [<-|I]; [left; reflexivity | right; apply Sub; assumption].
      * intros N. inversion N as [|? ? Hn N']; subst. constructor; [|apply Nd; assumption].
        intros I. apply Hn. apply Sub. assumption.
      * intros c i c' i' I Hc Hi Hc' Hi'. split.
        -- intros [Eq|Ic].
           ++ assert (E1 := f_equal fst Eq). assert (E2 := f_equal snd Eq).
              cbn [fst snd] in E1, E2. apply nodeName_inj in E1, E2.
              destruct E1 as [-> ->], E2 as [-> ->]. exists k. split; [lia | assumption].
           ++ assert (Ip : In (GNBenchmark.nodeName c i, GNBenchmark.nodeName c' i') pairs)
                by (apply Sub; assumption).
              destruct (Ch c i c' i' Ip Hc Hi Hc' Hi') as [F _].
              destruct (F Ic) as [j [Hj Lj]]. exists j. split; [lia | assumption].
        -- intros All. destruct I as [Eq|Ip]; [left; assumption|]. right.
           destruct (Ch c i c' i' Ip Hc Hi Hc' Hi') as [_ B]. apply B.
           intros j Hj. apply All. lia.
    + destruct (IH links0 (S k) K') as [chosen [E [Sub [Nd Ch]]]].
      exists chosen. rewrite E. split; [|split; [|split]].
      * cbn [length]. f_equal. f_equal. lia.
      * intros uv I. right. apply Sub. assumption.
      * intros N. inversion N as [|? ? Hn N']; subst. apply Nd. assumption.
      * intros c i c' i' I Hc Hi Hc' Hi'. split.
        -- intros Ic.
           assert (Ip : In (GNBenchmark.nodeName c i, GNBenchmark.nodeName c' i') pairs)
             by (apply Sub; assumption).
           destruct (Ch c i c' i' Ip Hc Hi Hc' Hi') as [F _].
           destruct (F Ic) as [j [Hj Lj]]. exists j. split; [lia | assumption].
        -- intros All. destruct I as [Eq|Ip].
           ++ assert (E1 := f_equal fst Eq). assert (E2 := f_equal snd Eq).
              cbn [fst snd] in E1, E2. apply nodeName_inj in E1, E2.
              destruct E1 as [-> ->], E2 as [-> ->]. exfalso.
              apply (Qlt_irrefl (Math_random k)).
              apply Qlt_le_trans with (if c =? c' then GNBenchmark.p_in p else GNBenchmark.p_out p);
                [apply All; lia | assumption].
           ++ destruct (Ch c i c' i' Ip Hc Hi Hc' Hi') as [_ B]. apply B.
              intros j Hj. apply All. lia.
Qed.

Lemma indexPairs_app : forall l1 l2 u v,
  In (u, v) (LinkPrediction.indexPairs l1)
  \/ In (u, v) (LinkPrediction.indexPairs l2)
  \/ (In u l1 /\ In v l2) ->
  In (u, v) (LinkPrediction.indexPairs (l1 ++ l2)).
Proof.
  induction l1 as [|a l1 IH]; intros l2 u v H.
  - destruct H as [[]|[H|[[] _]]]. exact H.
  - cbn [app LinkPrediction.indexPairs]. apply in_or_app.
    destruct H as [H|[H|[[->|Hu] Hv]]].
    + cbn [LinkPrediction.indexPairs] in H. apply in_app_or in H. destruct H as [H|H].
      * left. apply in_map_iff in H. destruct H as [y [E Hy]].
        apply in_map_iff. exists y. split; [assumption | apply in_or_app; left; assumption].
      * right. apply IH. left. assumption.
    + right. apply IH. right. left. assumption.
    + left. apply in_map. apply in_or_app. right. assumption.
    + right. apply IH. right. right. split; assumption.
Qed.

Lemma indexPairs_block : forall (f : nat -> string) n s i j,
  s <= i -> i < j -> j < s + n ->
  In (f i, f j) (LinkPrediction.indexPairs (map f (seq s n))).
Proof.
  induction n as [|n IH]; intros s i j Hs Hij Hj; [lia|].
  cbn [seq map LinkPrediction.indexPairs]. apply in_or_app.
  destruct (Nat.eq_dec i s) as [->|Ne].
  - left. apply in_map. apply in_map. apply in_seq. lia.
  - right. apply IH; lia.
Qed.

Lemma planted_pairs : forall p c i j,
  c < GNBenchmark.numCommunities p -> i < j -> j < GNBenchmark.nodesPerCommunity p ->
  In (GNBenchmark.nodeName c i, GNBenchmark.nodeName c j)
     (LinkPrediction.indexPairs (map node (GNBenchmark.planted p))).
Proof.
  intros p c i j Hc Hij Hj. unfold GNBenchmark.planted.
  assert (Ic : In c (seq 0 (GNBenchmark.numCommunities p))) by (apply in_seq; lia).
  induction (seq 0 (GNBenchmark.numCommunities p)) as [|c0 cs IH]; [destruct Ic|].
  cbn [flat_map]. rewrite map_app. apply indexPairs_app.
  destruct Ic as [->|Ic].
  - left. rewrite map_map. cbn [node].
    apply (indexPairs_block (GNBenchmark.nodeName c)); lia.
  - right. left. apply IH. assumption.
Qed.

Lemma linkOfPair_inj : forall a b, linkOfPair a = linkOfPair b -> a = b.
Proof.
  intros [u v] [u' v'] E. unfold linkOfPair in E. cbn [fst snd] in E. congruence.
Qed.

(** One run of the generator: it ends, with the planted partition as
    ground truth and links chosen among the pairs of nodes. *)
Lemma generateGNNetwork_run : forall Math_random p,
  exists chosen,
    GNBenchmark.generateGNNetwork Math_random p
    = Normal (Generators.mkGeneration
                (mkGraphData (map mkNode (map node (GNBenchmark.planted p)))
                             (map linkOfPair chosen))
                (GNBenchmark.planted p)
                (GraphUtils.edgeListOf (map linkOfPair chosen)))
    /\ (forall uv, In uv chosen ->
          In uv (LinkPrediction.indexPairs (map node (GNBenchmark.planted p))))
    /\ NoDup chosen
    /\ (forall c i c' i',
          In (GNBenchmark.nodeName c i, GNBenchmark.nodeName c' i')
             (LinkPrediction.indexPairs (map node (GNBenchmark.planted p))) ->
          c < GNBenchmark.numCommunities p -> i < GNBenchmark.nodesPerCommunity p ->
          c' < GNBenchmark.numCommunities p -> i' < GNBenchmark.nodesPerCommunity p ->
          (In (GNBenchmark.nodeName c i, GNBenchmark.nodeName c' i') chosen ->
           exists j, 0 <= j /\
             (Math_random j < if c =? c' then GNBenchmark.p_in p else GNBenchmark.p_out p)%Q)
          /\ ((forall j, 0 <= j ->
                 (Math_random j < if c =? c' then GNBenchmark.p_in p else GNBenchmark.p_out p)%Q) ->
              In (GNBenchmark.nodeName c i, GNBenchmark.nodeName c' i') chosen)).
Proof.
  intros Math_random p.
  destruct (tryLinks_from Math_random p
              (LinkPrediction.indexPairs (map node (GNBenchmark.planted p))) [] 0)
    as [chosen [E [Sub [Nd Ch]]]].
  { intros [u v] I. apply indexPairs_before in I. apply before_In in I. exact I. }
  exists chosen. split; [|split; [exact Sub|split; [|exact Ch]]].
  - unfold GNBenchmark.generateGNNetwork. rewrite E. reflexivity.
  - apply Nd. apply indexPairs_NoDup. apply planted_NoDup.
Qed.

(** X22.  The planted-partition generator always returns: one node
    for each pair of a community and a rank, with pairwise distinct
    identifiers; the ground truth lists the nodes in order, each with the
    community of its name; every link joins a node to a later one, and no
    link is generated twice. *)
Theorem gn_benchmark_network : forall Math_random p,
  exists r,
    GNBenchmark.generateGNNetwork Math_random p = Normal r
    /\ length (nodes (Generators.graphData r))
       = GNBenchmark.numCommunities p * GNBenchmark.nodesPerCommunity p
    /\ NoDup (map id (nodes (Generators.graphData r)))
    /\ map node (Generators.groundTruth r) = map id (nodes (Generators.graphData r))
    /\ (forall a, In a (Generators.groundTruth r) <->
          exists i, community a < GNBenchmark.numCommunities p
                    /\ i < GNBenchmark.nodesPerCommunity p
                    /\ node a = GNBenchmark.nodeName (community a) i)
    /\ (forall l, In l (links (Generators.graphData r)) ->
          before (map id (nodes (Generators.graphData r))) (source l) (target l))
    /\ NoDup (links (Generators.graphData r)).
Proof.
  intros Math_random p.
  destruct (generateGNNetwork_run Math_random p) as [chosen [E [Sub [Nd _]]]].
  eexists. split; [exact E|].
  cbn [Generators.graphData Generators.groundTruth nodes links].
  assert (Ids : map id (map mkNode (map node (GNBenchmark.planted p)))
                = map node (GNBenchmark.planted p)).
  { rewrite map_map. cbn [id]. apply map_id. }
  rewrite Ids. split; [|split; [|split; [|split; [|split]]]].
  - rewrite !length_map. apply planted_length.
  - apply planted_NoDup.
  - reflexivity.
  - intros a. rewrite planted_In. split.
    + intros [c [i [Hc [Hi ->]]]]. exists i. cbn [node community]. auto.
    + intros [i [Hc [Hi Ea]]]. exists (community a), i. split; [assumption|].
      split; [assumption|]. destruct a as [x c]. cbn [node community] in *. congruence.
  - intros l I. apply in_map_iff in I. destruct I as [[u v] [<- I]].
    unfold linkOfPair. cbn [fst snd source target]. apply indexPairs_before. apply Sub. assumption.
  - apply Finite.Injective_map_NoDup; [|assumption].
    intros a b. apply linkOfPair_inj.
Qed.

(** X23.  With draws in [0, 1): when [p_out] is not positive every
    link of the planted-partition generator joins two nodes of one
    community, and when [p_in] is at least one every two nodes of one
    community are linked. *)
Theorem gn_benchmark_extremes : forall Math_random p r,
  (forall k, (0 <= Math_random k)%Q /\ (Math_random k < 1)%Q) ->
  GNBenchmark.generateGNNetwork Math_random p = Normal r ->
  ((GNBenchmark.p_out p <= 0)%Q ->
     forall l, In l (links (Generators.graphData r)) ->
       exists c i j, source l = GNBenchmark.nodeName c i
                     /\ target l = GNBenchmark.nodeName c j)
  /\ ((1 <= GNBenchmark.p_in p)%Q ->
      forall c i j,
        c < GNBenchmark.numCommunities p -> i < j -> j < GNBenchmark.nodesPerCommunity p ->
        In (mkLink (GNBenchmark.nodeName c i) (GNBenchmark.nodeName c j))
           (links (Generators.graphData r))).
Proof.
  intros Math_random p r Rand Run.
  destruct (generateGNNetwork_run Math_random p) as [chosen [E [Sub [_ Ch]]]].
  rewrite E in Run. injection Run as <-. cbn [Generators.graphData links]. split.
  - intros Pout l I. apply in_map_iff in I. destruct I as [[u v] [<- I]].
    unfold linkOfPair. cbn [fst snd source target].
    assert (Ip := Sub _ I). assert (B := Ip). apply indexPairs_before in B.
    apply before_In in B. destruct B as [Hu Hv].
    destruct (planted_names p u Hu) as [cu [iu [Hcu [Hiu ->]]]].
    destruct (planted_names p v Hv) as [cv [iv [Hcv [Hiv ->]]]].
    destruct (Ch cu iu cv iv Ip Hcu Hiu Hcv Hiv) as [F _].
    destruct (F I) as [j [_ Lj]].
    destruct (Nat.eqb_spec cu cv) as [->|Ne].
    + exists cv, iu, iv. auto.
    + exfalso. apply (Qlt_irrefl (Math_random j)).
      apply Qlt_le_trans with (GNBenchmark.p_out p); [assumption|].
      apply Qle_trans with 0%Q; [assumption | apply Rand].
  - intros Pin c i j Hc Hij Hj.
    apply in_map_iff. exists (GNBenchmark.nodeName c i, GNBenchmark.nodeName c j).
    split; [reflexivity|].
    assert (Ip := planted_pairs p c i j Hc Hij Hj).
    destruct (Ch c i c j Ip Hc ltac:(lia) Hc Hj) as [_ B]. apply B.
    intros k _. rewrite Nat.eqb_refl.
    apply Qlt_le_trans with 1%Q; [apply Rand | assumption].
Qed.

Lemma gn_benchmark_extremes_witness :
  ((0 <= 0)%Q ->
     forall l,
       In l [mkLink "c0_n0" "c0_n1"; mkLink "c1_n0" "c1_n1"] ->
       exists c i j, source l = GNBenchmark.nodeName c i
                     /\ target l = GNBenchmark.nodeName c j)
  /\ ((1 <= 1)%Q ->
      forall c i j, c < 2 -> i < j -> j < 2 ->
        In (mkLink (GNBenchmark.nodeName c i) (GNBenchmark.nodeName c j))
           [mkLink "c0_n0" "c0_n1"; mkLink "c1_n0" "c1_n1"]).
Proof.
  apply (gn_benchmark_extremes (fun _ => 1 # 2) (GNBenchmark.mkGNParams 2 2 1 0)
           (Generators.mkGeneration
              (mkGraphData [mkNode "c0_n0"; mkNode "c0_n1"; mkNode "c1_n0"; mkNode "c1_n1"]
                           [mkLink "c0_n0" "c0_n1"; mkLink "c1_n0" "c1_n1"])
              [mkAssignment "c0_n0" 0; mkAssignment "c0_n1" 0;
               mkAssignment "c1_n0" 1; mkAssignment "c1_n1" 1]
              (GraphUtils.edgeListOf [mkLink "c0_n0" "c0_n1"; mkLink "c1_n0" "c1_n1"]))).
  - intros k. split; [discriminate | reflexivity].
  - vm_compute. reflexivity.
Defined.

(** X24.  The edge list text the planted-partition generator returns
    reads back, through the parser, as the generated links in the same
    order; the nodes read are generated nodes. *)
Theorem gn_benchmark_edge_list : forall Math_random p,
  exists r,
    GNBenchmark.generateGNNetwork Math_random p = Normal r
    /\ links (GraphUtils.parseEdgeList (Generators.edgeList r))
       = links (Generators.graphData r)
    /\ (forall n, In n (nodes (GraphUtils.parseEdgeList (Generators.edgeList r))) ->
          In n (nodes (Generators.graphData r))).
Proof.
  intros Math_random p.
  destruct (generateGNNetwork_run Math_random p) as [chosen [E [Sub _]]].
  eexists. split; [exact E|].
  cbn [Generators.graphData Generators.edgeList nodes links].
  assert (Ends : forall uv, In uv chosen ->
            In (fst uv) (map node (GNBenchmark.planted p))
            /\ In (snd uv) (map node (GNBenchmark.planted p))).
  { intros [u v] I. apply Sub in I. apply indexPairs_before in I. apply before_In in I. exact I. }
  rewrite edgeList_reads_back.
  - cbn [links nodes]. split; [reflexivity|].
    intros n I. apply in_map_iff in I. destruct I as [x [<- Hx]].
    apply in_map. apply (proj1 (set_of_list_In _ _)) in Hx.
    unfold endsOf in Hx. apply in_flat_map in Hx. destruct Hx as [l [Hl Hx]].
    apply in_map_iff in Hl. destruct Hl as [uv [<- Huv]].
    destruct (Ends uv Huv) as [Hu Hv].
    unfold linkOfPair in Hx. cbn [source target] in Hx.
    destruct Hx as [<-|[<-|[]]]; assumption.
  - apply Forall_forall. intros l Hl. apply in_map_iff in Hl. destruct Hl as [uv [<- Huv]].
    destruct (Ends uv Huv) as [Hu Hv].
    destruct (planted_names p _ Hu) as [cu [iu [_ [_ Eu]]]].
    destruct (planted_names p _ Hv) as [cv [iv [_ [_ Ev]]]].
    unfold linkOfPair. cbn [source target]. rewrite Eu, Ev. split; apply nodeName_token.
Qed.

(** * HITS: the scores returned *)

Lemma sumOver_nonneg : forall (scores : JsMap.t string Q) neighbors,
  (forall e, In e scores -> (0 <= snd e)%Q) ->
  (0 <= Centrality.sumOver scores neighbors)%Q.
Proof.
  intros scores neighbors P. unfold Centrality.sumOver. apply fold_nonneg; [|apply Qle_refl].
  intros a x A. assert (R := rankOf_nonneg scores x P). lra.
Qed.

Lemma update_scores : forall table ids from scores,
  (forall e, In e from -> (0 <= snd e)%Q) ->
  (forall x, In x ids -> In x (JsMap.keys scores)) ->
  scoresOver (JsMap.keys scores) scores ->
  scoresOver (JsMap.keys scores) (fst (Centrality.update table ids from scores))
  /\ (0 <= snd (Centrality.update table ids from scores))%Q.
Proof.
  intros table ids from scores F K S. unfold Centrality.update.
  assert (A : forall l (st : JsMap.t string Q * Q),
            (forall x, In x l -> In x (JsMap.keys scores)) ->
            scoresOver (JsMap.keys scores) (fst st) -> (0 <= snd st)%Q ->
            scoresOver (JsMap.keys scores)
              (fst (fold_left (fun (st : JsMap.t string Q * Q) n =>
                      let s := Centrality.sumOver from
                                 (match JsMap.get table n with Some l => l | None => [] end) in
                      (JsMap.set (fst st) n s, (snd st + s * s)%Q)) l st))
            /\ (0 <= snd (fold_left (fun (st : JsMap.t string Q * Q) n =>
                      let s := Centrality.sumOver from
                                 (match JsMap.get table n with Some l => l | None => [] end) in
                      (JsMap.set (fst st) n s, (snd st + s * s)%Q)) l st))%Q).
  { induction l as [|n l IH]; intros st Kl [Ks Ps] Pa; cbn [fold_left].
    - split; [split|]; assumption.
    - apply IH; [intros x I; apply Kl; right; assumption | |]; cbn [fst snd].
      + split.
        * rewrite map_keys_set_known; [assumption|]. rewrite Ks. apply Kl. left. reflexivity.
        * intros e I. apply map_set_entries in I. destruct I as [->|I]; [|apply Ps; assumption].
          cbn [snd]. apply sumOver_nonneg. assumption.
      + assert (N := sumOver_nonneg from
                       (match JsMap.get table n with Some l => l | None => [] end) F).
        assert (M := Qmult_le_0_compat _ _ N N). lra. }
  apply A; [assumption | assumption | apply Qle_refl].
Qed.

Lemma norm_positive : forall Math_sqrt sumSq,
  (forall x, (0 <= x)%Q -> (0 <= Math_sqrt x)%Q) -> (0 <= sumSq)%Q ->
  (0 < Centrality.norm Math_sqrt sumSq)%Q.
Proof.
  intros Math_sqrt sumSq R P. unfold Centrality.norm.
  destruct (Qeq_bool (Math_sqrt sumSq) 0) eqn:E; [reflexivity|].
  apply Qeq_bool_neq in E. destruct (Qle_lt_or_eq _ _ (R sumSq P)) as [L|Z]; [assumption|].
  exfalso. apply E. symmetry. assumption.
Qed.

Lemma normalizeScores_over : forall ids scores divisor,
  (0 < divisor)%Q -> scoresOver ids scores ->
  scoresOver ids (Centrality.normalizeScores scores divisor).
Proof.
  intros ids scores divisor D [K P]. unfold Centrality.normalizeScores. split.
  - unfold JsMap.keys in *. rewrite map_map. cbn [fst]. assumption.
  - intros e I. apply in_map_iff in I. destruct I as [e0 [<- I]]. cbn [snd].
    unfold Qdiv. apply Qmult_le_0_compat; [apply P; assumption|].
    apply Qinv_le_0_compat. apply Qlt_le_weak. assumption.
Qed.

Lemma hitsLoop_scores : forall Math_sqrt g ids tolerance k authorityScores hubScores,
  (forall x, (0 <= x)%Q -> (0 <= Math_sqrt x)%Q) ->
  scoresOver ids authorityScores -> scoresOver ids hubScores ->
  scoresOver ids (fst (Centrality.hitsLoop Math_sqrt k g ids tolerance authorityScores hubScores))
  /\ scoresOver ids (snd (Centrality.hitsLoop Math_sqrt k g ids tolerance authorityScores hubScores)).
Proof.
  intros Math_sqrt g ids tolerance k. induction k as [|k IH]; intros a h R A H;
    cbn [Centrality.hitsLoop]; [split; assumption|].
  assert (Ka : JsMap.keys a = ids) by apply A.
  assert (Kh : JsMap.keys h = ids) by apply H.
  destruct (update_scores (Centrality.revAdj g) ids h a) as [A1 S1].
  { apply H. } { intros x I. rewrite Ka. assumption. } { rewrite Ka. assumption. }
  destruct (Centrality.update (Centrality.revAdj g) ids h a) as [auth1 authSumSq].
  cbn [fst snd] in A1, S1. rewrite Ka in A1.
  assert (A2 := normalizeScores_over ids auth1 _ (norm_positive Math_sqrt authSumSq R S1) A1).
  destruct (update_scores (Centrality.adj g) ids
              (Centrality.normalizeScores auth1 (Centrality.norm Math_sqrt authSumSq)) h)
    as [H1 S2].
  { apply A2. } { intros x I. rewrite Kh. assumption. } { rewrite Kh. assumption. }
  destruct (Centrality.update (Centrality.adj g) ids
              (Centrality.normalizeScores auth1 (Centrality.norm Math_sqrt authSumSq)) h)
    as [hub1 hubSumSq].
  cbn [fst snd] in H1, S2. rewrite Kh in H1.
  assert (H2 := normalizeScores_over ids hub1 _ (norm_positive Math_sqrt hubSumSq R S2) H1).
  destruct (Qlt_le_dec _ tolerance); [split; assumption|].
  apply IH; assumption.
Qed.

(** X27.  For pairwise distinct node identifiers and a square root that
    is not negative on numbers that are not negative, HITS returns one
    authority score and one hub score for each node, in node order, and
    no score is negative. *)
Theorem hits_scores : forall Math_sqrt graphData isDirected,
  (forall x, (0 <= x)%Q -> (0 <= Math_sqrt x)%Q) ->
  NoDup (map id (nodes graphData)) ->
  exists authority hub,
    Centrality.calculateHITS Math_sqrt graphData isDirected = Centrality.Hits authority hub
    /\ map Centrality.nodeId authority = map id (nodes graphData)
    /\ map Centrality.nodeId hub = map id (nodes graphData)
    /\ Forall (fun r => (0 <= Centrality.score r)%Q) authority
    /\ Forall (fun r => (0 <= Centrality.score r)%Q) hub.
Proof.
  intros Math_sqrt graphData isDirected R N. unfold Centrality.calculateHITS.
  destruct (Nat.eqb_spec (length (map id (nodes graphData))) 0) as [Z|_].
  { exists [], []. apply length_zero_iff_nil in Z. rewrite Z. repeat split; constructor. }
  assert (Ones : scoresOver (map id (nodes graphData))
                   (fold_left (fun m x => JsMap.set m x 1%Q) (map id (nodes graphData)) [])).
  { split.
    - rewrite map_init_keys; [reflexivity | assumption | constructor | intros x _ []].
    - intros [x r] I. cbn [snd]. apply map_In_get in I.
      + rewrite (map_init_get (fun _ => 1%Q)) in I.
        destruct (in_dec eq_dec x (map id (nodes graphData))); [|discriminate I].
        injection I as <-. discriminate.
      + rewrite map_init_keys; [exact N | assumption | constructor | intros y _ []]. }
  destruct (hitsLoop_scores Math_sqrt
              (Centrality.buildGraphRepresentation graphData isDirected)
              (map id (nodes graphData)) (1 # 1000000) 100 _ _ R Ones Ones) as [[Ka Pa] [Kh Ph]].
  destruct (Centrality.hitsLoop Math_sqrt 100
              (Centrality.buildGraphRepresentation graphData isDirected)
              (map id (nodes graphData)) (1 # 1000000) _ _) as [authorityScores hubScores].
  cbn [fst snd] in Ka, Pa, Kh, Ph.
  eexists. eexists. split; [reflexivity|].
  rewrite !map_map. cbn [Centrality.nodeId].
  split; [exact Ka|]. split; [exact Kh|].
  split; apply Forall_forall; intros r I; apply in_map_iff in I;
    destruct I as [e [<- I]]; cbn [Centrality.score]; auto.
Qed.

Lemma hits_scores_witness :
  exists authority hub,
    Centrality.calculateHITS (fun x => x) path3 false = Centrality.Hits authority hub
    /\ map Centrality.nodeId authority = map id (nodes path3)
    /\ map Centrality.nodeId hub = map id (nodes path3)
    /\ Forall (fun r => (0 <= Centrality.score r)%Q) authority
    /\ Forall (fun r => (0 <= Centrality.score r)%Q) hub.
Proof.
  apply (hits_scores (fun x => x) path3 false).
  - intros x P. exact P.
  - repeat constructor; simpl; intuition discriminate.
Defined.

(** * The LFR generator: the network is a simple graph *)

Lemma lfr_nodeName_barFree : forall k, barFree (Generators.nodeName k).
Proof.
  intros k. unfold Generators.nodeName. simpl. apply barFree_cons.
  split; [discriminate | apply barFree_toString].
Qed.

Lemma lfr_nodeName_inj : forall a b, Generators.nodeName a = Generators.nodeName b -> a = b.
Proof.
  intros a b E. unfold Generators.nodeName in E. simpl in E. injection E as E.
  apply toString_inj. assumption.
Qed.

Lemma lfr_nodeName_token : forall k, token (Generators.nodeName k) = true.
Proof.
  intros k. unfold token, Generators.nodeName. simpl.
  apply allDigits_spaceFree, allDigits_toString.
Qed.

Lemma assignNodes_concat : forall sizes c,
  exists m, concat (Generators.assignNodes sizes c) = map Generators.nodeName (seq c m).
Proof.
  induction sizes as [|s sizes IH]; intros c; cbn [Generators.assignNodes concat].
  - exists 0. reflexivity.
  - destruct (IH (c + Z.to_nat s)) as [m E]. exists (Z.to_nat s + m).
    rewrite E, seq_app, map_app. reflexivity.
Qed.

Lemma truthOf_nodes : forall communities,
  map node (Generators.truthOf communities) = concat communities.
Proof.
  intros communities. unfold Generators.truthOf. generalize 0.
  induction communities as [|c cs IH]; intros s; cbn [length seq combine map concat];
    [reflexivity|].
  rewrite map_app, IH, map_map. cbn [node snd fst]. rewrite map_id. reflexivity.
Qed.

Lemma addLink_simple : forall ids keys u v,
  (forall x, In x ids -> barFree x) -> In u ids -> In v ids ->
  simpleKeys ids keys -> simpleKeys ids (Generators.addLink keys u v).
Proof.
  intros ids keys u v Bar Hu Hv [Nd S]. unfold Generators.addLink.
  destruct (String.eqb_spec u v) as [E|Ne]; [split; assumption|].
  destruct (JsSet.has keys (pairKey u v)) eqn:H1; cbn [negb andb]; [split; assumption|].
  destruct (JsSet.has keys (pairKey v u)) eqn:H2; cbn [negb andb]; [split; assumption|].
  apply set_has_false in H1, H2.
  unfold JsSet.add. rewrite (proj2 (set_has_false keys (pairKey u v)) H1).
  split.
  - apply NoDup_append; [assumption | repeat constructor; intros [] |].
    intros x I1 [<-|[]]. contradiction.
  - intros key I. apply in_app_or in I. destruct I as [I|[<-|[]]].
    + destruct (S key I) as [a [b [-> [Ha [Hb [Nab Rev]]]]]].
      exists a, b. repeat split; try assumption.
      intros J. apply in_app_or in J. destruct J as [J|[J|[]]]; [contradiction|].
      apply pairKey_inj in J; try (apply Bar; assumption).
      destruct J as [-> ->]. contradiction.
    + exists u, v. repeat split; try assumption.
      intros J. apply in_app_or in J. destruct J as [J|[J|[]]]; [contradiction|].
      apply pairKey_inj in J; try (apply Bar; assumption).
      destruct J as [-> _]. congruence.
Qed.

Lemma pairUp_simple : forall ids n stubs keys,
  length stubs <= n ->
  (forall x, In x ids -> barFree x) -> (forall x, In x stubs -> In x ids) ->
  simpleKeys ids keys -> simpleKeys ids (Generators.pairUp keys stubs).
Proof.
  intros ids n. induction n as [|n IH]; intros stubs keys L Bar Sub S.
  - destruct stubs; [exact S | simpl in L; lia].
  - destruct stubs as [|u [|v rest]]; [exact S | exact S |].
    cbn [Generators.pairUp]. apply IH.
    + simpl in L. lia.
    + assumption.
    + intros x I. apply Sub. right. right. assumption.
    + destruct (String.eqb v ""); [assumption|].
      apply addLink_simple; try assumption; apply Sub; simpl; auto.
Qed.

Lemma copies_In : forall x y c, In x (Generators.copies y c) -> x = y.
Proof. intros x y c I. unfold Generators.copies in I. apply repeat_spec in I. assumption. Qed.

Lemma shuffle_members : forall Math_random (l : list string) k x,
  In x (fst (Generators.shuffle Math_random l k)) -> In x l.
Proof.
  intros Math_random l k x I. unfold Generators.shuffle in I.
  apply (Permutation_in x (proj1 (shuffleFrom_perm Math_random (length l - 1) l k))).
  assumption.
Qed.

Lemma connectInternal_simple : forall Math_random ids nodeProperties st communityNodes,
  (forall x, In x ids -> barFree x) -> (forall x, In x communityNodes -> In x ids) ->
  simpleKeys ids (fst st) ->
  simpleKeys ids (fst (Generators.connectInternal Math_random nodeProperties st communityNodes)).
Proof.
  intros Math_random ids nodeProperties st communityNodes Bar Sub S.
  unfold Generators.connectInternal.
  destruct (Generators.shuffle Math_random
              (Generators.internalStubsOf nodeProperties communityNodes) (snd st))
    as [shuffled k'] eqn:Sh.
  cbn [fst]. apply (pairUp_simple ids (length shuffled)); try assumption; [lia|].
  intros x I. apply Sub.
  assert (J : In x (fst (Generators.shuffle Math_random
                           (Generators.internalStubsOf nodeProperties communityNodes) (snd st))))
    by (rewrite Sh; exact I).
  apply shuffle_members in J. unfold Generators.internalStubsOf in J.
  apply in_flat_map in J. destruct J as [y [Hy J]]. apply copies_In in J. subst x. assumption.
Qed.

Lemma connectStubs_simple : forall Math_random nodeProperties communities k,
  (forall x, In x (concat communities) -> barFree x) ->
  simpleKeys (concat communities)
             (Generators.connectStubs Math_random nodeProperties communities k).
Proof.
  intros Math_random nodeProperties communities k Bar. unfold Generators.connectStubs.
  assert (A : forall cs st,
            (forall c, In c cs -> In c communities) ->
            simpleKeys (concat communities) (fst st) ->
            simpleKeys (concat communities)
              (fst (fold_left (Generators.connectInternal Math_random nodeProperties) cs st))).
  { induction cs as [|c cs IH]; intros st Sub S; [exact S|].
    cbn [fold_left]. apply IH; [intros c' I; apply Sub; right; assumption|].
    apply connectInternal_simple; try assumption.
    intros x I. apply in_concat. exists c. split; [apply Sub; left; reflexivity | assumption]. }
  specialize (A communities ([], k) (fun c I => I)).
  destruct (fold_left (Generators.connectInternal Math_random nodeProperties) communities ([], k))
    as [links1 k1].
  destruct (Generators.shuffle Math_random
              (Generators.externalStubsOf nodeProperties communities) k1)
    as [shuffled k2] eqn:Sh.
  apply (pairUp_simple (concat communities) (length shuffled)); try assumption; [lia | |].
  - intros x I.
    assert (J : In x (fst (Generators.shuffle Math_random
                             (Generators.externalStubsOf nodeProperties communities) k1)))
      by (rewrite Sh; exact I).
    apply shuffle_members in J. unfold Generators.externalStubsOf in J.
    apply in_flat_map in J. destruct J as [c [Hc J]].
    apply in_flat_map in J. destruct J as [y [Hy J]]. apply copies_In in J. subst x.
    apply in_concat. exists c. split; assumption.
  - apply A. cbn [fst]. split; [constructor | intros key []].
Qed.

Lemma linkOfKey_pairKey : forall u v,
  barFree u -> barFree v -> Generators.linkOfKey (pairKey u v) = mkLink u v.
Proof.
  intros u v Bu Bv. unfold Generators.linkOfKey. rewrite split_bar_pairKey by assumption.
  reflexivity.
Qed.

(** The links read off a set of keys of a simple graph. *)
Lemma simpleKeys_links : forall ids keys,
  (forall x, In x ids -> barFree x) -> simpleKeys ids keys ->
  (forall l, In l (map Generators.linkOfKey keys) ->
     In (source l) ids /\ In (target l) ids /\ source l <> target l
     /\ ~ In (mkLink (target l) (source l)) (map Generators.linkOfKey keys))
  /\ NoDup (map Generators.linkOfKey keys).
Proof.
  intros ids keys Bar [Nd S].
  assert (Key : forall key, In key keys ->
            exists u v, key = pairKey u v /\ Generators.linkOfKey key = mkLink u v
                        /\ In u ids /\ In v ids /\ u <> v /\ ~ In (pairKey v u) keys).
  { intros key I. destruct (S key I) as [u [v [-> [Hu [Hv [Ne Rev]]]]]].
    exists u, v. rewrite linkOfKey_pairKey by (apply Bar; assumption). auto 10. }
  split.
  - intros l I. apply in_map_iff in I. destruct I as [key [<- I]].
    destruct (Key key I) as [u [v [-> [El [Hu [Hv [Ne Rev]]]]]]].
    rewrite El. cbn [source target]. repeat split; try assumption.
    intros J. apply in_map_iff in J. destruct J as [key' [E' I']].
    destruct (Key key' I') as [a [b [-> [El' [_ [_ _]]]]]].
    rewrite El' in E'. injection E' as -> ->. contradiction.
  - apply NoDup_map_NoDup_ForallPairs; [|assumption].
    intros a b Ia Ib E.
    destruct (Key a Ia) as [u [v [-> [El _]]]].
    destruct (Key b Ib) as [u' [v' [-> [El' _]]]].
    rewrite El, El' in E. injection E as -> ->. reflexivity.
Qed.

(** X25.  With draws in [0, 1), a network the LFR generator returns is
    a simple graph on nodes with pairwise distinct identifiers: the
    ground truth lists the nodes in order, every link joins two
    different generated nodes, no link is listed twice or in both
    directions, and the edge list text reads back, through the parser,
    as the generated links. *)
Theorem lfr_simple_graph : forall Math_random Math_pow fuel p r,
  (forall k, (0 <= Math_random k)%Q /\ (Math_random k < 1)%Q) ->
  Generators.generateLFRNetwork Math_random Math_pow fuel p = Normal r ->
  NoDup (map id (nodes (Generators.graphData r)))
  /\ map node (Generators.groundTruth r) = map id (nodes (Generators.graphData r))
  /\ (forall l, In l (links (Generators.graphData r)) ->
        In (source l) (map id (nodes (Generators.graphData r)))
        /\ In (target l) (map id (nodes (Generators.graphData r)))
        /\ source l <> target l
        /\ ~ In (mkLink (target l) (source l)) (links (Generators.graphData r)))
  /\ NoDup (links (Generators.graphData r))
  /\ links (GraphUtils.parseEdgeList (Generators.edgeList r))
     = links (Generators.graphData r).
Proof.
  intros Math_random Math_pow fuel p r _ Run.
  unfold Generators.generateLFRNetwork in Run.
  apply bind_Normal in Run. destruct Run as [[communities k] [Pl Run]].
  unfold Generators.planted in Pl. apply bind_Normal in Pl.
  destruct Pl as [[sizes k0] [_ Pl]]. injection Pl as <- <-.
  destruct (Generators.degreesFor Math_random Math_pow p (Generators.assignNodes sizes 0) k0)
    as [degrees k1].
  destruct (Generators.stubsFor Math_random p (Generators.assignNodes sizes 0) degrees k1)
    as [nodeProperties k2].
  injection Run as <-. cbn [Generators.graphData Generators.groundTruth Generators.edgeList
                            nodes links].
  assert (Ids : map id (map mkNode (concat (Generators.assignNodes sizes 0)))
                = concat (Generators.assignNodes sizes 0)).
  { rewrite map_map. cbn [id]. apply map_id. }
  rewrite Ids. destruct (assignNodes_concat sizes 0) as [m Em].
  assert (Bar : forall x, In x (concat (Generators.assignNodes sizes 0)) -> barFree x).
  { intros x I. rewrite Em in I. apply in_map_iff in I. destruct I as [j [<- _]].
    apply lfr_nodeName_barFree. }
  assert (S := connectStubs_simple Math_random nodeProperties
                 (Generators.assignNodes sizes 0) k2 Bar).
  destruct (simpleKeys_links _ _ Bar S) as [L N].
  split; [|split; [|split; [|split]]].
  - rewrite Em. apply Finite.Injective_map_NoDup; [|apply seq_NoDup].
    intros a b. apply lfr_nodeName_inj.
  - apply truthOf_nodes.
  - exact L.
  - exact N.
  - match goal with
    | |- links (GraphUtils.parseEdgeList ?t) = ?ls =>
        change t with (GraphUtils.edgeListOf ls)
    end.
    rewrite edgeList_reads_back; [reflexivity|].
    apply Forall_forall. intros l I. destruct (L l I) as [Hs [Ht _]].
    rewrite Em in Hs, Ht. apply in_map_iff in Hs, Ht.
    destruct Hs as [a [<- _]], Ht as [b [<- _]]. split; apply lfr_nodeName_token.
Qed.

Lemma lfr_simple_graph_witness :
  NoDup (map id (nodes (Generators.graphData lfrFourNodes)))
  /\ map node (Generators.groundTruth lfrFourNodes)
     = map id (nodes (Generators.graphData lfrFourNodes))
  /\ (forall l, In l (links (Generators.graphData lfrFourNodes)) ->
        In (source l) (map id (nodes (Generators.graphData lfrFourNodes)))
        /\ In (target l) (map id (nodes (Generators.graphData lfrFourNodes)))
        /\ source l <> target l
        /\ ~ In (mkLink (target l) (source l)) (links (Generators.graphData lfrFourNodes)))
  /\ NoDup (links (Generators.graphData lfrFourNodes))
  /\ links (GraphUtils.parseEdgeList (Generators.edgeList lfrFourNodes))
     = links (Generators.graphData lfrFourNodes).
Proof.
  apply (lfr_simple_graph half Generators.powZ 10 lfrFourParams lfrFourNodes).
  - intros k. split; [discriminate | reflexivity].
  - vm_compute. reflexivity.
Defined.

(** * Normalized mutual information: nodes outside the partitions *)

Lemma of_list_get_absent : forall (l : list (string * nat)) (m : JsMap.t string nat) k,
  ~ In k (map fst l) ->
  JsMap.get (fold_left (fun m kv => JsMap.set m (fst kv) (snd kv)) l m) k = JsMap.get m k.
Proof.
  induction l as [|[a v] l IH]; intros m k N; cbn [fold_left]; [reflexivity|].
  rewrite IH by (intros I; apply N; right; assumption).
  cbn [fst snd]. apply map_get_set_other. intros E. apply N. left. symmetry. assumption.
Qed.

Lemma mapOf_absent : forall partition x,
  ~ In x (map node partition) -> JsMap.get (Performance.mapOf partition) x = None.
Proof.
  intros partition x N. unfold Performance.mapOf, JsMap.of_list.
  rewrite of_list_get_absent; [reflexivity|].
  rewrite map_map. cbn [fst]. assumption.
Qed.

Lemma contingency_untouched : forall groundTruth detected nodes,
  (forall n, In n nodes ->
     ~ (In (id n) (map node groundTruth) /\ In (id n) (map node detected))) ->
  Performance.contingency groundTruth detected nodes
  = repeat (repeat 0 (length (Performance.labelsOf detected)))
           (length (Performance.labelsOf groundTruth)).
Proof.
  intros groundTruth detected nodes H. unfold Performance.contingency.
  generalize (repeat (repeat 0 (length (Performance.labelsOf detected)))
                     (length (Performance.labelsOf groundTruth))) as table.
  induction nodes as [|n nodes IH]; intros table; cbn [fold_left]; [reflexivity|].
  assert (E : Performance.countNode (Performance.mapOf groundTruth) (Performance.mapOf detected)
                (Performance.labelsOf groundTruth) (Performance.labelsOf detected) table n
              = table).
  { unfold Performance.countNode.
    destruct (in_dec string_dec (id n) (map node groundTruth)) as [Ig|Ng].
    - destruct (in_dec string_dec (id n) (map node detected)) as [Id|Nd].
      + exfalso. apply (H n (or_introl eq_refl)). split; assumption.
      + rewrite (mapOf_absent detected (id n) Nd).
        destruct (JsMap.get (Performance.mapOf groundTruth) (id n)); reflexivity.
    - rewrite (mapOf_absent groundTruth (id n) Ng). reflexivity. }
  rewrite E. apply IH. intros m I. apply H. right. assumption.
Qed.

Lemma rowSum_zeros : forall c, Performance.rowSum (repeat 0 c) = 0.
Proof.
  intros c. unfold Performance.rowSum. induction c as [|c IH]; [reflexivity|].
  cbn [repeat fold_left]. exact IH.
Qed.

Lemma columnSum_zeros : forall c r j, Performance.columnSum (repeat (repeat 0 c) r) j = 0.
Proof.
  intros c r j. unfold Performance.columnSum. induction r as [|r IH]; [reflexivity|].
  cbn [repeat fold_left]. rewrite nth_repeat. exact IH.
Qed.

Lemma entropyTerm_zero : forall acc n,
  Performance.entropyTerm acc (INR 0 / INR n) = acc.
Proof.
  intros acc n. unfold Performance.entropyTerm.
  destruct (Rlt_dec 0 (INR 0 / INR n)) as [L|_]; [|reflexivity].
  exfalso. cbn [INR] in L. unfold Rdiv in L. rewrite Rmult_0_l in L.
  apply (Rlt_irrefl 0). assumption.
Qed.

(** X26.  When no node of the list is assigned by both partitions, in
    particular when the list of nodes is empty, the normalized mutual
    information returned is 1, whatever the two partitions are. *)
Theorem nmi_without_common_nodes : forall groundTruth detected nodes,
  (forall n, In n nodes ->
     ~ (In (id n) (map node groundTruth) /\ In (id n) (map node detected))) ->
  Performance.calculateNMI groundTruth detected nodes = 1%R.
Proof.
  intros groundTruth detected nodes H. apply nmi_of_zero_entropies.
  - rewrite contingency_untouched by assumption.
    unfold Performance.entropyGroundTruth.
    induction (length (Performance.labelsOf groundTruth)) as [|r IH]; [reflexivity|].
    cbn [repeat fold_left]. rewrite rowSum_zeros, entropyTerm_zero. exact IH.
  - rewrite contingency_untouched by assumption.
    unfold Performance.entropyDetected.
    generalize (seq 0 (length (Performance.labelsOf detected))) as columns.
    induction columns as [|j columns IH]; [reflexivity|].
    cbn [fold_left]. rewrite columnSum_zeros, entropyTerm_zero. exact IH.
Qed.

Lemma nmi_without_common_nodes_witness :
  Performance.calculateNMI [mkAssignment "a" 0; mkAssignment "b" 1]
                           [mkAssignment "a" 0; mkAssignment "b" 0]
                           [mkNode "z"] = 1%R.
Proof.
  apply nmi_without_common_nodes. intros n [<-|[]] [I _]. simpl in I.
  intuition discriminate.
Defined.

(** * Betweenness centrality: the search ends and nothing is missing *)

Lemma keysOn_get : forall {V : Type} (U : list string) (m : JsMap.t string V) x,
  keysOn U m -> In x U -> exists v, JsMap.get m x = Some v.
Proof. intros V U m x K I. apply map_get_In_keys. apply K. assumption. Qed.

Lemma keys_set_grow : forall {V : Type} (m : JsMap.t string V) k v x,
  In x (JsMap.keys m) -> In x (JsMap.keys (JsMap.set m k v)).
Proof.
  intros V m k v x I. rewrite map_keys_set.
  destruct (JsMap.has m k); [assumption | apply in_or_app; left; assumption].
Qed.

Lemma keysOn_set : forall {V : Type} (U : list string) (m : JsMap.t string V) k v,
  keysOn U m -> keysOn U (JsMap.set m k v).
Proof. intros V U m k v K x I. apply keys_set_grow. apply K. assumption. Qed.

Lemma keysOn_init : forall {V : Type} (f : string -> V) (U : list string),
  keysOn U (fold_left (fun m x => JsMap.set m x (f x)) U []).
Proof.
  intros V f U x I. apply map_get_In_keys. rewrite (map_init_get f U [] x).
  destruct (in_dec eq_dec x U); [eauto | contradiction].
Qed.

Lemma init_entries : forall {V : Type} (f : string -> V) (l : list string) (m : JsMap.t string V) e,
  In e (fold_left (fun m x => JsMap.set m x (f x)) l m) ->
  In e m \/ exists x, e = (x, f x).
Proof.
  intros V f l. induction l as [|a l IH]; intros m e I; cbn [fold_left] in I; [left; assumption|].
  destruct (IH _ _ I) as [J|J]; [|right; assumption].
  apply map_set_entries in J. destruct J as [->|J]; [right; eauto | left; assumption].
Qed.

Lemma init_length : forall {V : Type} (f : string -> V) (l : list string) (m : JsMap.t string V),
  length (fold_left (fun m x => JsMap.set m x (f x)) l m) <= length m + length l.
Proof.
  intros V f l. induction l as [|a l IH]; intros m; cbn [fold_left length]; [lia|].
  specialize (IH (JsMap.set m a (f a))).
  assert (L : length (JsMap.set m a (f a)) <= S (length m)).
  { clear IH. induction m as [|[k0 v0] m IHm]; simpl; [lia|].
    destruct (eq_dec a k0); simpl; lia. }
  lia.
Qed.

Lemma negatives_length : forall d, negatives d <= length d.
Proof. intros d. unfold negatives. apply filter_length_le. Qed.

Lemma negatives_set : forall (d : JsMap.t string Z) k v,
  (0 <= v)%Z -> negatives (JsMap.set d k v) <= negatives d.
Proof.
  intros d k v P. unfold negatives. induction d as [|[k0 v0] d IH]; simpl.
  - destruct (Z.ltb_spec v 0); [lia | simpl; lia].
  - destruct (eq_dec k k0) as [E|E]; simpl.
    + destruct (Z.ltb_spec v 0); [lia|]. destruct (v0 <? 0)%Z; simpl; lia.
    + destruct (v0 <? 0)%Z; simpl; lia.
Qed.

Lemma negatives_reached : forall (d : JsMap.t string Z) k old v,
  JsMap.get d k = Some old -> (old < 0)%Z -> (0 <= v)%Z ->
  S (negatives (JsMap.set d k v)) = negatives d.
Proof.
  intros d k old v G O P. unfold negatives. induction d as [|[k0 v0] d IH]; simpl in *;
    [discriminate|].
  destruct (eq_dec k k0) as [E|E]; simpl.
  - injection G as ->. destruct (Z.ltb_spec v 0); [lia|].
    destruct (Z.ltb_spec old 0); [reflexivity | lia].
  - destruct (v0 <? 0)%Z; simpl; rewrite <- (IH G); reflexivity.
Qed.

Lemma settled_set : forall (d : JsMap.t string Z) w old v x,
  JsMap.get d w = Some old -> (old < 0)%Z -> settled d x -> settled (JsMap.set d w v) x.
Proof.
  intros d w old v x G O [dx [Gx Px]]. exists dx. split; [|assumption].
  rewrite map_get_set_other; [assumption|]. intros ->. rewrite G in Gx. injection Gx as ->. lia.
Qed.

Section Search.

Variable U : list string.
Variable adjacency : Worker1.Adjacency.
Hypothesis adjacency_defined : forall v, In v U -> exists ns, JsMap.get adjacency v = Some ns.
Hypothesis adjacency_members : forall v ns, JsMap.get adjacency v = Some ns -> incl ns U.

(** One neighbour [w] of the node [v] that has left the queue. *)
Lemma relax_ok : forall v dv s fresh w,
  searchState U s -> In v U -> In w U ->
  JsMap.get (Worker1.bs_d s) v = Some dv -> (0 <= dv)%Z ->
  exists s' fresh',
    Worker1.relax v (s, fresh) w = Normal (s', fresh')
    /\ searchState U s'
    /\ JsMap.get (Worker1.bs_d s') v = Some dv
    /\ Worker1.bs_S s' = Worker1.bs_S s
    /\ (forall x, settled (Worker1.bs_d s) x -> settled (Worker1.bs_d s') x)
    /\ (forall x, In x fresh' -> In x fresh \/ (In x U /\ settled (Worker1.bs_d s') x))
    /\ negatives (Worker1.bs_d s') + length fresh' = negatives (Worker1.bs_d s) + length fresh.
Proof.
  intros v dv s fresh w [Kd [Ks [Kp [HS [HP Hs]]]]] Hv Hw Gv Pv.
  destruct (keysOn_get U _ w Kd Hw) as [dw Gw].
  destruct (keysOn_get U _ w Ks Hw) as [sw Gsw].
  destruct (keysOn_get U _ v Ks Hv) as [sv Gsv].
  destruct (keysOn_get U _ w Kp Hw) as [pw Gpw].
  assert (Psw : (0 <= sw)%Q) by (apply (Hs (w, sw)); apply map_get_In; assumption).
  assert (Psv : (0 <= sv)%Q) by (apply (Hs (v, sv)); apply map_get_In; assumption).
  unfold Worker1.relax. rewrite Gv, Gw. cbn [defined bind].
  destruct (Z.ltb_spec dw 0) as [Neg|Pos].
  - (* [w] is reached for the first time *)
    rewrite map_get_set_same. cbn [defined bind]. rewrite Z.eqb_refl.
    rewrite Gsw, Gsv, Gpw. cbn [defined bind].
    eexists. eexists. split; [reflexivity|].
    unfold searchState. cbn [Worker1.bs_d Worker1.bs_S Worker1.bs_sigma Worker1.bs_P].
    assert (Nvw : v <> w) by (intros ->; rewrite Gv in Gw; injection Gw as ->; lia).
    split; [|split; [|split; [|split; [|split]]]].
    + split; [apply keysOn_set; assumption|].
      split; [apply keysOn_set; assumption|].
      split; [apply keysOn_set; assumption|].
      split; [assumption|]. split.
      * intros y py G. destruct (string_dec y w) as [->|Ny].
        -- rewrite map_get_set_same in G. injection G as <-.
           intros z Hz. apply in_app_or in Hz. destruct Hz as [Hz|[<-|[]]]; [|assumption].
           apply (HP w pw Gpw z Hz).
        -- rewrite map_get_set_other in G by assumption. apply (HP y py G).
      * intros e I. apply map_set_entries in I. destruct I as [->|I]; [|apply Hs; assumption].
        cbn [snd]. lra.
    + rewrite map_get_set_other by assumption. assumption.
    + reflexivity.
    + intros x Sx. apply (settled_set _ w dw); assumption.
    + intros x I. apply in_app_or in I. destruct I as [I|[<-|[]]]; [left; assumption|].
      right. split; [assumption|]. exists (dv + 1)%Z.
      split; [apply map_get_set_same | lia].
    + rewrite length_app. cbn [length].
      rewrite <- (negatives_reached _ w dw (dv + 1)%Z Gw Neg ltac:(lia)). lia.
  - (* [w] was reached before *)
    rewrite Gw. cbn [defined bind].
    destruct (dw =? dv + 1)%Z.
    + rewrite Gsw, Gsv, Gpw. cbn [defined bind].
      eexists. eexists. split; [reflexivity|].
      unfold searchState. cbn [Worker1.bs_d Worker1.bs_S Worker1.bs_sigma Worker1.bs_P].
      split; [|split; [|split; [|split; [|split]]]]; try assumption; try reflexivity; auto.
      split; [assumption|].
      split; [apply keysOn_set; assumption|].
      split; [apply keysOn_set; assumption|].
      split; [assumption|]. split.
      * intros y py G. destruct (string_dec y w) as [->|Ny].
        -- rewrite map_get_set_same in G. injection G as <-.
           intros z Hz. apply in_app_or in Hz. destruct Hz as [Hz|[<-|[]]]; [|assumption].
           apply (HP w pw Gpw z Hz).
        -- rewrite map_get_set_other in G by assumption. apply (HP y py G).
      * intros e I. apply map_set_entries in I. destruct I as [->|I]; [|apply Hs; assumption].
        cbn [snd]. lra.
    + eexists. eexists. split; [reflexivity|].
      unfold searchState. cbn [Worker1.bs_d Worker1.bs_S Worker1.bs_sigma Worker1.bs_P].
      split; [|split; [|split; [|split; [|split]]]]; try assumption; try reflexivity; auto.
      repeat split; assumption.
Qed.

(** All the neighbours of [v]. *)
Lemma relax_all : forall v dv neighbours s fresh,
  searchState U s -> In v U -> incl neighbours U ->
  JsMap.get (Worker1.bs_d s) v = Some dv -> (0 <= dv)%Z ->
  exists s' fresh',
    foldM (Worker1.relax v) neighbours (s, fresh) = Normal (s', fresh')
    /\ searchState U s'
    /\ Worker1.bs_S s' = Worker1.bs_S s
    /\ (forall x, settled (Worker1.bs_d s) x -> settled (Worker1.bs_d s') x)
    /\ (forall x, In x fresh' -> In x fresh \/ (In x U /\ settled (Worker1.bs_d s') x))
    /\ negatives (Worker1.bs_d s') + length fresh' = negatives (Worker1.bs_d s) + length fresh.
Proof.
  intros v dv neighbours. induction neighbours as [|w ns IH]; intros s fresh St Hv Sub Gv Pv.
  - exists s, fresh. cbn [foldM]. split; [reflexivity|]. split; [assumption|].
    split; [reflexivity|]. split; [auto|]. split; [intros x I; left; assumption | reflexivity].
  - destruct (relax_ok v dv s fresh w St Hv (Sub w (or_introl eq_refl)) Gv Pv)
      as [s1 [fresh1 [E1 [St1 [Gv1 [S1 [Keep1 [Fr1 M1]]]]]]]].
    destruct (IH s1 fresh1 St1 Hv (fun x I => Sub x (or_intror I)) Gv1 Pv)
      as [s2 [fresh2 [E2 [St2 [S2 [Keep2 [Fr2 M2]]]]]]].
    exists s2, fresh2. cbn [foldM]. rewrite E1. cbn [bind]. rewrite E2.
    split; [reflexivity|]. split; [assumption|]. split; [congruence|].
    split; [intros x Sx; apply Keep2, Keep1; assumption|]. split; [|lia].
    intros x I. destruct (Fr2 x I) as [J|J]; [|right; assumption].
    destruct (Fr1 x J) as [J1|[J1 J2]]; [left; assumption|].
    right. split; [assumption | apply Keep2; assumption].
Qed.

(** The search ends within the fuel: every round takes a node that has
    been reached, and a node enters the queue when it is reached. *)
Lemma search_ok : forall fuel pending s,
  searchState U s ->
  (forall x, In x pending -> In x U /\ settled (Worker1.bs_d s) x) ->
  length pending + negatives (Worker1.bs_d s) <= fuel ->
  exists s', Worker1.search fuel adjacency pending s = Normal s' /\ searchState U s'.
Proof.
  induction fuel as [|fuel IH]; intros pending s St Pend M.
  - destruct pending; [|simpl in M; lia]. exists s. split; [reflexivity | assumption].
  - destruct pending as [|v rest]; [exists s; split; [reflexivity | assumption]|].
    cbn [Worker1.search].
    destruct (Pend v (or_introl eq_refl)) as [Hv [dv [Gv Pv]]].
    destruct (adjacency_defined v Hv) as [ns Gn]. rewrite Gn. cbn [defined bind].
    assert (St1 : searchState U (Worker1.mkSearch (Worker1.bs_S s ++ [v]) (Worker1.bs_P s)
                                   (Worker1.bs_sigma s) (Worker1.bs_d s))).
    { destruct St as [Kd [Ks [Kp [HS [HP Hs]]]]]. repeat split; try assumption.
      cbn [Worker1.bs_S]. intros x I. apply in_app_or in I.
      destruct I as [I|[<-|[]]]; [apply HS; assumption | assumption]. }
    destruct (relax_all v dv ns _ [] St1 Hv (adjacency_members v ns Gn) Gv Pv)
      as [s2 [fresh [E [St2 [_ [Keep [Fr Mm]]]]]]].
    rewrite E. cbn [bind]. cbn [Worker1.bs_d length] in Mm, Keep.
    apply IH; [assumption | |].
    + intros x I. apply in_app_or in I. destruct I as [I|I].
      * destruct (Pend x (or_intror I)) as [Hx Sx]. split; [assumption | apply Keep; assumption].
      * destruct (Fr x I) as [[]|J]. assumption.
    + rewrite length_app. cbn [length] in M. lia.
Qed.

(** Unwinding the stack: no table misses an entry and the credits stay
    above zero. *)
Lemma creditNode_ok : forall s w keys delta v,
  searchState U s -> In w U -> In v U -> creditsOver U keys delta ->
  exists delta', Centrality.creditNode s w delta v = Normal delta'
                 /\ creditsOver U keys delta'.
Proof.
  intros s w keys delta v [_ [Ks [_ [_ [_ Hs]]]]] Hw Hv [K [Kd Pd]].
  destruct (keysOn_get U _ v Ks Hv) as [sv Gsv].
  destruct (keysOn_get U _ w Ks Hw) as [sw Gsw].
  destruct (keysOn_get U _ w Kd Hw) as [dW GdW].
  destruct (keysOn_get U _ v Kd Hv) as [dV GdV].
  unfold Centrality.creditNode. rewrite Gsv, Gsw, GdW, GdV. cbn [defined bind].
  eexists. split; [reflexivity|]. split; [|split].
  - rewrite map_keys_set_known; [assumption | apply Kd; assumption].
  - apply keysOn_set. assumption.
  - intros e I. apply map_set_entries in I. destruct I as [->|I]; [|apply Pd; assumption].
    cbn [snd].
    assert (Psv : (0 <= sv)%Q) by (apply (Hs (v, sv)); apply map_get_In; assumption).
    assert (Psw : (0 <= sw)%Q) by (apply (Hs (w, sw)); apply map_get_In; assumption).
    assert (PdW : (0 <= dW)%Q) by (apply (Pd (w, dW)); apply map_get_In; assumption).
    assert (PdV : (0 <= dV)%Q) by (apply (Pd (v, dV)); apply map_get_In; assumption).
    assert (D : (0 <= sv / sw)%Q).
    { unfold Qdiv. apply Qmult_le_0_compat; [assumption | apply Qinv_le_0_compat; assumption]. }
    assert (C : (0 <= sv / sw * (1 + dW))%Q) by (apply Qmult_le_0_compat; [assumption | lra]).
    lra.
Qed.

Lemma creditNodes_ok : forall s w keys pw delta,
  searchState U s -> In w U -> incl pw U -> creditsOver U keys delta ->
  exists delta', foldM (Centrality.creditNode s w) pw delta = Normal delta'
                 /\ creditsOver U keys delta'.
Proof.
  intros s w keys pw. induction pw as [|v pw IH]; intros delta St Hw Sub C.
  - exists delta. split; [reflexivity | assumption].
  - destruct (creditNode_ok s w keys delta v St Hw (Sub v (or_introl eq_refl)) C) as [d1 [E1 C1]].
    destruct (IH d1 St Hw (fun x I => Sub x (or_intror I)) C1) as [d2 [E2 C2]].
    exists d2. cbn [foldM]. rewrite E1. cbn [bind]. split; assumption.
Qed.

Lemma unwindNodes_ok : forall sourceId s kb kd stack betweenness delta,
  searchState U s -> incl stack U ->
  creditsOver U kb betweenness -> creditsOver U kd delta ->
  exists betweenness' delta',
    foldM (fun (st : JsMap.t string Q * JsMap.t string Q) w =>
             let '(betweenness, delta) := st in
             pw <- defined (JsMap.get (Worker1.bs_P s) w) ;;
             delta' <- foldM (Centrality.creditNode s w) pw delta ;;
             if String.eqb w sourceId then Normal (betweenness, delta')
             else
               b <- defined (JsMap.get betweenness w) ;;
               dw <- defined (JsMap.get delta' w) ;;
               Normal (JsMap.set betweenness w (b + dw)%Q, delta'))
          stack (betweenness, delta) = Normal (betweenness', delta')
    /\ creditsOver U kb betweenness'.
Proof.
  intros sourceId s kb kd stack. induction stack as [|w stack IH];
    intros betweenness delta St Sub Cb Cd.
  - exists betweenness, delta. split; [reflexivity | assumption].
  - assert (Hw : In w U) by (apply Sub; left; reflexivity).
    assert (St' := St). destruct St' as [_ [_ [Kp [_ [HP _]]]]].
    destruct (keysOn_get U _ w Kp Hw) as [pw Gpw].
    destruct (creditNodes_ok s w kd pw delta St Hw (HP w pw Gpw) Cd) as [d1 [E1 C1]].
    cbn [foldM]. rewrite Gpw. cbn [defined bind]. rewrite E1. cbn [bind].
    destruct (String.eqb w sourceId).
    + cbn [bind]. apply IH; try assumption. intros x I. apply Sub. right. assumption.
    + destruct Cb as [Kb [Kbu Pb]]. destruct C1 as [Kd1 [Kdu Pd1]].
      destruct (keysOn_get U _ w Kbu Hw) as [b Gb].
      destruct (keysOn_get U _ w Kdu Hw) as [dw Gdw].
      rewrite Gb, Gdw. cbn [defined bind].
      apply IH; try assumption; [intros x I; apply Sub; right; assumption | | repeat split; assumption].
      split; [|split].
      * rewrite map_keys_set_known; [assumption | apply Kbu; assumption].
      * apply keysOn_set. assumption.
      * intros e I. apply map_set_entries in I. destruct I as [->|I]; [|apply Pb; assumption].
        cbn [snd].
        assert (P1 : (0 <= b)%Q) by (apply (Pb (w, b)); apply map_get_In; assumption).
        assert (P2 : (0 <= dw)%Q) by (apply (Pd1 (w, dw)); apply map_get_In; assumption).
        lra.
Qed.

End Search.

Lemma representation_defined : forall graphData isDirected v,
  In v (map id (nodes graphData)) ->
  exists ns,
    JsMap.get (Centrality.adj (Centrality.buildGraphRepresentation graphData isDirected)) v
    = Some ns.
Proof.
  intros graphData isDirected v I. unfold Centrality.buildGraphRepresentation.
  assert (A : forall ls g,
            JsMap.has (Centrality.adj g) v = true ->
            JsMap.has (Centrality.adj (fold_left (Centrality.addLink isDirected) ls g)) v = true).
  { induction ls as [|l ls IH]; intros g H; cbn [fold_left]; [assumption|].
    apply IH. unfold Centrality.addLink.
    destruct (JsMap.has (Centrality.adj g) (source l) && JsMap.has (Centrality.adj g) (target l));
      [|assumption].
    destruct isDirected; cbn [Centrality.adj]; rewrite ?pushTo_has; assumption. }
  match goal with
  | |- exists ns, JsMap.get (Centrality.adj (fold_left _ ?ls ?g)) v = Some ns =>
      specialize (A ls g)
  end.
  unfold JsMap.has in A at 2.
  match type of A with
  | _ -> match ?t with Some _ => true | None => false end = true =>
      destruct t as [ns|]; [exists ns; reflexivity|]
  end.
  assert (F : false = true); [|discriminate F].
  apply A. cbn [Centrality.adj]. unfold JsMap.has.
  rewrite (map_init_get (fun _ : string => @nil string) (map id (nodes graphData)) [] v).
  destruct (in_dec eq_dec v (map id (nodes graphData))); [reflexivity | contradiction].
Qed.

Lemma init_keys : forall {V : Type} (f : string -> V) (ids : list string),
  NoDup (JsMap.keys (fold_left (fun m x => JsMap.set m x (f x)) ids []))
  /\ (forall x, In x (JsMap.keys (fold_left (fun m x => JsMap.set m x (f x)) ids [])) <-> In x ids)
  /\ (NoDup ids -> JsMap.keys (fold_left (fun m x => JsMap.set m x (f x)) ids []) = ids).
Proof.
  intros V f ids. split; [|split].
  - assert (A : forall l (m : JsMap.t string V),
              NoDup (JsMap.keys m) ->
              NoDup (JsMap.keys (fold_left (fun m x => JsMap.set m x (f x)) l m))).
    { induction l as [|a l IH]; intros m N; cbn [fold_left]; [assumption|].
      apply IH. apply map_keys_set_NoDup. assumption. }
    apply A. constructor.
  - intros x. rewrite map_get_In_keys, (map_init_get f ids [] x).
    destruct (in_dec eq_dec x ids) as [I|I].
    + split; [intros _; assumption | intros _; eauto].
    + split; [intros [v E]; discriminate E | intros J; contradiction].
  - intros N. rewrite map_init_keys; [reflexivity | assumption | constructor | intros x _ []].
Qed.

(** One source: the search from it and the unwinding of its stack. *)
Lemma betweenness_round : forall graphData isDirected kb betweenness s,
  In s (map id (nodes graphData)) ->
  creditsOver (map id (nodes graphData)) kb betweenness ->
  let ids := map id (nodes graphData) in
  let g := Centrality.buildGraphRepresentation graphData isDirected in
  exists betweenness',
    (let P := fold_left (fun m x => JsMap.set m x []) ids [] in
     let sigma := JsMap.set (fold_left (fun m x => JsMap.set m x 0%Q) ids []) s 1%Q in
     let d := JsMap.set (fold_left (fun m x => JsMap.set m x (-1)%Z) ids []) s 0%Z in
     found <- Worker1.search (S (length ids)) (Centrality.adj g) [s]
                (Worker1.mkSearch [] P sigma d) ;;
     let delta := fold_left (fun m x => JsMap.set m x 0%Q) ids [] in
     ' (betweenness', _) <- Centrality.unwindNodes s found betweenness delta ;;
     Normal betweenness') = Normal betweenness'
    /\ creditsOver (map id (nodes graphData)) kb betweenness'.
Proof.
  intros graphData isDirected kb betweenness s Hs Cb ids g. cbv zeta.
  assert (St0 : searchState ids
            (Worker1.mkSearch []
               (fold_left (fun m x => JsMap.set m x []) ids [])
               (JsMap.set (fold_left (fun m x => JsMap.set m x 0%Q) ids []) s 1%Q)
               (JsMap.set (fold_left (fun m x => JsMap.set m x (-1)%Z) ids []) s 0%Z))).
  { unfold searchState. cbn [Worker1.bs_d Worker1.bs_S Worker1.bs_sigma Worker1.bs_P].
    split; [apply keysOn_set, (keysOn_init (fun _ => (-1)%Z))|].
    split; [apply keysOn_set, (keysOn_init (fun _ => 0%Q))|].
    split; [apply (keysOn_init (fun _ : string => @nil string))|].
    split; [intros x []|]. split.
    - intros w pw G. rewrite (map_init_get (fun _ : string => @nil string) ids [] w) in G.
      destruct (in_dec eq_dec w ids); [|discriminate G]. injection G as <-. intros z [].
    - intros e I. apply map_set_entries in I. destruct I as [->|I]; [discriminate|].
      apply (init_entries (fun _ => 0%Q)) in I. destruct I as [[]|[x ->]]. discriminate. }
  destruct (search_ok ids (Centrality.adj g)
              (representation_defined graphData isDirected)
              (representation_members graphData isDirected)
              (S (length ids)) [s] _ St0) as [found [E St]].
  { intros x [<-|[]]. split; [assumption|]. exists 0%Z.
    cbn [Worker1.bs_d]. split; [apply map_get_set_same | lia]. }
  { cbn [Worker1.bs_d length].
    assert (A := negatives_set (fold_left (fun m x => JsMap.set m x (-1)%Z) ids []) s 0%Z
                   ltac:(lia)).
    assert (B := negatives_length (fold_left (fun m x => JsMap.set m x (-1)%Z) ids [])).
    assert (C := init_length (fun _ => (-1)%Z) ids []). cbn [length] in C. lia. }
  rewrite E. cbn [bind].
  assert (Cd : creditsOver ids (JsMap.keys (fold_left (fun m x => JsMap.set m x 0%Q) ids []))
                 (fold_left (fun m x => JsMap.set m x 0%Q) ids [])).
  { split; [reflexivity|]. split; [apply (keysOn_init (fun _ => 0%Q))|].
    intros e I. apply (init_entries (fun _ => 0%Q)) in I. destruct I as [[]|[x ->]]. discriminate. }
  unfold Centrality.unwindNodes.
  assert (Sub : incl (List.rev (Worker1.bs_S found)) ids).
  { intros x I. apply in_rev in I. destruct St as [_ [_ [_ [HS _]]]]. apply HS. assumption. }
  destruct (unwindNodes_ok ids s found kb _ _ betweenness _ St Sub Cb Cd) as [b' [d' [Eu Cb']]].
  rewrite Eu. cbn [bind]. exists b'. split; [reflexivity | assumption].
Qed.

(** X28.  Betweenness centrality always returns: every search ends
    within its rounds and no table lookup fails; the result holds one
    score for each node identifier, in node order when the identifiers
    are pairwise distinct, and no score is negative. *)
Theorem betweenness_scores : forall graphData isDirected,
  exists results,
    Centrality.calculateBetweennessCentrality graphData isDirected = Normal results
    /\ NoDup (map Centrality.nodeId results)
    /\ (forall x, In x (map Centrality.nodeId results) <-> In x (map id (nodes graphData)))
    /\ (NoDup (map id (nodes graphData)) ->
        map Centrality.nodeId results = map id (nodes graphData))
    /\ Forall (fun r => (0 <= Centrality.score r)%Q) results.
Proof.
  intros graphData isDirected. unfold Centrality.calculateBetweennessCentrality. cbv zeta.
  set (ids := map id (nodes graphData)).
  set (kb := JsMap.keys (fold_left (fun m x => JsMap.set m x 0%Q) ids [])).
  assert (C0 : creditsOver ids kb (fold_left (fun m x => JsMap.set m x 0%Q) ids [])).
  { split; [reflexivity|]. split; [apply (keysOn_init (fun _ => 0%Q))|].
    intros e I. apply (init_entries (fun _ => 0%Q)) in I. destruct I as [[]|[x ->]]. discriminate. }
  assert (A : forall l betweenness,
            incl l ids -> creditsOver ids kb betweenness ->
            exists betweenness',
              foldM (fun betweenness s =>
                       let P := fold_left (fun m x => JsMap.set m x []) ids [] in
                       let sigma := JsMap.set (fold_left (fun m x => JsMap.set m x 0%Q) ids [])
                                              s 1%Q in
                       let d := JsMap.set (fold_left (fun m x => JsMap.set m x (-1)%Z) ids [])
                                          s 0%Z in
                       found <- Worker1.search (S (length ids))
                                  (Centrality.adj
                                     (Centrality.buildGraphRepresentation graphData isDirected))
                                  [s] (Worker1.mkSearch [] P sigma d) ;;
                       let delta := fold_left (fun m x => JsMap.set m x 0%Q) ids [] in
                       ' (betweenness', _) <- Centrality.unwindNodes s found betweenness delta ;;
                       Normal betweenness') l betweenness = Normal betweenness'
              /\ creditsOver ids kb betweenness').
  { induction l as [|s l IH]; intros betweenness Sub Cb.
    - exists betweenness. split; [reflexivity | assumption].
    - destruct (betweenness_round graphData isDirected kb betweenness s
                  (Sub s (or_introl eq_refl)) Cb) as [b1 [E1 C1]].
      destruct (IH b1 (fun x I => Sub x (or_intror I)) C1) as [b2 [E2 C2]].
      exists b2. cbn [foldM].
      match goal with
      | |- bind ?t _ = _ /\ _ => assert (Et : t = Normal b1) by exact E1; rewrite Et
      end.
      cbn [bind]. split; assumption. }
  destruct (A ids _ (fun x I => I) C0) as [betweenness [E [Kb [_ Pb]]]].
  match goal with
  | |- exists results, bind ?t _ = _ /\ _ =>
      assert (Et : t = Normal betweenness) by exact E; rewrite Et
  end.
  cbn [bind]. eexists. split; [reflexivity|].
  match goal with
  | |- NoDup (map Centrality.nodeId ?r) /\ _ =>
      assert (Kn : map Centrality.nodeId r = kb)
        by (rewrite map_map; cbn [Centrality.nodeId]; rewrite <- Kb; reflexivity);
      rewrite Kn
  end.
  unfold kb.
  destruct (init_keys (fun _ => 0%Q) ids) as [N [M O]].
  split; [exact N|]. split; [exact M|]. split; [exact O|].
  apply Forall_forall. intros r I. apply in_map_iff in I. destruct I as [e [<- I]].
  cbn [Centrality.score]. apply Qmult_le_0_compat; [apply Pb; assumption|].
  destruct (2 <? length ids); [|discriminate].
  assert (Q0 : (0 <= Centrality.Qnat ((length ids - 1) * (length ids - 2)))%Q).
  { unfold Centrality.Qnat. change 0%Q with (inject_Z 0). rewrite <- Zle_Qle.
    apply Nat2Z.is_nonneg. }
  destruct isDirected; unfold Qdiv; apply Qmult_le_0_compat; try discriminate;
    apply Qinv_le_0_compat; assumption.
Qed.

(** * Girvan-Newman: the main loop ends *)

Lemma edgeKey_ends : forall a b a' b',
  barFree a -> barFree b -> barFree a' -> barFree b' ->
  Worker1.edgeKey a b = Worker1.edgeKey a' b' ->
  (a = a' /\ b = b') \/ (a = b' /\ b = a').
Proof.
  intros a b a' b' Ba Bb Ba' Bb' E. unfold Worker1.edgeKey in E.
  destruct (String.ltb a b), (String.ltb a' b');
    apply pairKey_inj in E; try assumption; tauto.
Qed.

Lemma edgeKey_swap : forall a b, Worker1.edgeKey a b = Worker1.edgeKey b a.
Proof.
  intros a b. destruct (string_dec a b) as [->|N]; [reflexivity | apply edgeKey_sym; assumption].
Qed.

(** ** The predecessors recorded are neighbours *)

Lemma relax_adjacent : forall adjacency v s fresh w s' fresh',
  adjacent adjacency v w -> predecessorsAdjacent adjacency s ->
  Worker1.relax v (s, fresh) w = Normal (s', fresh') ->
  predecessorsAdjacent adjacency s'.
Proof.
  intros adjacency v s fresh w s' fresh' A P E. unfold Worker1.relax in E.
  apply bind_Normal in E. destruct E as [dv [_ E]].
  apply bind_Normal in E. destruct E as [dw [_ E]].
  destruct (if (dw <? 0)%Z then (JsMap.set (Worker1.bs_d s) w (dv + 1)%Z, fresh ++ [w])
            else (Worker1.bs_d s, fresh)) as [d1 fresh1].
  apply bind_Normal in E. destruct E as [dw1 [_ E]].
  destruct (dw1 =? dv + 1)%Z.
  - apply bind_Normal in E. destruct E as [sw [_ E]].
    apply bind_Normal in E. destruct E as [sv [_ E]].
    apply bind_Normal in E. destruct E as [pw [Gp E]]. apply defined_Normal in Gp.
    injection E as <- _. intros y py G x Hx. cbn [Worker1.bs_P] in G.
    destruct (string_dec y w) as [->|Ny].
    + rewrite map_get_set_same in G. injection G as <-.
      apply in_app_or in Hx. destruct Hx as [Hx|[<-|[]]]; [|assumption].
      apply (P w pw Gp x Hx).
    + rewrite map_get_set_other in G by assumption. apply (P y py G x Hx).
  - injection E as <- _. exact P.
Qed.

Lemma relax_all_adjacent : forall adjacency v neighbours s fresh s' fresh',
  (forall w, In w neighbours -> adjacent adjacency v w) ->
  predecessorsAdjacent adjacency s ->
  foldM (Worker1.relax v) neighbours (s, fresh) = Normal (s', fresh') ->
  predecessorsAdjacent adjacency s'.
Proof.
  intros adjacency v neighbours. induction neighbours as [|w ns IH];
    intros s fresh s' fresh' A P E; cbn [foldM] in E.
  - injection E as <- _. exact P.
  - apply bind_Normal in E. destruct E as [[s1 fresh1] [E1 E]].
    apply (IH s1 fresh1 s' fresh'); [intros x I; apply A; right; assumption | | exact E].
    apply (relax_adjacent adjacency v s fresh w s1 fresh1); [apply A; left; reflexivity | | ];
      assumption.
Qed.

Lemma search_adjacent : forall adjacency fuel pending s s',
  predecessorsAdjacent adjacency s ->
  Worker1.search fuel adjacency pending s = Normal s' ->
  predecessorsAdjacent adjacency s'.
Proof.
  intros adjacency fuel. induction fuel as [|fuel IH]; intros pending s s' P E.
  - destruct pending; [injection E as <-; exact P | discriminate E].
  - destruct pending as [|v rest]; [injection E as <-; exact P|].
    cbn [Worker1.search] in E.
    apply bind_Normal in E. destruct E as [ns [Gn E]]. apply defined_Normal in Gn.
    apply bind_Normal in E. destruct E as [[s2 fresh] [E2 E]].
    assert (P1 : predecessorsAdjacent adjacency
                   (Worker1.mkSearch (Worker1.bs_S s ++ [v]) (Worker1.bs_P s)
                      (Worker1.bs_sigma s) (Worker1.bs_d s))) by exact P.
    assert (A : forall w, In w ns -> adjacent adjacency v w).
    { intros w I. exists ns. split; assumption. }
    apply (IH _ _ _ (relax_all_adjacent adjacency v ns _ [] s2 fresh A P1 E2) E).
Qed.

(** ** Unwinding, with the credits given to the edges *)

Lemma credit_ok : forall (U : list string) s w betweenness delta v,
  searchState U s -> In w U -> In v U -> keysOn U delta ->
  In (Worker1.edgeKey v w) (JsMap.keys betweenness) ->
  exists betweenness' delta',
    Worker1.credit s w (betweenness, delta) v = Normal (betweenness', delta')
    /\ JsMap.keys betweenness' = JsMap.keys betweenness
    /\ keysOn U delta'.
Proof.
  intros U s w betweenness delta v [_ [Ks _]] Hw Hv Kd Kb.
  destruct (keysOn_get U _ v Ks Hv) as [sv Gsv].
  destruct (keysOn_get U _ w Ks Hw) as [sw Gsw].
  destruct (keysOn_get U _ w Kd Hw) as [dW GdW].
  destruct (keysOn_get U _ v Kd Hv) as [dV GdV].
  unfold Worker1.credit. rewrite Gsv, Gsw, GdW, GdV. cbn [defined bind].
  eexists. eexists. split; [reflexivity|]. split.
  - apply map_keys_set_known. assumption.
  - apply keysOn_set. assumption.
Qed.

Lemma credits_ok : forall (U : list string) s w pw betweenness delta,
  searchState U s -> In w U -> keysOn U delta ->
  (forall v, In v pw -> In v U /\ In (Worker1.edgeKey v w) (JsMap.keys betweenness)) ->
  exists betweenness' delta',
    foldM (Worker1.credit s w) pw (betweenness, delta) = Normal (betweenness', delta')
    /\ JsMap.keys betweenness' = JsMap.keys betweenness
    /\ keysOn U delta'.
Proof.
  intros U s w pw. induction pw as [|v pw IH]; intros betweenness delta St Hw Kd H.
  - exists betweenness, delta. repeat split; auto.
  - destruct (H v (or_introl eq_refl)) as [Hv Kv].
    destruct (credit_ok U s w betweenness delta v St Hw Hv Kd Kv) as [b1 [d1 [E1 [K1 Kd1]]]].
    destruct (IH b1 d1 St Hw Kd1) as [b2 [d2 [E2 [K2 Kd2]]]].
    { intros x I. rewrite K1. apply H. right. assumption. }
    exists b2, d2. cbn [foldM]. rewrite E1. cbn [bind]. rewrite E2.
    split; [reflexivity|]. split; [congruence | assumption].
Qed.

Lemma unwind_ok : forall (U : list string) adjacency s stack betweenness delta,
  searchState U s -> predecessorsAdjacent adjacency s -> incl stack U ->
  keysOn U delta ->
  (forall u v, adjacent adjacency u v -> In (Worker1.edgeKey u v) (JsMap.keys betweenness)) ->
  exists betweenness' delta',
    foldM (fun st w =>
             pw <- defined (JsMap.get (Worker1.bs_P s) w) ;;
             foldM (Worker1.credit s w) pw st)
          stack (betweenness, delta) = Normal (betweenness', delta')
    /\ JsMap.keys betweenness' = JsMap.keys betweenness.
Proof.
  intros U adjacency s stack. induction stack as [|w stack IH];
    intros betweenness delta St Pa Sub Kd C.
  - exists betweenness, delta. split; reflexivity.
  - assert (Hw : In w U) by (apply Sub; left; reflexivity).
    assert (St' := St). destruct St' as [_ [_ [Kp [_ [HP _]]]]].
    destruct (keysOn_get U _ w Kp Hw) as [pw Gpw].
    destruct (credits_ok U s w pw betweenness delta St Hw Kd) as [b1 [d1 [E1 [K1 Kd1]]]].
    { intros v I. split; [apply (HP w pw Gpw v I)|]. apply C. apply (Pa w pw Gpw v I). }
    destruct (IH b1 d1 St Pa (fun x I => Sub x (or_intror I)) Kd1) as [b2 [d2 [E2 K2]]].
    { intros u v A. rewrite K1. apply C. assumption. }
    exists b2, d2. cbn [foldM]. rewrite Gpw. cbn [defined bind]. rewrite E1. cbn [bind].
    split; [assumption | congruence].
Qed.

(** ** One round of edge betweenness *)

(** The search from one node, as both variants start it. *)
Lemma search_from : forall (ns : list string) adjacency n,
  undirectedOver ns adjacency -> In n ns ->
  exists found,
    Worker1.search (length ns) adjacency [n]
      (Worker1.mkSearch []
         (fold_left (fun m x => JsMap.set m x []) ns [])
         (JsMap.set (fold_left (fun m x => JsMap.set m x 0%Q) ns []) n 1%Q)
         (JsMap.set (fold_left (fun m x => JsMap.set m x (-1)%Z) ns []) n 0%Z))
    = Normal found
    /\ searchState ns found
    /\ predecessorsAdjacent adjacency found
    /\ incl (List.rev (Worker1.bs_S found)) ns.
Proof.
  intros ns adjacency n [D [M _]] Hn.
  assert (St0 : searchState ns
            (Worker1.mkSearch []
               (fold_left (fun m x => JsMap.set m x []) ns [])
               (JsMap.set (fold_left (fun m x => JsMap.set m x 0%Q) ns []) n 1%Q)
               (JsMap.set (fold_left (fun m x => JsMap.set m x (-1)%Z) ns []) n 0%Z))).
  { unfold searchState. cbn [Worker1.bs_d Worker1.bs_S Worker1.bs_sigma Worker1.bs_P].
    split; [apply keysOn_set, (keysOn_init (fun _ => (-1)%Z))|].
    split; [apply keysOn_set, (keysOn_init (fun _ => 0%Q))|].
    split; [apply (keysOn_init (fun _ : string => @nil string))|].
    split; [intros x []|]. split.
    - intros w pw G. rewrite (map_init_get (fun _ : string => @nil string) ns [] w) in G.
      destruct (in_dec eq_dec w ns); [|discriminate G]. injection G as <-. intros z [].
    - intros e I. apply map_set_entries in I. destruct I as [->|I]; [discriminate|].
      apply (init_entries (fun _ => 0%Q)) in I. destruct I as [[]|[x ->]]. discriminate. }
  assert (Pa0 : predecessorsAdjacent adjacency
            (Worker1.mkSearch []
               (fold_left (fun m x => JsMap.set m x []) ns [])
               (JsMap.set (fold_left (fun m x => JsMap.set m x 0%Q) ns []) n 1%Q)
               (JsMap.set (fold_left (fun m x => JsMap.set m x (-1)%Z) ns []) n 0%Z))).
  { intros w pw G v Hv. cbn [Worker1.bs_P] in G.
    rewrite (map_init_get (fun _ : string => @nil string) ns [] w) in G.
    destruct (in_dec eq_dec w ns); [|discriminate G]. injection G as <-. destruct Hv. }
  destruct (search_ok ns adjacency D
              (fun v l G x I => M v x (ex_intro _ l (conj G I)))
              (length ns) [n] _ St0) as [found [E St]].
  { intros x [<-|[]]. split; [assumption|]. exists 0%Z.
    cbn [Worker1.bs_d]. split; [apply map_get_set_same | lia]. }
  { cbn [Worker1.bs_d length].
    assert (G : JsMap.get (fold_left (fun m x => JsMap.set m x (-1)%Z) ns []) n = Some (-1)%Z).
    { rewrite (map_init_get (fun _ => (-1)%Z) ns [] n).
      destruct (in_dec eq_dec n ns); [reflexivity | contradiction]. }
    assert (A := negatives_reached _ n (-1)%Z 0%Z G ltac:(lia) ltac:(lia)).
    assert (B := negatives_length (fold_left (fun m x => JsMap.set m x (-1)%Z) ns [])).
    assert (L := init_length (fun _ => (-1)%Z) ns []). cbn [length] in L. lia. }
  exists found. split; [exact E|]. split; [exact St|].
  split; [apply (search_adjacent adjacency _ _ _ _ Pa0 E)|].
  intros x I. apply in_rev in I. destruct St as [_ [_ [_ [HS _]]]]. apply HS. assumption.
Qed.

Lemma accumulateFrom_ok : forall graph adjacency betweenness n,
  undirectedOver (Worker1.g_nodes graph) adjacency ->
  In n (Worker1.g_nodes graph) ->
  (forall u v, adjacent adjacency u v -> In (Worker1.edgeKey u v) (JsMap.keys betweenness)) ->
  exists betweenness',
    Worker1.accumulateFrom graph adjacency betweenness n = Normal betweenness'
    /\ JsMap.keys betweenness' = JsMap.keys betweenness.
Proof.
  intros graph adjacency betweenness n Un Hn C.
  unfold Worker1.accumulateFrom. cbv zeta.
  destruct (search_from (Worker1.g_nodes graph) adjacency n Un Hn) as [found [E [St [Pa Sub]]]].
  rewrite E. cbn [bind]. unfold Worker1.unwind.
  destruct (unwind_ok (Worker1.g_nodes graph) adjacency found _ betweenness
              (fold_left (fun m x => JsMap.set m x 0%Q) (Worker1.g_nodes graph) []) St Pa Sub
              (keysOn_init (fun _ => 0%Q) (Worker1.g_nodes graph)) C) as [b' [d' [Eu K]]].
  rewrite Eu. cbn [bind]. exists b'. split; [reflexivity | assumption].
Qed.

Lemma edgeBetweenness_ok : forall graph adjacency betweenness0,
  undirectedOver (Worker1.g_nodes graph) adjacency ->
  (forall u v, adjacent adjacency u v -> In (Worker1.edgeKey u v) (JsMap.keys betweenness0)) ->
  exists betweenness,
    Worker1.edgeBetweenness graph adjacency betweenness0 = Normal betweenness
    /\ JsMap.keys betweenness = JsMap.keys betweenness0.
Proof.
  intros graph adjacency betweenness0 Un C. unfold Worker1.edgeBetweenness.
  assert (A : forall l b,
            incl l (Worker1.g_nodes graph) ->
            JsMap.keys b = JsMap.keys betweenness0 ->
            exists b', foldM (Worker1.accumulateFrom graph adjacency) l b = Normal b'
                       /\ JsMap.keys b' = JsMap.keys betweenness0).
  { induction l as [|n l IH]; intros b Sub K.
    - exists b. split; [reflexivity | assumption].
    - destruct (accumulateFrom_ok graph adjacency b n Un (Sub n (or_introl eq_refl)))
        as [b1 [E1 K1]].
      { intros u v Ad. rewrite K. apply C. assumption. }
      destruct (IH b1 (fun x I => Sub x (or_intror I))) as [b2 [E2 K2]]; [congruence|].
      exists b2. cbn [foldM]. rewrite E1. cbn [bind]. split; assumption. }
  apply A; [intros x I; exact I | reflexivity].
Qed.

(** The same round started from any table of credits: the keys it
    adds are keys of pairs of nodes. *)
Lemma credit_any : forall (U : list string) s w betweenness delta v,
  searchState U s -> In w U -> In v U -> keysOn U delta ->
  (forall k, In k (JsMap.keys betweenness) -> nodePairKey U k) ->
  exists betweenness' delta',
    Worker1.credit s w (betweenness, delta) v = Normal (betweenness', delta')
    /\ (forall k, In k (JsMap.keys betweenness') -> nodePairKey U k)
    /\ keysOn U delta'.
Proof.
  intros U s w betweenness delta v [_ [Ks _]] Hw Hv Kd Kb.
  destruct (keysOn_get U _ v Ks Hv) as [sv Gsv].
  destruct (keysOn_get U _ w Ks Hw) as [sw Gsw].
  destruct (keysOn_get U _ w Kd Hw) as [dW GdW].
  destruct (keysOn_get U _ v Kd Hv) as [dV GdV].
  unfold Worker1.credit. rewrite Gsv, Gsw, GdW, GdV. cbn [defined bind].
  eexists. eexists. split; [reflexivity|]. split.
  - intros k I. rewrite map_keys_set in I.
    destruct (JsMap.has betweenness (Worker1.edgeKey v w)); [apply Kb; assumption|].
    apply in_app_or in I. destruct I as [I|[<-|[]]]; [apply Kb; assumption|].
    exists v, w. auto.
  - apply keysOn_set. assumption.
Qed.

Lemma credits_any : forall (U : list string) s w pw betweenness delta,
  searchState U s -> In w U -> keysOn U delta -> incl pw U ->
  (forall k, In k (JsMap.keys betweenness) -> nodePairKey U k) ->
  exists betweenness' delta',
    foldM (Worker1.credit s w) pw (betweenness, delta) = Normal (betweenness', delta')
    /\ (forall k, In k (JsMap.keys betweenness') -> nodePairKey U k)
    /\ keysOn U delta'.
Proof.
  intros U s w pw. induction pw as [|v pw IH]; intros betweenness delta St Hw Kd Sub Kb.
  - exists betweenness, delta. repeat split; auto.
  - destruct (credit_any U s w betweenness delta v St Hw (Sub v (or_introl eq_refl)) Kd Kb)
      as [b1 [d1 [E1 [K1 Kd1]]]].
    destruct (IH b1 d1 St Hw Kd1 (fun x I => Sub x (or_intror I)) K1)
      as [b2 [d2 [E2 [K2 Kd2]]]].
    exists b2, d2. cbn [foldM]. rewrite E1. cbn [bind]. rewrite E2.
    split; [reflexivity|]. split; assumption.
Qed.

Lemma unwind_any : forall (U : list string) s stack betweenness delta,
  searchState U s -> incl stack U -> keysOn U delta ->
  (forall k, In k (JsMap.keys betweenness) -> nodePairKey U k) ->
  exists betweenness' delta',
    foldM (fun st w =>
             pw <- defined (JsMap.get (Worker1.bs_P s) w) ;;
             foldM (Worker1.credit s w) pw st)
          stack (betweenness, delta) = Normal (betweenness', delta')
    /\ (forall k, In k (JsMap.keys betweenness') -> nodePairKey U k).
Proof.
  intros U s stack. induction stack as [|w stack IH]; intros betweenness delta St Sub Kd Kb.
  - exists betweenness, delta. split; [reflexivity | assumption].
  - assert (Hw : In w U) by (apply Sub; left; reflexivity).
    assert (St' := St). destruct St' as [_ [_ [Kp [_ [HP _]]]]].
    destruct (keysOn_get U _ w Kp Hw) as [pw Gpw].
    destruct (credits_any U s w pw betweenness delta St Hw Kd (HP w pw Gpw) Kb)
      as [b1 [d1 [E1 [K1 Kd1]]]].
    destruct (IH b1 d1 St (fun x I => Sub x (or_intror I)) Kd1 K1) as [b2 [d2 [E2 K2]]].
    exists b2, d2. cbn [foldM]. rewrite Gpw. cbn [defined bind]. rewrite E1. cbn [bind].
    split; assumption.
Qed.

Lemma edgeBetweenness_any : forall graph adjacency betweenness0,
  undirectedOver (Worker1.g_nodes graph) adjacency ->
  (forall k, In k (JsMap.keys betweenness0) -> nodePairKey (Worker1.g_nodes graph) k) ->
  exists betweenness,
    Worker1.edgeBetweenness graph adjacency betweenness0 = Normal betweenness
    /\ (forall k, In k (JsMap.keys betweenness) -> nodePairKey (Worker1.g_nodes graph) k).
Proof.
  intros graph adjacency betweenness0 Un K0. unfold Worker1.edgeBetweenness.
  assert (A : forall l b,
            incl l (Worker1.g_nodes graph) ->
            (forall k, In k (JsMap.keys b) -> nodePairKey (Worker1.g_nodes graph) k) ->
            exists b', foldM (Worker1.accumulateFrom graph adjacency) l b = Normal b'
                       /\ (forall k, In k (JsMap.keys b') ->
                             nodePairKey (Worker1.g_nodes graph) k)).
  { induction l as [|n l IH]; intros b Sub K.
    - exists b. split; [reflexivity | assumption].
    - destruct (search_from (Worker1.g_nodes graph) adjacency n Un (Sub n (or_introl eq_refl)))
        as [found [E [St [_ SubS]]]].
      destruct (unwind_any (Worker1.g_nodes graph) found _ b
                  (fold_left (fun m x => JsMap.set m x 0%Q) (Worker1.g_nodes graph) [])
                  St SubS (keysOn_init (fun _ => 0%Q) (Worker1.g_nodes graph)) K)
        as [b1 [d1 [Eu K1]]].
      destruct (IH b1 (fun x I => Sub x (or_intror I)) K1) as [b2 [E2 K2]].
      exists b2. cbn [foldM]. unfold Worker1.accumulateFrom at 1. cbv zeta.
      rewrite E. cbn [bind]. unfold Worker1.unwind. rewrite Eu. cbn [bind].
      split; assumption. }
  apply A; [intros x I; exact I | assumption].
Qed.

(** ** The edge removed *)

Lemma scanMax_key : forall (entries : JsMap.t string Q) (st : Q * string),
  snd (fold_left Worker1.scanMax entries st) = snd st
  \/ In (snd (fold_left Worker1.scanMax entries st)) (JsMap.keys entries).
Proof.
  induction entries as [|[k v] entries IH]; intros st; cbn [fold_left]; [left; reflexivity|].
  destruct (IH (Worker1.scanMax st (k, v))) as [E|I].
  - rewrite E. unfold Worker1.scanMax. cbn [fst snd].
    destruct (Worker1.gtQ v (fst st)); cbn [snd]; [right; left; reflexivity | left; reflexivity].
  - right. right. assumption.
Qed.

Lemma removeFromAdjacency_ok : forall (U : list string) adjacency a b,
  undirectedOver U adjacency -> In a U -> In b U -> barFree a -> barFree b ->
  exists adjacency',
    Worker1.removeFromAdjacency adjacency (Worker1.edgeKey a b) = Normal adjacency'
    /\ forall x y, adjacent adjacency' x y
                   <-> adjacent adjacency x y /\ ~ (x = a /\ y = b) /\ ~ (x = b /\ y = a).
Proof.
  intros U adjacency a b [D _] Ha Hb Ba Bb.
  assert (R : forall u v, In u U -> In v U ->
            exists adjacency',
              (tempAdj1 <- Worker1.disconnect adjacency u v ;;
               Worker1.disconnect tempAdj1 v u) = Normal adjacency'
              /\ forall x y, adjacent adjacency' x y
                             <-> adjacent adjacency x y /\ ~ (x = u /\ y = v)
                                 /\ ~ (x = v /\ y = u)).
  { intros u v Hu Hv. destruct (D u Hu) as [su Gu].
    assert (E1 : Worker1.disconnect adjacency u v
                 = Normal (JsMap.set adjacency u (JsSet.delete su v))).
    { unfold Worker1.disconnect. rewrite Gu. reflexivity. }
    destruct (disconnect_spec _ _ _ _ E1) as [K1 A1].
    destruct (D v Hv) as [sv Gv].
    destruct (JsMap.get (JsMap.set adjacency u (JsSet.delete su v)) v) as [sv'|] eqn:Gv'.
    - assert (E2 : Worker1.disconnect (JsMap.set adjacency u (JsSet.delete su v)) v u
                   = Normal (JsMap.set (JsMap.set adjacency u (JsSet.delete su v)) v
                                       (JsSet.delete sv' u))).
      { unfold Worker1.disconnect. rewrite Gv'. reflexivity. }
      destruct (disconnect_spec _ _ _ _ E2) as [K2 A2].
      eexists. rewrite E1. cbn [bind]. split; [exact E2|].
      intros x y. rewrite A2, A1. tauto.
    - apply K1 in Gv'. congruence. }
  unfold Worker1.removeFromAdjacency, Worker1.edgeKey.
  destruct (String.ltb a b).
  - rewrite split_bar_pairKey by assumption. apply R; assumption.
  - rewrite split_bar_pairKey by assumption.
    destruct (R b a Hb Ha) as [adjacency' [E A]]. exists adjacency'. split; [exact E|].
    intros x y. rewrite A. tauto.
Qed.

Lemma delete_smaller : forall (s : JsSet.t string) e,
  In e s -> JsSet.size (JsSet.delete s e) < JsSet.size s.
Proof.
  intros s e I. unfold JsSet.size, JsSet.delete. induction s as [|x s IH]; [destruct I|].
  cbn [filter]. destruct (string_dec e x) as [->|Ne].
  - rewrite eqb_key_refl. cbn [negb length].
    assert (L := filter_length_le (fun y => negb (eqb_key x y)) s). lia.
  - destruct I as [->|I]; [congruence|]. specialize (IH I).
    destruct (negb (eqb_key e x)); cbn [length]; lia.
Qed.

(** ** The loop *)

Lemma divide_ok : forall graph target,
  NoDup (Worker1.g_nodes graph) ->
  (forall x, In x (Worker1.g_nodes graph) -> barFree x) ->
  forall fuel numComponents st,
    dividing (Worker1.g_nodes graph) st ->
    JsSet.size (Worker1.currentEdges st) <= fuel ->
    exists st', Worker1.divide fuel graph target numComponents st = Normal st'.
Proof.
  intros graph target N Bar. induction fuel as [|fuel IH]; intros numComponents st Dv Sz.
  - cbn [Worker1.divide].
    assert (Z : (0 <? JsSet.size (Worker1.currentEdges st)) = false)
      by (apply Nat.ltb_ge; lia).
    rewrite Z, andb_false_r. eauto.
  - cbn [Worker1.divide].
    destruct ((numComponents <? target) && (0 <? JsSet.size (Worker1.currentEdges st)));
      [|eauto].
    destruct Dv as [Un [Keys Adj]].
    destruct (init_keys (fun _ => 0%Q) (Worker1.currentEdges st)) as [_ [Ki _]].
    destruct (edgeBetweenness_ok graph (Worker1.tempAdj st)
                (fold_left (fun m e => JsMap.set m e 0%Q) (Worker1.currentEdges st) []) Un)
      as [betweenness [Eb Kb]].
    { intros u v A. apply Ki. apply Adj. assumption. }
    rewrite Eb. cbn [bind].
    destruct (String.eqb_spec (Worker1.edgeToRemove betweenness) "") as [_|Ne]; [eauto|].
    assert (In_e : In (Worker1.edgeToRemove betweenness) (Worker1.currentEdges st)).
    { apply Ki. rewrite <- Kb. unfold Worker1.edgeToRemove in *.
      destruct (scanMax_key betweenness ((-1)%Q, "")) as [E|I]; [|assumption].
      cbn [snd] in E. congruence. }
    destruct (Keys _ In_e) as [a [b [Ha [Hb Ee]]]].
    destruct (removeFromAdjacency_ok _ _ a b Un Ha Hb (Bar a Ha) (Bar b Hb))
      as [adjacency' [Er A']].
    rewrite Ee. rewrite Er. cbn [bind].
    destruct (removeFromAdjacency_keeps _ _ _ _ Er Un) as [Un' _].
    assert (Un'' := Un'). destruct Un'' as [D' [M' S']].
    destruct (getComponents_ok graph adjacency' N D' M' S') as [components [Ec _]].
    rewrite Ec. cbn [bind]. apply IH.
    + split; [exact Un'|]. cbn [Worker1.currentEdges Worker1.tempAdj]. split.
      * intros e I. apply set_delete_In in I. apply Keys. apply I.
      * intros u v A. apply A' in A. destruct A as [A [N1 N2]].
        apply set_delete_In. split; [apply Adj; assumption|].
        intros E.
        assert (Hv : In v (Worker1.g_nodes graph)).
        { destruct Un as [_ [M _]]. apply (M u v). assumption. }
        assert (Hu : In u (Worker1.g_nodes graph)).
        { destruct Un as [_ [M S]]. apply (M v u). apply S. assumption. }
        destruct (edgeKey_ends u v a b (Bar u Hu) (Bar v Hv) (Bar a Ha) (Bar b Hb) E); tauto.
    + cbn [Worker1.currentEdges].
      assert (L := delete_smaller (Worker1.currentEdges st) (Worker1.edgeKey a b)).
      rewrite <- Ee in L. specialize (L In_e). rewrite <- Ee. lia.
Qed.

Lemma divide_ok_second : forall graph target,
  NoDup (Worker1.g_nodes graph) ->
  (forall x, In x (Worker1.g_nodes graph) -> barFree x) ->
  forall fuel numComponents st,
    undirectedOver (Worker1.g_nodes graph) (Worker2.tempAdj st) ->
    Worker2.m st <= fuel ->
    exists st', Worker2.divide fuel graph target numComponents st = Normal st'.
Proof.
  intros graph target N Bar. induction fuel as [|fuel IH]; intros numComponents st Un Sz.
  - cbn [Worker2.divide].
    assert (Z : (0 <? Worker2.m st) = false) by (apply Nat.ltb_ge; lia).
    rewrite Z, andb_false_r. eauto.
  - cbn [Worker2.divide].
    destruct (Nat.ltb_spec 0 (Worker2.m st)) as [Pm|_]; [|rewrite andb_false_r; eauto].
    destruct (numComponents <? target); cbn [andb]; [|eauto].
    destruct (edgeBetweenness_any graph (Worker2.tempAdj st) [] Un) as [betweenness [Eb Kb]].
    { intros k []. }
    rewrite Eb. cbn [bind].
    destruct (String.eqb_spec (Worker1.edgeToRemove betweenness) "") as [_|Ne]; [eauto|].
    assert (In_e : nodePairKey (Worker1.g_nodes graph) (Worker1.edgeToRemove betweenness)).
    { apply Kb. unfold Worker1.edgeToRemove in *.
      destruct (scanMax_key betweenness ((-1)%Q, "")) as [E|I]; [|assumption].
      cbn [snd] in E. congruence. }
    destruct In_e as [a [b [Ha [Hb Ee]]]].
    destruct (removeFromAdjacency_ok _ _ a b Un Ha Hb (Bar a Ha) (Bar b Hb))
      as [adjacency' [Er _]].
    rewrite Ee. rewrite Er. cbn [bind].
    destruct (removeFromAdjacency_keeps _ _ _ _ Er Un) as [Un' _].
    assert (Un'' := Un'). destruct Un'' as [D' [M' S']].
    destruct (getComponents_ok graph adjacency' N D' M' S') as [components [Ec _]].
    rewrite Ec. cbn [bind]. apply IH; cbn [Worker2.tempAdj Worker2.m]; [assumption | lia].
Qed.

(** X30.  For graph data whose links join nodes of the graph and whose
    node identifiers contain no vertical bar, Girvan-Newman returns, in
    both worker variants: every search and every round of its main loop
    ends, no lookup fails, and the result is the partition of the nodes
    into the components of the links that are left. *)
Theorem girvan_newman_returns : forall graphData params,
  linksWellFormed graphData ->
  (forall x, In x (map id (nodes graphData)) -> barFree x) ->
  (exists st result,
     Worker1.girvanNewmanFinal (Worker1.newGraph graphData) params = Normal st
     /\ Worker1.runGirvanNewman (Worker1.newGraph graphData) params = Normal result
     /\ dividedBy graphData (Worker1.tempAdj st) result)
  /\ (exists st result,
        Worker2.girvanNewmanFinal (Worker2.newGraph graphData) params = Normal st
        /\ Worker2.runGirvanNewman (Worker2.newGraph graphData) params = Normal result
        /\ dividedBy graphData (Worker2.tempAdj st) result).
Proof.
  intros graphData params W Bar.
  destruct (initialAdjacency_ok graphData W)
    as [[adjacency [E0 [D0 A0]]] [adjacency2 [E2 [D2 A2]]]].
  split.
  - set (graph := Worker1.newGraph graphData) in *.
    assert (Gn : Worker1.g_nodes graph = JsSet.of_list (map id (nodes graphData)))
      by reflexivity.
    assert (N : NoDup (Worker1.g_nodes graph)) by (rewrite Gn; apply set_of_list_NoDup).
    assert (Bar' : forall x, In x (Worker1.g_nodes graph) -> barFree x).
    { intros x I. apply Bar. rewrite Gn in I. apply (proj1 (set_of_list_In _ _) I). }
    assert (Un : undirectedOver (Worker1.g_nodes graph) adjacency).
    { split; [exact D0|]. split.
      - intros u v H. apply A0 in H. apply (linked_inside graphData u v W H).
      - intros u v H. apply A0. apply linked_sym. apply A0. assumption. }
    assert (Un' := Un). destruct Un' as [_ [M0 S0]].
    destruct (getComponents_ok graph adjacency N D0 M0 S0) as [components0 [Ec0 _]].
    assert (Dv : dividing (Worker1.g_nodes graph)
                   (Worker1.mkDivisive (Worker1.initialEdges graph) adjacency)).
    { split; [exact Un|]. cbn [Worker1.currentEdges Worker1.tempAdj]. split.
      - intros e I. unfold Worker1.initialEdges in I. apply (proj1 (set_of_list_In _ _)) in I.
        apply in_map_iff in I. destruct I as [l [<- Hl]].
        destruct (W l Hl) as [Hs Ht].
        exists (source l), (target l). rewrite Gn.
        split; [apply set_of_list_In; assumption|].
        split; [apply set_of_list_In; assumption | reflexivity].
      - intros u v A. apply A0 in A. destruct A as [l [Hl J]].
        unfold Worker1.initialEdges. apply set_of_list_In. apply in_map_iff.
        exists l. split; [|exact Hl].
        destruct J as [[-> ->]|[-> ->]]; [reflexivity | apply edgeKey_swap]. }
    destruct (divide_ok graph (Worker1.targetCommunities params) N Bar'
                (JsSet.size (Worker1.initialEdges graph)) (length components0) _ Dv (le_n _))
      as [st Ed].
    assert (F : Worker1.girvanNewmanFinal graph params = Normal st).
    { unfold Worker1.girvanNewmanFinal. rewrite E0. cbn [bind]. rewrite Ec0. cbn [bind].
      exact Ed. }
    destruct (divide_keeps (Worker1.g_nodes graph) _ _ _ _ _ _ Ed Un) as [U Sub].
    destruct (components_divide graphData graph (Worker1.tempAdj st) Gn U)
      as [components [Ec Dd]].
    { intros u v H. apply A0. apply Sub. assumption. }
    exists st, (Worker1.assignComponents components). split; [exact F|]. split; [|exact Dd].
    unfold Worker1.runGirvanNewman. rewrite F. cbn [bind]. rewrite Ec. reflexivity.
  - set (graph := Worker2.newGraph graphData) in *.
    assert (Gn : Worker1.g_nodes graph = JsSet.of_list (map id (nodes graphData))).
    { unfold graph, Worker2.newGraph. destruct (fold_left _ _ _) as [[a d] m]. reflexivity. }
    assert (N : NoDup (Worker1.g_nodes graph)) by (rewrite Gn; apply set_of_list_NoDup).
    assert (Bar' : forall x, In x (Worker1.g_nodes graph) -> barFree x).
    { intros x I. apply Bar. rewrite Gn in I. apply (proj1 (set_of_list_In _ _) I). }
    assert (Un : undirectedOver (Worker1.g_nodes graph) adjacency2).
    { split; [exact D2|]. split.
      - intros u v H. apply A2 in H. rewrite Gn. apply (linked_inside graphData u v W H).
      - intros u v H. apply A2. apply linked_sym. apply A2. assumption. }
    assert (Un' := Un). destruct Un' as [_ [M0 S0]].
    destruct (getComponents_ok graph adjacency2 N D2 M0 S0) as [components0 [Ec0 _]].
    destruct (divide_ok_second graph (Worker1.targetCommunities params) N Bar'
                (Worker1.g_m graph) (length components0)
                (Worker2.mkDivisive (Worker1.g_m graph) adjacency2) Un (le_n _))
      as [st Ed].
    assert (F : Worker2.girvanNewmanFinal graph params = Normal st).
    { unfold Worker2.girvanNewmanFinal. rewrite E2. cbn [bind]. rewrite Ec0. cbn [bind].
      exact Ed. }
    destruct (divide_keeps_second (Worker1.g_nodes graph) _ _ _ _ _ _ Ed Un) as [U Sub].
    destruct (components_divide graphData graph (Worker2.tempAdj st) Gn U)
      as [components [Ec Dd]].
    { intros u v H. apply A2. apply Sub. assumption. }
    exists st, (Worker1.assignComponents components). split; [exact F|]. split; [|exact Dd].
    unfold Worker2.runGirvanNewman. rewrite F. cbn [bind]. rewrite Ec. reflexivity.
Qed.

Lemma girvan_newman_returns_witness :
  (exists st result,
     Worker1.girvanNewmanFinal (Worker1.newGraph path4) (Worker1.mkGirvanNewmanParams 3)
     = Normal st
     /\ Worker1.runGirvanNewman (Worker1.newGraph path4) (Worker1.mkGirvanNewmanParams 3)
        = Normal result
     /\ dividedBy path4 (Worker1.tempAdj st) result)
  /\ (exists st result,
        Worker2.girvanNewmanFinal (Worker2.newGraph path4) (Worker1.mkGirvanNewmanParams 3)
        = Normal st
        /\ Worker2.runGirvanNewman (Worker2.newGraph path4) (Worker1.mkGirvanNewmanParams 3)
           = Normal result
        /\ dividedBy path4 (Worker2.tempAdj st) result).
Proof.
  apply (girvan_newman_returns path4 (Worker1.mkGirvanNewmanParams 3)).
  - intros l I. vm_compute in I. destruct I as [<-|[<-|[<-|[]]]]; vm_compute; tauto.
  - intros x I. vm_compute in I. destruct I as [<-|[<-|[<-|[<-|[]]]]];
      unfold barFree; simpl; intuition discriminate.
Defined.
